(** * vscode-vyper: the built-in formatter and the compiler-error parser

    A shallow embedding of [formatBuiltin] (src/features/formatter.js, and
    its earlier whitespace-only version) and of [parseErrorMessage] /
    [extractLineNumber] (src/features/compile.js), together with the
    properties stated about them.

    JavaScript strings are sequences of UTF-16 code units; a code unit is
    modelled as an [N].  The regular expressions of the source are terms
    of a small regex syntax interpreted by a backtracking matcher that
    follows the ECMAScript matching order (alternatives left to right,
    greedy and lazy repetition, an iteration that consumes nothing is
    rejected). *)

From Stdlib Require Import String Ascii Bool NArith Arith Lia DecimalNat List.
From Stdlib Require DecimalPos DecimalN.
Import ListNotations.

Set Implicit Arguments.

(** ** Strings *)

Abbreviation char := N (only parsing).
Abbreviation jsstring := (list N) (only parsing).

(** An ASCII literal as a JavaScript string. *)
Definition str (s : string) : jsstring :=
  map N_of_ascii (list_ascii_of_string s).

Definition TAB : char := 9%N.
Definition LF : char := 10%N.
Definition CR : char := 13%N.
Definition SP : char := 32%N.

Definition in_range (lo hi c : char) : bool := (lo <=? c)%N && (c <=? hi)%N.
Arguments in_range (lo hi c)%_N.

(** [\d] *)
Definition isDigit (c : char) : bool := in_range 48 57 c.

(** [\w] is [A-Za-z0-9_] *)
Definition isWord (c : char) : bool :=
  in_range 65 90 c || in_range 97 122 c || isDigit c || (c =? 95)%N.

(** LineTerminator: LF, CR, U+2028, U+2029 *)
Definition isLineTerminator (c : char) : bool :=
  (c =? 10)%N || (c =? 13)%N || (c =? 8232)%N || (c =? 8233)%N.

(** [\s], which is also the set removed by [trim] and [trimEnd]:
    WhiteSpace and LineTerminator. *)
Definition isSpace (c : char) : bool :=
  in_range 9 13 c || (c =? 32)%N || (c =? 160)%N || (c =? 5760)%N
  || in_range 8192 8202 c || (c =? 8232)%N || (c =? 8233)%N
  || (c =? 8239)%N || (c =? 8287)%N || (c =? 12288)%N || (c =? 65279)%N.

Definition oneOf (a : string) (c : char) : bool :=
  existsb (N.eqb c) (str a).

Definition noneOf (a : string) (c : char) : bool := negb (oneOf a c).

(** ** Regular expressions *)

Inductive regex : Type :=
| Eps
| Cls (p : char -> bool)
| Seq (r1 r2 : regex)
| Alt (r1 r2 : regex)
| Star (r : regex)
| LazyStar (r : regex)
| Group (r : regex)
| LookBehind (p : char -> bool)
| WordB
| Eol.

Definition Plus (r : regex) : regex := Seq r (Star r).
Definition Opt (r : regex) : regex := Alt r Eps.

Fixpoint Lit (s : jsstring) : regex :=
  match s with
  | [] => Eps
  | [c] => Cls (N.eqb c)
  | c :: s' => Seq (Cls (N.eqb c)) (Lit s')
  end.

Fixpoint Alts (rs : list regex) : regex :=
  match rs with
  | [] => Cls (fun _ => false)
  | [r] => r
  | r :: rs' => Alt r (Alts rs')
  end.

Fixpoint Seqs (rs : list regex) : regex :=
  match rs with
  | [] => Eps
  | [r] => r
  | r :: rs' => Seq r (Seqs rs')
  end.

(** The matcher state: the text before the current position (nearest
    character first), the text after it, and capture group 1. *)
Record mstate : Type := MState {
  before : jsstring;
  after : jsstring;
  cap : option jsstring
}.

Definition cont := mstate -> option mstate.

Definition orElse (a : option mstate) (b : option mstate) : option mstate :=
  match a with
  | Some x => Some x
  | None => b
  end.

Definition progressed (s s' : mstate) : bool :=
  length (after s') <? length (after s).

(** Greedy [r*]: try one more iteration, which must consume input, and only
    then the rest of the pattern.  [n] bounds the number of iterations by
    the length of the remaining input. *)
Fixpoint starG (body : cont -> cont) (k : cont) (n : nat) (s : mstate)
  : option mstate :=
  match n with
  | O => k s
  | S n' =>
      orElse (body (fun s' => if progressed s s' then starG body k n' s'
                              else None) s)
             (k s)
  end.

(** Lazy [r*?]: the rest of the pattern first. *)
Fixpoint starL (body : cont -> cont) (k : cont) (n : nat) (s : mstate)
  : option mstate :=
  match n with
  | O => k s
  | S n' =>
      orElse (k s)
             (body (fun s' => if progressed s s' then starL body k n' s'
                              else None) s)
  end.

Definition headIs (p : char -> bool) (l : jsstring) : bool :=
  match l with
  | c :: _ => p c
  | [] => false
  end.

Definition consumed (s s' : mstate) : jsstring :=
  firstn (length (after s) - length (after s')) (after s).

Fixpoint m (r : regex) (k : cont) (s : mstate) {struct r} : option mstate :=
  match r with
  | Eps => k s
  | Cls p =>
      match after s with
      | c :: rest =>
          if p c then k (MState (c :: before s) rest (cap s)) else None
      | [] => None
      end
  | Seq r1 r2 => m r1 (m r2 k) s
  | Alt r1 r2 => orElse (m r1 k s) (m r2 k s)
  | Star r1 => starG (m r1) k (length (after s)) s
  | LazyStar r1 => starL (m r1) k (length (after s)) s
  | Group r1 =>
      m r1 (fun s' => k (MState (before s') (after s')
                                (Some (consumed s s')))) s
  | LookBehind p => if headIs p (before s) then k s else None
  | WordB =>
      if xorb (headIs isWord (before s)) (headIs isWord (after s))
      then k s else None
  | Eol =>
      match after s with
      | [] => k s
      | c :: _ => if isLineTerminator c then k s else None
      end
  end.

(** One attempt at the current position. *)
Definition matchAt (r : regex) (bef aft : jsstring) : option mstate :=
  m r Some (MState bef aft None).

(** [RegExp.prototype.exec] from the start of the text (no sticky flag):
    the first position at which the pattern matches.  Returns the matched
    text and capture group 1. *)
Fixpoint execFrom (r : regex) (bef aft : jsstring)
  : option (jsstring * option jsstring) :=
  match matchAt r bef aft with
  | Some s' => Some (firstn (length aft - length (after s')) aft, cap s')
  | None =>
      match aft with
      | [] => None
      | c :: rest => execFrom r (c :: bef) rest
      end
  end.

Definition exec (r : regex) (text : jsstring) := execFrom r [] text.

(** [String.prototype.replace] with a global pattern and a replacement
    function [f] that receives the match, capture group 1 and threads a
    value of type [A] (the closure state of the callback).  After an empty
    match the search resumes one character further. *)
Section Replace.
Variable A : Type.
Variable r : regex.
Variable f : jsstring -> option jsstring -> A -> jsstring * A.

Fixpoint replaceFrom (bef aft : jsstring) (skip : nat) (acc : A)
  {struct aft} : jsstring * A :=
  match skip with
  | S n =>
      match aft with
      | [] => ([], acc)
      | c :: rest => replaceFrom (c :: bef) rest n acc
      end
  | O =>
      match matchAt r bef aft with
      | Some s' =>
          let len := length aft - length (after s') in
          let (rep, acc') := f (firstn len aft) (cap s') acc in
          match aft with
          | [] => (rep, acc')
          | c :: rest =>
              match len with
              | O =>
                  let (out, acc'') := replaceFrom (c :: bef) rest 0 acc' in
                  (rep ++ c :: out, acc'')
              | S n =>
                  let (out, acc'') := replaceFrom (c :: bef) rest n acc' in
                  (rep ++ out, acc'')
              end
          end
      | None =>
          match aft with
          | [] => ([], acc)
          | c :: rest =>
              let (out, acc') := replaceFrom (c :: bef) rest 0 acc in
              (c :: out, acc')
          end
      end
  end.

Definition replaceWith (text : jsstring) (acc : A) : jsstring * A :=
  replaceFrom [] text 0 acc.
End Replace.

(** [text.replace(r, rep)] where [rep] is built from the match and group 1
    and needs no state. *)
Definition replaceAll (r : regex) (rep : jsstring -> option jsstring -> jsstring)
  (text : jsstring) : jsstring :=
  fst (replaceWith r (fun mt c (_ : unit) => (rep mt c, tt)) text tt).

(** The replacement string [' $1 ']. *)
Definition padGroup1 (_ : jsstring) (c : option jsstring) : jsstring :=
  [SP] ++ match c with Some g => g | None => [] end ++ [SP].

(** [String.prototype.split] with a pattern that is not global-sensitive:
    the text is cut at every non-overlapping match found left to right; a
    match that is empty where the previous piece ended is skipped.  [cur]
    is the piece being collected, in reverse. *)
Section Split.
Variable r : regex.

Fixpoint splitFrom (bef aft cur : jsstring) (skip : nat) {struct aft}
  : list jsstring :=
  match aft with
  | [] => [rev cur]
  | c :: rest =>
      match skip with
      | S n => splitFrom (c :: bef) rest cur n
      | O =>
          match matchAt r bef aft with
          | Some s' =>
              match length aft - length (after s') with
              | O => splitFrom (c :: bef) rest (c :: cur) 0
              | S n => rev cur :: splitFrom (c :: bef) rest [] n
              end
          | None => splitFrom (c :: bef) rest (c :: cur) 0
          end
      end
  end.

Definition split (text : jsstring) : list jsstring :=
  splitFrom [] text [] 0.
End Split.

(** [Array.prototype.join] *)
Fixpoint join (sep : jsstring) (ls : list jsstring) : jsstring :=
  match ls with
  | [] => []
  | [l] => l
  | l :: ls' => l ++ sep ++ join sep ls'
  end.

Fixpoint dropWhile (p : char -> bool) (l : jsstring) : jsstring :=
  match l with
  | [] => []
  | c :: l' => if p c then dropWhile p l' else l
  end.

(** [String.prototype.trimEnd] and [trim] *)
Definition trimEnd (l : jsstring) : jsstring :=
  rev (dropWhile isSpace (rev l)).

Definition trim (l : jsstring) : jsstring :=
  dropWhile isSpace (trimEnd l).

Definition isEmpty (l : jsstring) : bool :=
  match l with
  | [] => true
  | _ => false
  end.

(** Decimal digits of a non-negative integer, as in a template literal. *)
Fixpoint uintChars (d : Decimal.uint) : jsstring :=
  match d with
  | Decimal.Nil => []
  | Decimal.D0 d' => 48%N :: uintChars d'
  | Decimal.D1 d' => 49%N :: uintChars d'
  | Decimal.D2 d' => 50%N :: uintChars d'
  | Decimal.D3 d' => 51%N :: uintChars d'
  | Decimal.D4 d' => 52%N :: uintChars d'
  | Decimal.D5 d' => 53%N :: uintChars d'
  | Decimal.D6 d' => 54%N :: uintChars d'
  | Decimal.D7 d' => 55%N :: uintChars d'
  | Decimal.D8 d' => 56%N :: uintChars d'
  | Decimal.D9 d' => 57%N :: uintChars d'
  end.

Definition decimal (n : nat) : jsstring := uintChars (Nat.to_uint n).

(** The integer that a string of decimal digits denotes. *)
Definition digitsValue (digits : jsstring) : N :=
  fold_left (fun acc c => (acc * 10 + (c - 48))%N) digits 0%N.

(** The Numbers that [parseInt] returns: a non-negative integer that a
    double represents, [Infinity], or [NaN]. *)
Inductive number : Type :=
| Int (n : N)
| Infinity
| NaN.

(** The Number for an integer: the integer itself below 2^53, otherwise
    the nearest integer with a significand of 53 bits, the even significand
    when two are equally near, and [Infinity] when that is 2^1024 or
    more. *)
Definition toNumber (n : N) : number :=
  if (n <? 2 ^ 53)%N then Int n
  else
    let shift := (N.log2 n - 52)%N in
    let q := N.shiftr n shift in
    let r := (n - N.shiftl q shift)%N in
    let half := N.shiftl 1 (shift - 1) in
    let q' := if (half <? r)%N || ((r =? half)%N && N.odd q)
              then (q + 1)%N else q in
    let v := N.shiftl q' shift in
    if (v <? 2 ^ 1024)%N then Int v else Infinity.

(** [parseInt] on a string of decimal digits (the only strings it is
    applied to here are matches of [\d+]), with the radix 10 or none; the
    digits are all taken into account, as the engine of the editor does
    also when there are more than twenty. *)
Definition parseInt (digits : jsstring) : number :=
  match digits with
  | [] => NaN
  | _ => toNumber (digitsValue digits)
  end.

(** ** The formatter *)

Definition DQ : char := 34%N.
Definition SQ : char := 39%N.
Definition HASH : char := 35%N.
Definition BSL : char := 92%N.

Definition anyChar (_ : char) : bool := true.

(** [.] without the [s] flag *)
Definition dot (c : char) : bool := negb (isLineTerminator c).

Definition tripleQuoted (q : char) : regex :=
  Seqs [Lit [q; q; q]; LazyStar (Cls anyChar); Lit [q; q; q]].

Definition quoted (q : char) : regex :=
  Seqs [Cls (N.eqb q);
        Star (Alt (Cls (fun c => negb (c =? q)%N && negb (c =? BSL)%N))
                  (Seq (Cls (N.eqb BSL)) (Cls dot)));
        Cls (N.eqb q)].

Definition lineComment : regex :=
  Seq (Cls (N.eqb HASH))
      (Star (Cls (fun c => negb ((c =? CR)%N || (c =? LF)%N)))).

(** The string and comment pattern, five alternatives in one group:
    a triple-double-quoted string [QQQ[\s\S]*?QQQ], a triple-single-quoted
    string ['''[\s\S]*?'''], a double-quoted string [Q(?:[^Q\\]|\\.)*Q],
    a single-quoted string ['(?:[^'\\]|\\.)*'] and a comment [#[^\r\n]*]
    (Q stands for the double quote), with the [g] flag. *)
Definition stringCommentPattern : regex :=
  Group (Alts [tripleQuoted DQ; tripleQuoted SQ; quoted DQ; quoted SQ;
               lineComment]).

Definition isHexU (c : char) : bool :=
  isDigit c || in_range 97 102 c || in_range 65 70 c || (c =? 95)%N.

Definition isBinU (c : char) : bool := oneOf "01_" c.
Definition isDigitU (c : char) : bool := isDigit c || (c =? 95)%N.

(** The number pattern [\b(?:HEX|BIN|DEC)\b] with the [g] flag, where HEX is
    [0x[0-9a-fA-F_]+], BIN is [0b[01_]+] and DEC is a digit, [[\d_]*], an
    optional fraction (a dot and [[\d_]*]) and an optional exponent
    ([[eE][+-]?[\d_]+]). *)
Definition numberPattern : regex :=
  Seqs [WordB;
        Alts [Seq (Lit (str "0x")) (Plus (Cls isHexU));
              Seq (Lit (str "0b")) (Plus (Cls isBinU));
              Seqs [Cls isDigit; Star (Cls isDigitU);
                    Opt (Seq (Lit (str ".")) (Star (Cls isDigitU)));
                    Opt (Seqs [Cls (oneOf "eE"); Opt (Cls (oneOf "+-"));
                               Plus (Cls isDigitU)])]];
        WordB].

Definition tabPattern : regex := Cls (N.eqb TAB).

Definition alwaysBinaryOps : list string :=
  ["//"; "->"; "=="; "!="; "<="; ">="; "+="; "-="; "*="; "/="; "%=";
   "="; "/"; "%"; "<"; ">"]%string.

Definition opAlternatives (ops : list string) : regex :=
  Alts (map (fun o => Lit (str o)) ops).

(** [new RegExp(`\\s*(${alwaysBinaryOps.join('|')})\\s*`, 'g')] *)
Definition safeRegex : regex :=
  Seqs [Star (Cls isSpace); Group (opAlternatives alwaysBinaryOps);
        Star (Cls isSpace)].

Definition ambiguousOps : list string := ["**"; "+"; "-"; "*"]%string.

Definition isOperandEnd (c : char) : bool := isWord c || oneOf ")]" c.

(** [new RegExp(`(?<=[\\w)\\]])\\s*(${ambiguousOps.join('|')})\\s*`, 'g')] *)
Definition ambiguousRegex : regex :=
  Seqs [LookBehind isOperandEnd; Star (Cls isSpace);
        Group (opAlternatives ambiguousOps); Star (Cls isSpace)].

(** [/\s*,\s*/g] *)
Definition commaPattern : regex :=
  Seqs [Star (Cls isSpace); Lit (str ","); Star (Cls isSpace)].

(** [/\r?\n/] *)
Definition lineBreak : regex := Seq (Opt (Cls (N.eqb CR))) (Cls (N.eqb LF)).

(** [/__PLACEHOLDER_(\d+)__/g] *)
Definition placeholderPattern : regex :=
  Seqs [Lit (str "__PLACEHOLDER_"); Group (Plus (Cls isDigit));
        Lit (str "__")].

(** The callback [mask]: push the match, return the token naming its
    index ([placeholders.length - 1] after the push). *)
Definition mask (matched : jsstring) (_ : option jsstring)
  (placeholders : list jsstring) : jsstring * list jsstring :=
  (str "__PLACEHOLDER_" ++ decimal (length placeholders) ++ str "__",
   placeholders ++ [matched]).

(** The loop over the lines: a blank line is kept only while fewer than
    three have been seen in a row. *)
Fixpoint collapseBlank (lines : list jsstring) (blankCount : nat)
  (result : list jsstring) : list jsstring :=
  match lines with
  | [] => result
  | line :: rest =>
      if isEmpty (trim line)
      then collapseBlank rest (S blankCount)
             (if S blankCount <=? 2 then result ++ [[]] else result)
      else collapseBlank rest 0 (result ++ [line])
  end.

Fixpoint dropEmpty (l : list jsstring) : list jsstring :=
  match l with
  | [] => []
  | x :: l' => if isEmpty x then dropEmpty l' else l
  end.

(** [while (result.length > 0 && result[result.length - 1] === '') result.pop()] *)
Definition popBlank (result : list jsstring) : list jsstring :=
  rev (dropEmpty (rev result)).

(** Step 4 of [formatBuiltin], on the masked text. *)
Definition lineProcessing (maskedText : jsstring) : jsstring :=
  let lines := split lineBreak maskedText in
  let lines := map trimEnd lines in
  let result := collapseBlank lines 0 [] in
  let result := popBlank result in
  join [LF] result ++ [LF].

(** The callback of the restoring [replace]: [placeholders[parseInt(index)]];
    a missing element is [undefined], which [replace] turns into the text
    "undefined".  The element is taken at the integer that the digits
    denote: [parseInt] rounds that integer from 2^53 on only, and an array
    has fewer than 2^32 elements, so the rounded index and the exact one
    are past the end together. *)
Definition restoreOne (placeholders : list jsstring) (_ : jsstring)
  (index : option jsstring) : jsstring :=
  match index with
  | Some digits =>
      let i := digitsValue digits in
      if (i <? N.of_nat (length placeholders))%N
      then nth (N.to_nat i) placeholders []
      else str "undefined"
  | None => str "undefined"
  end.

Definition restore (placeholders : list jsstring) (maskedText : jsstring)
  : jsstring :=
  replaceAll placeholderPattern (restoreOne placeholders) maskedText.

(** Steps 1 and 2: the two masking passes share the table. *)
Definition maskAll (text : jsstring) : jsstring * list jsstring :=
  let (t1, p1) := replaceWith stringCommentPattern mask text [] in
  replaceWith numberPattern mask t1 p1.

(** Step 3: tabs, then the three spacing rules. *)
Definition normalizeTabs : jsstring -> jsstring :=
  replaceAll tabPattern (fun _ _ => str "    ").
Definition padSafe : jsstring -> jsstring := replaceAll safeRegex padGroup1.
Definition padAmbiguous : jsstring -> jsstring :=
  replaceAll ambiguousRegex padGroup1.
Definition spaceCommas : jsstring -> jsstring :=
  replaceAll commaPattern (fun _ _ => str ", ").

Definition spacing (maskedText : jsstring) : jsstring :=
  spaceCommas (padAmbiguous (padSafe (normalizeTabs maskedText))).

Definition formatBuiltin (text : jsstring) : jsstring :=
  let (maskedText, placeholders) := maskAll text in
  restore placeholders (lineProcessing (spacing maskedText)).

(** *** The earlier, whitespace-only [formatBuiltin] *)

Fixpoint collapseBlankWs (lines : list jsstring) (blankCount : nat)
  (result : list jsstring) : list jsstring :=
  match lines with
  | [] => result
  | line :: rest =>
      if isEmpty line
      then collapseBlankWs rest (S blankCount)
             (if S blankCount <=? 2 then result ++ [line] else result)
      else collapseBlankWs rest 0 (result ++ [line])
  end.

Definition formatWhitespace (text : jsstring) : jsstring :=
  let lines := split lineBreak text in
  let lines := map (fun line => trimEnd (normalizeTabs line)) lines in
  let result := collapseBlankWs lines 0 [] in
  let result := popBlank result in
  join [LF] result ++ [LF].

(** ** The compiler-error parser *)

(** [/(?:line\s+(\d+))/gm] *)
Definition lineSpacesPattern : regex :=
  Seqs [Lit (str "line"); Plus (Cls isSpace); Group (Plus (Cls isDigit))].

(** [/line (\d+)/gm] *)
Definition lineBlankPattern : regex :=
  Seq (Lit (str "line ")) (Group (Plus (Cls isDigit))).

(** [/vyper\.exceptions\.\w+Exception:\s+(?:line\s+(\d+)).*$/gm] *)
Definition vyperPattern : regex :=
  Seqs [Lit (str "vyper.exceptions."); Plus (Cls isWord);
        Lit (str "Exception:"); Plus (Cls isSpace);
        Lit (str "line"); Plus (Cls isSpace); Group (Plus (Cls isDigit));
        Star (Cls dot); Eol].

(** [parseInt(group, 10)] on capture group 1 of a match; a group that
    took no part in the match is [undefined]. *)
Definition groupNumber (c : option jsstring) : number :=
  match c with
  | Some digits => parseInt digits
  | None => NaN
  end.

Definition extractLineNumber (errormsg : jsstring) : number :=
  match exec lineSpacesPattern errormsg with
  | Some (_, c) => groupNumber c
  | None => Int 1
  end.

Definition syntaxErrorLine : jsstring := str "SyntaxError: invalid syntax".

Definition jsstring_eqb (a b : jsstring) : bool :=
  if list_eq_dec N.eq_dec a b then true else false.

(** [shortmsg] is [None] when the JavaScript value is [undefined], which is
    what [lines[0]] would be on an empty array. *)
Record parsed : Type := Parsed {
  shortmsg : option jsstring;
  lineNr : number
}.

Definition parseErrorMessage (errormsg : jsstring) : parsed :=
  let lines := split lineBreak errormsg in
  let shortmsg0 := nth_error lines 0 in
  let lineNr0 := extractLineNumber errormsg in
  if existsb (jsstring_eqb syntaxErrorLine) lines
  then
    Parsed (Some syntaxErrorLine)
           (match exec lineBlankPattern errormsg with
            | Some (_, c) => groupNumber c
            | None => lineNr0
            end)
  else
    match exec vyperPattern errormsg with
    | Some (whole, c) => Parsed (Some whole) (groupNumber c)
    | None => Parsed shortmsg0 lineNr0
    end.

Definition nl (s : string) : jsstring := str s ++ [LF].


(** ** Evaluating the matcher

    Equations that compute [m] on the shapes of pattern the program uses:
    a literal, a greedy run of one character class, an alternation of
    literals. *)

Fixpoint prefixb (w l : jsstring) : bool :=
  match w, l with
  | [], _ => true
  | a :: w', b :: l' => (a =? b)%N && prefixb w' l'
  | _ :: _, [] => false
  end.

Fixpoint takeWhile (p : char -> bool) (l : jsstring) : jsstring :=
  match l with
  | [] => []
  | c :: l' => if p c then c :: takeWhile p l' else []
  end.

Lemma takeWhile_dropWhile (p : char -> bool) (l : jsstring) :
  takeWhile p l ++ dropWhile p l = l.
Proof.
  induction l as [|c l IH]; simpl; [reflexivity|].
  destruct (p c); simpl; [now rewrite IH | reflexivity].
Qed.

Lemma takeWhile_all (p : char -> bool) (l : jsstring) :
  forallb p (takeWhile p l) = true.
Proof.
  induction l as [|c l IH]; simpl; [reflexivity|].
  destruct (p c) eqn:E; simpl; [now rewrite E | reflexivity].
Qed.

Lemma dropWhile_head (p : char -> bool) (l : jsstring) :
  headIs p (dropWhile p l) = false.
Proof.
  induction l as [|c l IH]; simpl; [reflexivity|].
  destruct (p c) eqn:E; simpl; [exact IH | exact E].
Qed.

Lemma prefixb_app (w l : jsstring) : prefixb w (w ++ l) = true.
Proof.
  induction w as [|a w IH]; simpl; [reflexivity|].
  now rewrite N.eqb_refl, IH.
Qed.

Lemma prefixb_spec (w l : jsstring) :
  prefixb w l = true -> l = w ++ skipn (length w) l.
Proof.
  revert l; induction w as [|a w IH]; intros [|b l]; simpl; try easy.
  intros H. apply andb_prop in H as [H1 H2].
  apply N.eqb_eq in H1. subst b. now rewrite <- (IH l H2).
Qed.

Lemma orElse_None_r (a : option mstate) : orElse a None = a.
Proof. now destruct a. Qed.

Lemma m_Lit (w : jsstring) (k : cont) (bef aft : jsstring)
  (c : option jsstring) :
  m (Lit w) k (MState bef aft c) =
  if prefixb w aft
  then k (MState (rev w ++ bef) (skipn (length w) aft) c)
  else None.
Proof.
  revert bef aft; induction w as [|a w IH]; intros bef aft.
  - reflexivity.
  - destruct w as [|a' w'].
    + simpl. destruct aft as [|b aft]; [reflexivity|].
      destruct (a =? b)%N eqn:E; [|reflexivity].
      apply N.eqb_eq in E. now subst b.
    + change (Lit (a :: a' :: w')) with (Seq (Cls (N.eqb a)) (Lit (a' :: w'))).
      cbn [m after before cap].
      destruct aft as [|b aft]; [reflexivity|].
      cbn [prefixb]. destruct (a =? b)%N eqn:E; [|reflexivity].
      apply N.eqb_eq in E. subst b. rewrite IH. cbn [andb].
      change (rev (a :: a' :: w')) with (rev (a' :: w') ++ [a]).
      now rewrite <- app_assoc.
Qed.

(** The outcomes of a greedy run over [w]: the longest split first. *)
Fixpoint starCls (k : cont) (bef w rest : jsstring) (c : option jsstring)
  : option mstate :=
  match w with
  | [] => k (MState bef rest c)
  | x :: w' =>
      orElse (starCls k (x :: bef) w' rest c)
             (k (MState bef (x :: w' ++ rest) c))
  end.

Lemma m_star_cls_run (p : char -> bool) (k : cont) (w rest : jsstring) :
  forallb p w = true -> headIs p rest = false ->
  forall bef c,
    m (Star (Cls p)) k (MState bef (w ++ rest) c) = starCls k bef w rest c.
Proof.
  intros Hw Hrest. induction w as [|x w IH]; intros bef c.
  - cbn [app starCls m after]. destruct rest as [|y rest]; [reflexivity|].
    cbn [length starG m after]. simpl in Hrest. now rewrite Hrest.
  - simpl in Hw. apply andb_prop in Hw as [Hx Hw].
    cbn [app starCls m after length starG before cap]. rewrite Hx.
    unfold progressed at 1. cbn [after length].
    rewrite (proj2 (Nat.ltb_lt _ _)) by lia.
    specialize (IH Hw (x :: bef) c). cbn [m after] in IH.
    now rewrite IH.
Qed.

Lemma m_star_cls (p : char -> bool) (k : cont) (bef aft : jsstring)
  (c : option jsstring) :
  m (Star (Cls p)) k (MState bef aft c) =
  starCls k bef (takeWhile p aft) (dropWhile p aft) c.
Proof.
  rewrite <- (takeWhile_dropWhile p aft) at 1.
  apply m_star_cls_run; [apply takeWhile_all | apply dropWhile_head].
Qed.

(** When the rest of the pattern succeeds after the whole run, that is the
    result. *)
Lemma starCls_longest (k : cont) (w rest : jsstring) :
  forall bef c x,
    k (MState (rev w ++ bef) rest c) = Some x ->
    starCls k bef w rest c = Some x.
Proof.
  induction w as [|y w IH]; intros bef c x H; simpl in *; [exact H|].
  rewrite <- app_assoc in H. simpl in H. now rewrite (IH _ _ _ H).
Qed.

(** When the rest of the pattern cannot start with a character of the run,
    only the whole run is tried with effect. *)
Lemma starCls_strict (p : char -> bool) (k : cont) (w rest : jsstring) :
  forallb p w = true ->
  (forall b a c', headIs p a = true -> k (MState b a c') = None) ->
  forall bef c,
    starCls k bef w rest c = k (MState (rev w ++ bef) rest c).
Proof.
  intros Hw Hk. induction w as [|y w IH]; intros bef c; simpl; [reflexivity|].
  simpl in Hw. apply andb_prop in Hw as [Hy Hw].
  rewrite (IH Hw), <- app_assoc. simpl.
  rewrite (Hk bef (y :: w ++ rest) c) by exact Hy.
  apply orElse_None_r.
Qed.

Definition spanEnd (p : char -> bool) (bef aft : jsstring)
  (c : option jsstring) : mstate :=
  MState (rev (takeWhile p aft) ++ bef) (dropWhile p aft) c.

Lemma m_star_cls_longest (p : char -> bool) (k : cont) (bef aft : jsstring)
  (c : option jsstring) (x : mstate) :
  k (spanEnd p bef aft c) = Some x ->
  m (Star (Cls p)) k (MState bef aft c) = Some x.
Proof. intros H. rewrite m_star_cls. now apply starCls_longest. Qed.

Lemma m_star_cls_strict (p : char -> bool) (k : cont) (bef aft : jsstring)
  (c : option jsstring) :
  (forall b a c', headIs p a = true -> k (MState b a c') = None) ->
  m (Star (Cls p)) k (MState bef aft c) = k (spanEnd p bef aft c).
Proof.
  intros H. rewrite m_star_cls.
  now apply (starCls_strict p); [apply takeWhile_all|].
Qed.

Lemma m_star_cls_Some (p : char -> bool) (bef aft : jsstring)
  (c : option jsstring) :
  m (Star (Cls p)) Some (MState bef aft c) = Some (spanEnd p bef aft c).
Proof. now apply m_star_cls_longest. Qed.

Lemma m_Seq (a b : regex) (k : cont) (s : mstate) :
  m (Seq a b) k s = m a (m b k) s.
Proof. reflexivity. Qed.

Lemma m_Group (r : regex) (k : cont) (s : mstate) :
  m (Group r) k s =
  m r (fun s' => k (MState (before s') (after s') (Some (consumed s s')))) s.
Proof. reflexivity. Qed.

Lemma m_LookBehind (p : char -> bool) (k : cont) (s : mstate) :
  m (LookBehind p) k s = if headIs p (before s) then k s else None.
Proof. reflexivity. Qed.

Lemma m_Alts_Lit (ws : list jsstring) (k : cont) (bef aft : jsstring)
  (c : option jsstring) :
  (forall s, k s <> None) ->
  m (Alts (map Lit ws)) k (MState bef aft c) =
  match find (fun w => prefixb w aft) ws with
  | Some w => k (MState (rev w ++ bef) (skipn (length w) aft) c)
  | None => None
  end.
Proof.
  intros Hk. induction ws as [|w ws IH].
  - simpl. now destruct aft.
  - destruct ws as [|w' ws'].
    + cbn [map Alts find]. rewrite m_Lit. now destruct (prefixb w aft).
    + change (Alts (map Lit (w :: w' :: ws')))
        with (Alt (Lit w) (Alts (map Lit (w' :: ws')))).
      cbn [m]. rewrite m_Lit, IH. cbn [find].
      destruct (prefixb w aft); [|reflexivity].
      destruct (k _) eqn:E; [reflexivity | now apply Hk in E].
Qed.

Lemma find_prefix_head (p : char -> bool) (ws : list jsstring)
  (aft : jsstring) :
  forallb (fun w => negb (isEmpty w) && negb (headIs p w)) ws = true ->
  headIs p aft = true ->
  find (fun w => prefixb w aft) ws = None.
Proof.
  intros Hws Ha. induction ws as [|w ws IH]; [reflexivity|].
  simpl in Hws. apply andb_prop in Hws as [Hw Hws].
  simpl. rewrite (IH Hws).
  destruct w as [|a w]; [discriminate|].
  destruct aft as [|b aft]; [reflexivity|].
  simpl in *. destruct (a =? b)%N eqn:E; [|reflexivity].
  apply N.eqb_eq in E. subst b. now rewrite Ha in Hw.
Qed.

Lemma find_prefix_some (ws : list jsstring) (aft w : jsstring) :
  find (fun w => prefixb w aft) ws = Some w ->
  aft = w ++ skipn (length w) aft.
Proof.
  intros H. apply find_some in H as [_ H]. now apply prefixb_spec.
Qed.

Lemma consumed_prefix (bef b' w rest : jsstring) (c c' : option jsstring) :
  consumed (MState bef (w ++ rest) c) (MState b' rest c') = w.
Proof.
  unfold consumed. cbn [after]. rewrite length_app.
  replace (length w + length rest - length rest) with (length w) by lia.
  rewrite firstn_app, Nat.sub_diag, firstn_all. simpl. apply app_nil_r.
Qed.

(** *** The shape shared by the two operator patterns:
    optional spaces, one of a list of literals as group 1, optional
    spaces. *)

Definition paddedOps (ops : list jsstring) : regex :=
  Seqs [Star (Cls isSpace); Group (Alts (map Lit ops)); Star (Cls isSpace)].

Definition noSpaceStart (ops : list jsstring) : bool :=
  forallb (fun w => negb (isEmpty w) && negb (headIs isSpace w)) ops.

(** What a match of [paddedOps] at a position covers: the operator found
    after the spaces, and the text left after the spaces that follow it. *)
Definition paddedOpAt (ops : list jsstring) (aft : jsstring)
  : option (jsstring * jsstring) :=
  let a1 := dropWhile isSpace aft in
  match find (fun w => prefixb w a1) ops with
  | Some op => Some (op, dropWhile isSpace (skipn (length op) a1))
  | None => None
  end.

Lemma m_paddedOps (ops : list jsstring) (bef aft : jsstring)
  (c : option jsstring) :
  noSpaceStart ops = true ->
  option_map (fun s' => (cap s', after s'))
    (m (paddedOps ops) Some (MState bef aft c)) =
  option_map (fun '(op, rest) => (Some op, rest)) (paddedOpAt ops aft).
Proof.
  intros Hops. unfold paddedOps, paddedOpAt. cbn [Seqs].
  rewrite !m_Seq.
  rewrite m_star_cls_strict.
  - unfold spanEnd at 1. rewrite m_Seq, m_Group, m_Alts_Lit.
    + destruct (find _ ops) as [op|] eqn:F; [|reflexivity].
      pose proof (find_prefix_some _ _ F) as E.
      cbn [after before cap]. rewrite m_star_cls_Some.
      unfold spanEnd. cbn [option_map cap after].
      f_equal. f_equal. f_equal.
      rewrite E at 1. apply consumed_prefix.
    + intros s. cbn [after before]. now rewrite m_star_cls_Some.
  - intros b a c' Ha. rewrite m_Seq, m_Group, m_Alts_Lit.
    + now rewrite (find_prefix_head isSpace ops a Hops Ha).
    + intros s. cbn [after before]. now rewrite m_star_cls_Some.
Qed.

(** ** Replacement as an explicit scan

    A [decision] says, at a position given by the text before it (nearest
    character first) and after it, whether something is replaced there:
    how many characters and by what.  [rewriteFrom] is the loop that
    applies it left to right, resuming after each replaced piece. *)

Definition decision := jsstring -> jsstring -> option (nat * jsstring).

Fixpoint rewriteFrom (d : decision) (bef aft : jsstring) (skip : nat)
  {struct aft} : jsstring :=
  match skip with
  | S n =>
      match aft with
      | [] => []
      | c :: rest => rewriteFrom d (c :: bef) rest n
      end
  | O =>
      match d bef aft with
      | Some (len, rep) =>
          match aft with
          | [] => rep
          | c :: rest =>
              match len with
              | O => rep ++ c :: rewriteFrom d (c :: bef) rest 0
              | S n => rep ++ rewriteFrom d (c :: bef) rest n
              end
          end
      | None =>
          match aft with
          | [] => []
          | c :: rest => c :: rewriteFrom d (c :: bef) rest 0
          end
      end
  end.

Definition rewrite (d : decision) (text : jsstring) : jsstring :=
  rewriteFrom d [] text 0.

(** The decision a pattern and a stateless replacement amount to. *)
Definition decisionOf (r : regex)
  (rep : jsstring -> option jsstring -> jsstring) : decision :=
  fun bef aft =>
    match matchAt r bef aft with
    | Some s' =>
        let len := length aft - length (after s') in
        Some (len, rep (firstn len aft) (cap s'))
    | None => None
    end.

Lemma replaceAll_rewriteFrom (r : regex)
  (rep : jsstring -> option jsstring -> jsstring) (d : decision) :
  (forall bef aft, decisionOf r rep bef aft = d bef aft) ->
  forall aft bef skip,
    fst (replaceFrom r (fun mt c (_ : unit) => (rep mt c, tt)) bef aft skip tt)
    = rewriteFrom d bef aft skip.
Proof.
  intros Hd. induction aft as [|c rest IH]; intros bef skip.
  - destruct skip; [|reflexivity]. cbn [replaceFrom rewriteFrom].
    rewrite <- Hd. unfold decisionOf.
    now destruct (matchAt r bef []).
  - destruct skip as [|n].
    + cbn [replaceFrom rewriteFrom]. rewrite <- Hd. unfold decisionOf.
      destruct (matchAt r bef (c :: rest)) as [s'|].
      * destruct (length (c :: rest) - length (after s')) as [|n].
        -- specialize (IH (c :: bef) 0).
           destruct (replaceFrom _ _ (c :: bef) rest 0 tt) as [out u].
           simpl in *. now rewrite IH.
        -- specialize (IH (c :: bef) n).
           destruct (replaceFrom _ _ (c :: bef) rest n tt) as [out u].
           simpl in *. now rewrite IH.
      * specialize (IH (c :: bef) 0).
        destruct (replaceFrom _ _ (c :: bef) rest 0 tt) as [out u].
        simpl in *. now rewrite IH.
    + cbn [replaceFrom rewriteFrom]. apply IH.
Qed.

Lemma replaceAll_rewrite (r : regex)
  (rep : jsstring -> option jsstring -> jsstring) (d : decision) :
  (forall bef aft, decisionOf r rep bef aft = d bef aft) ->
  forall text, replaceAll r rep text = rewrite d text.
Proof.
  intros Hd text. unfold replaceAll, replaceWith, rewrite.
  now apply replaceAll_rewriteFrom.
Qed.

(** *** The decisions of the spacing rules *)

Definition padded (op : jsstring) : jsstring := [SP] ++ op ++ [SP].

Definition padOpAt (ops : list string) (aft : jsstring)
  : option (nat * jsstring) :=
  match paddedOpAt (map str ops) aft with
  | Some (op, rest) => Some (length aft - length rest, padded op)
  | None => None
  end.

(** An always-binary operator, with the spaces around it, becomes the
    operator between two spaces. *)
Definition safeAt : decision := fun _ aft => padOpAt alwaysBinaryOps aft.

(** An arithmetic operator is padded when the character just before the
    spaces that precede it ends an operand. *)
Definition ambiguousAt : decision :=
  fun bef aft =>
    if headIs isOperandEnd bef then padOpAt ambiguousOps aft else None.

(** A comma, with the spaces around it, becomes a comma and one space. *)
Definition commaAt : decision :=
  fun _ aft =>
    match dropWhile isSpace aft with
    | c :: rest =>
        if (c =? 44)%N
        then Some (length aft - length (dropWhile isSpace rest), str ", ")
        else None
    | [] => None
    end.

Definition tabAt : decision :=
  fun _ aft =>
    match aft with
    | c :: _ => if (c =? TAB)%N then Some (1, str "    ") else None
    | [] => None
    end.

Lemma decisionOf_paddedOps (ops : list string) (bef aft : jsstring) :
  noSpaceStart (map str ops) = true ->
  match m (paddedOps (map str ops)) Some (MState bef aft None) with
  | Some s' =>
      let len := length aft - length (after s') in
      Some (len, padGroup1 (firstn len aft) (cap s'))
  | None => None
  end = padOpAt ops aft.
Proof.
  intros H. pose proof (m_paddedOps (map str ops) bef aft None H) as E.
  unfold padOpAt.
  destruct (m _ Some _) as [s'|];
    destruct (paddedOpAt (map str ops) aft) as [[op rest]|];
    simpl in E; try discriminate; [|reflexivity].
  injection E as E1 E2. rewrite E1, E2. reflexivity.
Qed.

Lemma safe_decision (bef aft : jsstring) :
  decisionOf safeRegex padGroup1 bef aft = safeAt bef aft.
Proof.
  unfold decisionOf, matchAt, safeAt.
  change safeRegex with (paddedOps (map str alwaysBinaryOps)).
  now apply decisionOf_paddedOps.
Qed.

Lemma ambiguous_decision (bef aft : jsstring) :
  decisionOf ambiguousRegex padGroup1 bef aft = ambiguousAt bef aft.
Proof.
  unfold decisionOf, matchAt, ambiguousAt.
  change ambiguousRegex
    with (Seq (LookBehind isOperandEnd) (paddedOps (map str ambiguousOps))).
  rewrite m_Seq, m_LookBehind. cbn [before].
  destruct (headIs isOperandEnd bef); [|reflexivity].
  now apply decisionOf_paddedOps.
Qed.

Lemma comma_decision (bef aft : jsstring) :
  decisionOf commaPattern (fun _ _ => str ", ") bef aft = commaAt bef aft.
Proof.
  unfold decisionOf, matchAt, commaAt, commaPattern. cbn [Seqs].
  rewrite m_Seq, m_star_cls_strict.
  - unfold spanEnd. rewrite m_Seq, m_Lit.
    destruct (dropWhile isSpace aft) as [|c rest]; [reflexivity|].
    cbn [str list_ascii_of_string map prefixb length skipn].
    change (N_of_ascii ",") with 44%N. rewrite N.eqb_sym.
    destruct (c =? 44)%N; [|reflexivity].
    cbn [andb]. now rewrite m_star_cls_Some.
  - intros b a c' Ha. rewrite m_Seq, m_Lit.
    destruct a as [|x a]; [discriminate|].
    cbn [str list_ascii_of_string map prefixb].
    change (N_of_ascii ",") with 44%N.
    destruct (44 =? x)%N eqn:E; [|reflexivity].
    apply N.eqb_eq in E. subst x. discriminate.
Qed.

Lemma tab_decision (bef aft : jsstring) :
  decisionOf tabPattern (fun _ _ => str "    ") bef aft = tabAt bef aft.
Proof.
  unfold decisionOf, matchAt, tabAt, tabPattern. cbn [m after].
  destruct aft as [|c rest]; [reflexivity|].
  rewrite N.eqb_sym. destruct (c =? TAB)%N; [|reflexivity].
  cbn [after length]. now replace (S (length rest) - length rest) with 1 by lia.
Qed.

Lemma padSafe_rewrite (text : jsstring) : padSafe text = rewrite safeAt text.
Proof. apply replaceAll_rewrite, safe_decision. Qed.

Lemma padAmbiguous_rewrite (text : jsstring) :
  padAmbiguous text = rewrite ambiguousAt text.
Proof. apply replaceAll_rewrite, ambiguous_decision. Qed.

Lemma spaceCommas_rewrite (text : jsstring) :
  spaceCommas text = rewrite commaAt text.
Proof. apply replaceAll_rewrite, comma_decision. Qed.

Lemma normalizeTabs_rewrite (text : jsstring) :
  normalizeTabs text = rewrite tabAt text.
Proof. apply replaceAll_rewrite, tab_decision. Qed.

(** What [padOpAt] replaces: the spaces before the operator, the first
    listed operator that starts there, and the spaces after it. *)
Lemma padOpAt_result (ops : list string) (aft : jsstring) (len : nat)
  (rep : jsstring) :
  padOpAt ops aft = Some (len, rep) ->
  exists op,
    find (fun w => prefixb w (dropWhile isSpace aft)) (map str ops) = Some op
    /\ rep = padded op
    /\ firstn len aft =
       takeWhile isSpace aft ++ op
       ++ takeWhile isSpace (skipn (length op) (dropWhile isSpace aft))
    /\ skipn len aft =
       dropWhile isSpace (skipn (length op) (dropWhile isSpace aft))
    /\ len = length (takeWhile isSpace aft ++ op
                     ++ takeWhile isSpace
                          (skipn (length op) (dropWhile isSpace aft))).
Proof.
  unfold padOpAt, paddedOpAt.
  destruct (find _ (map str ops)) as [op|] eqn:F; [|discriminate].
  intros H. injection H as Hlen Hrep. exists op.
  split; [reflexivity|]. split; [now symmetry|].
  pose proof (find_prefix_some _ _ F) as E.
  set (a1 := dropWhile isSpace aft) in *.
  set (a2 := skipn (length op) a1) in *.
  assert (Haft : aft = (takeWhile isSpace aft ++ op ++ takeWhile isSpace a2)
                       ++ dropWhile isSpace a2).
  { rewrite <- !app_assoc, (takeWhile_dropWhile isSpace a2), <- E.
    symmetry. apply takeWhile_dropWhile. }
  assert (Hl : len = length (takeWhile isSpace aft ++ op
                             ++ takeWhile isSpace a2)).
  { rewrite <- Hlen. rewrite Haft at 1. rewrite length_app. lia. }
  split; [|split; [|exact Hl]].
  - rewrite Haft at 1. rewrite Hl, firstn_app, Nat.sub_diag, firstn_all.
    simpl. apply app_nil_r.
  - rewrite Haft at 1. rewrite Hl, skipn_app, Nat.sub_diag, skipn_all.
    reflexivity.
Qed.

Lemma padOpAt_fires (ops : list string) (aft : jsstring) :
  padOpAt ops aft <> None <->
  exists op, In op (map str ops)
             /\ prefixb op (dropWhile isSpace aft) = true.
Proof.
  unfold padOpAt, paddedOpAt.
  destruct (find _ (map str ops)) as [op|] eqn:F; split.
  - intros _. apply find_some in F. now exists op.
  - discriminate.
  - intros H. now contradiction H.
  - intros [op [Hin Hp]].
    pose proof (find_none _ _ F op Hin) as Hn. simpl in Hn. congruence.
Qed.

(** An operator that is a proper prefix of another one is listed after
    it, so the longer one is found first. *)
Definition longestFirst (ops : list jsstring) : bool :=
  (fix go (l : list jsstring) : bool :=
     match l with
     | [] => true
     | op :: l' =>
         forallb (fun later => negb (prefixb op later)) l' && go l'
     end) ops.

(** ** The arithmetic-operator rule *)

(** ** Lines *)

(** Cutting a text at every LF, a CR just before the LF belonging to the
    cut: what [split(/\r?\n/)] computes. *)
Fixpoint splitLines (text : jsstring) : list jsstring :=
  match text with
  | [] => [[]]
  | c :: rest =>
      let r := splitLines rest in
      if (c =? LF)%N then [] :: r
      else if (c =? CR)%N && headIs (N.eqb LF) rest then r
      else match r with
           | l :: ls => (c :: l) :: ls
           | [] => [[c]]
           end
  end.

Definition addFirst (p : jsstring) (ls : list jsstring) : list jsstring :=
  match ls with
  | l :: ls' => (p ++ l) :: ls'
  | [] => [p]
  end.

Definition breakLen (aft : jsstring) : option nat :=
  match aft with
  | c :: rest =>
      if (c =? LF)%N then Some 1
      else if (c =? CR)%N && headIs (N.eqb LF) rest then Some 2
      else None
  | [] => None
  end.

Lemma lineBreak_match (bef aft : jsstring) :
  option_map (fun s' => length aft - length (after s'))
             (matchAt lineBreak bef aft) = breakLen aft.
Proof.
  unfold matchAt, lineBreak, Opt, breakLen. cbn [m after before cap].
  destruct aft as [|c rest]; [reflexivity|].
  unfold CR, LF.
  destruct (13 =? c)%N eqn:E13.
  - apply N.eqb_eq in E13. subst c.
    change (13 =? 10)%N with false. change (10 =? 13)%N with false.
    change (13 =? 13)%N with true. cbn [andb].
    destruct rest as [|d rest]; [reflexivity|].
    cbn [headIs]. destruct (10 =? d)%N; cbn [orElse option_map after length].
    + f_equal. lia.
    + reflexivity.
  - rewrite (N.eqb_sym c 13), E13. cbn [orElse andb].
    rewrite (N.eqb_sym c 10).
    destruct (10 =? c)%N; cbn [option_map after length]; [|reflexivity].
    f_equal. lia.
Qed.

Lemma addFirst_app (p q : jsstring) (ls : list jsstring) :
  addFirst p (addFirst q ls) = addFirst (p ++ q) ls.
Proof. destruct ls; simpl; now rewrite <- ?app_assoc. Qed.

Lemma splitLines_nonempty (text : jsstring) : splitLines text <> [].
Proof.
  induction text as [|c rest IH]; simpl; [discriminate|].
  destruct (c =? LF)%N; [discriminate|].
  destruct ((c =? CR)%N && headIs (N.eqb LF) rest); [exact IH|].
  now destruct (splitLines rest).
Qed.

Lemma addFirst_nil_lines (text : jsstring) :
  addFirst [] (splitLines text) = splitLines text.
Proof.
  pose proof (splitLines_nonempty text). now destruct (splitLines text).
Qed.

Lemma splitFrom_lines (n : nat) :
  forall aft, length aft <= n ->
  forall bef cur,
    splitFrom lineBreak bef aft cur 0 = addFirst (rev cur) (splitLines aft).
Proof.
  induction n as [|n IH]; intros aft Hn bef cur.
  - destruct aft; [|simpl in Hn; lia]. simpl. now rewrite app_nil_r.
  - destruct aft as [|c rest]; [simpl; now rewrite app_nil_r|].
    simpl in Hn. cbn [splitFrom].
    pose proof (lineBreak_match bef (c :: rest)) as Hm.
    destruct (matchAt lineBreak bef (c :: rest)) as [s'|];
      cbn [option_map] in Hm.
    + remember (length (c :: rest) - length (after s')) as len eqn:Hlen.
      clear Hlen. cbn [breakLen] in Hm. cbn [splitLines].
      destruct (c =? LF)%N.
      * injection Hm as ->.
        rewrite (IH rest) by lia. cbn [rev app addFirst].
        rewrite app_nil_r. now rewrite addFirst_nil_lines.
      * destruct ((c =? CR)%N && headIs (N.eqb LF) rest) eqn:E;
          [|discriminate].
        injection Hm as ->.
        destruct rest as [|d rest']; [now rewrite andb_false_r in E|].
        cbn [splitFrom]. simpl in Hn. rewrite (IH rest') by lia.
        apply andb_prop in E as [_ E]. cbn [headIs] in E.
        apply N.eqb_eq in E. subst d. cbn [splitLines].
        rewrite N.eqb_refl. cbn [rev app addFirst].
        rewrite app_nil_r. now rewrite addFirst_nil_lines.
    + cbn [breakLen] in Hm. cbn [splitLines].
      destruct (c =? LF)%N; [discriminate|].
      destruct ((c =? CR)%N && headIs (N.eqb LF) rest); [discriminate|].
      rewrite (IH rest) by lia. cbn [rev].
      pose proof (splitLines_nonempty rest).
      destruct (splitLines rest); [easy|].
      cbn [addFirst]. now rewrite <- app_assoc.
Qed.

Lemma split_lines (text : jsstring) :
  split lineBreak text = splitLines text.
Proof.
  unfold split. rewrite (splitFrom_lines (n := length text)) by lia.
  simpl. pose proof (splitLines_nonempty text).
  now destruct (splitLines text).
Qed.

Definition blank (l : jsstring) : bool := forallb isSpace l.

(** The line is empty or its last character is not white space. *)
Definition noTrailingSpace (l : jsstring) : bool :=
  negb (headIs isSpace (rev l)).

Definition noLF (l : jsstring) : bool :=
  forallb (fun c => negb (c =? LF)%N) l.

(** The lines the loop keeps, as a function of the number of blank lines
    just seen. *)
Fixpoint keepLines (lines : list jsstring) (blankCount : nat)
  : list jsstring :=
  match lines with
  | [] => []
  | line :: rest =>
      if isEmpty (trim line)
      then if S blankCount <=? 2
           then [] :: keepLines rest (S blankCount)
           else keepLines rest (S blankCount)
      else line :: keepLines rest 0
  end.

Lemma collapseBlank_keepLines (lines : list jsstring) :
  forall bc result,
    collapseBlank lines bc result = result ++ keepLines lines bc.
Proof.
  induction lines as [|l rest IH]; intros bc result; simpl.
  - now rewrite app_nil_r.
  - destruct (isEmpty (trim l)).
    + rewrite IH. destruct bc as [|[|bc]]; simpl;
        now rewrite <- ?app_assoc.
    + rewrite IH. now rewrite <- app_assoc.
Qed.

(** No run of blank lines exceeds two, [bc] blank lines having just been
    seen. *)
Fixpoint runsWithin (bc : nat) (ls : list jsstring) : bool :=
  match ls with
  | [] => true
  | l :: rest =>
      if blank l then (S bc <=? 2) && runsWithin (S bc) rest
      else runsWithin 0 rest
  end.

Lemma dropWhile_nil_blank (l : jsstring) :
  isEmpty (dropWhile isSpace l) = blank l.
Proof.
  induction l as [|c l IH]; simpl; [reflexivity|].
  destruct (isSpace c); simpl; [exact IH | reflexivity].
Qed.

Lemma blank_rev (l : jsstring) : blank (rev l) = blank l.
Proof.
  unfold blank. induction l as [|c l IH]; simpl; [reflexivity|].
  rewrite forallb_app, IH. simpl. rewrite andb_true_r. apply andb_comm.
Qed.

Lemma dropWhile_blank (l : jsstring) :
  blank l = true -> dropWhile isSpace l = [].
Proof.
  intros H. rewrite <- dropWhile_nil_blank in H.
  now destruct (dropWhile isSpace l).
Qed.

Lemma dropWhile_id (l : jsstring) :
  headIs isSpace l = false -> dropWhile isSpace l = l.
Proof. destruct l as [|c l]; simpl; [easy|]. now intros ->. Qed.

Lemma trimEnd_blank (l : jsstring) : blank (trimEnd l) = isEmpty (trimEnd l).
Proof.
  unfold trimEnd. rewrite blank_rev.
  pose proof (dropWhile_head isSpace (rev l)) as H.
  destruct (dropWhile isSpace (rev l)) as [|c r]; [reflexivity|].
  simpl in *. rewrite H. simpl. now destruct (rev r ++ [c]) eqn:E;
    [apply app_eq_nil in E as [_ E]|].
Qed.

Lemma trimEnd_noTrailing (l : jsstring) : noTrailingSpace (trimEnd l) = true.
Proof.
  unfold noTrailingSpace, trimEnd. rewrite rev_involutive.
  now rewrite dropWhile_head.
Qed.

Lemma noTrailing_trimEnd (l : jsstring) :
  noTrailingSpace l = true -> trimEnd l = l.
Proof.
  unfold noTrailingSpace, trimEnd. intros H.
  apply negb_true_iff in H. rewrite (dropWhile_id _ H).
  apply rev_involutive.
Qed.

Lemma noTrailing_blank (l : jsstring) :
  noTrailingSpace l = true -> blank l = isEmpty l.
Proof.
  intros H. rewrite <- (noTrailing_trimEnd l H). apply trimEnd_blank.
Qed.

(** On a line without trailing white space, [line.trim() === ''] says that
    the line is empty. *)
Lemma trim_empty (l : jsstring) :
  noTrailingSpace l = true -> isEmpty (trim l) = isEmpty l.
Proof.
  intros H. unfold trim. rewrite (noTrailing_trimEnd l H).
  rewrite dropWhile_nil_blank. now apply noTrailing_blank.
Qed.

Lemma keepLines_runs (lines : list jsstring) :
  forall bc, runsWithin (Nat.min bc 2) (keepLines lines bc) = true.
Proof.
  induction lines as [|l rest IH]; intros bc; simpl; [reflexivity|].
  destruct (isEmpty (trim l)) eqn:E.
  - destruct bc as [|[|bc]]; simpl.
    + exact (IH 1).
    + exact (IH 2).
    + rewrite Nat.min_0_r. exact (IH (S (S (S bc)))).
  - simpl. destruct (blank l) eqn:B.
    + exfalso. unfold trim in E.
      rewrite dropWhile_blank in E; [discriminate|].
      rewrite trimEnd_blank. unfold trimEnd.
      rewrite dropWhile_blank; [reflexivity | now rewrite blank_rev].
    + exact (IH 0).
Qed.

Lemma keepLines_members (lines : list jsstring) (P : jsstring -> Prop) :
  P [] -> Forall P lines -> forall bc, Forall P (keepLines lines bc).
Proof.
  intros H0 H. induction H as [|l rest Hl _ IH]; intros bc; simpl.
  - constructor.
  - destruct (isEmpty (trim l)).
    + destruct (bc <=? 1); [constructor|]; auto.
    + constructor; auto.
Qed.

Lemma dropEmpty_suffix (l : list jsstring) :
  exists p, l = p ++ dropEmpty l /\ Forall (fun x => x = []) p.
Proof.
  induction l as [|x l [p [IH1 IH2]]]; simpl.
  - now exists [].
  - destruct x as [|c x]; simpl.
    + exists ([] :: p). split; [now rewrite IH1 at 1 | now constructor].
    + now exists [].
Qed.

Lemma popBlank_prefix (ls : list jsstring) :
  exists q, ls = popBlank ls ++ q /\ Forall (fun x => x = []) q.
Proof.
  unfold popBlank. destruct (dropEmpty_suffix (rev ls)) as [p [H1 H2]].
  exists (rev p). split.
  - rewrite <- rev_app_distr, <- H1. symmetry. apply rev_involutive.
  - apply Forall_rev, H2.
Qed.

Definition lastNonEmpty (ls : list jsstring) : Prop :=
  forall ls' l, ls = ls' ++ [l] -> l <> [].

Lemma dropEmpty_head (l : list jsstring) :
  match dropEmpty l with
  | x :: _ => x <> []
  | [] => True
  end.
Proof.
  induction l as [|x l IH]; simpl; [exact I|].
  destruct x; simpl; [exact IH | discriminate].
Qed.

Lemma popBlank_last (ls : list jsstring) : lastNonEmpty (popBlank ls).
Proof.
  unfold lastNonEmpty, popBlank. intros ls' l H.
  apply (f_equal (@rev jsstring)) in H.
  rewrite rev_involutive, rev_app_distr in H. simpl in H.
  pose proof (dropEmpty_head (rev ls)) as Hd. now rewrite H in Hd.
Qed.

Lemma runsWithin_prefix (p q : list jsstring) :
  forall bc, runsWithin bc (p ++ q) = true -> runsWithin bc p = true.
Proof.
  induction p as [|l p IH]; intros bc H; simpl in *; [reflexivity|].
  destruct (blank l).
  - apply andb_prop in H as [H1 H2]. now rewrite H1, (IH _ H2).
  - now apply IH.
Qed.

(** Three blank lines never follow one another. *)
Lemma runsWithin_no_triple (ls : list jsstring) :
  forall bc, runsWithin bc ls = true ->
  forall pre a b c post,
    ls = pre ++ a :: b :: c :: post ->
    blank a && blank b && blank c = false.
Proof.
  induction ls as [|l ls IH]; intros bc H pre a b c post E.
  - now destruct pre.
  - destruct pre as [|x pre]; simpl in E; injection E as -> E.
    + subst ls. cbn [runsWithin] in H.
      destruct (blank a); [|reflexivity].
      apply andb_prop in H as [H1 H]. apply Nat.leb_le in H1.
      destruct (blank b); [|reflexivity].
      apply andb_prop in H as [H2 H]. apply Nat.leb_le in H2.
      destruct (blank c); [|reflexivity].
      apply andb_prop in H as [H3 _]. apply Nat.leb_le in H3. lia.
    + cbn [runsWithin] in H. destruct (blank x).
      * apply andb_prop in H as [_ H]. exact (IH _ H _ _ _ _ _ E).
      * exact (IH _ H _ _ _ _ _ E).
Qed.

Lemma splitLines_noLF (text : jsstring) :
  Forall (fun l => noLF l = true) (splitLines text).
Proof.
  induction text as [|c rest IH]; simpl.
  - now constructor.
  - destruct (c =? LF)%N eqn:E; [now constructor|].
    destruct ((c =? CR)%N && headIs (N.eqb LF) rest); [exact IH|].
    destruct (splitLines rest) as [|l ls].
    + constructor; [|constructor]. simpl. now rewrite E.
    + inversion IH; subst. constructor; [|assumption].
      simpl. now rewrite E.
Qed.

Lemma dropWhile_suffix (p : char -> bool) (l : jsstring) :
  exists q, l = q ++ dropWhile p l.
Proof. exists (takeWhile p l). symmetry. apply takeWhile_dropWhile. Qed.

Lemma trimEnd_prefix (l : jsstring) : exists q, l = trimEnd l ++ q.
Proof.
  unfold trimEnd. destruct (dropWhile_suffix isSpace (rev l)) as [q H].
  exists (rev q). rewrite <- rev_app_distr, <- H. symmetry.
  apply rev_involutive.
Qed.

Lemma trimEnd_noLF (l : jsstring) : noLF l = true -> noLF (trimEnd l) = true.
Proof.
  intros H. destruct (trimEnd_prefix l) as [q E]. rewrite E in H.
  unfold noLF in *. rewrite forallb_app in H. now apply andb_prop in H.
Qed.

(** The lines [lineProcessing] joins. *)
Definition cleanLines (text : jsstring) : list jsstring :=
  popBlank (keepLines (map trimEnd (splitLines text)) 0).

Lemma lineProcessing_lines (text : jsstring) :
  lineProcessing text = join [LF] (cleanLines text) ++ [LF].
Proof.
  unfold lineProcessing, cleanLines.
  now rewrite split_lines, collapseBlank_keepLines.
Qed.

Definition lineOk (l : jsstring) : Prop :=
  noLF l = true /\ noTrailingSpace l = true.

Lemma cleanLines_ok (text : jsstring) :
  Forall lineOk (cleanLines text)
  /\ runsWithin 0 (cleanLines text) = true
  /\ lastNonEmpty (cleanLines text).
Proof.
  unfold cleanLines.
  set (ks := keepLines (map trimEnd (splitLines text)) 0).
  destruct (popBlank_prefix ks) as [q [Hq _]].
  assert (Hk : Forall lineOk ks).
  { apply keepLines_members; [now split|].
    apply Forall_map. eapply Forall_impl; [|apply splitLines_noLF].
    intros l Hl. split; [now apply trimEnd_noLF | apply trimEnd_noTrailing]. }
  assert (Hr : runsWithin 0 ks = true) by apply (keepLines_runs _ 0).
  rewrite Hq in Hk, Hr. split; [|split].
  - now apply Forall_app in Hk.
  - now apply runsWithin_prefix in Hr.
  - apply popBlank_last.
Qed.

(** ** Where a pattern cannot match

    [nullable r] over-approximates the patterns that can match without
    consuming a character, [first r] the characters a non-empty match can
    start with. *)

Fixpoint nullable (r : regex) : bool :=
  match r with
  | Eps | Star _ | LazyStar _ | LookBehind _ | WordB | Eol => true
  | Cls _ => false
  | Seq r1 r2 => nullable r1 && nullable r2
  | Alt r1 r2 => nullable r1 || nullable r2
  | Group r1 => nullable r1
  end.

Fixpoint first (r : regex) (c : char) : bool :=
  match r with
  | Eps | LookBehind _ | WordB | Eol => false
  | Cls p => p c
  | Seq r1 r2 => first r1 c || (nullable r1 && first r2 c)
  | Alt r1 r2 => first r1 c || first r2 c
  | Star r1 | LazyStar r1 | Group r1 => first r1 c
  end.

Definition passes (k : cont) (s : mstate) (x : mstate) : Prop :=
  exists s', after s' = after s /\ k s' = Some x.

Lemma starG_first (body : cont -> cont) (p : char -> bool) (k : cont) :
  (forall k' s x, body k' s = Some x ->
      headIs p (after s) = true \/ passes k' s x) ->
  forall n s x, starG body k n s = Some x ->
      headIs p (after s) = true \/ passes k s x.
Proof.
  intros Hb n s x H. destruct n as [|n]; simpl in H.
  - right. now exists s.
  - destruct (body _ s) as [y|] eqn:E; simpl in H.
    + apply Hb in E as [E | [s' [E1 E2]]]; [now left|].
      unfold progressed in E2. rewrite E1, Nat.ltb_irrefl in E2.
      discriminate.
    + right. now exists s.
Qed.

Lemma starL_first (body : cont -> cont) (p : char -> bool) (k : cont) :
  (forall k' s x, body k' s = Some x ->
      headIs p (after s) = true \/ passes k' s x) ->
  forall n s x, starL body k n s = Some x ->
      headIs p (after s) = true \/ passes k s x.
Proof.
  intros Hb n s x H. destruct n as [|n]; simpl in H.
  - right. now exists s.
  - destruct (k s) as [y|] eqn:E; simpl in H.
    + right. exists s. split; [reflexivity | congruence].
    + apply Hb in H as [H | [s' [E1 E2]]]; [now left|].
      unfold progressed in E2. rewrite E1, Nat.ltb_irrefl in E2.
      discriminate.
Qed.

Lemma m_first (r : regex) :
  forall k s x, m r k s = Some x ->
    headIs (first r) (after s) = true
    \/ (nullable r = true /\ passes k s x).
Proof.
  induction r as [|p|r1 IH1 r2 IH2|r1 IH1 r2 IH2|r1 IH1|r1 IH1|r1 IH1|p| |];
    intros k s x H; cbn [m nullable first] in *.
  - right. split; [reflexivity | now exists s].
  - left. destruct (after s) as [|c rest]; [discriminate|].
    simpl. now destruct (p c).
  - apply IH1 in H as [H | [N1 [s1 [E1 H]]]].
    + left. destruct (after s); [discriminate|]. simpl in *. now rewrite H.
    + apply IH2 in H as [H | [N2 [s2 [E2 H]]]].
      * left. rewrite E1 in H. destruct (after s); [discriminate|].
        simpl in *. now rewrite H, N1, orb_true_r.
      * right. split; [now rewrite N1, N2|]. exists s2.
        split; [congruence | exact H].
  - destruct (m r1 k s) as [y|] eqn:E; simpl in H.
    + apply IH1 in E as [E | [N1 P1]].
      * left. destruct (after s); [discriminate|]. simpl in *.
        now rewrite E.
      * right. injection H as <-. now rewrite N1.
    + apply IH2 in H as [H | [N2 P2]].
      * left. destruct (after s); [discriminate|]. simpl in *.
        now rewrite H, orb_true_r.
      * right. now rewrite N2, orb_true_r.
  - assert (Hb : forall k' s0 x0, m r1 k' s0 = Some x0 ->
               headIs (first r1) (after s0) = true \/ passes k' s0 x0).
    { intros k' s0 x0 H0. apply IH1 in H0 as [H0 | [_ H0]]; auto. }
    destruct (@starG_first (m r1) (first r1) k Hb _ _ _ H) as [H'|H'];
      [now left | now right].
  - assert (Hb : forall k' s0 x0, m r1 k' s0 = Some x0 ->
               headIs (first r1) (after s0) = true \/ passes k' s0 x0).
    { intros k' s0 x0 H0. apply IH1 in H0 as [H0 | [_ H0]]; auto. }
    destruct (@starL_first (m r1) (first r1) k Hb _ _ _ H) as [H'|H'];
      [now left | now right].
  - apply IH1 in H as [H | [N1 [s1 [E1 H]]]]; [now left|].
    right. split; [exact N1|]. eexists. split; [|exact H]. exact E1.
  - right. split; [reflexivity|].
    destruct (headIs p (before s)); [now exists s | discriminate].
  - right. split; [reflexivity|].
    destruct (xorb _ _); [now exists s | discriminate].
  - right. split; [reflexivity|].
    destruct (after s) as [|c rest]; [now exists s|].
    destruct (isLineTerminator c); [now exists s | discriminate].
Qed.

(** A pattern that must consume something does not match where the next
    character cannot start it. *)
Lemma matchAt_first (r : regex) (bef aft : jsstring) :
  nullable r = false -> headIs (first r) aft = false ->
  matchAt r bef aft = None.
Proof.
  intros N F. unfold matchAt.
  destruct (m r Some _) as [x|] eqn:E; [|reflexivity].
  apply m_first in E as [E | [E _]]; simpl in E; congruence.
Qed.

Lemma m_first_none (r : regex) (k : cont) (s : mstate) :
  nullable r = false -> headIs (first r) (after s) = false ->
  m r k s = None.
Proof.
  intros N F. destruct (m r k s) as [x|] eqn:E; [|reflexivity].
  apply m_first in E as [E | [E _]]; congruence.
Qed.

Lemma headIs_class (q p : char -> bool) (l : jsstring) :
  (forall c, q c = true -> p c = false) ->
  forallb q l = true -> headIs p l = false.
Proof.
  intros H Hl. destruct l as [|c l]; [reflexivity|]. simpl in *.
  apply andb_prop in Hl as [Hc _]. now apply H.
Qed.

Lemma forallb_skipn (q : char -> bool) (n : nat) (l : jsstring) :
  forallb q l = true -> forallb q (skipn n l) = true.
Proof.
  intros H. rewrite <- (firstn_skipn n l), forallb_app in H.
  now apply andb_prop in H.
Qed.

Lemma forallb_dropWhile (q p : char -> bool) (l : jsstring) :
  forallb q l = true -> forallb q (dropWhile p l) = true.
Proof.
  intros H. rewrite <- (takeWhile_dropWhile p l), forallb_app in H.
  now apply andb_prop in H.
Qed.

(** A replacement leaves alone a text in which the pattern matches
    nowhere. *)
Lemma replaceFrom_untouched (A : Type) (r : regex)
  (f : jsstring -> option jsstring -> A -> jsstring * A)
  (q : char -> bool) :
  (forall bef aft, forallb q aft = true -> matchAt r bef aft = None) ->
  forall aft, forallb q aft = true ->
  forall bef acc, replaceFrom r f bef aft 0 acc = (aft, acc).
Proof.
  intros Hn aft. induction aft as [|c rest IH]; intros Hq bef acc.
  - cbn [replaceFrom]. now rewrite (Hn bef [] Hq).
  - cbn [replaceFrom]. rewrite (Hn bef (c :: rest) Hq).
    simpl in Hq. apply andb_prop in Hq as [_ Hq].
    now rewrite (IH Hq).
Qed.

Lemma rewriteFrom_untouched (d : decision) (q : char -> bool) :
  (forall bef aft, forallb q aft = true -> d bef aft = None) ->
  forall aft, forallb q aft = true ->
  forall bef, rewriteFrom d bef aft 0 = aft.
Proof.
  intros Hn aft. induction aft as [|c rest IH]; intros Hq bef.
  - cbn [rewriteFrom]. now rewrite (Hn bef [] Hq).
  - cbn [rewriteFrom]. rewrite (Hn bef (c :: rest) Hq).
    simpl in Hq. apply andb_prop in Hq as [_ Hq].
    now rewrite (IH Hq).
Qed.

(** *** Characters that start nothing *)

Definition startsLiteral (c : char) : bool :=
  (c =? DQ)%N || (c =? SQ)%N || (c =? HASH)%N.

Definition isOperatorChar (c : char) : bool := oneOf "=/%<>+-*!" c.

(** A character that no rule of the formatter reacts to, apart from white
    space: no quote, no [#], no digit, no operator character, no comma. *)
Definition plain (c : char) : bool :=
  negb (startsLiteral c || isDigit c || isOperatorChar c || (c =? 44)%N).

Lemma first_stringComment (c : char) :
  first stringCommentPattern c = startsLiteral c.
Proof.
  unfold startsLiteral. cbn -[N.eqb DQ SQ HASH].
  rewrite !(N.eqb_sym c).
  destruct (DQ =? c)%N, (SQ =? c)%N, (HASH =? c)%N; reflexivity.
Qed.

Lemma first_number (c : char) :
  isDigit c = false -> first numberPattern c = false.
Proof.
  intros H. cbn -[N.eqb isDigit]. rewrite H.
  destruct (48 =? c)%N eqn:E; [|reflexivity].
  apply N.eqb_eq in E. now subst c.
Qed.

Lemma mask_strings_untouched (text : jsstring) (ph : list jsstring) :
  forallb (fun c => negb (startsLiteral c)) text = true ->
  replaceWith stringCommentPattern mask text ph = (text, ph).
Proof.
  intros H. unfold replaceWith.
  apply (replaceFrom_untouched _ _ (fun c => negb (startsLiteral c)));
    [|exact H].
  intros bef aft Ha. apply matchAt_first; [reflexivity|].
  apply (headIs_class (fun c => negb (startsLiteral c))); [|exact Ha].
  intros c Hc. rewrite first_stringComment. now apply negb_true_iff.
Qed.

Lemma mask_numbers_untouched (text : jsstring) (ph : list jsstring) :
  forallb (fun c => negb (isDigit c)) text = true ->
  replaceWith numberPattern mask text ph = (text, ph).
Proof.
  intros H. unfold replaceWith.
  apply (replaceFrom_untouched _ _ (fun c => negb (isDigit c)));
    [|exact H].
  intros bef aft Ha. apply matchAt_first; [reflexivity|].
  apply (headIs_class (fun c => negb (isDigit c))); [|exact Ha].
  intros c Hc. apply first_number. now apply negb_true_iff.
Qed.

Lemma restore_untouched (ph : list jsstring) (text : jsstring) :
  forallb (fun c => negb (isDigit c)) text = true ->
  restore ph text = text.
Proof.
  intros H. unfold restore, replaceAll, replaceWith.
  rewrite (replaceFrom_untouched _ _ (fun c => negb (isDigit c)));
    [reflexivity| |exact H].
  intros bef aft Ha. unfold matchAt, placeholderPattern. cbn [Seqs].
  rewrite m_Seq, m_Lit.
  destruct (prefixb _ aft); [|reflexivity].
  rewrite m_Seq. apply m_first_none; [reflexivity|].
  cbn [after]. apply (headIs_class (fun c => negb (isDigit c))).
  - intros c Hc. cbn -[isDigit]. apply negb_true_iff in Hc. now rewrite Hc.
  - now apply forallb_skipn.
Qed.

Definition expandTab (c : char) : jsstring :=
  if (c =? TAB)%N then str "    " else [c].

Lemma rewriteFrom_tabs (aft : jsstring) :
  forall bef, rewriteFrom tabAt bef aft 0 = flat_map expandTab aft.
Proof.
  induction aft as [|c rest IH]; intros bef; [reflexivity|].
  cbn [rewriteFrom tabAt flat_map]. unfold expandTab at 1.
  destruct (c =? TAB)%N; now rewrite IH.
Qed.

Lemma normalizeTabs_expand (text : jsstring) :
  normalizeTabs text = flat_map expandTab text.
Proof. rewrite normalizeTabs_rewrite. apply rewriteFrom_tabs. Qed.

Lemma find_prefix_class (p : char -> bool) (ws : list jsstring)
  (a : jsstring) :
  forallb (headIs p) ws = true -> headIs p a = false ->
  find (fun w => prefixb w a) ws = None.
Proof.
  intros Hws Ha. induction ws as [|w ws IH]; [reflexivity|].
  simpl in Hws. apply andb_prop in Hws as [Hw Hws].
  simpl. rewrite (IH Hws).
  destruct w as [|x w]; [discriminate|].
  destruct a as [|y a]; [reflexivity|].
  simpl in *. destruct (x =? y)%N eqn:E; [|reflexivity].
  apply N.eqb_eq in E. subst y. congruence.
Qed.

Lemma plain_not_operator (c : char) :
  plain c = true -> isOperatorChar c = false.
Proof.
  unfold plain. intros H. apply negb_true_iff in H.
  apply orb_false_elim in H as [H _]. now apply orb_false_elim in H as [_ H].
Qed.

Lemma padOpAt_plain (ops : list string) (aft : jsstring) :
  forallb (headIs isOperatorChar) (map str ops) = true ->
  forallb plain aft = true -> padOpAt ops aft = None.
Proof.
  intros Hops Ha. unfold padOpAt, paddedOpAt.
  rewrite (find_prefix_class isOperatorChar); [reflexivity|exact Hops|].
  apply (headIs_class plain); [exact plain_not_operator|].
  now apply forallb_dropWhile.
Qed.

Lemma commaAt_plain (bef aft : jsstring) :
  forallb plain aft = true -> commaAt bef aft = None.
Proof.
  intros Ha. unfold commaAt.
  pose proof (forallb_dropWhile plain isSpace aft Ha) as H.
  destruct (dropWhile isSpace aft) as [|c rest]; [reflexivity|].
  simpl in H. apply andb_prop in H as [H _].
  unfold plain in H. apply negb_true_iff in H.
  apply orb_false_elim in H as [_ H]. now rewrite H.
Qed.

Lemma spacing_plain (text : jsstring) :
  forallb plain text = true ->
  spaceCommas (padAmbiguous (padSafe text)) = text.
Proof.
  intros H.
  rewrite padSafe_rewrite. unfold rewrite.
  rewrite (rewriteFrom_untouched safeAt plain); [| |exact H].
  2:{ intros bef aft Ha. now apply padOpAt_plain. }
  rewrite padAmbiguous_rewrite. unfold rewrite.
  rewrite (rewriteFrom_untouched ambiguousAt plain); [| |exact H].
  2:{ intros bef aft Ha. unfold ambiguousAt.
      destruct (headIs isOperandEnd bef); [|reflexivity].
      now apply padOpAt_plain. }
  rewrite spaceCommas_rewrite. unfold rewrite.
  apply (rewriteFrom_untouched commaAt plain); [|exact H].
  intros bef aft Ha. now apply commaAt_plain.
Qed.

Lemma expandTab_class (q : char -> bool) (text : jsstring) :
  q SP = true -> forallb q text = true ->
  forallb q (flat_map expandTab text) = true.
Proof.
  intros Hsp. induction text as [|c rest IH]; intros H; [reflexivity|].
  simpl in H. apply andb_prop in H as [Hc Hr].
  cbn [flat_map]. rewrite forallb_app, (IH Hr), andb_true_r.
  unfold expandTab. destruct (c =? TAB)%N.
  - cbn -[SP]. change 32%N with SP. now rewrite Hsp.
  - simpl. now rewrite Hc.
Qed.

Lemma splitLines_class (q : char -> bool) (text : jsstring) :
  forallb q text = true ->
  Forall (fun l => forallb q l = true) (splitLines text).
Proof.
  induction text as [|c rest IH]; intros H; simpl.
  - now constructor.
  - simpl in H. apply andb_prop in H as [Hc Hr]. specialize (IH Hr).
    destruct (c =? LF)%N; [now constructor|].
    destruct ((c =? CR)%N && headIs (N.eqb LF) rest); [exact IH|].
    destruct (splitLines rest) as [|l ls].
    + constructor; [|constructor]. simpl. now rewrite Hc.
    + inversion IH; subst. constructor; [|assumption].
      simpl. now rewrite Hc.
Qed.

Lemma trimEnd_class (q : char -> bool) (l : jsstring) :
  forallb q l = true -> forallb q (trimEnd l) = true.
Proof.
  intros H. destruct (trimEnd_prefix l) as [x E]. rewrite E in H.
  rewrite forallb_app in H. now apply andb_prop in H.
Qed.

Lemma join_class (q : char -> bool) (sep : jsstring) (ls : list jsstring) :
  forallb q sep = true ->
  Forall (fun l => forallb q l = true) ls ->
  forallb q (join sep ls) = true.
Proof.
  intros Hs H. induction H as [|l ls Hl Hls IH]; [reflexivity|].
  destruct ls as [|l' ls']; [exact Hl|].
  change (join sep (l :: l' :: ls')) with (l ++ sep ++ join sep (l' :: ls')).
  now rewrite !forallb_app, Hl, Hs, IH.
Qed.

Lemma cleanLines_class (q : char -> bool) (text : jsstring) :
  forallb q text = true ->
  Forall (fun l => forallb q l = true) (cleanLines text).
Proof.
  intros H. unfold cleanLines.
  set (ks := keepLines (map trimEnd (splitLines text)) 0).
  assert (Hk : Forall (fun l => forallb q l = true) ks).
  { apply keepLines_members; [reflexivity|]. apply Forall_map.
    eapply Forall_impl; [|apply (splitLines_class q text H)].
    intros l. apply trimEnd_class. }
  destruct (popBlank_prefix ks) as [x [Hx _]]. rewrite Hx in Hk.
  now apply Forall_app in Hk.
Qed.

Lemma lineProcessing_class (q : char -> bool) (text : jsstring) :
  q LF = true -> forallb q text = true ->
  forallb q (lineProcessing text) = true.
Proof.
  intros Hlf H. rewrite lineProcessing_lines, forallb_app.
  rewrite join_class; [simpl; now rewrite Hlf | simpl; now rewrite Hlf|].
  now apply cleanLines_class.
Qed.

Lemma plain_not_digit (c : char) : plain c = true -> negb (isDigit c) = true.
Proof.
  unfold plain. intros H. apply negb_true_iff in H.
  apply orb_false_elim in H as [H _]. apply orb_false_elim in H as [H _].
  apply orb_false_elim in H as [_ H]. now apply negb_true_iff.
Qed.

Lemma plain_not_literal (c : char) :
  plain c = true -> negb (startsLiteral c) = true.
Proof.
  unfold plain. intros H. apply negb_true_iff in H.
  apply orb_false_elim in H as [H _]. apply orb_false_elim in H as [H _].
  apply orb_false_elim in H as [H _]. now apply negb_true_iff.
Qed.

Lemma forallb_impl (q q' : char -> bool) (l : jsstring) :
  (forall c, q c = true -> q' c = true) ->
  forallb q l = true -> forallb q' l = true.
Proof.
  intros H Hl. induction l as [|c l IH]; [reflexivity|].
  simpl in *. apply andb_prop in Hl as [Hc Hl].
  now rewrite (H c Hc), (IH Hl).
Qed.

(** On a text of plain characters and white space the formatter only
    normalizes tabs and cleans up the lines. *)
Lemma formatBuiltin_plain (text : jsstring) :
  forallb plain text = true ->
  formatBuiltin text = lineProcessing (normalizeTabs text).
Proof.
  intros H. unfold formatBuiltin, maskAll.
  rewrite mask_strings_untouched
    by (now apply (forallb_impl plain); [exact plain_not_literal|]).
  rewrite mask_numbers_untouched
    by (now apply (forallb_impl plain); [exact plain_not_digit|]).
  assert (Ht : forallb plain (normalizeTabs text) = true).
  { rewrite normalizeTabs_expand. now apply expandTab_class. }
  unfold spacing. rewrite (spacing_plain _ Ht).
  apply restore_untouched.
  apply (lineProcessing_class (fun c => negb (isDigit c))); [reflexivity|].
  now apply (forallb_impl plain); [exact plain_not_digit|].
Qed.

(** *** The whitespace-only formatter *)

Lemma headIs_LF_expand (rest : jsstring) :
  headIs (N.eqb LF) (flat_map expandTab rest) = headIs (N.eqb LF) rest.
Proof.
  destruct rest as [|d rest]; [reflexivity|].
  cbn [flat_map]. unfold expandTab.
  destruct (d =? TAB)%N eqn:E; [|reflexivity].
  apply N.eqb_eq in E. now subst d.
Qed.

Lemma splitLines_cons_other (c : char) (rest : jsstring) :
  (c =? LF)%N = false -> (c =? CR)%N = false ->
  splitLines (c :: rest) = addFirst [c] (splitLines rest).
Proof.
  intros H1 H2. cbn [splitLines]. rewrite H1, H2. cbn [andb].
  pose proof (splitLines_nonempty rest). now destruct (splitLines rest).
Qed.

Lemma splitLines_expandTab (text : jsstring) :
  splitLines (flat_map expandTab text)
  = map (flat_map expandTab) (splitLines text).
Proof.
  induction text as [|c rest IH]; [reflexivity|].
  cbn [flat_map]. unfold expandTab at 1.
  destruct (c =? TAB)%N eqn:ET.
  - apply N.eqb_eq in ET. subst c.
    cbn [str list_ascii_of_string map app].
    change (N_of_ascii " ") with SP.
    rewrite !splitLines_cons_other by reflexivity.
    rewrite IH, !addFirst_app. cbn [app].
    pose proof (splitLines_nonempty rest).
    now destruct (splitLines rest).
  - cbn [app splitLines]. rewrite headIs_LF_expand, IH.
    destruct (c =? LF)%N; [reflexivity|].
    destruct ((c =? CR)%N && headIs (N.eqb LF) rest); [reflexivity|].
    destruct (splitLines rest) as [|l ls]; cbn [map flat_map];
      unfold expandTab; now rewrite ET.
Qed.

Lemma collapseBlankWs_trimmed (lines : list jsstring) :
  Forall (fun l => noTrailingSpace l = true) lines ->
  forall bc result,
    collapseBlankWs lines bc result = collapseBlank lines bc result.
Proof.
  intros H. induction H as [|l rest Hl _ IH]; intros bc result;
    [reflexivity|].
  cbn [collapseBlankWs collapseBlank]. rewrite (trim_empty l Hl).
  destruct l as [|c l]; cbn [isEmpty]; apply IH.
Qed.

Lemma formatWhitespace_lines (text : jsstring) :
  formatWhitespace text = lineProcessing (normalizeTabs text).
Proof.
  unfold formatWhitespace, lineProcessing.
  rewrite !split_lines, normalizeTabs_expand, splitLines_expandTab.
  rewrite map_map. do 3 f_equal.
  rewrite collapseBlankWs_trimmed.
  - f_equal. apply map_ext. intros l. now rewrite normalizeTabs_expand.
  - apply Forall_map, Forall_forall. intros l _. apply trimEnd_noTrailing.
Qed.

(** *** Line processing is idempotent *)

Lemma splitLines_line (l rest : jsstring) :
  lineOk l -> splitLines (l ++ LF :: rest) = l :: splitLines rest.
Proof.
  intros [H1 H2]. induction l as [|c l IH]; [reflexivity|].
  simpl in H1. apply andb_prop in H1 as [Hc H1].
  apply negb_true_iff in Hc.
  cbn [app splitLines]. rewrite Hc.
  assert (E : (c =? CR)%N && headIs (N.eqb LF) (l ++ LF :: rest) = false).
  { destruct l as [|d l].
    - unfold noTrailingSpace in H2. simpl in H2.
      apply negb_true_iff in H2.
      destruct (c =? CR)%N eqn:E; [|reflexivity].
      apply N.eqb_eq in E. now subst c.
    - simpl in H1. apply andb_prop in H1 as [Hd _].
      apply negb_true_iff in Hd. cbn [app headIs].
      now rewrite (N.eqb_sym LF d), Hd, andb_false_r. }
  rewrite E.
  destruct l as [|d l]; [reflexivity|].
  rewrite IH; [reflexivity | exact H1 |].
  unfold noTrailingSpace in *. simpl in *.
  destruct (rev l ++ [d]) eqn:R; [now destruct (rev l)|]. exact H2.
Qed.

Lemma splitLines_join (ls : list jsstring) :
  ls <> [] -> Forall lineOk ls ->
  splitLines (join [LF] ls ++ [LF]) = ls ++ [[]].
Proof.
  intros Hne H. induction H as [|l ls Hl Hls IH]; [easy|].
  destruct ls as [|l' ls'].
  - cbn [join app]. now rewrite splitLines_line.
  - change (join [LF] (l :: l' :: ls'))
      with (l ++ [LF] ++ join [LF] (l' :: ls')).
    rewrite <- !app_assoc. cbn [app]. rewrite splitLines_line by exact Hl.
    rewrite IH by discriminate. reflexivity.
Qed.

Lemma map_trimEnd_id (ls : list jsstring) :
  Forall lineOk ls -> map trimEnd ls = ls.
Proof.
  intros H. induction H as [|l ls [_ Hl] _ IH]; [reflexivity|].
  simpl. now rewrite IH, noTrailing_trimEnd.
Qed.

Lemma keepLines_fixed (ls : list jsstring) :
  Forall lineOk ls ->
  forall bc, runsWithin bc ls = true ->
  exists e, Forall (fun x => x = []) e
            /\ keepLines (ls ++ [[]]) bc = ls ++ e.
Proof.
  intros H. induction H as [|l ls [_ Hl] _ IH]; intros bc Hr.
  - cbn [app keepLines trim trimEnd rev dropWhile isEmpty].
    destruct (S bc <=? 2); [exists [[]] | exists []]; repeat constructor.
  - cbn [app keepLines runsWithin] in *.
    rewrite (trim_empty l Hl), <- (noTrailing_blank l Hl).
    destruct (blank l) eqn:B.
    + apply andb_prop in Hr as [Hb Hr]. rewrite Hb.
      destruct (IH _ Hr) as [e [He1 He2]]. exists e. split; [exact He1|].
      rewrite He2. rewrite (noTrailing_blank l Hl) in B.
      now destruct l.
    + destruct (IH _ Hr) as [e [He1 He2]]. exists e. split; [exact He1|].
      now rewrite He2.
Qed.

Lemma dropEmpty_app (e l : list jsstring) :
  Forall (fun x => x = []) e -> dropEmpty (e ++ l) = dropEmpty l.
Proof.
  intros H. induction H as [|x e Hx _ IH]; [reflexivity|].
  subst x. exact IH.
Qed.

Lemma popBlank_fixed (ls e : list jsstring) :
  lastNonEmpty ls -> Forall (fun x => x = []) e ->
  popBlank (ls ++ e) = ls.
Proof.
  intros Hl He. unfold popBlank. rewrite rev_app_distr.
  rewrite dropEmpty_app by now apply Forall_rev.
  destruct (rev ls) as [|x r] eqn:R.
  - apply (f_equal (@rev jsstring)) in R. rewrite rev_involutive in R.
    now subst ls.
  - assert (E : ls = rev r ++ [x]).
    { apply (f_equal (@rev jsstring)) in R. now rewrite rev_involutive in R. }
    specialize (Hl _ _ E). cbn [dropEmpty].
    destruct x; [easy|]. cbn [isEmpty]. rewrite <- R. apply rev_involutive.
Qed.

Lemma lineProcessing_fixed (ls : list jsstring) :
  Forall lineOk ls -> runsWithin 0 ls = true -> lastNonEmpty ls ->
  lineProcessing (join [LF] ls ++ [LF]) = join [LF] ls ++ [LF].
Proof.
  intros H1 H2 H3. rewrite lineProcessing_lines. do 2 f_equal.
  unfold cleanLines. destruct ls as [|l ls]; [reflexivity|].
  rewrite splitLines_join by (discriminate || assumption).
  rewrite map_app, map_trimEnd_id by assumption.
  destruct (keepLines_fixed H1 0 H2) as [e [He1 He2]].
  cbn [map trimEnd rev dropWhile].
  transitivity (popBlank ((l :: ls) ++ e));
    [apply f_equal; exact He2 | now apply popBlank_fixed].
Qed.

Lemma expandTab_id (text : jsstring) :
  forallb (fun c => negb (c =? TAB)%N) text = true ->
  flat_map expandTab text = text.
Proof.
  induction text as [|c rest IH]; intros H; [reflexivity|].
  simpl in H. apply andb_prop in H as [Hc Hr].
  apply negb_true_iff in Hc. cbn [flat_map]. unfold expandTab at 1.
  now rewrite Hc, (IH Hr).
Qed.

Lemma expandTab_no_tab (text : jsstring) :
  forallb (fun c => negb (c =? TAB)%N) (flat_map expandTab text) = true.
Proof.
  induction text as [|c rest IH]; [reflexivity|].
  cbn [flat_map]. rewrite forallb_app.
  apply andb_true_intro. split; [|exact IH].
  unfold expandTab. destruct (c =? TAB)%N eqn:E; [reflexivity|].
  simpl. now rewrite E.
Qed.

(** The whitespace-only formatter is idempotent on every text. *)
Lemma formatWhitespace_idempotent (text : jsstring) :
  formatWhitespace (formatWhitespace text) = formatWhitespace text.
Proof.
  rewrite !formatWhitespace_lines.
  set (t := normalizeTabs text).
  assert (Ht : forallb (fun c => negb (c =? TAB)%N) (lineProcessing t) = true).
  { apply lineProcessing_class; [reflexivity|].
    unfold t. rewrite normalizeTabs_expand. apply expandTab_no_tab. }
  rewrite (normalizeTabs_expand (lineProcessing t)), (expandTab_id _ Ht).
  rewrite (lineProcessing_lines t).
  destruct (cleanLines_ok t) as [H1 [H2 H3]].
  now apply lineProcessing_fixed.
Qed.

(** *** Characters of a rewritten text *)

Lemma rewriteFrom_class (d : decision) (q : char -> bool) :
  (forall bef aft len rep, d bef aft = Some (len, rep) ->
     forallb q rep = true) ->
  forall aft, forallb q aft = true ->
  forall bef skip, forallb q (rewriteFrom d bef aft skip) = true.
Proof.
  intros Hd aft. induction aft as [|c rest IH]; intros Hq bef skip.
  - destruct skip; [|reflexivity]. cbn [rewriteFrom].
    destruct (d bef []) as [[len rep]|] eqn:E; [|reflexivity].
    exact (Hd _ _ _ _ E).
  - simpl in Hq. apply andb_prop in Hq as [Hc Hr].
    destruct skip as [|n]; cbn [rewriteFrom]; [|now apply IH].
    destruct (d bef (c :: rest)) as [[len rep]|] eqn:E.
    + pose proof (Hd _ _ _ _ E) as Hrep.
      destruct len; rewrite forallb_app, Hrep; cbn [andb forallb].
      * rewrite Hc. now apply IH.
      * now apply IH.
    + cbn [forallb]. rewrite Hc. now apply IH.
Qed.

Lemma padOpAt_class (q : char -> bool) (ops : list string)
  (aft : jsstring) (len : nat) (rep : jsstring) :
  q SP = true -> forallb (forallb q) (map str ops) = true ->
  padOpAt ops aft = Some (len, rep) -> forallb q rep = true.
Proof.
  intros Hsp Hops H. apply padOpAt_result in H as [op [F [-> _]]].
  apply find_some in F as [Hin _].
  rewrite forallb_forall in Hops. specialize (Hops op Hin).
  unfold padded. rewrite !forallb_app, Hops. simpl. now rewrite Hsp.
Qed.

Lemma spacing_class (q : char -> bool) (text : jsstring) :
  q SP = true -> q 44%N = true ->
  forallb (forallb q) (map str alwaysBinaryOps) = true ->
  forallb (forallb q) (map str ambiguousOps) = true ->
  forallb q text = true -> forallb q (spacing text) = true.
Proof.
  intros Hsp Hcomma Hs Ha H. unfold spacing.
  rewrite spaceCommas_rewrite, padAmbiguous_rewrite, padSafe_rewrite,
    normalizeTabs_expand.
  apply rewriteFrom_class.
  { intros bef aft len rep E. unfold commaAt in E.
    destruct (dropWhile isSpace aft) as [|c r]; [discriminate|].
    destruct (c =? 44)%N; [|discriminate]. injection E as _ <-.
    simpl. change 32%N with SP. now rewrite Hcomma, Hsp. }
  apply rewriteFrom_class.
  { intros bef aft len rep E. unfold ambiguousAt in E.
    destruct (headIs isOperandEnd bef); [|discriminate].
    now apply (padOpAt_class q ambiguousOps aft Hsp Ha E). }
  apply rewriteFrom_class.
  { intros bef aft len rep E.
    now apply (padOpAt_class q alwaysBinaryOps aft Hsp Hs E). }
  now apply expandTab_class.
Qed.

(** A character that starts no string, comment or number. *)
Definition unmasked (c : char) : bool :=
  negb (startsLiteral c) && negb (isDigit c).

(** Nothing is masked in a text without quotes, [#] and digits. *)
Lemma formatBuiltin_unmasked (text : jsstring) :
  forallb unmasked text = true ->
  formatBuiltin text = lineProcessing (spacing text).
Proof.
  intros H. unfold formatBuiltin, maskAll.
  assert (Hd : forallb (fun c => negb (isDigit c)) text = true).
  { apply (forallb_impl unmasked); [|exact H].
    intros c Hc. now apply andb_prop in Hc. }
  rewrite mask_strings_untouched.
  2:{ apply (forallb_impl unmasked); [|exact H].
      intros c Hc. now apply andb_prop in Hc. }
  rewrite (mask_numbers_untouched _ _ Hd).
  apply restore_untouched.
  apply lineProcessing_class; [reflexivity|].
  now apply spacing_class.
Qed.

(** ** Line cleanup *)

(** The shape of a cleaned text: lines without line feed and without
    trailing white space, joined by line feeds and closed by one; no three
    blank lines in a row; the last line is not empty. *)
Definition cleanText (out : jsstring) : Prop :=
  exists ls,
    out = join [LF] ls ++ [LF]
    /\ Forall (fun l => noLF l = true /\ noTrailingSpace l = true) ls
    /\ (forall pre a b c post,
          ls = pre ++ a :: b :: c :: post ->
          blank a && blank b && blank c = false)
    /\ (forall ls' l, ls = ls' ++ [l] -> blank l = false).

Lemma lineProcessing_clean (text : jsstring) :
  cleanText (lineProcessing text).
Proof.
  exists (cleanLines text).
  destruct (cleanLines_ok text) as [H1 [H2 H3]].
  split; [apply lineProcessing_lines|]. split; [exact H1|].
  split; [intros pre a b c post E; eapply runsWithin_no_triple; eauto|].
  intros ls' l E. specialize (H3 _ _ E).
  rewrite E in H1. apply Forall_app in H1 as [_ H1].
  inversion H1 as [|? ? [_ Hl] _]; subst.
  rewrite (noTrailing_blank l Hl). now destruct l.
Qed.

(** ** The whitespace-only formatter and the full one *)

Definition isLetter (c : char) : bool :=
  in_range 65 90 c || in_range 97 122 c.

Definition letterOrBlank (c : char) : bool :=
  isLetter c || (c =? SP)%N || (c =? TAB)%N || (c =? LF)%N.

Lemma letterOrBlank_plain (c : char) :
  letterOrBlank c = true -> plain c = true.
Proof.
  unfold letterOrBlank, isLetter, plain, startsLiteral, isDigit,
    isOperatorChar, oneOf, in_range, DQ, SQ, HASH, SP, TAB, LF.
  cbn -[N.eqb N.leb]. intros H.
  rewrite !orb_true_iff, !andb_true_iff, !N.eqb_eq, !N.leb_le in H.
  apply negb_true_iff.
  rewrite !orb_false_iff, andb_false_iff, !N.eqb_neq, !N.leb_gt.
  lia.
Qed.

(** Written from the description of the variant: a blank line is dropped
    when the two lines before it are blank ([b2], [b1] say whether the
    line two back and the line before are blank). *)
Fixpoint collapseRuns (b2 b1 : bool) (lines : list jsstring)
  : list jsstring :=
  match lines with
  | [] => []
  | l :: rest =>
      if isEmpty l && b1 && b2 then collapseRuns b1 true rest
      else l :: collapseRuns b1 (isEmpty l) rest
  end.

Lemma collapseBlankWs_runs (lines : list jsstring) :
  forall bc result b2 b1,
    b1 = (1 <=? bc) -> (b1 = true -> b2 = (2 <=? bc)) ->
    collapseBlankWs lines bc result = result ++ collapseRuns b2 b1 lines.
Proof.
  induction lines as [|l rest IH]; intros bc result b2 b1 H1 H2.
  - simpl. now rewrite app_nil_r.
  - cbn [collapseBlankWs collapseRuns].
    destruct l as [|c l]; cbn [isEmpty andb].
    + destruct bc as [|[|bc]]; subst b1; cbn [Nat.leb] in *.
      * rewrite (IH 1 _ false true) by easy. now rewrite <- app_assoc.
      * rewrite (H2 eq_refl). cbn [Nat.leb andb].
        rewrite (IH 2 _ true true) by easy. now rewrite <- app_assoc.
      * rewrite (H2 eq_refl). cbn [Nat.leb andb].
        now rewrite (IH (S (S (S bc))) _ true true) by easy.
    + rewrite (IH 0 _ b1 false) by easy. now rewrite <- app_assoc.
Qed.

(** Written from the description of the variant: the lines without the
    blank lines at the end. *)
Fixpoint withoutTrailingBlank (lines : list jsstring) : list jsstring :=
  match lines with
  | [] => []
  | l :: rest =>
      if forallb blank (l :: rest) then []
      else l :: withoutTrailingBlank rest
  end.

Lemma withoutTrailingBlank_blank (q : list jsstring) :
  forallb blank q = true -> withoutTrailingBlank q = [].
Proof. destruct q as [|l q]; [reflexivity|]. cbn [withoutTrailingBlank]. now intros ->. Qed.

Lemma withoutTrailingBlank_app (p q : list jsstring) :
  (forall p' l, p = p' ++ [l] -> blank l = false) ->
  forallb blank q = true ->
  withoutTrailingBlank (p ++ q) = p.
Proof.
  intros Hp Hq. induction p as [|l p IH]; cbn [app].
  - now apply withoutTrailingBlank_blank.
  - cbn [withoutTrailingBlank].
    assert (E : forallb blank ((l :: p) ++ q) = false).
    { destruct (@exists_last _ (l :: p)) as [p' [x Ex]]; [discriminate|].
      rewrite Ex, <- app_assoc, forallb_app. cbn [app forallb].
      rewrite (Hp p' x Ex). cbn [andb]. apply andb_false_r. }
    cbn [app] in E. rewrite E. f_equal. apply IH.
    intros p' x Ex. apply (Hp (l :: p') x). cbn [app]. now f_equal.
Qed.

(** The loop that pops the empty lines at the end removes the blank lines
    at the end, when a blank line is an empty one. *)
Lemma popBlank_trailing (ls : list jsstring) :
  Forall (fun l => blank l = isEmpty l) ls ->
  popBlank ls = withoutTrailingBlank ls.
Proof.
  intros H. destruct (popBlank_prefix ls) as [q [E Hq]].
  pose proof (popBlank_last ls) as Hl.
  rewrite E at 2. symmetry. apply withoutTrailingBlank_app.
  - intros p' l Ep. specialize (Hl p' l Ep).
    rewrite E in H. apply Forall_app in H as [H _].
    rewrite Ep in H. apply Forall_app in H as [_ H].
    inversion H as [|? ? Hx _]; subst. rewrite Hx. now destruct l.
  - clear - Hq. induction Hq as [|x q Hx _ IH]; [reflexivity|].
    subst x. exact IH.
Qed.

Lemma collapseRuns_Forall (P : jsstring -> Prop) (ls : list jsstring) :
  Forall P ls -> forall b2 b1, Forall P (collapseRuns b2 b1 ls).
Proof.
  induction 1 as [|l ls Hl _ IH]; intros b2 b1; cbn [collapseRuns];
    [constructor|].
  destruct (isEmpty l && b1 && b2); [apply IH | constructor; [exact Hl | apply IH]].
Qed.

(** C10. The whitespace-only formatter is tab expansion, trailing
    white-space stripping per line, collapsing of three or more blank lines
    in a row to two, removal of the blank lines at the end and one final
    line feed, and nothing else; on an input made of letters, spaces, tabs
    and line feeds the full formatter gives the same output. *)
Theorem whitespace_variant_agrees :
  (forall text,
     formatWhitespace text
     = join [LF]
         (withoutTrailingBlank
            (collapseRuns false false
               (map (fun l => trimEnd (flat_map expandTab l))
                    (splitLines text))))
       ++ [LF])
  /\ (forall text,
        forallb letterOrBlank text = true ->
        formatBuiltin text = formatWhitespace text).
Proof.
  split.
  - intros text. unfold formatWhitespace. rewrite split_lines.
    rewrite (@collapseBlankWs_runs _ 0 [] false false) by easy.
    cbn [app].
    assert (E : map (fun line => trimEnd (normalizeTabs line))
                    (splitLines text)
                = map (fun l => trimEnd (flat_map expandTab l))
                      (splitLines text)).
    { apply map_ext. intros l. now rewrite normalizeTabs_expand. }
    rewrite E, popBlank_trailing; [reflexivity|].
    apply collapseRuns_Forall, Forall_map, Forall_forall.
    intros l _. apply trimEnd_blank.
  - intros text H. rewrite formatWhitespace_lines.
    apply formatBuiltin_plain.
    now apply (forallb_impl letterOrBlank); [exact letterOrBlank_plain|].
Qed.

Lemma whitespace_variant_witness :
  forallb letterOrBlank (str "ab " ++ [TAB; LF; LF; LF; LF] ++ str "c") = true
  /\ formatBuiltin (str "ab " ++ [TAB; LF; LF; LF; LF] ++ str "c")
     = formatWhitespace (str "ab " ++ [TAB; LF; LF; LF; LF] ++ str "c").
Proof.
  split; [reflexivity|].
  apply (proj2 whitespace_variant_agrees). reflexivity.
Defined.

(** ** Idempotence *)


(** The same happens without any reserved text, when a comma on the next
    line is pulled up behind a backslash. *)
Lemma formatBuiltin_not_idempotent_backslash :
  formatBuiltin (formatBuiltin ([SQ; BSL; LF] ++ str ",'-x"))
  <> formatBuiltin ([SQ; BSL; LF] ++ str ",'-x").
Proof. vm_compute. discriminate. Qed.



(** ** The always-binary rule *)

(** At the end of a line the space after the operator is stripped again. *)
Lemma operator_at_line_end :
  exists pre post,
    formatBuiltin (str "a=") = pre ++ str "=" ++ LF :: post.
Proof. exists (str "a "), []. vm_compute. reflexivity. Qed.

(** Two operators in a row are separated by two spaces. *)
Lemma operators_in_a_row :
  formatBuiltin (str "a=<b") = str "a =  < b" ++ [LF].
Proof. vm_compute. reflexivity. Qed.

(** The arithmetic rule, applied after the always-binary rule, splits the
    compound assignments [+=], [-=], [*=] and the arrow [->]. *)
Lemma compound_assignment_split :
  formatBuiltin (str "a+=b") = str "a + = b" ++ [LF]
  /\ formatBuiltin (str "a-=b") = str "a - = b" ++ [LF]
  /\ formatBuiltin (str "a*=b") = str "a * = b" ++ [LF]
  /\ formatBuiltin (str "def f()->int:") = str "def f() - > int:" ++ [LF]
  /\ padSafe (str "a+=b") = str "a += b".
Proof. repeat split; vm_compute; reflexivity. Qed.

(** C3, as the code has it.  The always-binary rule is exactly the scan
    that replaces, wherever one of the listed operators starts after
    optional white space, that white space, the operator and the white
    space after it by the operator between two single spaces; an operator
    is listed before every operator it starts with, so [==] is found
    before [=]; [a==b] becomes [a == b]. *)
Theorem always_binary_padding :
  (forall text, padSafe text = rewrite safeAt text)
  /\ (forall bef aft,
        safeAt bef aft <> None <->
        exists op, In op (map str alwaysBinaryOps)
                   /\ prefixb op (dropWhile isSpace aft) = true)
  /\ (forall bef aft len rep,
        safeAt bef aft = Some (len, rep) ->
        exists op,
          find (fun w => prefixb w (dropWhile isSpace aft))
               (map str alwaysBinaryOps) = Some op
          /\ rep = [SP] ++ op ++ [SP]
          /\ firstn len aft =
             takeWhile isSpace aft ++ op
             ++ takeWhile isSpace (skipn (length op) (dropWhile isSpace aft)))
  /\ longestFirst (map str alwaysBinaryOps) = true
  /\ formatBuiltin (str "a==b") = str "a == b" ++ [LF].
Proof.
  split; [exact padSafe_rewrite|].
  split; [intros bef aft; apply padOpAt_fires|].
  split.
  { intros bef aft len rep H.
    apply padOpAt_result in H as [op [H1 [H2 [H3 _]]]]. now exists op. }
  split; vm_compute; reflexivity.
Qed.

Lemma always_binary_witness :
  safeAt [] (str " <= b") = Some (4, str " <= ")
  /\ exists op,
       find (fun w => prefixb w (dropWhile isSpace (str " <= b")))
            (map str alwaysBinaryOps) = Some op
       /\ str " <= " = [SP] ++ op ++ [SP]
       /\ firstn 4 (str " <= b") =
          takeWhile isSpace (str " <= b") ++ op
          ++ takeWhile isSpace
               (skipn (length op) (dropWhile isSpace (str " <= b"))).
Proof.
  split; [reflexivity|].
  apply (proj1 (proj2 (proj2 always_binary_padding)) []). reflexivity.
Defined.

(** ** The comma rule *)

Lemma rewriteFrom_skip (d : decision) (w rest : jsstring) :
  forall bef,
    rewriteFrom d bef (w ++ rest) (length w)
    = rewriteFrom d (rev w ++ bef) rest 0.
Proof.
  induction w as [|c w IH]; intros bef.
  - reflexivity.
  - cbn [app length rewriteFrom]. rewrite IH. cbn [rev].
    now rewrite <- app_assoc.
Qed.

Lemma rewriteFrom_fire (d : decision) (bef w rest rep : jsstring) :
  w <> [] -> d bef (w ++ rest) = Some (length w, rep) ->
  rewriteFrom d bef (w ++ rest) 0
  = rep ++ rewriteFrom d (rev w ++ bef) rest 0.
Proof.
  intros Hw H. destruct w as [|c w]; [easy|].
  cbn [app rewriteFrom]. cbn [app] in H. rewrite H. cbn [length].
  rewrite rewriteFrom_skip. cbn [rev]. now rewrite <- app_assoc.
Qed.

(** What the comma rule replaces: the white space, the comma and the white
    space after it. *)
Lemma commaAt_shape (bef aft : jsstring) (len : nat) (rep : jsstring) :
  commaAt bef aft = Some (len, rep) ->
  rep = str ", "
  /\ exists ws1 ws2 rest,
       aft = (ws1 ++ 44%N :: ws2) ++ rest
       /\ len = length (ws1 ++ 44%N :: ws2)
       /\ ws1 = takeWhile isSpace aft
       /\ forallb isSpace ws2 = true
       /\ headIs isSpace rest = false.
Proof.
  unfold commaAt. intros H.
  pose proof (takeWhile_dropWhile isSpace aft) as E.
  destruct (dropWhile isSpace aft) as [|c r]; [discriminate|].
  destruct (c =? 44)%N eqn:Ec; [|discriminate].
  apply N.eqb_eq in Ec. subst c. injection H as H1 H2.
  split; [now symmetry|].
  exists (takeWhile isSpace aft), (takeWhile isSpace r), (dropWhile isSpace r).
  assert (Ha : aft = (takeWhile isSpace aft ++ 44%N :: takeWhile isSpace r)
                     ++ dropWhile isSpace r).
  { rewrite <- app_assoc. cbn [app].
    now rewrite (takeWhile_dropWhile isSpace r). }
  split; [exact Ha|]. split.
  - rewrite <- H1. rewrite Ha at 1. rewrite length_app.
    apply Nat.add_sub.
  - split; [reflexivity|]. split; [apply takeWhile_all|].
    apply dropWhile_head.
Qed.

Lemma commaAt_none_head (bef : jsstring) (c : char) (rest : jsstring) :
  commaAt bef (c :: rest) = None -> c <> 44%N.
Proof. intros H ->. discriminate. Qed.

Lemma commaAt_space_step (b b' : jsstring) (c : char) (rest : jsstring) :
  isSpace c = true -> commaAt b (c :: rest) = None ->
  commaAt b' rest = None.
Proof.
  unfold commaAt. cbn [dropWhile]. intros -> H.
  destruct (dropWhile isSpace rest) as [|x r]; [reflexivity|].
  destruct (x =? 44)%N; [discriminate | reflexivity].
Qed.

Lemma headIs_app (p : char -> bool) (l x : jsstring) :
  headIs p l = true -> headIs p (l ++ x) = true.
Proof. now destruct l. Qed.

Definition commaFollowed (out : jsstring) : Prop :=
  forall pre post, out = pre ++ 44%N :: post ->
    exists post', post = SP :: post' /\ headIs isSpace post' = false.

Definition commaPreceded (out : jsstring) : Prop :=
  forall pre post, out = pre ++ 44%N :: post ->
    match rev pre with
    | [] => True
    | x :: r => isSpace x = false \/ (x = SP /\ headIs (N.eqb 44) r = true)
    end.

Lemma commaScan_props (n : nat) :
  forall aft, length aft <= n ->
  forall bef,
    let out := rewriteFrom commaAt bef aft 0 in
    (headIs isSpace aft = false -> headIs isSpace out = false)
    /\ (headIs (N.eqb 44) out = true -> commaAt bef aft <> None)
    /\ commaFollowed out /\ commaPreceded out.
Proof.
  induction n as [|n IH]; intros aft Hn bef out.
  - destruct aft; [|simpl in Hn; lia]. subst out. cbn.
    repeat split; try easy; intros pre post E; now destruct pre.
  - destruct (commaAt bef aft) as [[len rep]|] eqn:D.
    + destruct (commaAt_shape _ _ D) as [-> [ws1 [ws2 [rest [Ha [Hl [_ [_ Hr]]]]]]]].
      subst len. subst out. rewrite Ha in D |- *.
      assert (Hw : ws1 ++ 44%N :: ws2 <> []) by now destruct ws1.
      rewrite (@rewriteFrom_fire commaAt bef _ rest _ Hw D).
      set (out' := rewriteFrom commaAt _ rest 0).
      assert (Hlen : length rest <= n).
      { rewrite Ha, length_app, length_app in Hn. simpl in Hn. lia. }
      destruct (IH rest Hlen (rev (ws1 ++ 44%N :: ws2) ++ bef))
        as [I1 [_ [I3 I4]]]. fold out' in I1, I3, I4.
      specialize (I1 Hr).
      split; [reflexivity|]. split; [easy|]. split.
      * intros pre post E. cbn [str list_ascii_of_string map app] in E.
        change (N_of_ascii ",") with 44%N in E.
        change (N_of_ascii " ") with SP in E.
        destruct pre as [|x pre]; cbn [app] in E.
        -- injection E as <-. now exists out'.
        -- injection E as <- E. destruct pre as [|y pre]; cbn [app] in E;
             [discriminate|]. injection E as <- E. exact (I3 _ _ E).
      * intros pre post E. cbn [str list_ascii_of_string map app] in E.
        change (N_of_ascii ",") with 44%N in E.
        change (N_of_ascii " ") with SP in E.
        destruct pre as [|x pre]; cbn [app] in E; [exact I|].
        injection E as <- E. destruct pre as [|y pre]; cbn [app] in E;
          [discriminate|]. injection E as <- E.
        specialize (I4 _ _ E). cbn [rev].
        destruct (rev pre) as [|z r] eqn:R.
        -- cbn. right. split; reflexivity.
        -- cbn [app]. destruct I4 as [I4|[I4 I5]]; [now left|].
           right. split; [exact I4|]. now do 2 apply headIs_app.
    + destruct aft as [|c rest].
      { subst out. cbn [rewriteFrom]. rewrite D.
        repeat split; try easy; intros pre post E; now destruct pre. }
      subst out. cbn [rewriteFrom]. rewrite D.
      set (out' := rewriteFrom commaAt (c :: bef) rest 0).
      simpl in Hn.
      destruct (IH rest ltac:(lia) (c :: bef)) as [I1 [I2 [I3 I4]]].
      fold out' in I1, I2, I3, I4.
      pose proof (@commaAt_none_head _ _ _ D) as Hc.
      split; [now intros H|]. split.
      { cbn [headIs]. intros H. apply N.eqb_eq in H. congruence. }
      split.
      * intros pre post E. destruct pre as [|x pre]; cbn [app] in E.
        -- injection E as E _. congruence.
        -- injection E as <- E. exact (I3 _ _ E).
      * intros pre post E. destruct pre as [|x pre]; cbn [app] in E.
        -- exact I.
        -- injection E as <- E. specialize (I4 _ _ E). cbn [rev].
           destruct (rev pre) as [|z r] eqn:R.
           ++ cbn [app]. left.
              destruct (isSpace c) eqn:Sc; [|reflexivity]. exfalso.
              assert (pre = []).
              { apply (f_equal (@rev char)) in R.
                now rewrite rev_involutive in R. }
              subst pre. cbn [app] in E.
              apply I2; [rewrite E; reflexivity|].
              exact (@commaAt_space_step _ _ _ _ Sc D).
           ++ cbn [app]. destruct I4 as [I4|[I4 I5]]; [now left|].
              right. split; [exact I4|]. now apply headIs_app.
Qed.

(** A comma that ends its line loses the space put after it. *)
Lemma comma_at_line_end :
  exists pre post,
    formatBuiltin (str "a,") = pre ++ 44%N :: LF :: post.
Proof. exists (str "a"), []. vm_compute. reflexivity. Qed.

(** A comma right after a comma has that comma's space in front of it. *)
Lemma comma_after_comma :
  formatBuiltin (str "a,,b") = str "a, , b" ++ [LF].
Proof. vm_compute. reflexivity. Qed.

(** C6, as the code has it.  The comma rule is exactly the scan that
    replaces every comma, together with the white space before and after
    it, by a comma and one space.  In the text it produces every comma is
    followed by exactly one space, and what precedes a comma is not white
    space, except for the space that belongs to a comma just before;
    [a,b,c] becomes [a, b, c]. *)
Theorem comma_spacing_rule :
  (forall text, spaceCommas text = rewrite commaAt text)
  /\ (forall bef aft len rep,
        commaAt bef aft = Some (len, rep) ->
        rep = str ", "
        /\ exists ws1 ws2 rest,
             aft = (ws1 ++ 44%N :: ws2) ++ rest
             /\ len = length (ws1 ++ 44%N :: ws2)
             /\ ws1 = takeWhile isSpace aft
             /\ forallb isSpace ws2 = true
             /\ headIs isSpace rest = false)
  /\ (forall text,
        commaFollowed (spaceCommas text) /\ commaPreceded (spaceCommas text))
  /\ formatBuiltin (str "a,b,c") = str "a, b, c" ++ [LF].
Proof.
  split; [exact spaceCommas_rewrite|].
  split; [exact commaAt_shape|].
  split; [|vm_compute; reflexivity].
  intros text. rewrite spaceCommas_rewrite. unfold rewrite.
  now destruct (@commaScan_props (length text) text (le_n _) [])
    as [_ [_ H]].
Qed.

Lemma comma_spacing_witness :
  commaAt [] (str " , b") = Some (3, str ", ")
  /\ str ", " = str ", "
  /\ exists ws1 ws2 rest,
       str " , b" = (ws1 ++ 44%N :: ws2) ++ rest
       /\ 3 = length (ws1 ++ 44%N :: ws2)
       /\ ws1 = takeWhile isSpace (str " , b")
       /\ forallb isSpace ws2 = true
       /\ headIs isSpace rest = false.
Proof.
  split; [reflexivity|].
  apply (proj1 (proj2 comma_spacing_rule) []). reflexivity.
Defined.

(** ** Evaluating the patterns of the error parser *)

Lemma spanEnd_cons (p : char -> bool) (bef : jsstring) (c0 : char)
  (rest : jsstring) (c : option jsstring) :
  p c0 = true ->
  spanEnd p (c0 :: bef) rest c = spanEnd p bef (c0 :: rest) c.
Proof.
  intros H. unfold spanEnd. cbn [takeWhile dropWhile]. rewrite H.
  cbn [rev]. now rewrite <- app_assoc.
Qed.

Lemma m_Cls (p : char -> bool) (k : cont) (bef aft : jsstring)
  (c : option jsstring) :
  m (Cls p) k (MState bef aft c) =
  match aft with
  | c0 :: rest => if p c0 then k (MState (c0 :: bef) rest c) else None
  | [] => None
  end.
Proof. reflexivity. Qed.

(** [p+] before something that cannot start with a [p]. *)
Lemma m_plus_cls_strict (p : char -> bool) (k : cont) (bef aft : jsstring)
  (c : option jsstring) :
  (forall b a c', headIs p a = true -> k (MState b a c') = None) ->
  m (Plus (Cls p)) k (MState bef aft c) =
  if headIs p aft then k (spanEnd p bef aft c) else None.
Proof.
  intros Hk. unfold Plus. rewrite m_Seq, m_Cls.
  destruct aft as [|c0 rest]; [reflexivity|]. cbn [headIs].
  destruct (p c0) eqn:E; [|reflexivity].
  rewrite m_star_cls_strict by exact Hk. now rewrite spanEnd_cons.
Qed.

(** [p+] before something that succeeds after the longest run. *)
Lemma m_plus_cls_longest (p : char -> bool) (k : cont) (bef aft : jsstring)
  (c : option jsstring) (x : mstate) :
  headIs p aft = true -> k (spanEnd p bef aft c) = Some x ->
  m (Plus (Cls p)) k (MState bef aft c) = Some x.
Proof.
  intros Hp Hk. unfold Plus. rewrite m_Seq, m_Cls.
  destruct aft as [|c0 rest]; [discriminate|]. cbn [headIs] in Hp.
  rewrite Hp. apply m_star_cls_longest. now rewrite spanEnd_cons.
Qed.

Lemma m_plus_cls_none (p : char -> bool) (k : cont) (s : mstate) :
  headIs p (after s) = false -> m (Plus (Cls p)) k s = None.
Proof.
  intros H. unfold Plus. rewrite m_Seq. destruct s as [b a c].
  rewrite m_Cls. cbn [after] in H. destruct a as [|c0 rest]; [reflexivity|].
  cbn [headIs] in H. now rewrite H.
Qed.

Lemma jsstring_eqb_eq (a b : jsstring) : jsstring_eqb a b = true <-> a = b.
Proof. unfold jsstring_eqb. now destruct (list_eq_dec N.eq_dec a b). Qed.

Lemma jsstring_eqb_cons (a b : char) (u w : jsstring) :
  jsstring_eqb (a :: u) (b :: w) = (a =? b)%N && jsstring_eqb u w.
Proof.
  destruct (jsstring_eqb (a :: u) (b :: w)) eqn:E.
  - apply jsstring_eqb_eq in E. injection E as -> ->.
    rewrite N.eqb_refl. symmetry. now apply jsstring_eqb_eq.
  - destruct (a =? b)%N eqn:E1; [|reflexivity].
    destruct (jsstring_eqb u w) eqn:E2; [|reflexivity].
    apply N.eqb_eq in E1. apply jsstring_eqb_eq in E2. subst.
    now rewrite (proj2 (jsstring_eqb_eq _ _) eq_refl) in E.
Qed.

(** A literal made of [p]-characters and a final non-[p] character starts
    in a run of [p]-characters only where the run ends with its
    [p]-part. *)
Lemma prefixb_run (p : char -> bool) (x : char) (u : jsstring) :
  forallb p u = true -> p x = false ->
  forall w rest,
    forallb p w = true -> headIs p rest = false ->
    prefixb (u ++ [x]) (w ++ rest)
    = jsstring_eqb u w && headIs (N.eqb x) rest.
Proof.
  intros Hu Hx. induction u as [|a u IH]; intros w rest Hw Hr.
  - destruct w as [|y w]; cbn [app prefixb].
    + destruct rest as [|r0 rest]; [reflexivity|]. cbn [headIs].
      now rewrite andb_true_r.
    + simpl in Hw. apply andb_prop in Hw as [Hy _].
      destruct (x =? y)%N eqn:E; [|reflexivity].
      apply N.eqb_eq in E. congruence.
  - simpl in Hu. apply andb_prop in Hu as [Ha Hu].
    destruct w as [|y w]; cbn [app prefixb].
    + destruct rest as [|r0 rest]; [reflexivity|].
      cbn [headIs] in Hr.
      destruct (a =? r0)%N eqn:E; [|reflexivity].
      apply N.eqb_eq in E. congruence.
    + simpl in Hw. apply andb_prop in Hw as [_ Hw].
      rewrite (IH Hu w rest Hw Hr), jsstring_eqb_cons.
      now rewrite andb_assoc.
Qed.

Fixpoint endsWith (u w : jsstring) : bool :=
  jsstring_eqb u w
  || match w with
     | [] => false
     | _ :: w' => endsWith u w'
     end.

Lemma endsWith_length (u w : jsstring) :
  endsWith u w = true -> length u <= length w.
Proof.
  induction w as [|y w IH]; cbn [endsWith]; intros H.
  - rewrite orb_false_r in H. apply jsstring_eqb_eq in H. now subst.
  - apply orb_prop in H as [H|H].
    + apply jsstring_eqb_eq in H. now subst.
    + specialize (IH H). simpl. lia.
Qed.

Lemma skipn_app_exact (a b : jsstring) : skipn (length a) (a ++ b) = b.
Proof. induction a as [|x a IH]; [reflexivity | exact IH]. Qed.

Lemma starCls_lit_suffix (p : char -> bool) (x : char) (u : jsstring)
  (k2 : cont) (rest : jsstring) (c : option jsstring) :
  forallb p u = true -> p x = false -> headIs p rest = false ->
  forall w bef,
    forallb p w = true ->
    starCls (m (Lit (u ++ [x])) k2) bef w rest c =
    if endsWith u w && headIs (N.eqb x) rest
    then k2 (MState (rev (w ++ [x]) ++ bef) (tl rest) c)
    else None.
Proof.
  intros Hu Hx Hr. induction w as [|y w IH]; intros bef Hw.
  - cbn [starCls endsWith]. rewrite m_Lit, orb_false_r.
    change rest with ([] ++ rest) at 1.
    rewrite (prefixb_run p x u Hu Hx [] rest eq_refl Hr).
    destruct (jsstring_eqb u []) eqn:E; [|reflexivity].
    apply jsstring_eqb_eq in E. subst u. cbn [andb app length].
    destruct rest as [|r0 rest]; [reflexivity|]. cbn [headIs skipn tl].
    destruct (x =? r0)%N eqn:E; [|reflexivity]. reflexivity.
  - pose proof Hw as Hw'. simpl in Hw'. apply andb_prop in Hw' as [_ Hw'].
    cbn [starCls]. rewrite (IH (y :: bef) Hw'), m_Lit.
    change (y :: w ++ rest) with ((y :: w) ++ rest).
    rewrite (prefixb_run p x u Hu Hx (y :: w) rest Hw Hr).
    cbn [endsWith].
    destruct (endsWith u w && headIs (N.eqb x) rest) eqn:E1.
    + apply andb_prop in E1 as [E1 E2]. rewrite E1, E2, orb_true_r.
      cbn [andb].
      assert (En : jsstring_eqb u (y :: w) = false).
      { destruct (jsstring_eqb u (y :: w)) eqn:E; [|reflexivity].
        apply jsstring_eqb_eq in E. apply endsWith_length in E1.
        subst u. simpl in E1. lia. }
      rewrite En. cbn [andb]. rewrite orElse_None_r.
      cbn [app rev]. now rewrite <- !app_assoc.
    + cbn [orElse].
      destruct (jsstring_eqb u (y :: w)) eqn:E; cbn [orb andb].
      * destruct (headIs (N.eqb x) rest) eqn:E2; [|reflexivity].
        apply jsstring_eqb_eq in E. subst u.
        destruct rest as [|r0 rest]; [discriminate|].
        cbn [headIs] in E2. apply N.eqb_eq in E2. subst r0. cbn [tl].
        replace ((y :: w) ++ x :: rest) with (((y :: w) ++ [x]) ++ rest)
          by (now rewrite <- app_assoc).
        now rewrite skipn_app_exact.
      * now rewrite E1.
Qed.

Lemma headIs_takeWhile (p : char -> bool) (l : jsstring) :
  headIs p l = negb (isEmpty (takeWhile p l)).
Proof. destruct l as [|c l]; [reflexivity|]. simpl. now destruct (p c). Qed.

Lemma digit_not_space (c : char) : isDigit c = true -> isSpace c = false.
Proof.
  unfold isDigit, isSpace, in_range. intros H.
  rewrite andb_true_iff, !N.leb_le in H.
  rewrite !orb_false_iff, !andb_false_iff, !N.eqb_neq, !N.leb_gt. lia.
Qed.

Lemma space_head_no_digit (a : jsstring) :
  headIs isSpace a = true -> headIs isDigit a = false.
Proof.
  destruct a as [|c a]; [easy|]. cbn [headIs]. intros H.
  destruct (isDigit c) eqn:E; [|reflexivity].
  apply digit_not_space in E. congruence.
Qed.

(** A group of [p+] before something that always succeeds takes the
    longest run. *)
Lemma m_group_plus (p : char -> bool) (k : cont) (bef aft : jsstring)
  (c : option jsstring) :
  (forall s, k s <> None) ->
  m (Group (Plus (Cls p))) k (MState bef aft c) =
  if headIs p aft
  then k (MState (rev (takeWhile p aft) ++ bef) (dropWhile p aft)
                 (Some (takeWhile p aft)))
  else None.
Proof.
  intros Hk. rewrite m_Group. destruct (headIs p aft) eqn:H.
  - destruct (k (MState (rev (takeWhile p aft) ++ bef) (dropWhile p aft)
                        (Some (takeWhile p aft)))) as [x|] eqn:E;
      [|now apply Hk in E].
    apply m_plus_cls_longest; [exact H|].
    unfold spanEnd. cbn [before after]. rewrite <- E. do 3 f_equal.
    rewrite <- (takeWhile_dropWhile p aft) at 1. apply consumed_prefix.
  - now apply m_plus_cls_none.
Qed.

Lemma group_plus_space_head (p : char -> bool) (k : cont) :
  (forall a, headIs isSpace a = true -> headIs p a = false) ->
  forall b a c', headIs isSpace a = true ->
    m (Group (Plus (Cls p))) k (MState b a c') = None.
Proof.
  intros Hp b a c' Ha. apply m_first_none; [reflexivity|].
  specialize (Hp a Ha). destruct a as [|c0 a]; [reflexivity|].
  cbn [headIs first nullable Plus after orb andb] in *.
  now rewrite orb_false_r.
Qed.

(** What is left after a [line <N>] token at the start of [aft], and the
    digits of N; [None] when no token starts there.  The token is the word
    [line], white space, digits. *)
Definition lineSpacesRest (aft : jsstring)
  : option (jsstring * option jsstring) :=
  if prefixb (str "line") aft
  then
    let a1 := skipn 4 aft in
    let a2 := dropWhile isSpace a1 in
    if headIs isSpace a1 && headIs isDigit a2
    then Some (dropWhile isDigit a2, Some (takeWhile isDigit a2))
    else None
  else None.

(** The same with exactly one space after [line]. *)
Definition lineBlankRest (aft : jsstring)
  : option (jsstring * option jsstring) :=
  if prefixb (str "line ") aft
  then
    let a1 := skipn 5 aft in
    if headIs isDigit a1
    then Some (dropWhile isDigit a1, Some (takeWhile isDigit a1))
    else None
  else None.

Definition restAndGroup (s : mstate) : jsstring * option jsstring :=
  (after s, cap s).

Lemma lineSpaces_match (bef aft : jsstring) :
  option_map restAndGroup (matchAt lineSpacesPattern bef aft)
  = lineSpacesRest aft.
Proof.
  unfold matchAt, lineSpacesPattern, lineSpacesRest. cbn [Seqs].
  rewrite m_Seq, m_Lit. destruct (prefixb (str "line") aft); [|reflexivity].
  change (length (str "line")) with 4. rewrite m_Seq.
  rewrite m_plus_cls_strict
    by (apply group_plus_space_head, space_head_no_digit).
  destruct (headIs isSpace (skipn 4 aft)); [|reflexivity].
  unfold spanEnd. rewrite m_group_plus by discriminate.
  cbn [andb]. now destruct (headIs isDigit _).
Qed.

Lemma lineBlank_match (bef aft : jsstring) :
  option_map restAndGroup (matchAt lineBlankPattern bef aft)
  = lineBlankRest aft.
Proof.
  unfold matchAt, lineBlankPattern, lineBlankRest.
  rewrite m_Seq, m_Lit. destruct (prefixb (str "line ") aft); [|reflexivity].
  change (length (str "line ")) with 5.
  rewrite m_group_plus by discriminate.
  now destruct (headIs isDigit _).
Qed.

(** What is left after a compiler exception signature at the start of
    [aft], and the digits of its line number: [vyper.exceptions.], word
    characters that end with [Exception] (and at least one before it), a
    colon, white space, [line], white space, digits, the rest of the
    line. *)
Definition vyperRest (aft : jsstring) : option (jsstring * option jsstring) :=
  if prefixb (str "vyper.exceptions.") aft
  then
    match skipn 17 aft with
    | y0 :: a1 =>
        let r1 := dropWhile isWord a1 in
        if isWord y0 && endsWith (str "Exception") (takeWhile isWord a1)
           && headIs (N.eqb 58) r1
        then
          let a3 := tl r1 in
          let a4 := dropWhile isSpace a3 in
          if headIs isSpace a3 && prefixb (str "line") a4
          then
            let a5 := skipn 4 a4 in
            let a6 := dropWhile isSpace a5 in
            if headIs isSpace a5 && headIs isDigit a6
            then Some (dropWhile dot (dropWhile isDigit a6),
                       Some (takeWhile isDigit a6))
            else None
          else None
        else None
    | [] => None
    end
  else None.

Lemma space_head_no_line (a : jsstring) :
  headIs isSpace a = true -> prefixb (str "line") a = false.
Proof.
  destruct a as [|c a]; [easy|]. cbn [headIs]. intros H.
  cbn [str list_ascii_of_string map prefixb].
  destruct (N_of_ascii "l" =? c)%N eqn:E; [|reflexivity].
  apply N.eqb_eq in E. subst c. discriminate.
Qed.

Lemma rest_of_line (bef aft : jsstring) (c : option jsstring) :
  m (Star (Cls dot)) (m Eol Some) (MState bef aft c)
  = Some (spanEnd dot bef aft c).
Proof.
  apply m_star_cls_longest. unfold spanEnd. cbn [m after].
  pose proof (dropWhile_head dot aft) as H.
  destruct (dropWhile dot aft) as [|x r]; [reflexivity|].
  cbn [headIs] in H. unfold dot in H. apply negb_false_iff in H.
  now rewrite H.
Qed.

Lemma vyper_match (bef aft : jsstring) :
  option_map restAndGroup (matchAt vyperPattern bef aft) = vyperRest aft.
Proof.
  unfold matchAt, vyperPattern, vyperRest. cbn [Seqs].
  rewrite m_Seq, m_Lit.
  destruct (prefixb (str "vyper.exceptions.") aft); [|reflexivity].
  change (length (str "vyper.exceptions.")) with 17.
  rewrite m_Seq. unfold Plus at 1. rewrite m_Seq, m_Cls.
  destruct (skipn 17 aft) as [|y0 a1]; [reflexivity|].
  destruct (isWord y0); [|reflexivity]. cbn [andb].
  rewrite m_star_cls.
  change (Lit (str "Exception:")) with (Lit (str "Exception" ++ [58%N])).
  change (m (Seq (Lit (str "Exception" ++ [58%N])) ?r) ?k)
    with (m (Lit (str "Exception" ++ [58%N])) (m r k)).
  rewrite (starCls_lit_suffix isWord 58%N (str "Exception"));
    [|reflexivity|reflexivity|apply dropWhile_head|apply takeWhile_all].
  destruct (endsWith _ _ && headIs _ _); [|reflexivity].
  rewrite m_Seq.
  rewrite m_plus_cls_strict.
  2:{ intros b a c' Ha. rewrite m_Seq, m_Lit.
      now rewrite (space_head_no_line a Ha). }
  destruct (headIs isSpace (tl (dropWhile isWord a1))); [|reflexivity].
  unfold spanEnd at 1. rewrite m_Seq, m_Lit. cbn [andb].
  destruct (prefixb (str "line") _); [|reflexivity].
  change (length (str "line")) with 4. rewrite m_Seq.
  rewrite m_plus_cls_strict.
  2:{ intros b a c' Ha. rewrite m_Seq.
      now apply group_plus_space_head; [exact space_head_no_digit|]. }
  destruct (headIs isSpace (skipn 4 _)); [|reflexivity].
  unfold spanEnd at 1. rewrite m_Seq, m_group_plus.
  2:{ intros s. rewrite m_Seq. destruct s. now rewrite rest_of_line. }
  cbn [andb]. destruct (headIs isDigit _); [|reflexivity].
  now rewrite m_Seq, rest_of_line.
Qed.

(** ** The error parser, as a search for tokens *)

(** The first position of [aft] at which [t] recognizes something: what
    was recognized there (the text up to what [t] leaves) and its group. *)
Fixpoint findFirst (t : jsstring -> option (jsstring * option jsstring))
  (aft : jsstring) : option (jsstring * option jsstring) :=
  match t aft with
  | Some (rest, g) => Some (firstn (length aft - length rest) aft, g)
  | None =>
      match aft with
      | [] => None
      | _ :: rest => findFirst t rest
      end
  end.

Lemma exec_findFirst (r : regex)
  (t : jsstring -> option (jsstring * option jsstring)) :
  (forall bef aft, option_map restAndGroup (matchAt r bef aft) = t aft) ->
  forall aft bef, execFrom r bef aft = findFirst t aft.
Proof.
  intros H aft. induction aft as [|c rest IH]; intros bef.
  - cbn [execFrom findFirst]. rewrite <- (H bef []).
    now destruct (matchAt r bef []).
  - cbn [execFrom findFirst]. rewrite <- (H bef (c :: rest)).
    destruct (matchAt r bef (c :: rest)); [reflexivity|]. apply IH.
Qed.

Lemma takeWhile_app_stop (p : char -> bool) (w rest : jsstring) :
  forallb p w = true -> headIs p rest = false ->
  takeWhile p (w ++ rest) = w /\ dropWhile p (w ++ rest) = rest.
Proof.
  intros Hw Hr. induction w as [|c w IH]; cbn [app].
  - destruct rest as [|x rest]; [now split|]. simpl in *. now rewrite Hr.
  - simpl in Hw. apply andb_prop in Hw as [Hc Hw].
    cbn [takeWhile dropWhile]. rewrite Hc.
    destruct (IH Hw) as [-> ->]. now split.
Qed.
Lemma uintChars_digits (d : Decimal.uint) :
  forallb isDigit (uintChars d) = true.
Proof. induction d; simpl; auto. Qed.

Definition lineNumberOf (found : option (jsstring * option jsstring))
  (default : number) : number :=
  match found with
  | Some (_, g) => groupNumber g
  | None => default
  end.

(** The text before the first line break. *)
Fixpoint firstLine (text : jsstring) : jsstring :=
  match text with
  | [] => []
  | c :: rest =>
      if (c =? LF)%N then []
      else if (c =? CR)%N && headIs (N.eqb LF) rest then []
      else c :: firstLine rest
  end.

Lemma splitLines_first (text : jsstring) :
  nth_error (splitLines text) 0 = Some (firstLine text).
Proof.
  induction text as [|c rest IH]; [reflexivity|].
  cbn [splitLines firstLine]. destruct (c =? LF)%N; [reflexivity|].
  destruct ((c =? CR)%N && headIs (N.eqb LF) rest) eqn:E.
  - destruct rest as [|d rest]; [now rewrite andb_false_r in E|].
    apply andb_prop in E as [_ E]. cbn [headIs] in E.
    apply N.eqb_eq in E. subst d. cbn [splitLines].
    now rewrite N.eqb_refl.
  - destruct (splitLines rest) as [|l ls]; [discriminate|].
    cbn in *. congruence.
Qed.

(** The parser as a search for tokens: the syntax-error line first, then
    the exception signature, then the first line; the line number from a
    [line <N>] token, 1 when there is none. *)
Definition extractSpec (text : jsstring) : parsed :=
  let generic := lineNumberOf (findFirst lineSpacesRest text) (Int 1) in
  if existsb (jsstring_eqb syntaxErrorLine) (splitLines text)
  then Parsed (Some syntaxErrorLine)
              (lineNumberOf (findFirst lineBlankRest text) generic)
  else
    match findFirst vyperRest text with
    | Some (whole, g) => Parsed (Some whole) (groupNumber g)
    | None => Parsed (Some (firstLine text)) generic
    end.

Lemma extractLineNumber_spec (text : jsstring) :
  extractLineNumber text
  = lineNumberOf (findFirst lineSpacesRest text) (Int 1).
Proof.
  unfold extractLineNumber, exec.
  rewrite (@exec_findFirst _ _ lineSpaces_match).
  now destruct (findFirst lineSpacesRest text) as [[w g]|].
Qed.

Lemma parseErrorMessage_spec (text : jsstring) :
  parseErrorMessage text = extractSpec text.
Proof.
  unfold parseErrorMessage, extractSpec, exec.
  rewrite split_lines, splitLines_first, extractLineNumber_spec.
  rewrite (@exec_findFirst _ _ lineBlank_match),
    (@exec_findFirst _ _ vyper_match).
  destruct (existsb _ _).
  - now destruct (findFirst lineBlankRest text) as [[w g]|].
  - reflexivity.
Qed.

Lemma existsb_eqb_In (x : jsstring) (ls : list jsstring) :
  existsb (jsstring_eqb x) ls = true <-> In x ls.
Proof.
  rewrite existsb_exists. split.
  - intros [y [Hy E]]. apply jsstring_eqb_eq in E. now subst.
  - intros H. exists x. split; [exact H | now apply jsstring_eqb_eq].
Qed.

(** *** Numerals *)

(** The decimal numeral of [n], and [k] zeros to put before one. *)
Definition numeral (n : N) : jsstring := uintChars (N.to_uint n).
Definition zeros (k : nat) : jsstring := repeat 48%N k.

Lemma digitsValue_pos (d : Decimal.uint) :
  forall acc,
    fold_left (fun a c => (a * 10 + (c - 48))%N) (uintChars d) (Npos acc)
    = Npos (Pos.of_uint_acc d acc).
Proof.
  induction d; intros acc; cbn [uintChars fold_left Pos.of_uint_acc];
    [reflexivity|..];
    match goal with
    | |- fold_left _ _ ?x = _ =>
        match type of IHd with
        | forall a, _ = N.pos (Pos.of_uint_acc _ a) =>
            match goal with
            | |- _ = N.pos (Pos.of_uint_acc _ ?a) =>
                replace x with (N.pos a) by lia
            end
        end
    end; apply IHd.
Qed.

Lemma digitsValue_uint (d : Decimal.uint) :
  digitsValue (uintChars d) = N.of_uint d.
Proof.
  unfold digitsValue, N.of_uint.
  induction d; cbn [uintChars fold_left Pos.of_uint]; [reflexivity|exact IHd|..];
    match goal with
    | |- fold_left _ _ ?x = N.pos (Pos.of_uint_acc _ ?a) =>
        change x with (N.pos a)
    end; apply digitsValue_pos.
Qed.

Lemma zeros_digits (k : nat) : forallb isDigit (zeros k) = true.
Proof. induction k; [reflexivity | exact IHk]. Qed.

Lemma numeral_digits (n : N) : forallb isDigit (numeral n) = true.
Proof. apply uintChars_digits. Qed.

Lemma numeral_nonempty (n : N) : numeral n <> [].
Proof.
  unfold numeral. destruct n as [|p]; [discriminate|].
  cbn [N.to_uint]. pose proof (DecimalPos.Unsigned.to_uint_nonnil p) as H.
  destruct (Pos.to_uint p); [contradiction|..]; discriminate.
Qed.

Lemma digitsValue_numeral (k : nat) (n : N) :
  digitsValue (zeros k ++ numeral n) = n.
Proof.
  unfold digitsValue. rewrite fold_left_app.
  assert (Z : fold_left (fun a c => (a * 10 + (c - 48))%N) (zeros k) 0%N
              = 0%N) by (induction k; [reflexivity | exact IHk]).
  rewrite Z. fold (digitsValue (numeral n)). unfold numeral.
  rewrite digitsValue_uint. apply DecimalN.Unsigned.of_to.
Qed.

Lemma parseInt_numeral (k : nat) (n : N) :
  parseInt (zeros k ++ numeral n) = toNumber n.
Proof.
  unfold parseInt. rewrite digitsValue_numeral.
  pose proof (numeral_nonempty n).
  destruct (zeros k ++ numeral n) eqn:E; [|reflexivity].
  now apply app_eq_nil in E.
Qed.

(** Below 2^53 the Number is the integer. *)
Lemma toNumber_exact (n : N) : (n < 2 ^ 53)%N -> toNumber n = Int n.
Proof. intros H. unfold toNumber. now rewrite (proj2 (N.ltb_lt _ _) H). Qed.

(** *** Where the tokens stand in a text *)

Definition whitespace (ws : jsstring) : Prop :=
  ws <> [] /\ forallb isSpace ws = true.

(** What stands between [line] and the digits: one space for the pattern
    [line (\d+)], white space for [line\s+(\d+)]. *)
Definition gap (strict : bool) (ws : jsstring) : Prop :=
  if strict then ws = [SP] else whitespace ws.

(** A [line <N>] token starts the text [aft]. *)
Definition lineTokenAt (strict : bool) (aft : jsstring) : Prop :=
  exists ws rest,
    aft = str "line" ++ ws ++ rest
    /\ gap strict ws /\ headIs isDigit rest = true.

(** The first [line <N>] token of [text] has the digits of [n], after any
    number of zeros. *)
Definition firstLineToken (strict : bool) (text : jsstring) (n : N) : Prop :=
  exists pre ws k rest,
    text = pre ++ str "line" ++ ws ++ zeros k ++ numeral n ++ rest
    /\ gap strict ws /\ headIs isDigit rest = false
    /\ forall a b, text = a ++ b -> length a < length pre ->
                   ~ lineTokenAt strict b.

Definition noLineToken (strict : bool) (text : jsstring) : Prop :=
  forall a b, text = a ++ b -> ~ lineTokenAt strict b.

(** The text of an exception signature up to its line number. *)
Definition signatureHead (name ws1 ws2 : jsstring) : jsstring :=
  str "vyper.exceptions." ++ name ++ str "Exception:" ++ ws1
  ++ str "line" ++ ws2.

(** An exception signature starts the text [aft]. *)
Definition signatureAt (aft : jsstring) : Prop :=
  exists name ws1 ws2 rest,
    aft = signatureHead name ws1 ws2 ++ rest
    /\ name <> [] /\ forallb isWord name = true
    /\ whitespace ws1 /\ whitespace ws2 /\ headIs isDigit rest = true.

(** The first exception signature of [text] is [sig], from
    [vyper.exceptions.] to the end of the line on which its line number
    [n] stands. *)
Definition firstSignature (text sig : jsstring) (n : N) : Prop :=
  exists pre name ws1 ws2 k tail rest,
    sig = signatureHead name ws1 ws2 ++ zeros k ++ numeral n ++ tail
    /\ text = pre ++ sig ++ rest
    /\ name <> [] /\ forallb isWord name = true
    /\ whitespace ws1 /\ whitespace ws2
    /\ headIs isDigit tail = false /\ forallb dot tail = true
    /\ headIs dot rest = false
    /\ forall a b, text = a ++ b -> length a < length pre -> ~ signatureAt b.

Definition noSignature (text : jsstring) : Prop :=
  forall a b, text = a ++ b -> ~ signatureAt b.

Definition lineRest (strict : bool)
  : jsstring -> option (jsstring * option jsstring) :=
  if strict then lineBlankRest else lineSpacesRest.

Lemma digits_head (ds rest : jsstring) :
  ds <> [] -> forallb isDigit ds = true ->
  headIs isDigit (ds ++ rest) = true /\ headIs isSpace (ds ++ rest) = false.
Proof.
  intros Hn Hd. destruct ds as [|c ds]; [contradiction|].
  cbn [forallb] in Hd. apply andb_prop in Hd as [Hc _].
  cbn [app headIs]. split; [exact Hc | now apply digit_not_space].
Qed.

Lemma whitespace_head (ws rest : jsstring) :
  whitespace ws -> headIs isSpace (ws ++ rest) = true.
Proof.
  intros [Hn Hs]. destruct ws as [|c ws]; [contradiction|].
  cbn [forallb] in Hs. now apply andb_prop in Hs.
Qed.

Lemma lineRest_digits (strict : bool) (ws ds rest : jsstring) :
  gap strict ws -> ds <> [] -> forallb isDigit ds = true ->
  headIs isDigit rest = false ->
  lineRest strict (str "line" ++ ws ++ ds ++ rest) = Some (rest, Some ds).
Proof.
  intros Hg Hn Hd Hr.
  destruct (@digits_head ds rest Hn Hd) as [D1 D2].
  destruct (takeWhile_app_stop isDigit ds rest Hd Hr) as [T1 T2].
  destruct strict; cbn [gap lineRest] in *.
  - subst ws. unfold lineBlankRest.
    change (str "line" ++ [SP] ++ ds ++ rest)
      with (str "line " ++ ds ++ rest).
    rewrite prefixb_app. change 5 with (length (str "line ")).
    rewrite skipn_app_exact, D1. now rewrite T1, T2.
  - unfold lineSpacesRest. rewrite prefixb_app.
    change 4 with (length (str "line")). rewrite skipn_app_exact.
    destruct (takeWhile_app_stop isSpace ws (ds ++ rest) (proj2 Hg) D2)
      as [_ S2].
    rewrite S2, (@whitespace_head ws (ds ++ rest) Hg), D1. cbn [andb].
    now rewrite T1, T2.
Qed.

Lemma digit_run (rest : jsstring) :
  headIs isDigit rest = true ->
  exists ds r,
    rest = ds ++ r /\ ds <> [] /\ forallb isDigit ds = true
    /\ headIs isDigit r = false.
Proof.
  intros H. exists (takeWhile isDigit rest), (dropWhile isDigit rest).
  split; [symmetry; apply takeWhile_dropWhile|].
  split; [|split; [apply takeWhile_all | apply dropWhile_head]].
  destruct rest as [|c rest]; [discriminate|]. cbn [headIs] in H.
  cbn [takeWhile]. now rewrite H.
Qed.

Lemma lineTokenAt_rest (strict : bool) (aft : jsstring) :
  lineTokenAt strict aft -> lineRest strict aft <> None.
Proof.
  intros [ws [rest [-> [Hg Hr]]]].
  destruct (@digit_run rest Hr) as [ds [r [-> [Hn [Hd Hr']]]]].
  now rewrite (@lineRest_digits strict ws ds r Hg Hn Hd Hr').
Qed.

(** *** The first place at which something is recognized *)

Lemma findFirst_first (t : jsstring -> option (jsstring * option jsstring))
  (pre : jsstring) :
  forall aft rest g,
    (forall a b, pre ++ aft = a ++ b -> length a < length pre ->
                 t b = None) ->
    t aft = Some (rest, g) ->
    findFirst t (pre ++ aft)
    = Some (firstn (length aft - length rest) aft, g).
Proof.
  induction pre as [|c pre IH]; intros aft rest g Hb Ht.
  - cbn [app]. destruct aft; cbn [findFirst]; now rewrite Ht.
  - cbn [app findFirst].
    rewrite (Hb [] (c :: pre ++ aft) eq_refl) by (cbn; lia).
    apply IH; [|exact Ht].
    intros a b E L. apply (Hb (c :: a) b); [cbn; now f_equal | cbn; lia].
Qed.

Lemma findFirst_none (t : jsstring -> option (jsstring * option jsstring))
  (text : jsstring) :
  findFirst t text = None <-> forall a b, text = a ++ b -> t b = None.
Proof.
  induction text as [|c text IH].
  - cbn [findFirst]. split.
    + intros H a b E. symmetry in E. apply app_eq_nil in E as [_ ->].
      destruct (t []) as [[? ?]|]; [discriminate | reflexivity].
    + intros H. now rewrite (H [] [] eq_refl).
  - cbn [findFirst]. split.
    + intros H a b E.
      destruct (t (c :: text)) as [[? ?]|] eqn:T; [discriminate|].
      destruct a as [|x a]; cbn [app] in E; [now subst b|].
      injection E as _ E. exact (proj1 IH H a b E).
    + intros H. rewrite (H [] (c :: text) eq_refl).
      apply IH. intros a b E. apply (H (c :: a) b). cbn. now f_equal.
Qed.

Lemma findFirst_some (t : jsstring -> option (jsstring * option jsstring))
  (text w : jsstring) (g : option jsstring) :
  findFirst t text = Some (w, g) ->
  exists aft rest, t aft = Some (rest, g).
Proof.
  induction text as [|c text IH]; cbn [findFirst].
  - destruct (t []) as [[rest g']|] eqn:T; [|discriminate].
    intros H. injection H as _ <-. now exists [], rest.
  - destruct (t (c :: text)) as [[rest g']|] eqn:T; [|exact IH].
    intros H. injection H as _ <-. now exists (c :: text), rest.
Qed.

Lemma firstn_sub_app (sig rest : jsstring) :
  firstn (length (sig ++ rest) - length rest) (sig ++ rest) = sig.
Proof.
  rewrite length_app, Nat.add_sub, firstn_app, Nat.sub_diag, firstn_all.
  cbn [firstn]. apply app_nil_r.
Qed.

Lemma lineRest_tokenAt (strict : bool) (b : jsstring) :
  lineRest strict b <> None -> lineTokenAt strict b.
Proof.
  intros T. destruct strict; cbn [lineRest] in T.
  - unfold lineBlankRest in T.
    destruct (prefixb (str "line ") b) eqn:P; [|contradiction].
    apply prefixb_spec in P.
    change (length (str "line ")) with 5 in P.
    destruct (headIs isDigit (skipn 5 b)) eqn:D; [|contradiction].
    exists [SP], (skipn 5 b). now repeat split.
  - unfold lineSpacesRest in T.
    destruct (prefixb (str "line") b) eqn:P; [|contradiction].
    apply prefixb_spec in P.
    change (length (str "line")) with 4 in P.
    remember (skipn 4 b) as x eqn:X. clear X. subst b.
    destruct (headIs isSpace x) eqn:S; [|contradiction].
    destruct (headIs isDigit (dropWhile isSpace x)) eqn:D; [|contradiction].
    exists (takeWhile isSpace x), (dropWhile isSpace x).
    split; [now rewrite takeWhile_dropWhile|].
    split; [|exact D]. split; [|apply takeWhile_all].
    destruct x as [|c x]; [discriminate|]. cbn [headIs] in S.
    cbn [takeWhile]. now rewrite S.
Qed.

Lemma firstLineToken_found (strict : bool) (text : jsstring) (n : N)
  (default : number) :
  firstLineToken strict text n ->
  lineNumberOf (findFirst (lineRest strict) text) default = toNumber n.
Proof.
  intros [pre [ws [k [rest [-> [Hg [Hr Hb]]]]]]].
  assert (Hn : zeros k ++ numeral n <> []).
  { intros E. apply app_eq_nil in E as [_ E]. now apply numeral_nonempty in E. }
  assert (Hd : forallb isDigit (zeros k ++ numeral n) = true).
  { now rewrite forallb_app, zeros_digits, numeral_digits. }
  rewrite (@findFirst_first (lineRest strict) pre _ rest
             (Some (zeros k ++ numeral n))).
  - cbn [lineNumberOf groupNumber]. apply parseInt_numeral.
  - intros a b E L. specialize (Hb a b E L).
    destruct (lineRest strict b) eqn:T; [|reflexivity].
    exfalso. apply Hb, lineRest_tokenAt. now rewrite T.
  - replace (str "line" ++ ws ++ zeros k ++ numeral n ++ rest)
      with (str "line" ++ ws ++ (zeros k ++ numeral n) ++ rest)
      by now rewrite <- !app_assoc.
    now apply lineRest_digits.
Qed.

Lemma noLineToken_none (strict : bool) (text : jsstring) :
  noLineToken strict text <-> findFirst (lineRest strict) text = None.
Proof.
  rewrite findFirst_none. split; intros H a b E.
  - destruct (lineRest strict b) eqn:T; [|reflexivity].
    exfalso. apply (H a b E), lineRest_tokenAt. now rewrite T.
  - intros T. apply lineTokenAt_rest in T. now apply T, (H a b).
Qed.

(** *** The exception signature *)

Lemma endsWith_split (u w : jsstring) :
  endsWith u w = true -> exists p, w = p ++ u.
Proof.
  induction w as [|y w IH]; cbn [endsWith]; intros H.
  - rewrite orb_false_r in H. apply jsstring_eqb_eq in H. now exists [].
  - apply orb_prop in H as [H|H].
    + apply jsstring_eqb_eq in H. now exists [].
    + destruct (IH H) as [p ->]. now exists (y :: p).
Qed.

Lemma endsWith_app (p u : jsstring) : endsWith u (p ++ u) = true.
Proof.
  induction p as [|y p IH]; cbn [app].
  - destruct u; cbn [endsWith];
      now rewrite (proj2 (jsstring_eqb_eq _ _) eq_refl).
  - cbn [endsWith]. rewrite IH. apply orb_true_r.
Qed.

Lemma digit_is_dot (c : char) : isDigit c = true -> dot c = true.
Proof.
  unfold isDigit, dot, isLineTerminator, in_range. intros H.
  rewrite andb_true_iff, !N.leb_le in H. apply negb_true_iff.
  rewrite !orb_false_iff, !N.eqb_neq. lia.
Qed.

Lemma vyperRest_signature (name ws1 ws2 ds tail rest : jsstring) :
  name <> [] -> forallb isWord name = true ->
  whitespace ws1 -> whitespace ws2 ->
  ds <> [] -> forallb isDigit ds = true ->
  headIs isDigit tail = false -> forallb dot tail = true ->
  headIs dot rest = false ->
  vyperRest (signatureHead name ws1 ws2 ++ ds ++ tail ++ rest)
  = Some (rest, Some ds).
Proof.
  intros Hn Hw H1 H2 Hd Hds Ht Htl Hr.
  unfold vyperRest, signatureHead. rewrite <- !app_assoc.
  rewrite prefixb_app. change 17 with (length (str "vyper.exceptions.")).
  rewrite skipn_app_exact.
  destruct name as [|y0 name]; [contradiction|].
  cbn [forallb] in Hw. apply andb_prop in Hw as [Hy Hw].
  cbn [app]. rewrite Hy. cbn [andb].
  change (str "Exception:" ++ ?x) with (str "Exception" ++ 58%N :: x).
  set (X := ws1 ++ str "line" ++ ws2 ++ ds ++ tail ++ rest).
  destruct (takeWhile_app_stop isWord (name ++ str "Exception") (58%N :: X))
    as [T1 T2].
  { now rewrite forallb_app, Hw. }
  { reflexivity. }
  rewrite <- app_assoc in T1, T2. rewrite T1, T2, endsWith_app.
  cbn [headIs N.eqb Pos.eqb andb tl]. unfold X.
  assert (L : headIs isSpace (str "line" ++ ws2 ++ ds ++ tail ++ rest)
              = false) by reflexivity.
  destruct (takeWhile_app_stop isSpace ws1 _ (proj2 H1) L) as [_ S2].
  rewrite S2, (@whitespace_head ws1 _ H1), prefixb_app. cbn [andb].
  change 4 with (length (str "line")). rewrite skipn_app_exact.
  destruct (@digits_head ds (tail ++ rest) Hd Hds) as [D1 D2].
  destruct (takeWhile_app_stop isSpace ws2 _ (proj2 H2) D2) as [_ S3].
  rewrite S3, (@whitespace_head ws2 _ H2), D1. cbn [andb].
  assert (Hh : headIs isDigit (tail ++ rest) = false).
  { destruct tail as [|c tail]; [|exact Ht]. cbn [app].
    destruct rest as [|c rest]; [reflexivity|]. cbn [headIs] in *.
    destruct (isDigit c) eqn:E; [|reflexivity].
    apply digit_is_dot in E. congruence. }
  destruct (takeWhile_app_stop isDigit ds _ Hds Hh) as [E1 E2].
  rewrite E1, E2.
  destruct (takeWhile_app_stop dot tail rest Htl Hr) as [_ E3].
  now rewrite E3.
Qed.

Lemma signatureAt_rest (b : jsstring) :
  signatureAt b <-> vyperRest b <> None.
Proof.
  split.
  - intros [name [ws1 [ws2 [rest [-> [Hn [Hw [H1 [H2 Hr]]]]]]]]].
    destruct (@digit_run rest Hr) as [ds [r [-> [Hd [Hds Hr']]]]].
    rewrite <- (takeWhile_dropWhile dot r).
    rewrite (@vyperRest_signature name ws1 ws2 ds (takeWhile dot r)
               (dropWhile dot r)); try assumption; try discriminate.
    + destruct r as [|c r]; [reflexivity|]. cbn [headIs] in Hr'.
      cbn [takeWhile]. destruct (dot c); [exact Hr' | reflexivity].
    + apply takeWhile_all.
    + apply dropWhile_head.
  - unfold vyperRest. intros T.
    destruct (prefixb (str "vyper.exceptions.") b) eqn:P; [|contradiction].
    apply prefixb_spec in P.
    change (length (str "vyper.exceptions.")) with 17 in P.
    destruct (skipn 17 b) as [|y0 a1]; [contradiction|].
    destruct (isWord y0) eqn:Hy; [|contradiction]. cbn [andb] in T.
    destruct (endsWith (str "Exception") (takeWhile isWord a1)) eqn:En;
      [|contradiction].
    cbn [andb] in T.
    pose proof (takeWhile_dropWhile isWord a1) as Ea.
    pose proof (takeWhile_all isWord a1) as Hall.
    apply endsWith_split in En as [u Eu]. rewrite Eu in Ea, Hall.
    destruct (dropWhile isWord a1) as [|c a3]; [contradiction|].
    cbn [headIs tl] in T.
    destruct (58 =? c)%N eqn:Ec; [|contradiction].
    apply N.eqb_eq in Ec. subst c.
    destruct (headIs isSpace a3) eqn:Hs; [|contradiction].
    cbn [andb] in T.
    destruct (prefixb (str "line") (dropWhile isSpace a3)) eqn:Pl;
      [|contradiction].
    apply prefixb_spec in Pl. change (length (str "line")) with 4 in Pl.
    remember (skipn 4 (dropWhile isSpace a3)) as a5 eqn:X. clear X.
    destruct (headIs isSpace a5) eqn:Hs5; [|contradiction].
    destruct (headIs isDigit (dropWhile isSpace a5)) eqn:Hd;
      [|contradiction].
    exists (y0 :: u), (takeWhile isSpace a3), (takeWhile isSpace a5),
      (dropWhile isSpace a5).
    rewrite forallb_app in Hall. apply andb_prop in Hall as [Hu _].
    split.
    { rewrite P, <- Ea. unfold signatureHead. rewrite <- !app_assoc.
      cbn [app]. do 2 f_equal. f_equal.
      change (str "Exception:" ++ ?x) with (str "Exception" ++ 58%N :: x).
      f_equal. f_equal.
      rewrite <- (takeWhile_dropWhile isSpace a3) at 1. f_equal.
      rewrite Pl. f_equal. now rewrite takeWhile_dropWhile. }
    split; [discriminate|]. split; [cbn [forallb]; now rewrite Hy|].
    assert (W : forall x, headIs isSpace x = true ->
                          whitespace (takeWhile isSpace x)).
    { intros x Hx. split; [|apply takeWhile_all].
      destruct x as [|c x]; [discriminate|]. cbn [headIs] in Hx.
      cbn [takeWhile]. now rewrite Hx. }
    split; [now apply W|]. split; [now apply W | exact Hd].
Qed.

Lemma firstSignature_found (text sig : jsstring) (n : N) :
  firstSignature text sig n ->
  exists ds,
    findFirst vyperRest text = Some (sig, Some ds)
    /\ parseInt ds = toNumber n.
Proof.
  intros [pre [name [ws1 [ws2 [k [tail [rest
    [-> [-> [Hn [Hw [H1 [H2 [Ht [Htl [Hr Hb]]]]]]]]]]]]]]]].
  exists (zeros k ++ numeral n). split; [|apply parseInt_numeral].
  set (sig := signatureHead name ws1 ws2 ++ zeros k ++ numeral n ++ tail).
  rewrite (@findFirst_first vyperRest pre (sig ++ rest) rest
             (Some (zeros k ++ numeral n))).
  - now rewrite firstn_sub_app.
  - intros a b E L. specialize (Hb a b E L).
    destruct (vyperRest b) eqn:T; [|reflexivity].
    exfalso. apply Hb, signatureAt_rest. now rewrite T.
  - unfold sig. rewrite <- !app_assoc.
    replace (signatureHead name ws1 ws2
             ++ zeros k ++ numeral n ++ tail ++ rest)
      with (signatureHead name ws1 ws2
            ++ (zeros k ++ numeral n) ++ tail ++ rest)
      by now rewrite <- !app_assoc.
    apply vyperRest_signature; try assumption.
    + intros E. apply app_eq_nil in E as [_ E].
      now apply numeral_nonempty in E.
    + now rewrite forallb_app, zeros_digits, numeral_digits.
Qed.

Lemma noSignature_none (text : jsstring) :
  noSignature text <-> findFirst vyperRest text = None.
Proof.
  rewrite findFirst_none. split; intros H a b E.
  - destruct (vyperRest b) eqn:T; [|reflexivity].
    exfalso. apply (H a b E), signatureAt_rest. now rewrite T.
  - intros T. apply signatureAt_rest in T. now apply T, (H a b).
Qed.

(** Nothing is recognized at the first [k] places of [text]. *)
Lemma before_none (t : jsstring -> option (jsstring * option jsstring))
  (text : jsstring) (k : nat) :
  forallb (fun i => match t (skipn i text) with
                    | None => true
                    | Some _ => false
                    end) (seq 0 k) = true ->
  forall a b, text = a ++ b -> length a < k -> t b = None.
Proof.
  intros H a b -> L. rewrite forallb_forall in H.
  specialize (H (length a)). rewrite skipn_app_exact in H.
  destruct (t b); [|reflexivity].
  discriminate H. apply in_seq. lia.
Qed.

(** *** The number is never [NaN] *)

Lemma takeWhile_head (p : char -> bool) (a : jsstring) :
  headIs p a = true -> takeWhile p a <> [].
Proof.
  destruct a as [|c a]; [discriminate|]. cbn [headIs takeWhile].
  now intros ->.
Qed.

Lemma lineRest_group (strict : bool) (aft rest : jsstring)
  (g : option jsstring) :
  lineRest strict aft = Some (rest, g) -> exists ds, g = Some ds /\ ds <> [].
Proof.
  destruct strict; cbn [lineRest]; unfold lineBlankRest, lineSpacesRest;
    destruct (prefixb _ aft); try discriminate.
  - destruct (headIs isDigit _) eqn:D; [|discriminate].
    intros H. injection H as _ <-. eexists. split; [reflexivity|].
    now apply takeWhile_head.
  - destruct (headIs isSpace _); [|discriminate].
    destruct (headIs isDigit _) eqn:D; [|discriminate].
    intros H. injection H as _ <-. eexists. split; [reflexivity|].
    now apply takeWhile_head.
Qed.

Lemma vyperRest_group (aft rest : jsstring) (g : option jsstring) :
  vyperRest aft = Some (rest, g) -> exists ds, g = Some ds /\ ds <> [].
Proof.
  unfold vyperRest. destruct (prefixb _ aft); [|discriminate].
  destruct (skipn 17 aft) as [|y0 a1]; [discriminate|].
  destruct (_ && _ && _); [|discriminate].
  destruct (headIs isSpace _ && prefixb _ _); [|discriminate].
  destruct (headIs isSpace _); [|discriminate].
  destruct (headIs isDigit _) eqn:D; [|discriminate].
  intros H. injection H as _ <-. eexists. split; [reflexivity|].
  now apply takeWhile_head.
Qed.

Lemma toNumber_defined (n : N) : toNumber n <> NaN.
Proof.
  unfold toNumber. destruct (n <? 2 ^ 53)%N; [discriminate|].
  cbv zeta. now destruct (_ <? 2 ^ 1024)%N.
Qed.

Lemma groupNumber_defined (ds : jsstring) :
  ds <> [] -> groupNumber (Some ds) <> NaN.
Proof.
  intros H. cbn [groupNumber]. unfold parseInt.
  destruct ds; [contradiction | apply toNumber_defined].
Qed.

Lemma found_defined (t : jsstring -> option (jsstring * option jsstring))
  (text : jsstring) (default : number) :
  (forall aft rest g, t aft = Some (rest, g) ->
                      exists ds, g = Some ds /\ ds <> []) ->
  default <> NaN ->
  lineNumberOf (findFirst t text) default <> NaN.
Proof.
  intros Ht Hd. destruct (findFirst t text) as [[w g]|] eqn:F; [|exact Hd].
  apply findFirst_some in F as [aft [rest F]].
  destruct (Ht _ _ _ F) as [ds [-> Hn]]. now apply groupNumber_defined.
Qed.

Lemma parseErrorMessage_total (text : jsstring) :
  exists msg,
    shortmsg (parseErrorMessage text) = Some msg
    /\ lineNr (parseErrorMessage text) <> NaN.
Proof.
  rewrite parseErrorMessage_spec. unfold extractSpec.
  assert (G : lineNumberOf (findFirst lineSpacesRest text) (Int 1) <> NaN).
  { apply found_defined; [apply (lineRest_group false) | discriminate]. }
  destruct (existsb _ _).
  - eexists. split; [reflexivity|]. cbn [lineNr].
    apply found_defined; [apply (lineRest_group true) | exact G].
  - destruct (findFirst vyperRest text) as [[w g]|] eqn:F.
    + eexists. split; [reflexivity|]. cbn [lineNr].
      apply findFirst_some in F as [aft [rest F]].
      destruct (vyperRest_group _ F) as [ds [-> Hn]].
      now apply groupNumber_defined.
    + now eexists.
Qed.

Lemma generic_number (text : jsstring) :
  (forall n, firstLineToken false text n ->
             extractLineNumber text = toNumber n)
  /\ (noLineToken false text -> extractLineNumber text = Int 1).
Proof.
  rewrite extractLineNumber_spec. split.
  - intros n H. exact (firstLineToken_found (Int 1) H).
  - intros H. apply noLineToken_none in H. cbn [lineRest] in H.
    now rewrite H.
Qed.

Lemma syntax_error_wins (text : jsstring) :
  In syntaxErrorLine (splitLines text) ->
  shortmsg (parseErrorMessage text) = Some syntaxErrorLine
  /\ (forall n, firstLineToken true text n ->
                lineNr (parseErrorMessage text) = toNumber n)
  /\ (noLineToken true text ->
      lineNr (parseErrorMessage text) = extractLineNumber text).
Proof.
  intros H. rewrite parseErrorMessage_spec, extractLineNumber_spec.
  unfold extractSpec. apply existsb_eqb_In in H. rewrite H.
  split; [reflexivity|]. cbn [lineNr]. split.
  - intros n T. exact (firstLineToken_found _ T).
  - intros T. apply noLineToken_none in T. cbn [lineRest] in T.
    now rewrite T.
Qed.

Lemma no_pattern (text : jsstring) :
  ~ In syntaxErrorLine (splitLines text) -> noSignature text ->
  parseErrorMessage text
  = Parsed (Some (firstLine text)) (extractLineNumber text).
Proof.
  intros H S. rewrite parseErrorMessage_spec, extractLineNumber_spec.
  unfold extractSpec.
  destruct (existsb _ _) eqn:E; [now apply existsb_eqb_In in E|].
  apply noSignature_none in S. now rewrite S.
Qed.

(** The message starts where the signature starts, not where its line
    starts; a line number from 2^53 on is rounded; and only the name space
    [vyper] is recognized. *)
Lemma signature_not_whole_line :
  parseErrorMessage
    (str "Error: vyper.exceptions.StructureException: line 7 invalid type")
  = Parsed
      (Some (str "vyper.exceptions.StructureException: line 7 invalid type"))
      (Int 7)
  /\ lineNr (parseErrorMessage
               (str "vyper.exceptions.StructureException: line 9007199254740993 invalid type"))
     = Int 9007199254740992
  /\ parseErrorMessage
       (str "Traceback:" ++ [LF]
        ++ str "solc.exceptions.TypeException: line 7 invalid type")
     = Parsed (Some (str "Traceback:")) (Int 7).
Proof. repeat split; vm_compute; reflexivity. Qed.

(** C8, as the code has it.  A line equal to [SyntaxError: invalid syntax]
    wins: the message is that text and the line number is the N of the
    first [line <N>] token with one space, else of the first with any
    white space, else 1.  Otherwise the first exception signature wins,
    [vyper.exceptions.<Something>Exception:], white space, [line], white
    space, N: the message is the text from [vyper.exceptions.] to the end
    of the line on which N stands, and the line number is N.  The line
    number is a Number: N itself below 2^53, the nearest double above. *)
Theorem first_match_wins :
  (forall text,
     In syntaxErrorLine (splitLines text) ->
     shortmsg (parseErrorMessage text) = Some syntaxErrorLine
     /\ (forall n, firstLineToken true text n ->
                   lineNr (parseErrorMessage text) = toNumber n)
     /\ (noLineToken true text ->
         (forall n, firstLineToken false text n ->
                    lineNr (parseErrorMessage text) = toNumber n)
         /\ (noLineToken false text ->
             lineNr (parseErrorMessage text) = Int 1)))
  /\ (forall text sig n,
        ~ In syntaxErrorLine (splitLines text) ->
        firstSignature text sig n ->
        parseErrorMessage text = Parsed (Some sig) (toNumber n))
  /\ (forall n, (n < 2 ^ 53)%N -> toNumber n = Int n)
  /\ parseErrorMessage
       (str "Traceback:" ++ [LF]
        ++ str "vyper.exceptions.StructureException: line 7 invalid type"
        ++ [LF] ++ str "Compilation failed.")
     = Parsed
         (Some (str "vyper.exceptions.StructureException: line 7 invalid type"))
         (Int 7)
  /\ parseErrorMessage
       (str "SyntaxError: invalid syntax" ++ [LF] ++ str "  line 12")
     = Parsed (Some (str "SyntaxError: invalid syntax")) (Int 12).
Proof.
  split; [|split; [|split; [exact toNumber_exact|
                            split; vm_compute; reflexivity]]].
  - intros text H. destruct (syntax_error_wins text H) as [M [S1 S2]].
    split; [exact M|]. split; [exact S1|]. intros T. rewrite (S2 T).
    apply generic_number.
  - intros text sig n H S. rewrite parseErrorMessage_spec.
    unfold extractSpec.
    destruct (existsb _ _) eqn:E; [now apply existsb_eqb_In in E|].
    destruct (firstSignature_found S) as [ds [F P]].
    rewrite F. cbn [groupNumber]. now rewrite P.
Qed.

Lemma first_match_wins_witness :
  ~ In syntaxErrorLine
      (splitLines
         (str "Error: vyper.exceptions.TypeException:" ++ [LF]
          ++ str "  line 007, column 3" ++ [LF] ++ str "x: int"))
  /\ parseErrorMessage
       (str "Error: vyper.exceptions.TypeException:" ++ [LF]
        ++ str "  line 007, column 3" ++ [LF] ++ str "x: int")
     = Parsed
         (Some (str "vyper.exceptions.TypeException:" ++ [LF]
                ++ str "  line 007, column 3"))
         (toNumber 7).
Proof.
  assert (H : ~ In syntaxErrorLine
                  (splitLines
                     (str "Error: vyper.exceptions.TypeException:" ++ [LF]
                      ++ str "  line 007, column 3" ++ [LF]
                      ++ str "x: int"))).
  { intros H. apply existsb_eqb_In in H. vm_compute in H. discriminate. }
  split; [exact H|].
  apply (proj1 (proj2 first_match_wins) _ _ 7%N H).
  exists (str "Error: "), (str "Type"), [LF; SP; SP], [SP], 2,
    (str ", column 3"), (LF :: str "x: int").
  split; [reflexivity|]. split; [reflexivity|].
  split; [discriminate|]. split; [reflexivity|].
  split; [split; [discriminate | reflexivity]|].
  split; [split; [discriminate | reflexivity]|].
  split; [reflexivity|]. split; [reflexivity|]. split; [reflexivity|].
  intros a b E L T. apply signatureAt_rest in T. apply T.
  eapply (@before_none vyperRest _ 7); cycle 1;
    [exact E | exact L | vm_compute; reflexivity].
Defined.

(** A line number from 2^53 on is not the number of the text: it is
    rounded, and from 309 digits on it is [Infinity]. *)
Lemma line_number_not_exact :
  parseErrorMessage (str "crash at line 9007199254740993")
  = Parsed (Some (str "crash at line 9007199254740993"))
           (Int 9007199254740992)
  /\ lineNr (parseErrorMessage (str "line 1" ++ zeros 309)) = Infinity.
Proof. split; vm_compute; reflexivity. Qed.

(** C9, as the code has it.  The parser always returns a message and a
    line number.  When the text has no syntax-error line and no exception
    signature, the message is the first line of the text and the line
    number is the N of the first [line <N>] token, white space of any kind
    after [line], and 1 when there is no such token.  The line number is a
    Number: N itself below 2^53, the nearest double above. *)
Theorem extractor_total :
  (forall text, exists msg,
     shortmsg (parseErrorMessage text) = Some msg
     /\ lineNr (parseErrorMessage text) <> NaN)
  /\ (forall text,
        ~ In syntaxErrorLine (splitLines text) -> noSignature text ->
        shortmsg (parseErrorMessage text) = Some (firstLine text)
        /\ (forall n, firstLineToken false text n ->
                      lineNr (parseErrorMessage text) = toNumber n)
        /\ (noLineToken false text ->
            lineNr (parseErrorMessage text) = Int 1))
  /\ (forall text,
        (forall n, firstLineToken false text n ->
                   extractLineNumber text = toNumber n)
        /\ (noLineToken false text -> extractLineNumber text = Int 1))
  /\ (forall n, (n < 2 ^ 53)%N -> toNumber n = Int n)
  /\ parseErrorMessage
       (str "some random crash" ++ [LF] ++ str "no location info")
     = Parsed (Some (str "some random crash")) (Int 1).
Proof.
  split; [exact parseErrorMessage_total|].
  split; [|split; [exact generic_number|
                   split; [exact toNumber_exact | vm_compute; reflexivity]]].
  intros text H S. rewrite (no_pattern H S). cbn [shortmsg lineNr].
  split; [reflexivity | apply generic_number].
Qed.

Lemma extractor_total_witness :
  ~ In syntaxErrorLine (splitLines (str "boom at line" ++ [TAB] ++ str "04)"))
  /\ noSignature (str "boom at line" ++ [TAB] ++ str "04)")
  /\ firstLineToken false (str "boom at line" ++ [TAB] ++ str "04)") 4
  /\ lineNr (parseErrorMessage (str "boom at line" ++ [TAB] ++ str "04)"))
     = toNumber 4.
Proof.
  assert (H : ~ In syntaxErrorLine
                  (splitLines (str "boom at line" ++ [TAB] ++ str "04)"))).
  { intros H. apply existsb_eqb_In in H. vm_compute in H. discriminate. }
  assert (S : noSignature (str "boom at line" ++ [TAB] ++ str "04)"))
    by now apply noSignature_none.
  assert (T : firstLineToken false
                (str "boom at line" ++ [TAB] ++ str "04)") 4).
  { exists (str "boom at "), [TAB], 1, (str ")").
    split; [reflexivity|]. split; [split; [discriminate | reflexivity]|].
    split; [reflexivity|].
    intros a b E L T. apply (@lineTokenAt_rest false) in T. apply T.
    eapply (@before_none lineSpacesRest _ 8); cycle 1;
      [exact E | exact L | vm_compute; reflexivity]. }
  split; [exact H|]. split; [exact S|]. split; [exact T|].
  exact (proj1 (proj2 (proj1 (proj2 extractor_total) _ H S)) 4%N T).
Defined.

(** ** Placeholder tokens *)

Definition reserved : jsstring := str "__PLACEHOLDER_".

(** The token that [mask] returns for index [i]. *)
Definition token (i : nat) : jsstring := reserved ++ decimal i ++ str "__".

(** What the restoring pattern matches at a position: the reserved text,
    a run of digits, two underscores.  The replacement is the table entry
    the digits name. *)
Definition tokenAt (placeholders : list jsstring) : decision :=
  fun _ aft =>
    if prefixb reserved aft
    then
      let a1 := skipn 14 aft in
      let a2 := dropWhile isDigit a1 in
      if headIs isDigit a1 && prefixb (str "__") a2
      then Some (length aft - length (skipn 2 a2),
                 restoreOne placeholders [] (Some (takeWhile isDigit a1)))
      else None
    else None.

Lemma token_decision (ph : list jsstring) (bef aft : jsstring) :
  decisionOf placeholderPattern (restoreOne ph) bef aft = tokenAt ph bef aft.
Proof.
  unfold decisionOf, matchAt, placeholderPattern, tokenAt. cbn [Seqs].
  rewrite m_Seq, m_Lit. fold reserved.
  destruct (prefixb reserved aft); [|reflexivity].
  change (length reserved) with 14.
  rewrite m_Seq, m_Group, m_plus_cls_strict.
  2:{ intros b a c' Ha. rewrite m_Lit. cbn [after].
      destruct a as [|x a]; [discriminate|]. cbn [headIs] in Ha.
      cbn [str list_ascii_of_string map prefixb].
      destruct (N_of_ascii "_" =? x)%N eqn:E; [|reflexivity].
      apply N.eqb_eq in E. subst x. discriminate. }
  cbn [after]. destruct (headIs isDigit (skipn 14 aft)); [|reflexivity].
  unfold spanEnd. cbn [before after andb]. rewrite m_Lit.
  destruct (prefixb (str "__") _); [|reflexivity].
  cbn [after cap]. change (length (str "__")) with 2.
  assert (Ec : consumed
                 (MState (rev reserved ++ bef) (skipn 14 aft) None)
                 (MState (rev (takeWhile isDigit (skipn 14 aft))
                          ++ rev reserved ++ bef)
                         (dropWhile isDigit (skipn 14 aft)) None)
               = takeWhile isDigit (skipn 14 aft)).
  { rewrite <- (takeWhile_dropWhile isDigit (skipn 14 aft)) at 1.
    apply consumed_prefix. }
  now rewrite Ec.
Qed.

Lemma restore_rewrite (ph : list jsstring) (text : jsstring) :
  restore ph text = rewrite (tokenAt ph) text.
Proof. apply replaceAll_rewrite, token_decision. Qed.

Lemma digitsValue_acc (d : Decimal.uint) :
  forall acc,
    fold_left (fun a c => (a * 10 + (c - 48))%N) (uintChars d) (N.of_nat acc)
    = N.of_nat (Nat.of_uint_acc d acc).
Proof.
  induction d; intros acc; cbn [uintChars fold_left Nat.of_uint_acc];
    [reflexivity|..]; rewrite <- IHd; f_equal;
    rewrite Nat.tail_mul_spec; lia.
Qed.

Lemma digitsValue_decimal (i : nat) : digitsValue (decimal i) = N.of_nat i.
Proof.
  unfold digitsValue, decimal. change 0%N with (N.of_nat 0).
  rewrite digitsValue_acc. f_equal. apply DecimalNat.Unsigned.of_to.
Qed.

Lemma decimal_nonempty (i : nat) : headIs isDigit (decimal i) = true.
Proof.
  unfold decimal. pose proof (uintChars_digits (Nat.to_uint i)) as H.
  destruct (uintChars (Nat.to_uint i)) as [|c l] eqn:E.
  - exfalso. pose proof (DecimalNat.Unsigned.of_to i) as Hi.
    destruct (Nat.to_uint i) eqn:T; try discriminate.
    simpl in Hi. subst i. discriminate.
  - simpl in H. now apply andb_prop in H.
Qed.

(** At a token the restoring pattern matches exactly the token and the
    replacement is the entry it names. *)
Lemma tokenAt_token (ph : list jsstring) (i : nat) (bef rest : jsstring) :
  i < length ph ->
  tokenAt ph bef (token i ++ rest) = Some (length (token i), nth i ph []).
Proof.
  intros Hi. unfold tokenAt, token. rewrite <- !app_assoc.
  rewrite prefixb_app. change 14 with (length reserved).
  rewrite skipn_app_exact.
  destruct (takeWhile_app_stop isDigit (decimal i) (str "__" ++ rest))
    as [E1 E2]; [apply uintChars_digits | reflexivity |].
  rewrite E1, E2, prefixb_app.
  assert (Hd : headIs isDigit (decimal i ++ str "__" ++ rest) = true).
  { pose proof (decimal_nonempty i). now destruct (decimal i). }
  rewrite Hd. cbn [andb]. change 2 with (length (str "__")).
  rewrite skipn_app_exact. unfold restoreOne.
  rewrite digitsValue_decimal, Nnat.Nat2N.id.
  rewrite (proj2 (N.ltb_lt _ _)) by lia.
  do 2 f_equal. rewrite !length_app. lia.
Qed.

(** A masked text: a literal piece, then tokens each followed by a
    literal piece. *)
Definition structure : Type := jsstring * list (nat * jsstring).

Fixpoint renderTail (f : nat -> jsstring) (ts : list (nat * jsstring))
  : jsstring :=
  match ts with
  | [] => []
  | (i, l) :: ts' => f i ++ l ++ renderTail f ts'
  end.

(** The text with its tokens, and the text with the table entries in
    their place. *)
Definition render (s : structure) : jsstring :=
  fst s ++ renderTail token (snd s).

Definition expand (ph : list jsstring) (s : structure) : jsstring :=
  fst s ++ renderTail (fun i => nth i ph []) (snd s).

(** The reserved text occurs in [l]. *)
Fixpoint hasReserved (l : jsstring) : bool :=
  prefixb reserved l
  || match l with
     | [] => false
     | _ :: l' => hasReserved l'
     end.

Definition noReserved (l : jsstring) : bool := negb (hasReserved l).

Lemma noReserved_cons (c : char) (l : jsstring) :
  noReserved (c :: l) = true ->
  prefixb reserved (c :: l) = false /\ noReserved l = true.
Proof.
  unfold noReserved. cbn [hasReserved]. intros H.
  apply negb_true_iff, orb_false_elim in H as [H1 H2].
  split; [exact H1 | now apply negb_true_iff].
Qed.

Lemma prefixb_short (w a : jsstring) :
  length a < length w -> prefixb w a = false.
Proof.
  revert a. induction w as [|x w IH]; intros a H; [simpl in H; lia|].
  destruct a as [|y a]; [reflexivity|]. simpl in *.
  rewrite IH by lia. apply andb_false_r.
Qed.

Lemma prefixb_app_long (w a b : jsstring) :
  length w <= length a -> prefixb w (a ++ b) = prefixb w a.
Proof.
  revert a. induction w as [|x w IH]; intros a H; [reflexivity|].
  destruct a as [|y a]; [simpl in H; lia|]. simpl in *.
  now rewrite IH by lia.
Qed.

(** Nothing that ends in front of [R] and is shorter than the reserved
    text starts a token. *)
Definition quiet (ph : list jsstring) (R : jsstring) : Prop :=
  forall s bef, s <> [] -> length s < 14 ->
    tokenAt ph bef (s ++ R) = None.

Lemma quiet_nil (ph : list jsstring) : quiet ph [].
Proof.
  intros s bef _ Hs. unfold tokenAt. rewrite app_nil_r.
  now rewrite prefixb_short.
Qed.

Ltac eval_eqb :=
  repeat match goal with
    | |- context [(?a =? ?b)%N] =>
        let v := eval vm_compute in (a =? b)%N in
        match v with
        | true => change (a =? b)%N with true
        | false => change (a =? b)%N with false
        end
    end;
  cbn [andb].

Lemma quiet_space (ph : list jsstring) (R : jsstring) :
  headIs isSpace R = true -> quiet ph R.
Proof.
  intros HR s bef Hne Hs. unfold tokenAt.
  destruct R as [|x R]; [discriminate|]. cbn [headIs] in HR.
  change reserved with [95; 95; 80; 76; 65; 67; 69; 72; 79; 76; 68; 69; 82; 95]%N.
  destruct s as [|c1 s]; [contradiction|]. clear Hne.
  do 13 (destruct s as [|? s];
         [cbn [app prefixb];
          repeat match goal with
            | |- context [(?a =? ?b)%N && _] =>
                let E := fresh "E" in
                destruct (a =? b)%N eqn:E; cbn [andb]; [|reflexivity];
                try (apply N.eqb_eq in E; subst x; discriminate HR)
            end|]).
  simpl in Hs. lia.
Qed.

Lemma quiet_token (ph : list jsstring) (j : nat) (X : jsstring) :
  quiet ph (token j ++ X).
Proof.
  intros s bef Hne Hs. unfold tokenAt, token.
  change reserved with [95; 95; 80; 76; 65; 67; 69; 72; 79; 76; 68; 69; 82; 95]%N.
  destruct s as [|c1 s]; [contradiction|]. clear Hne.
  do 13 (destruct s as [|? s];
         [cbn [app prefixb skipn headIs]; eval_eqb;
          repeat match goal with
            | |- context [(?a =? ?b)%N && _] =>
                destruct (a =? b)%N; cbn [andb]; [|reflexivity]
            end;
          try reflexivity|]).
  simpl in Hs. lia.
Qed.

(** Restoration copies a piece that is free of the reserved text. *)
Lemma restore_literal (ph : list jsstring) (R : jsstring) :
  quiet ph R ->
  forall l bef,
    noReserved l = true ->
    rewriteFrom (tokenAt ph) bef (l ++ R) 0
    = l ++ rewriteFrom (tokenAt ph) (rev l ++ bef) R 0.
Proof.
  intros HR l. induction l as [|c l IH]; intros bef Hl; [reflexivity|].
  apply noReserved_cons in Hl as [Hc Hl].
  assert (E : tokenAt ph bef ((c :: l) ++ R) = None).
  { destruct (Nat.ltb (length (c :: l)) 14) eqn:L.
    - apply Nat.ltb_lt in L. now apply HR.
    - apply Nat.ltb_ge in L. unfold tokenAt.
      rewrite prefixb_app_long by exact L. now rewrite Hc. }
  cbn [app] in *. cbn [rewriteFrom]. rewrite E, (IH _ Hl).
  cbn [rev]. now rewrite <- app_assoc.
Qed.

Lemma token_nonempty (i : nat) : token i <> [].
Proof. unfold token. discriminate. Qed.

Lemma restore_token (ph : list jsstring) (i : nat) (bef Y : jsstring) :
  i < length ph ->
  rewriteFrom (tokenAt ph) bef (token i ++ Y) 0
  = nth i ph [] ++ rewriteFrom (tokenAt ph) (rev (token i) ++ bef) Y 0.
Proof.
  intros Hi. apply rewriteFrom_fire; [apply token_nonempty|].
  now apply tokenAt_token.
Qed.

Definition goodPieces (n : nat) (ts : list (nat * jsstring)) : Prop :=
  Forall (fun t => fst t < n /\ noReserved (snd t) = true) ts.

(** Restoring a text with well-formed tokens puts the table entries in
    their place. *)
Lemma restore_structure (ph : list jsstring) (X : jsstring) :
  quiet ph X ->
  forall ts l0 bef,
    noReserved l0 = true -> goodPieces (length ph) ts ->
    rewriteFrom (tokenAt ph) bef (render (l0, ts) ++ X) 0
    = expand ph (l0, ts)
      ++ rewriteFrom (tokenAt ph) (rev (render (l0, ts)) ++ bef) X 0.
Proof.
  intros HX ts. induction ts as [|[i l] ts IH]; intros l0 bef Hl0 Hts.
  - unfold render, expand. cbn [fst snd renderTail].
    rewrite !app_nil_r. now apply restore_literal.
  - inversion Hts as [|? ? [Hi Hl] Hts']; subst. cbn [fst snd] in Hi, Hl.
    unfold render, expand in *. cbn [fst snd renderTail] in *.
    rewrite <- !app_assoc.
    rewrite restore_literal; [|apply quiet_token | exact Hl0].
    rewrite restore_token by exact Hi.
    rewrite (app_assoc l (renderTail token ts) X).
    rewrite (IH l _ Hl Hts').
    rewrite !rev_app_distr, <- !app_assoc. reflexivity.
Qed.

Lemma restore_render (ph : list jsstring) (s : structure) :
  noReserved (fst s) = true -> goodPieces (length ph) (snd s) ->
  restore ph (render s) = expand ph s.
Proof.
  intros H1 H2. destruct s as [l0 ts]. rewrite restore_rewrite.
  unfold rewrite. rewrite <- (app_nil_r (render (l0, ts))).
  rewrite (restore_structure (quiet_nil ph) _ _ H1 H2).
  cbn [rewriteFrom tokenAt prefixb reserved str list_ascii_of_string map].
  now rewrite !app_nil_r.
Qed.

(** ** What a match consumes *)

(** The characters a match of [r] can contain. *)
Fixpoint allows (r : regex) (c : char) : bool :=
  match r with
  | Eps | LookBehind _ | WordB | Eol => false
  | Cls p => p c
  | Seq r1 r2 | Alt r1 r2 => allows r1 c || allows r2 c
  | Star r1 | LazyStar r1 | Group r1 => allows r1 c
  end.

(** The continuation was reached after consuming [w]. *)
Definition reaches (r : regex) (k : cont) (s x : mstate) : Prop :=
  exists s' w,
    k s' = Some x
    /\ after s = w ++ after s'
    /\ before s' = rev w ++ before s
    /\ forallb (allows r) w = true
    /\ (nullable r = false -> w <> []).

Lemma forallb_weaken (p q : char -> bool) (w : jsstring) :
  (forall c, p c = true -> q c = true) ->
  forallb p w = true -> forallb q w = true.
Proof. apply forallb_impl. Qed.

Lemma star_reaches (body : cont -> cont) (r1 : regex)
  (star : cont -> nat -> mstate -> option mstate) :
  (forall k n s, star k (S n) s
     = orElse (body (fun s' => if progressed s s' then star k n s' else None) s)
              (k s)
     \/ star k (S n) s
     = orElse (k s)
              (body (fun s' => if progressed s s' then star k n s' else None) s)) ->
  (forall k s, star k 0 s = k s) ->
  (forall k' s x, body k' s = Some x -> reaches r1 k' s x) ->
  forall k n s x, star k n s = Some x ->
    exists s' w,
      k s' = Some x /\ after s = w ++ after s'
      /\ before s' = rev w ++ before s /\ forallb (allows r1) w = true.
Proof.
  intros Hstep H0 Hb k n. induction n as [|n IH]; intros s x H.
  - rewrite H0 in H. exists s, []. now repeat split.
  - assert (Hcases :
      k s = Some x
      \/ body (fun s' => if progressed s s' then star k n s' else None) s
         = Some x).
    { destruct (Hstep k n s) as [E|E]; rewrite E in H.
      - destruct (body _ s); simpl in H; [now right | now left].
      - destruct (k s); simpl in H; [now left | now right]. }
    destruct Hcases as [Hk|Hbody].
    + exists s, []. now repeat split.
    + apply Hb in Hbody as [s1 [w1 [E1 [E2 [E3 [E4 _]]]]]].
      destruct (progressed s s1); [|discriminate].
      apply IH in E1 as [s2 [w2 [F1 [F2 [F3 F4]]]]].
      exists s2, (w1 ++ w2). split; [exact F1|]. split.
      * now rewrite E2, F2, app_assoc.
      * split; [now rewrite F3, E3, rev_app_distr, app_assoc|].
        now rewrite forallb_app, E4, F4.
Qed.

Lemma m_reaches (r : regex) :
  forall k s x, m r k s = Some x -> reaches r k s x.
Proof.
  induction r as [|p|r1 IH1 r2 IH2|r1 IH1 r2 IH2|r1 IH1|r1 IH1|r1 IH1|p| |];
    intros k s x H; cbn [m] in H.
  - exists s, []. now repeat split.
  - destruct s as [b a c]. cbn [after before cap] in H.
    destruct a as [|c0 rest]; [discriminate|].
    destruct (p c0) eqn:E; [|discriminate].
    exists (MState (c0 :: b) rest c), [c0]. cbn.
    rewrite E. now repeat split.
  - apply IH1 in H as [s1 [w1 [E1 [E2 [E3 [E4 E5]]]]]].
    apply IH2 in E1 as [s2 [w2 [F1 [F2 [F3 [F4 F5]]]]]].
    exists s2, (w1 ++ w2). split; [exact F1|]. split.
    + now rewrite E2, F2, app_assoc.
    + split; [now rewrite F3, E3, rev_app_distr, app_assoc|]. split.
      * rewrite forallb_app. cbn [allows].
        rewrite (forallb_weaken (allows r1) _ w1)
          by (exact E4 || (intros c Hc; now rewrite Hc)).
        rewrite (forallb_weaken (allows r2) _ w2)
          by (exact F4 || (intros c Hc; now rewrite Hc, orb_true_r)).
        reflexivity.
      * cbn [nullable]. intros N. apply andb_false_iff in N as [N|N].
        -- specialize (E5 N). now destruct w1.
        -- specialize (F5 N). destruct w1; [exact F5 | discriminate].
  - assert (Hc : m r1 k s = Some x \/ m r2 k s = Some x).
    { destruct (m r1 k s); simpl in H; [now left | now right]. }
    cbn [nullable]. destruct Hc as [Hc|Hc].
    + apply IH1 in Hc as [s1 [w1 [E1 [E2 [E3 [E4 E5]]]]]].
      exists s1, w1. repeat split; try assumption.
      * apply (forallb_weaken (allows r1)); [|exact E4].
        intros c Hc. cbn. now rewrite Hc.
      * intros N. apply orb_false_elim in N as [N _]. now apply E5.
    + apply IH2 in Hc as [s1 [w1 [E1 [E2 [E3 [E4 E5]]]]]].
      exists s1, w1. repeat split; try assumption.
      * apply (forallb_weaken (allows r2)); [|exact E4].
        intros c Hc. cbn. now rewrite Hc, orb_true_r.
      * intros N. apply orb_false_elim in N as [_ N]. now apply E5.
  - destruct (@star_reaches (m r1) r1 (starG (m r1))) with
      (k := k) (n := length (after s)) (s := s) (x := x)
      as [s' [w [E1 [E2 [E3 E4]]]]]; auto.
    exists s', w. now repeat split.
  - destruct (@star_reaches (m r1) r1 (starL (m r1))) with
      (k := k) (n := length (after s)) (s := s) (x := x)
      as [s' [w [E1 [E2 [E3 E4]]]]]; auto.
    exists s', w. now repeat split.
  - apply IH1 in H as [s1 [w1 [E1 [E2 [E3 [E4 E5]]]]]].
    eexists. exists w1. split; [exact E1|]. now repeat split.
  - destruct (headIs p (before s)); [|discriminate].
    exists s, []. now repeat split.
  - destruct (xorb _ _); [|discriminate]. exists s, []. now repeat split.
  - exists s, []. repeat split; try easy.
    destruct (after s) as [|c rest]; [exact H|].
    now destruct (isLineTerminator c).
Qed.

Lemma matchAt_consumes (r : regex) (bef aft : jsstring) (s' : mstate) :
  matchAt r bef aft = Some s' ->
  exists w,
    aft = w ++ after s' /\ before s' = rev w ++ bef
    /\ forallb (allows r) w = true /\ (nullable r = false -> w <> []).
Proof.
  intros H. apply m_reaches in H as [s1 [w [E1 [E2 [E3 [E4 E5]]]]]].
  injection E1 as <-. now exists w.
Qed.

(** The characters a number can contain. *)
Definition numChar (c : char) : bool := allows numberPattern c.

(** A match of the number pattern starts at a digit, consumes number
    characters only, and has a word boundary at each end. *)
Lemma number_match (bef aft : jsstring) (s' : mstate) :
  matchAt numberPattern bef aft = Some s' ->
  exists w,
    aft = w ++ after s' /\ w <> []
    /\ forallb numChar w = true
    /\ xorb (headIs isWord (rev w ++ bef)) (headIs isWord (after s')) = true.
Proof.
  intros H. unfold matchAt, numberPattern in H. cbn [Seqs] in H.
  rewrite m_Seq in H. cbn [m before after] in H.
  destruct (xorb (headIs isWord bef) (headIs isWord aft)); [|discriminate].
  match type of H with m ?r _ _ = _ => set (alt := r) in * end.
  apply m_reaches in H as [s1 [w [E1 [E2 [E3 [E4 E5]]]]]].
  cbn [after before] in E2, E3.
  destruct (xorb (headIs isWord (before s1)) (headIs isWord (after s1)))
    eqn:B; [|discriminate].
  injection E1 as <-. exists w. split; [exact E2|].
  split; [now apply E5|]. split.
  - apply (forallb_weaken (allows alt)); [|exact E4].
    intros c Hc. unfold numChar, numberPattern. cbn [Seqs allows].
    fold alt. now rewrite Hc, orb_true_r.
  - now rewrite <- E3.
Qed.

Lemma number_needs_digit (bef aft : jsstring) :
  headIs isDigit aft = false -> matchAt numberPattern bef aft = None.
Proof.
  intros H. apply matchAt_first; [reflexivity|].
  destruct aft as [|c aft]; [reflexivity|]. cbn [headIs] in *.
  now apply first_number.
Qed.

Lemma number_needs_boundary (bef aft : jsstring) :
  headIs isWord bef = true -> headIs isWord aft = true ->
  matchAt numberPattern bef aft = None.
Proof.
  intros H1 H2. unfold matchAt, numberPattern. cbn [Seqs].
  rewrite m_Seq. cbn [m before after]. now rewrite H1, H2.
Qed.

Lemma digit_is_word (c : char) : isDigit c = true -> isWord c = true.
Proof. unfold isWord. intros ->. now rewrite !orb_true_r. Qed.

(** *** Replacement with a threaded table *)

Lemma replaceFrom_skip (A : Type) (r : regex)
  (f : jsstring -> option jsstring -> A -> jsstring * A)
  (w rest : jsstring) :
  forall bef acc,
    replaceFrom r f bef (w ++ rest) (length w) acc
    = replaceFrom r f (rev w ++ bef) rest 0 acc.
Proof.
  induction w as [|c w IH]; intros bef acc; [reflexivity|].
  cbn [app length replaceFrom]. rewrite IH. cbn [rev].
  now rewrite <- app_assoc.
Qed.

Lemma replaceFrom_hit (A : Type) (r : regex)
  (f : jsstring -> option jsstring -> A -> jsstring * A)
  (bef w rest : jsstring) (s' : mstate) (acc : A) :
  w <> [] -> matchAt r bef (w ++ rest) = Some s' -> after s' = rest ->
  replaceFrom r f bef (w ++ rest) 0 acc
  = let (rep, acc') := f w (cap s') acc in
    let (out, acc'') := replaceFrom r f (rev w ++ bef) rest 0 acc' in
    (rep ++ out, acc'').
Proof.
  intros Hw H E. destruct w as [|c w]; [easy|].
  cbn [app replaceFrom]. cbn [app] in H. rewrite H, E.
  change (c :: w ++ rest) with ((c :: w) ++ rest).
  rewrite length_app, Nat.add_sub, firstn_app, Nat.sub_diag, firstn_all.
  cbn [firstn]. rewrite app_nil_r.
  destruct (f (c :: w) (cap s') acc) as [rep acc'].
  cbn [length app]. rewrite replaceFrom_skip. cbn [rev].
  now rewrite <- app_assoc.
Qed.

Lemma replaceFrom_miss (A : Type) (r : regex)
  (f : jsstring -> option jsstring -> A -> jsstring * A)
  (bef : jsstring) (c : char) (rest : jsstring) (acc : A) :
  matchAt r bef (c :: rest) = None ->
  replaceFrom r f bef (c :: rest) 0 acc
  = let (out, acc') := replaceFrom r f (c :: bef) rest 0 acc in
    (c :: out, acc').
Proof. intros H. cbn [replaceFrom]. now rewrite H. Qed.

Lemma replaceFrom_end (A : Type) (r : regex)
  (f : jsstring -> option jsstring -> A -> jsstring * A)
  (bef : jsstring) (acc : A) :
  nullable r = false -> replaceFrom r f bef [] 0 acc = ([], acc).
Proof.
  intros N. cbn [replaceFrom]. now rewrite matchAt_first.
Qed.

(** ** The masking passes *)

Lemma hasReserved_app_l (a b : jsstring) :
  hasReserved a = true -> hasReserved (a ++ b) = true.
Proof.
  induction a as [|c a IH]; intros H.
  - cbn in H. discriminate.
  - cbn [hasReserved] in H. cbn [app hasReserved].
    apply orb_prop in H as [H|H].
    + apply prefixb_spec in H.
      change (c :: a ++ b) with ((c :: a) ++ b).
      rewrite H at 1. now rewrite <- app_assoc, prefixb_app.
    + now rewrite (IH H), orb_true_r.
Qed.

Lemma hasReserved_app_r (a b : jsstring) :
  hasReserved b = true -> hasReserved (a ++ b) = true.
Proof.
  intros H. induction a as [|c a IH]; [exact H|].
  cbn [app hasReserved]. now rewrite IH, orb_true_r.
Qed.

Lemma noReserved_app (a b : jsstring) :
  noReserved (a ++ b) = true ->
  noReserved a = true /\ noReserved b = true.
Proof.
  unfold noReserved. intros H. apply negb_true_iff in H. split.
  - destruct (hasReserved a) eqn:E; [|reflexivity].
    now rewrite (hasReserved_app_l a b E) in H.
  - destruct (hasReserved b) eqn:E; [|reflexivity].
    now rewrite (hasReserved_app_r a b E) in H.
Qed.

Lemma mask_token (w : jsstring) (c : option jsstring)
  (ph : list jsstring) :
  mask w c ph = (token (length ph), ph ++ [w]).
Proof. reflexivity. Qed.

Definition piecesFree (ts : list (nat * jsstring)) : Prop :=
  Forall (fun t => noReserved (snd t) = true) ts.

(** A masking pass over a text without tokens: the result is a structure
    whose tokens are numbered from the size of the table on, and whose
    expansion with the new table is the text. *)
Lemma mask_pass (r : regex) (n : nat) :
  nullable r = false ->
  forall aft, length aft <= n ->
  forall bef ph, noReserved aft = true ->
  exists s ms,
    replaceFrom r mask bef aft 0 ph = (render s, ph ++ ms)
    /\ (forall extra, expand (ph ++ ms ++ extra) s = aft)
    /\ noReserved (fst s) = true
    /\ piecesFree (snd s)
    /\ map fst (snd s) = seq (length ph) (length ms).
Proof.
  intros Hnull. induction n as [|n IH]; intros aft Hn bef ph Hfree.
  - destruct aft; [|simpl in Hn; lia].
    exists ([], []), []. rewrite replaceFrom_end by exact Hnull.
    rewrite app_nil_r. repeat split; constructor.
  - destruct aft as [|c rest].
    { exists ([], []), []. rewrite replaceFrom_end by exact Hnull.
      rewrite app_nil_r. repeat split; constructor. }
    destruct (matchAt r bef (c :: rest)) as [s1|] eqn:M.
    + destruct (matchAt_consumes _ _ _ M) as [w [E1 [_ [_ E4]]]].
      specialize (E4 Hnull).
      assert (Hlen : length (after s1) <= n).
      { apply (f_equal (@length N)) in E1. rewrite length_app in E1.
        simpl in Hn, E1. destruct w; [easy|]. simpl in E1. lia. }
      assert (Hrest : noReserved (after s1) = true).
      { rewrite E1 in Hfree. now apply noReserved_app in Hfree. }
      destruct (IH _ Hlen (rev w ++ bef) (ph ++ [w]) Hrest)
        as [s' [ms' [R1 [R2 [R3 [R4 R5]]]]]].
      exists ([], (length ph, fst s') :: snd s'), (w :: ms').
      rewrite E1 in M |- *.
      rewrite (@replaceFrom_hit _ r mask bef w (after s1) s1 ph E4 M eq_refl).
      rewrite mask_token, R1. split.
      { unfold render. cbn [fst snd renderTail app].
        now rewrite <- !app_assoc. }
      split.
      { intros extra. unfold expand. cbn [fst snd renderTail app].
        rewrite app_nth2, Nat.sub_diag by lia. cbn [nth]. f_equal.
        specialize (R2 extra). unfold expand in R2.
        now rewrite <- !app_assoc in R2. }
      split; [reflexivity|]. split.
      { constructor; [exact R3 | exact R4]. }
      cbn [map fst snd length seq]. f_equal.
      rewrite R5, length_app. cbn [length].
      now rewrite Nat.add_1_r.
    + simpl in Hn.
      assert (Hrest : noReserved rest = true).
      { change (c :: rest) with ([c] ++ rest) in Hfree.
        now apply noReserved_app in Hfree. }
      destruct (IH rest ltac:(lia) (c :: bef) ph Hrest)
        as [s' [ms' [R1 [R2 [R3 [R4 R5]]]]]].
      exists (c :: fst s', snd s'), ms'.
      rewrite (@replaceFrom_miss _ r mask bef c rest ph M), R1.
      split; [reflexivity|]. split.
      { intros extra. unfold expand in *. cbn [fst snd app].
        now rewrite R2. }
      split; [|split; assumption].
      specialize (R2 []). unfold expand in R2. cbn [fst snd].
      rewrite <- R2 in Hfree.
      change (c :: fst s' ++ ?x) with ((c :: fst s') ++ x) in Hfree.
      now apply noReserved_app in Hfree.
Qed.

(** What follows a literal piece: nothing, or a token. *)
Definition tokenAhead (R : jsstring) : Prop :=
  R = [] \/ exists j Y, R = token j ++ Y.

Lemma token_cells (j : nat) (Y : jsstring) :
  exists T, token j ++ Y = 95%N :: 95%N :: 80%N :: T.
Proof.
  unfold token.
  change reserved with [95; 95; 80; 76; 65; 67; 69; 72; 79; 76; 68; 69; 82; 95]%N.
  cbn [app]. eexists. reflexivity.
Qed.

(** A number found in a literal piece ends inside the piece: it cannot
    run into the token that follows. *)
Lemma number_within (bef l R : jsstring) (s1 : mstate) :
  tokenAhead R ->
  matchAt numberPattern bef (l ++ R) = Some s1 ->
  exists w l2, w <> [] /\ l = w ++ l2 /\ after s1 = l2 ++ R.
Proof.
  intros HR M. destruct (number_match _ _ M) as [w [E [Hw [Hc Hb]]]].
  apply app_eq_app in E as [x [[E1 E2]|[E1 E2]]].
  - now exists w, x.
  - destruct x as [|c0 x].
    + rewrite app_nil_r in E1. cbn [app] in E2. subst.
      exists l, []. now rewrite app_nil_r.
    + exfalso. destruct HR as [->|[j [Y ->]]]; [discriminate|].
      destruct (token_cells j Y) as [T HT]. rewrite HT in E2.
      subst w. rewrite forallb_app in Hc.
      apply andb_prop in Hc as [_ Hc].
      rewrite rev_app_distr in Hb.
      injection E2 as <- E2.
      destruct x as [|c1 x].
      * cbn [app] in E2. rewrite <- E2 in Hb. discriminate.
      * injection E2 as <- E2. destruct x as [|c2 x].
        -- cbn [app] in E2. rewrite <- E2 in Hb. discriminate.
        -- injection E2 as <- E2. cbn [forallb] in Hc.
           change (numChar 80) with false in Hc.
           now rewrite !andb_false_r in Hc.
Qed.

(** The number pattern finds nothing inside a run of word characters that
    does not start a number. *)
Lemma number_skips_word (ph : list jsstring) (Y : jsstring) :
  forall w bef,
    forallb isWord w = true ->
    headIs isWord bef = true \/ headIs isDigit w = false ->
    replaceFrom numberPattern mask bef (w ++ Y) 0 ph
    = let (o, p) := replaceFrom numberPattern mask (rev w ++ bef) Y 0 ph in
      (w ++ o, p).
Proof.
  induction w as [|c w IH]; intros bef Hw Hstart.
  - cbn [app rev]. now destruct (replaceFrom _ _ bef Y 0 ph).
  - simpl in Hw. apply andb_prop in Hw as [Hc Hw].
    assert (M : matchAt numberPattern bef (c :: w ++ Y) = None).
    { destruct Hstart as [H|H].
      - now apply number_needs_boundary.
      - now apply number_needs_digit. }
    cbn [app]. rewrite (@replaceFrom_miss _ numberPattern mask bef c _ ph M).
    rewrite (IH (c :: bef) Hw) by (left; exact Hc).
    cbn [rev]. rewrite <- app_assoc. cbn [app].
    now destruct (replaceFrom _ _ _ Y 0 ph).
Qed.

Lemma token_is_word (j : nat) : forallb isWord (token j) = true.
Proof.
  unfold token. rewrite !forallb_app.
  rewrite (forallb_weaken isDigit isWord (decimal j) digit_is_word)
    by apply uintChars_digits.
  reflexivity.
Qed.

Lemma number_skips_token (ph : list jsstring) (j : nat)
  (bef Y : jsstring) :
  replaceFrom numberPattern mask bef (token j ++ Y) 0 ph
  = let (o, p) :=
      replaceFrom numberPattern mask (rev (token j) ++ bef) Y 0 ph in
    (token j ++ o, p).
Proof.
  apply number_skips_word; [apply token_is_word|]. now right.
Qed.

(** The number pass inside one literal piece. *)
Lemma number_pass_literal (n : nat) :
  forall l, length l <= n ->
  forall bef R ph,
    tokenAhead R -> noReserved l = true ->
    exists s ms,
      replaceFrom numberPattern mask bef (l ++ R) 0 ph
      = (let (o, p) := replaceFrom numberPattern mask (rev l ++ bef) R 0
                         (ph ++ ms) in
         (render s ++ o, p))
      /\ (forall extra, expand (ph ++ ms ++ extra) s = l)
      /\ noReserved (fst s) = true
      /\ piecesFree (snd s)
      /\ map fst (snd s) = seq (length ph) (length ms).
Proof.
  induction n as [|n IH]; intros l Hn bef R ph HR Hfree.
  - destruct l; [|simpl in Hn; lia].
    exists ([], []), []. rewrite app_nil_r. cbn [app rev].
    split; [now destruct (replaceFrom _ _ bef R 0 ph)|].
    repeat split; constructor.
  - destruct l as [|c l].
    { exists ([], []), []. rewrite app_nil_r. cbn [app rev].
      split; [now destruct (replaceFrom _ _ bef R 0 ph)|].
      repeat split; constructor. }
    destruct (matchAt numberPattern bef ((c :: l) ++ R)) as [s1|] eqn:M.
    + destruct (number_within _ _ HR M) as [w [l2 [Hw [El Ea]]]].
      assert (Hlen : length l2 <= n).
      { apply (f_equal (@length N)) in El. rewrite length_app in El.
        simpl in Hn, El. destruct w; [easy|]. simpl in El. lia. }
      assert (Hl2 : noReserved l2 = true).
      { rewrite El in Hfree. now apply noReserved_app in Hfree. }
      destruct (IH _ Hlen (rev w ++ bef) R (ph ++ [w]) HR Hl2)
        as [s' [ms' [R1 [R2 [R3 [R4 R5]]]]]].
      exists ([], (length ph, fst s') :: snd s'), (w :: ms').
      rewrite El in M |- *. rewrite <- app_assoc in M |- *.
      rewrite (@replaceFrom_hit _ numberPattern mask bef w (l2 ++ R) s1 ph
                 Hw M Ea).
      rewrite mask_token, R1.
      rewrite rev_app_distr, <- !app_assoc. cbn [app].
      split.
      { destruct (replaceFrom numberPattern mask (rev l2 ++ rev w ++ bef)
                    R 0 (ph ++ w :: ms')) as [o p].
        unfold render. cbn [fst snd renderTail app].
        now rewrite <- !app_assoc. }
      split.
      { intros extra. unfold expand. cbn [fst snd renderTail app].
        rewrite app_nth2, Nat.sub_diag by lia. cbn [nth]. f_equal.
        specialize (R2 extra). unfold expand in R2.
        now rewrite <- !app_assoc in R2. }
      split; [reflexivity|]. split.
      { constructor; [exact R3 | exact R4]. }
      cbn [map fst snd length seq]. f_equal.
      rewrite R5, length_app. cbn [length].
      now rewrite Nat.add_1_r.
    + simpl in Hn.
      assert (Hrest : noReserved l = true).
      { change (c :: l) with ([c] ++ l) in Hfree.
        now apply noReserved_app in Hfree. }
      destruct (IH l ltac:(lia) (c :: bef) R ph HR Hrest)
        as [s' [ms' [R1 [R2 [R3 [R4 R5]]]]]].
      exists (c :: fst s', snd s'), ms'.
      cbn [app] in M |- *.
      rewrite (@replaceFrom_miss _ numberPattern mask bef c _ ph M), R1.
      cbn [rev]. rewrite <- app_assoc. cbn [app].
      split; [now destruct (replaceFrom _ _ (rev l ++ c :: bef) R 0 _)|].
      split.
      { intros extra. unfold expand in *. cbn [fst snd app].
        now rewrite R2. }
      split; [|split; assumption].
      specialize (R2 []). unfold expand in R2. cbn [fst snd].
      rewrite <- R2 in Hfree.
      change (c :: fst s' ++ ?x) with ((c :: fst s') ++ x) in Hfree.
      now apply noReserved_app in Hfree.
Qed.

Lemma renderTail_app (f : nat -> jsstring) (a b : list (nat * jsstring)) :
  renderTail f (a ++ b) = renderTail f a ++ renderTail f b.
Proof.
  induction a as [|[i l] a IH]; [reflexivity|].
  cbn [app renderTail]. now rewrite IH, <- !app_assoc.
Qed.

Lemma renderTail_ext (f g : nat -> jsstring) (n : nat)
  (ts : list (nat * jsstring)) :
  (forall i, i < n -> f i = g i) ->
  Forall (fun t => fst t < n) ts ->
  renderTail f ts = renderTail g ts.
Proof.
  intros H Hts. induction Hts as [|[i l] ts Hi _ IH]; [reflexivity|].
  cbn [renderTail fst] in *. now rewrite (H i Hi), IH.
Qed.

Lemma goodPieces_lt (n : nat) (ts : list (nat * jsstring)) :
  goodPieces n ts -> Forall (fun t => fst t < n) ts.
Proof. apply Forall_impl. now intros t [H _]. Qed.

Lemma goodPieces_weaken (n k : nat) (ts : list (nat * jsstring)) :
  n <= k -> goodPieces n ts -> goodPieces k ts.
Proof.
  intros H. apply Forall_impl. intros t [H1 H2]. split; [lia | exact H2].
Qed.

Lemma pieces_good (k len : nat) (ts : list (nat * jsstring)) :
  piecesFree ts -> map fst ts = seq k len -> goodPieces (k + len) ts.
Proof.
  intros H1 H2. unfold goodPieces, piecesFree in *.
  rewrite Forall_forall in *. intros t Ht. split; [|now apply H1].
  assert (Hin : In (fst t) (seq k len)) by (rewrite <- H2; now apply in_map).
  apply in_seq in Hin. lia.
Qed.

Lemma tokenAhead_render (j : nat) (Y : jsstring) : tokenAhead (token j ++ Y).
Proof. right. now exists j, Y. Qed.

(** The number pass over a masked text keeps its tokens and masks numbers
    inside the literal pieces only. *)
Lemma number_pass_structure (ts : list (nat * jsstring)) :
  forall l0 bef ph,
    noReserved l0 = true -> goodPieces (length ph) ts ->
    exists s2 ms,
      replaceFrom numberPattern mask bef (render (l0, ts)) 0 ph
      = (render s2, ph ++ ms)
      /\ (forall extra,
            expand (ph ++ ms ++ extra) s2 = expand ph (l0, ts))
      /\ noReserved (fst s2) = true
      /\ goodPieces (length ph + length ms) (snd s2)
      /\ incl (map fst ts) (map fst (snd s2)).
Proof.
  induction ts as [|[j l] ts IH]; intros l0 bef ph Hl0 Hts.
  - destruct (@number_pass_literal (length l0) l0 (le_n _) bef [] ph
                (or_introl eq_refl) Hl0)
      as [s [ms [R1 [R2 [R3 [R4 R5]]]]]].
    exists s, ms. unfold render at 1. cbn [fst snd renderTail].
    rewrite R1, replaceFrom_end by reflexivity. rewrite app_nil_r.
    split; [reflexivity|]. split.
    { intros extra. unfold expand at 2. cbn [fst snd renderTail].
      now rewrite app_nil_r. }
    split; [exact R3|]. split; [now apply pieces_good|].
    intros x Hx. contradiction.
  - inversion Hts as [|? ? [Hj Hl] Hts']; subst. cbn [fst snd] in Hj, Hl.
    unfold render at 1. cbn [fst snd renderTail].
    change (l ++ renderTail token ts) with (render (l, ts)).
    destruct (@number_pass_literal (length l0) l0 (le_n _) bef
                (token j ++ render (l, ts)) ph
                (tokenAhead_render j _) Hl0)
      as [sa [msa [A1 [A2 [A3 [A4 A5]]]]]].
    rewrite A1, number_skips_token.
    assert (Hts'' : goodPieces (length (ph ++ msa)) ts).
    { apply (@goodPieces_weaken (length ph)); [|exact Hts'].
      rewrite length_app. lia. }
    destruct (IH l (rev (token j) ++ rev l0 ++ bef) (ph ++ msa) Hl Hts'')
      as [sb [msb [B1 [B2 [B3 [B4 B5]]]]]].
    rewrite B1.
    exists (fst sa, snd sa ++ (j, fst sb) :: snd sb), (msa ++ msb).
    split.
    { unfold render. cbn [fst snd]. rewrite renderTail_app.
      cbn [renderTail]. now rewrite <- !app_assoc. }
    split.
    { intros extra. unfold expand. cbn [fst snd].
      rewrite renderTail_app. cbn [renderTail].
      specialize (A2 (msb ++ extra)). unfold expand in A2.
      rewrite <- !app_assoc in *. rewrite app_assoc, A2.
      f_equal. rewrite app_nth1 by exact Hj. f_equal.
      specialize (B2 extra). unfold expand in B2. cbn [fst snd] in B2.
      rewrite <- !app_assoc in B2. rewrite B2. f_equal.
      apply (@renderTail_ext _ _ (length ph)).
      - intros i Hi. now rewrite app_nth1.
      - now apply goodPieces_lt. }
    split; [exact A3|]. split.
    { unfold goodPieces. cbn [snd]. apply Forall_app. split.
      { apply (@goodPieces_weaken (length ph + length msa)).
        - rewrite length_app. lia.
        - now apply pieces_good. }
      constructor.
      { cbn [fst snd]. split; [lia | exact B3]. }
      rewrite !length_app in *. now rewrite Nat.add_assoc. }
    cbn [snd map fst]. rewrite map_app. cbn [map fst].
    intros x [<-|Hx]; apply in_or_app; right; [now left|].
    right. now apply B5.
Qed.

(** The two masking passes produce a structure that expands to the
    input. *)
Lemma maskAll_structure (text : jsstring) :
  noReserved text = true ->
  exists s,
    fst (maskAll text) = render s
    /\ expand (snd (maskAll text)) s = text
    /\ noReserved (fst s) = true
    /\ goodPieces (length (snd (maskAll text))) (snd s).
Proof.
  intros H. unfold maskAll, replaceWith.
  destruct (@mask_pass stringCommentPattern (length text) eq_refl text
              (le_n _) [] [] H)
    as [s1 [ms1 [P1 [P2 [P3 [P4 P5]]]]]].
  rewrite P1. cbn [app] in *.
  destruct s1 as [l0 ts].
  assert (G1 : goodPieces (length ms1) ts)
    by exact (@pieces_good 0 (length ms1) ts P4 P5).
  destruct (@number_pass_structure ts l0 [] ms1 P3 G1)
    as [s2 [ms2 [Q1 [Q2 [Q3 [Q4 _]]]]]].
  cbn [fst snd] in *. rewrite Q1. cbn [fst snd].
  exists s2. split; [reflexivity|]. split.
  - specialize (Q2 []). rewrite app_nil_r in Q2. rewrite Q2.
    specialize (P2 []). now rewrite app_nil_r in P2.
  - split; [exact Q3|]. now rewrite length_app.
Qed.

(** The reserved token text in the input is taken for a token. *)
Lemma reserved_text_collides :
  restore (snd (maskAll (str "__PLACEHOLDER_0__")))
          (fst (maskAll (str "__PLACEHOLDER_0__")))
  <> str "__PLACEHOLDER_0__".
Proof. vm_compute. discriminate. Qed.

(** C7, as the code has it.  For an input that does not contain the
    reserved text [__PLACEHOLDER_], the masked text consists of pieces of
    the input and of tokens, the token with index [i] standing where the
    table entry [i] was found; restoring right after masking replaces
    every token by that entry and gives back the input. *)
Theorem mask_restore_roundtrip (text : jsstring) :
  noReserved text = true ->
  (exists s,
     fst (maskAll text) = render s
     /\ expand (snd (maskAll text)) s = text)
  /\ restore (snd (maskAll text)) (fst (maskAll text)) = text.
Proof.
  intros H. destruct (maskAll_structure text H) as [s [E1 [E2 [E3 E4]]]].
  split; [now exists s|].
  rewrite E1, restore_render by assumption. exact E2.
Qed.

Lemma mask_restore_witness :
  noReserved (str "x = 'a,b' + 1e-10 # c") = true
  /\ restore (snd (maskAll (str "x = 'a,b' + 1e-10 # c")))
             (fst (maskAll (str "x = 'a,b' + 1e-10 # c")))
     = str "x = 'a,b' + 1e-10 # c".
Proof.
  split; [reflexivity|].
  apply (mask_restore_roundtrip (str "x = 'a,b' + 1e-10 # c")).
  reflexivity.
Defined.

(** ** Strings and comments in the output *)

(** The characters the spacing rules remove or insert: white space, the
    operator characters and the comma. *)
Definition isSep (c : char) : bool :=
  isSpace c || isOperatorChar c || (c =? 44)%N.

Lemma word_not_sep (c : char) : isWord c = true -> isSep c = false.
Proof.
  unfold isWord, isSep, isSpace, isOperatorChar, oneOf, isDigit, in_range.
  change (str "=/%<>+-*!") with [61; 47; 37; 60; 62; 43; 45; 42; 33]%N.
  cbn [existsb]. intros H.
  rewrite !orb_true_iff, !andb_true_iff, !N.leb_le, N.eqb_eq in H.
  rewrite !orb_false_iff, !andb_false_iff, !N.eqb_neq, !N.leb_gt. lia.
Qed.

Lemma space_is_sep (w : jsstring) :
  forallb isSpace w = true -> forallb isSep w = true.
Proof.
  apply forallb_weaken. intros c H. unfold isSep. now rewrite H.
Qed.

Lemma operator_is_sep (w : jsstring) :
  forallb isOperatorChar w = true -> forallb isSep w = true.
Proof.
  apply forallb_weaken. intros c H. unfold isSep. rewrite H.
  now rewrite orb_true_r.
Qed.

(** A rule that replaces a run of separators by separators. *)
Definition sepLocal (d : decision) : Prop :=
  forall bef aft len rep, d bef aft = Some (len, rep) ->
    exists w rest,
      aft = w ++ rest /\ len = length w /\ w <> []
      /\ forallb isSep w = true /\ rep <> [] /\ forallb isSep rep = true.

Lemma tabAt_sepLocal : sepLocal tabAt.
Proof.
  intros bef aft len rep. unfold tabAt.
  destruct aft as [|c rest]; [discriminate|].
  destruct (c =? TAB)%N eqn:E; [|discriminate].
  apply N.eqb_eq in E. subst c. intros H. injection H as <- <-.
  exists [TAB], rest. repeat split; discriminate.
Qed.

Lemma padOpAt_sep (ops : list string) (aft : jsstring) (len : nat)
  (rep : jsstring) :
  forallb (forallb isOperatorChar) (map str ops) = true ->
  forallb (fun op => negb (isEmpty op)) (map str ops) = true ->
  padOpAt ops aft = Some (len, rep) ->
  exists w rest,
    aft = w ++ rest /\ len = length w /\ w <> []
    /\ forallb isSep w = true /\ rep <> [] /\ forallb isSep rep = true.
Proof.
  intros Hops Hne H.
  destruct (padOpAt_result _ _ H) as [op [F [-> [E1 [E2 E3]]]]].
  apply find_some in F as [Hin _].
  rewrite forallb_forall in Hops, Hne.
  pose proof (Hops _ Hin) as Hop. pose proof (Hne _ Hin) as Hop'.
  exists (firstn len aft), (skipn len aft).
  split; [symmetry; apply firstn_skipn|].
  split; [rewrite E1; exact E3|].
  split.
  { rewrite E1. destruct op; [discriminate|].
    intros C. apply app_eq_nil in C as [_ C]. discriminate. }
  split.
  { rewrite E1, !forallb_app.
    rewrite (space_is_sep _ (takeWhile_all isSpace _)).
    rewrite (operator_is_sep _ Hop).
    now rewrite (space_is_sep _ (takeWhile_all isSpace _)). }
  split; [discriminate|].
  unfold padded. rewrite !forallb_app, (operator_is_sep _ Hop). reflexivity.
Qed.

Lemma safeAt_sepLocal : sepLocal safeAt.
Proof.
  intros bef aft len rep. unfold safeAt. now apply padOpAt_sep.
Qed.

Lemma ambiguousAt_sepLocal : sepLocal ambiguousAt.
Proof.
  intros bef aft len rep. unfold ambiguousAt.
  destruct (headIs isOperandEnd bef); [|discriminate].
  now apply padOpAt_sep.
Qed.

Lemma commaAt_sepLocal : sepLocal commaAt.
Proof.
  intros bef aft len rep H.
  destruct (commaAt_shape _ _ H) as [-> [ws1 [ws2 [rest [E [L [W1 [W2 _]]]]]]]].
  exists (ws1 ++ 44%N :: ws2), rest.
  split; [exact E|]. split; [exact L|].
  split; [now destruct ws1|].
  split; [|split; [discriminate | reflexivity]].
  rewrite forallb_app. cbn [forallb].
  rewrite (space_is_sep _ W2). subst ws1.
  now rewrite (space_is_sep _ (takeWhile_all isSpace _)).
Qed.

Lemma prefixb_reaches (w s t : jsstring) (c : char) :
  length s < length w -> prefixb w (s ++ c :: t) = true -> In c w.
Proof.
  revert s. induction w as [|x w IH]; intros s L H; [simpl in L; lia|].
  destruct s as [|y s]; cbn [app prefixb] in H.
  - apply andb_prop in H as [H _]. apply N.eqb_eq in H. now left.
  - apply andb_prop in H as [_ H]. right.
    apply (IH s); [simpl in L; lia | exact H].
Qed.

Lemma reserved_not_sep (c : char) : In c reserved -> isSep c = false.
Proof.
  intros H. apply word_not_sep.
  assert (W : forallb isWord reserved = true) by reflexivity.
  rewrite forallb_forall in W. now apply W.
Qed.

(** A separator between two pieces free of the reserved text does not
    create an occurrence of it. *)
Lemma noReserved_sep (u v : jsstring) (c : char) :
  isSep c = true -> noReserved u = true -> noReserved v = true ->
  noReserved (u ++ c :: v) = true.
Proof.
  intros Hc Hu Hv. induction u as [|a u IH].
  - cbn [app]. unfold noReserved in *. cbn [hasReserved].
    apply negb_true_iff in Hv. rewrite Hv, orb_false_r.
    apply negb_true_iff.
    destruct (prefixb reserved (c :: v)) eqn:P; [|reflexivity].
    exfalso. apply (@prefixb_reaches reserved [] v c) in P.
    + apply reserved_not_sep in P. congruence.
    + simpl. lia.
  - apply noReserved_cons in Hu as [Ha Hu]. specialize (IH Hu).
    unfold noReserved in *. cbn [app hasReserved].
    apply negb_true_iff in IH. rewrite IH, orb_false_r.
    apply negb_true_iff.
    change (a :: u ++ c :: v) with ((a :: u) ++ c :: v).
    destruct (Nat.ltb (length (a :: u)) 14) eqn:L.
    + apply Nat.ltb_lt in L.
      destruct (prefixb reserved ((a :: u) ++ c :: v)) eqn:P; [|reflexivity].
      exfalso. apply prefixb_reaches in P; [|exact L].
      apply reserved_not_sep in P. congruence.
    + apply Nat.ltb_ge in L. rewrite prefixb_app_long by exact L.
      exact Ha.
Qed.

Lemma noReserved_join (rep : jsstring) :
  rep <> [] -> forallb isSep rep = true ->
  forall u v, noReserved u = true -> noReserved v = true ->
    noReserved (u ++ rep ++ v) = true.
Proof.
  induction rep as [|c rep IH]; [easy|]. intros _ H u v Hu Hv.
  cbn [forallb] in H. apply andb_prop in H as [Hc H].
  cbn [app]. apply noReserved_sep; [exact Hc | exact Hu |].
  destruct rep as [|c' rep]; [exact Hv|].
  apply (IH ltac:(discriminate) H [] v); [reflexivity | exact Hv].
Qed.

Section SepStage.

Variable d : decision.
Hypothesis Hd : sepLocal d.

Lemma sep_end (bef : jsstring) : rewriteFrom d bef [] 0 = [].
Proof.
  cbn [rewriteFrom]. destruct (d bef []) as [[len rep]|] eqn:E; [|reflexivity].
  exfalso. destruct (Hd E) as [w [rest [E1 [_ [Hw _]]]]].
  symmetry in E1. apply app_eq_nil in E1 as [E1 _]. contradiction.
Qed.

(** A run of word characters is copied. *)
Lemma sep_skips_word (Y : jsstring) :
  forall w bef, forallb isWord w = true ->
    rewriteFrom d bef (w ++ Y) 0 = w ++ rewriteFrom d (rev w ++ bef) Y 0.
Proof.
  induction w as [|c w IH]; intros bef Hw; [reflexivity|].
  cbn [forallb] in Hw. apply andb_prop in Hw as [Hc Hw].
  cbn [app rewriteFrom].
  destruct (d bef (c :: w ++ Y)) as [[len rep]|] eqn:E.
  - exfalso. destruct (Hd E) as [x [rest [E1 [_ [Hx [Hs _]]]]]].
    destruct x as [|x0 x]; [easy|]. cbn [app] in E1. injection E1 as <- _.
    cbn [forallb] in Hs. apply andb_prop in Hs as [Hs _].
    rewrite (word_not_sep _ Hc) in Hs. discriminate.
  - rewrite (IH _ Hw). cbn [rev]. now rewrite <- app_assoc.
Qed.

(** A literal piece is rewritten into a literal piece. *)
Lemma sep_literal (n : nat) :
  forall l, length l <= n ->
  forall bef R u, tokenAhead R -> noReserved (u ++ l) = true ->
    exists l',
      rewriteFrom d bef (l ++ R) 0
      = l' ++ rewriteFrom d (rev l ++ bef) R 0
      /\ noReserved (u ++ l') = true.
Proof.
  induction n as [|n IH]; intros l Hn bef R u HR Hfree.
  - destruct l; [|simpl in Hn; lia]. now exists [].
  - destruct l as [|c l]; [now exists []|].
    destruct (d bef ((c :: l) ++ R)) as [[len rep]|] eqn:E.
    + destruct (Hd E) as [w [rest [E1 [-> [Hw [Hs [Hr Hrs]]]]]]].
      assert (X : exists x, c :: l = w ++ x /\ rest = x ++ R).
      { apply app_eq_app in E1 as [x [[E1 E2]|[E1 E2]]].
        - now exists x.
        - destruct x as [|x0 x].
          + rewrite app_nil_r in E1. cbn [app] in E2. subst.
            exists []. now rewrite app_nil_r.
          + exfalso. destruct HR as [->|[j [Y ->]]]; [discriminate|].
            destruct (token_cells j Y) as [T HT]. rewrite HT in E2.
            injection E2 as <- _. subst w.
            rewrite forallb_app in Hs. apply andb_prop in Hs as [_ Hs].
            cbn [forallb] in Hs. apply andb_prop in Hs as [Hs _].
            discriminate. }
      destruct X as [x [E2 ->]]. rewrite E2 in *. clear E1.
      rewrite <- app_assoc in E |- *.
      rewrite (@rewriteFrom_fire d bef w (x ++ R) rep Hw E).
      apply noReserved_app in Hfree as [Hu Hwx].
      apply noReserved_app in Hwx as [_ Hx].
      assert (Lx : length x <= n).
      { rewrite length_app in Hn. destruct w; [contradiction|].
        simpl in Hn. lia. }
      destruct (IH x Lx (rev w ++ bef) R [] HR Hx) as [x' [I1 I2]].
      exists (rep ++ x'). split.
      * rewrite I1, rev_app_distr, <- !app_assoc. reflexivity.
      * now apply noReserved_join.
    + cbn [app] in E |- *. cbn [rewriteFrom]. rewrite E.
      assert (Hfree' : noReserved ((u ++ [c]) ++ l) = true)
        by now rewrite <- app_assoc.
      destruct (IH l ltac:(simpl in Hn; lia) (c :: bef) R (u ++ [c]) HR Hfree')
        as [l' [I1 I2]].
      exists (c :: l'). split.
      * rewrite I1. cbn [rev app]. now rewrite <- app_assoc.
      * now rewrite <- app_assoc in I2.
Qed.

(** The rule rewrites the literal pieces and keeps the tokens. *)
Lemma sep_structure (ts : list (nat * jsstring)) :
  forall l0 bef, noReserved l0 = true -> piecesFree ts ->
    exists s',
      rewriteFrom d bef (render (l0, ts)) 0 = render s'
      /\ noReserved (fst s') = true /\ piecesFree (snd s')
      /\ map fst (snd s') = map fst ts.
Proof.
  induction ts as [|[j l] ts IH]; intros l0 bef Hl0 Hts; unfold render;
    cbn [fst snd renderTail].
  - destruct (@sep_literal (length l0) l0 (le_n _) bef [] [] (or_introl eq_refl)
                Hl0) as [l' [I1 I2]].
    exists (l', []). unfold render. cbn [fst snd renderTail].
    rewrite I1, sep_end. repeat split; [exact I2 | constructor].
  - inversion Hts as [|? ? Hl Hts']; subst. cbn [snd] in Hl.
    destruct (@sep_literal (length l0) l0 (le_n _) bef
                (token j ++ l ++ renderTail token ts) []
                (tokenAhead_render _ _) Hl0) as [l' [I1 I2]].
    rewrite I1, sep_skips_word by apply token_is_word.
    destruct (IH l (rev (token j) ++ rev l0 ++ bef) Hl Hts')
      as [s' [J1 [J2 [J3 J4]]]].
    unfold render in J1. cbn [fst snd] in J1. rewrite J1.
    exists (l', (j, fst s') :: snd s'). unfold render.
    cbn [fst snd renderTail map].
    repeat split; [exact I2 | | now rewrite J4].
    constructor; [exact J2 | exact J3].
Qed.

End SepStage.

(** The spacing rules keep the tokens of a masked text and free of the
    reserved text what is between them. *)
Lemma spacing_structure (s : structure) :
  noReserved (fst s) = true -> piecesFree (snd s) ->
  exists s',
    spacing (render s) = render s'
    /\ noReserved (fst s') = true /\ piecesFree (snd s')
    /\ map fst (snd s') = map fst (snd s).
Proof.
  intros H1 H2. unfold spacing.
  rewrite normalizeTabs_rewrite. unfold rewrite.
  destruct s as [l0 ts]. cbn [fst snd] in *.
  destruct (@sep_structure tabAt tabAt_sepLocal ts l0 [] H1 H2)
    as [[l1 t1] [A1 [A2 [A3 A4]]]].
  rewrite A1, padSafe_rewrite. unfold rewrite. cbn [fst snd] in *.
  destruct (@sep_structure safeAt safeAt_sepLocal t1 l1 [] A2 A3)
    as [[l2 t2] [B1 [B2 [B3 B4]]]].
  rewrite B1, padAmbiguous_rewrite. unfold rewrite. cbn [fst snd] in *.
  destruct (@sep_structure ambiguousAt ambiguousAt_sepLocal t2 l2 [] B2 B3)
    as [[l3 t3] [C1 [C2 [C3 C4]]]].
  rewrite C1, spaceCommas_rewrite. unfold rewrite. cbn [fst snd] in *.
  destruct (@sep_structure commaAt commaAt_sepLocal t3 l3 [] C2 C3)
    as [s4 [D1 [D2 [D3 D4]]]].
  exists s4. rewrite D1. repeat split; [exact D2 | exact D3 |]. congruence.
Qed.

(** The stretches of a text between its white space characters, and those
    that are not empty. *)
Fixpoint fields (t : jsstring) : list jsstring :=
  match t with
  | [] => [[]]
  | c :: t' => if isSpace c then [] :: fields t' else addFirst [c] (fields t')
  end.

Definition words (t : jsstring) : list jsstring :=
  filter (fun w => negb (isEmpty w)) (fields t).

Lemma fields_nonempty (t : jsstring) : fields t <> [].
Proof.
  induction t as [|c t IH]; simpl; [discriminate|].
  destruct (isSpace c); [discriminate|]. now destruct (fields t).
Qed.

Lemma addFirst_app_r (p : jsstring) (a b : list jsstring) :
  a <> [] -> addFirst p (a ++ b) = addFirst p a ++ b.
Proof. now destruct a. Qed.

Lemma fields_app_space (a b : jsstring) (c : char) :
  isSpace c = true -> fields (a ++ c :: b) = fields a ++ fields b.
Proof.
  intros Hc. induction a as [|x a IH]; cbn [app fields].
  - now rewrite Hc.
  - rewrite IH. destruct (isSpace x); [reflexivity|].
    apply addFirst_app_r, fields_nonempty.
Qed.

Lemma words_app_space (a b : jsstring) (c : char) :
  isSpace c = true -> words (a ++ c :: b) = words a ++ words b.
Proof.
  intros Hc. unfold words. rewrite (@fields_app_space a b c Hc).
  apply filter_app.
Qed.

Lemma words_app_blank (q : jsstring) :
  forallb isSpace q = true -> forall a, words (a ++ q) = words a.
Proof.
  induction q as [|c q IH]; intros H a; [now rewrite app_nil_r|].
  cbn [forallb] in H. apply andb_prop in H as [Hc Hq].
  rewrite (@words_app_space a q c Hc).
  change q with ([] ++ q). rewrite (IH Hq []). apply app_nil_r.
Qed.

Lemma trimEnd_split (l : jsstring) :
  l = trimEnd l ++ rev (takeWhile isSpace (rev l)).
Proof.
  unfold trimEnd. rewrite <- rev_app_distr, takeWhile_dropWhile.
  symmetry. apply rev_involutive.
Qed.

Lemma forallb_rev (p : char -> bool) (l : jsstring) :
  forallb p l = true -> forallb p (rev l) = true.
Proof.
  rewrite !forallb_forall. intros H x Hx. apply H. now apply in_rev.
Qed.

Lemma words_trimEnd (l : jsstring) : words (trimEnd l) = words l.
Proof.
  rewrite (trimEnd_split l) at 2. symmetry. apply words_app_blank.
  apply forallb_rev, takeWhile_all.
Qed.

(** A text is its first line, or its first line, a line break and the
    rest. *)
Lemma splitLines_cases (t : jsstring) :
  splitLines t = [t]
  \/ exists l br t',
       t = l ++ br ++ t' /\ br <> [] /\ forallb isSpace br = true
       /\ splitLines t = l :: splitLines t'.
Proof.
  induction t as [|c rest IH]; [now left|].
  cbn [splitLines].
  destruct (c =? LF)%N eqn:E1.
  { apply N.eqb_eq in E1. subst c. right. exists [], [LF], rest.
    repeat split. discriminate. }
  destruct ((c =? CR)%N && headIs (N.eqb LF) rest) eqn:E2.
  { apply andb_prop in E2 as [E2 E3]. apply N.eqb_eq in E2. subst c.
    destruct rest as [|x rest]; [discriminate|]. cbn [headIs] in E3.
    apply N.eqb_eq in E3. subst x. right. exists [], [CR; LF], rest.
    cbn [splitLines]. rewrite N.eqb_refl. repeat split. discriminate. }
  destruct IH as [IH|[l [br [t' [I1 [I2 [I3 I4]]]]]]].
  - left. now rewrite IH.
  - right. exists (c :: l), br, t'. rewrite I4. subst rest.
    repeat split; assumption.
Qed.

Lemma words_lines (n : nat) :
  forall t, length t <= n -> words t = flat_map words (splitLines t).
Proof.
  induction n as [|n IH]; intros t Hn.
  - destruct t; [reflexivity | simpl in Hn; lia].
  - destruct (splitLines_cases t) as [E|[l [br [t' [E1 [E2 [E3 E4]]]]]]].
    + rewrite E. cbn [flat_map]. now rewrite app_nil_r.
    + rewrite E4. cbn [flat_map]. rewrite <- IH.
      * subst t. destruct br as [|b br]; [contradiction|].
        cbn [forallb] in E3. apply andb_prop in E3 as [Hb Hbr].
        cbn [app]. rewrite (@words_app_space l (br ++ t') b Hb).
        f_equal. clear - Hbr. induction br as [|x br IHb]; [reflexivity|].
        cbn [forallb] in Hbr. apply andb_prop in Hbr as [Hx Hbr].
        change ((x :: br) ++ t') with ([] ++ x :: br ++ t').
        rewrite (@words_app_space [] (br ++ t') x Hx).
        now apply IHb.
      * subst t. rewrite !length_app in Hn. destruct br; [contradiction|].
        simpl in Hn. lia.
Qed.

Lemma words_map_trimEnd (ls : list jsstring) :
  flat_map words (map trimEnd ls) = flat_map words ls.
Proof.
  induction ls as [|l ls IH]; [reflexivity|].
  cbn [map flat_map]. now rewrite words_trimEnd, IH.
Qed.

Lemma words_keepLines (ls : list jsstring) :
  Forall (fun l => noTrailingSpace l = true) ls ->
  forall bc, flat_map words (keepLines ls bc) = flat_map words ls.
Proof.
  intros H. induction H as [|l ls Hl _ IH]; intros bc; [reflexivity|].
  cbn [keepLines]. rewrite (trim_empty l Hl).
  destruct l as [|c l]; cbn [isEmpty].
  - destruct (S bc <=? 2); cbn [flat_map]; now rewrite IH.
  - cbn [flat_map]. now rewrite IH.
Qed.

Lemma words_popBlank (ls : list jsstring) :
  flat_map words (popBlank ls) = flat_map words ls.
Proof.
  destruct (popBlank_prefix ls) as [q [E Hq]]. rewrite E at 2.
  rewrite flat_map_app.
  assert (Z : flat_map words q = []).
  { clear E. induction Hq as [|x q Hx _ IH]; [reflexivity|].
    subst x. cbn [flat_map]. exact IH. }
  rewrite Z. symmetry. apply app_nil_r.
Qed.

Lemma words_join (ls : list jsstring) :
  words (join [LF] ls ++ [LF]) = flat_map words ls.
Proof.
  induction ls as [|l ls IH]; [reflexivity|].
  destruct ls as [|l' ls].
  - cbn [join flat_map]. rewrite (@words_app_space l [] LF eq_refl).
    reflexivity.
  - change (join [LF] (l :: l' :: ls)) with (l ++ [LF] ++ join [LF] (l' :: ls)).
    rewrite <- !app_assoc. cbn [app flat_map].
    rewrite (@words_app_space l _ LF eq_refl). now rewrite IH.
Qed.

(** Line processing changes white space only. *)
Lemma words_lineProcessing (t : jsstring) :
  words (lineProcessing t) = words t.
Proof.
  rewrite lineProcessing_lines, words_join. unfold cleanLines.
  rewrite words_popBlank, words_keepLines, words_map_trimEnd.
  - symmetry. apply (@words_lines (length t)). lia.
  - apply Forall_forall. intros l Hl. apply in_map_iff in Hl as [x [<- _]].
    apply trimEnd_noTrailing.
Qed.

(** [t.includes(w)] *)
Fixpoint includes (w t : jsstring) : bool :=
  prefixb w t
  || match t with
     | [] => false
     | _ :: t' => includes w t'
     end.

(** A text with well-formed tokens, and the indices of these tokens. *)
Definition masked (n : nat) (w : jsstring) (js : list nat) : Prop :=
  exists s,
    w = render s /\ noReserved (fst s) = true
    /\ goodPieces n (snd s) /\ map fst (snd s) = js.

(** A text that ends with a token (or is empty): whatever literal piece
    is put behind it, the result is well formed. *)
Definition opened (n : nat) (pre : jsstring) (js : list nat) : Prop :=
  forall z, noReserved z = true -> masked n (pre ++ z) js.

Lemma includes_app (w a b : jsstring) : includes w (a ++ w ++ b) = true.
Proof.
  induction a as [|c a IH].
  - cbn [app]. destruct (w ++ b) eqn:E; cbn [includes]; rewrite <- E;
      now rewrite prefixb_app.
  - cbn [app includes]. now rewrite IH, orb_true_r.
Qed.

Lemma opened_nil (n : nat) : opened n [] [].
Proof.
  intros z Hz. exists (z, []). unfold render. cbn [fst snd renderTail app].
  rewrite app_nil_r. repeat split; [exact Hz | constructor].
Qed.

Lemma opened_token (n : nat) (pre z : jsstring) (js : list nat) (j : nat) :
  opened n pre js -> noReserved z = true -> j < n ->
  opened n (pre ++ z ++ token j) (js ++ [j]).
Proof.
  intros H Hz Hj z' Hz'. destruct (H z Hz) as [[l0 ts] [E [H1 [H2 H3]]]].
  exists (l0, ts ++ [(j, z')]). unfold render in *. cbn [fst snd] in *.
  rewrite renderTail_app. cbn [renderTail]. rewrite app_nil_r.
  split.
  { rewrite (app_assoc l0), <- E, <- !app_assoc. reflexivity. }
  split; [exact H1|]. split.
  - apply Forall_app. split; [exact H2|]. constructor; [|constructor].
    now split.
  - rewrite map_app, H3. reflexivity.
Qed.

Lemma word_not_space (c : char) : isWord c = true -> isSpace c = false.
Proof.
  intros H. apply word_not_sep in H. unfold isSep in H.
  apply orb_false_elim in H as [H _]. now apply orb_false_elim in H as [H _].
Qed.

Lemma addFirst_nil (X : list jsstring) : X <> [] -> addFirst [] X = X.
Proof. now destruct X. Qed.

Lemma fields_word_prefix (Y : jsstring) :
  forall w, forallb isWord w = true ->
    fields (w ++ Y) = addFirst w (fields Y).
Proof.
  induction w as [|c w IH]; intros H.
  - cbn [app]. symmetry. apply addFirst_nil, fields_nonempty.
  - cbn [forallb] in H. apply andb_prop in H as [Hc Hw].
    cbn [app fields]. rewrite (word_not_space _ Hc), (IH Hw).
    apply addFirst_app.
Qed.

(** Reading a literal piece: the field in progress stays well formed. *)
Lemma carry_literal (n i : nat) (R : jsstring) (later : Prop) :
  (forall pre z js,
     opened n pre js -> noReserved z = true -> In i js \/ later ->
     exists w ks,
       In w (addFirst (pre ++ z) (fields R)) /\ masked n w ks /\ In i ks) ->
  forall l0 pre z js,
    opened n pre js -> noReserved (z ++ l0) = true -> In i js \/ later ->
    exists w ks,
      In w (addFirst (pre ++ z) (fields (l0 ++ R)))
      /\ masked n w ks /\ In i ks.
Proof.
  intros HR. induction l0 as [|c l0 IH]; intros pre z js Ho Hz Hi.
  - rewrite app_nil_r in Hz. now apply (HR pre z js).
  - cbn [app fields]. destruct (isSpace c) eqn:Ec.
    + cbn [addFirst]. destruct Hi as [Hi|Hi].
      * exists ((pre ++ z) ++ []), js. split; [now left|].
        rewrite app_nil_r. split; [|exact Hi].
        apply Ho. now apply noReserved_app in Hz.
      * apply noReserved_app in Hz as [_ Hz].
        apply noReserved_cons in Hz as [_ Hz].
        destruct (IH [] [] [] (opened_nil n) Hz (or_intror Hi))
          as [w [ks [W1 [W2 W3]]]].
        exists w, ks. split; [|now split]. right. cbn [app] in W1.
        rewrite addFirst_nil in W1 by apply fields_nonempty. exact W1.
    + rewrite addFirst_app, <- app_assoc.
      apply IH with js; [exact Ho | | exact Hi].
      now rewrite <- app_assoc.
Qed.

(** Every token of a masked text lies in a field that is itself a well
    formed masked text. *)
Lemma fields_masked (n i : nat) (ts : list (nat * jsstring)) :
  goodPieces n ts ->
  forall l0 pre z js,
    opened n pre js -> noReserved (z ++ l0) = true ->
    In i js \/ In i (map fst ts) ->
    exists w ks,
      In w (addFirst (pre ++ z) (fields (render (l0, ts))))
      /\ masked n w ks /\ In i ks.
Proof.
  intros Hts. induction Hts as [|[j l] ts [Hj Hl] Hts IH];
    intros l0 pre z js Ho Hz Hi; unfold render; cbn [fst snd renderTail].
  - refine (@carry_literal n i [] _ _ l0 pre z js Ho Hz Hi).
    clear. intros pre z js Ho Hz [Hi|[]].
    exists ((pre ++ z) ++ []), js. split; [now left|].
    rewrite app_nil_r. split; [now apply Ho | exact Hi].
  - cbn [fst snd] in Hj, Hl.
    refine (@carry_literal n i _ _ _ l0 pre z js Ho Hz Hi).
    clear l0 pre z js Ho Hz Hi. intros pre z js Ho Hz Hi.
    rewrite fields_word_prefix by apply token_is_word.
    rewrite addFirst_app.
    replace ((pre ++ z) ++ token j) with ((pre ++ z ++ token j) ++ [])
      by now rewrite app_nil_r, <- app_assoc.
    apply (IH l (pre ++ z ++ token j) [] (js ++ [j])).
    + now apply opened_token.
    + exact Hl.
    + cbn [map fst In] in Hi. destruct Hi as [Hi|[Hi|Hi]].
      * left. apply in_or_app. now left.
      * left. apply in_or_app. right. now left.
      * now right.
Qed.

(** Where a field lies in its text: between white space characters or
    the ends of the text. *)
Definition spaceBefore (A : jsstring) : Prop :=
  A = [] \/ headIs isSpace (rev A) = true.

Definition spaceAfter (B : jsstring) : Prop :=
  B = [] \/ headIs isSpace B = true.

Lemma spaceBefore_cons (c : char) (A : jsstring) :
  headIs isSpace (rev A) = true -> headIs isSpace (rev (c :: A)) = true.
Proof. intros H. cbn [rev]. now apply headIs_app. Qed.

Lemma fields_occurrence (t : jsstring) :
  exists f0 fs,
    fields t = f0 :: fs
    /\ (exists B, t = f0 ++ B /\ spaceAfter B)
    /\ forall w, In w fs ->
         exists A B,
           t = A ++ w ++ B /\ headIs isSpace (rev A) = true /\ spaceAfter B.
Proof.
  induction t as [|c t [f0 [fs [E [[B0 [E0 S0]] IH]]]]].
  - exists [], []. split; [reflexivity|]. split; [|easy].
    exists []. split; [reflexivity | now left].
  - cbn [fields]. rewrite E. destruct (isSpace c) eqn:Ec.
    + exists [], (f0 :: fs). split; [reflexivity|]. split.
      { exists (c :: t). split; [reflexivity|]. right. exact Ec. }
      intros w [<-|Hw].
      * exists [c], B0. cbn [app rev headIs]. now rewrite <- E0.
      * destruct (IH w Hw) as [A [B [I1 [I2 I3]]]].
        exists (c :: A), B. rewrite I1.
        split; [reflexivity|]. split; [now apply spaceBefore_cons | exact I3].
    + exists (c :: f0), fs. split; [reflexivity|]. split.
      { exists B0. now rewrite E0 at 1. }
      intros w Hw. destruct (IH w Hw) as [A [B [I1 [I2 I3]]]].
      exists (c :: A), B. rewrite I1.
      split; [reflexivity|]. split; [now apply spaceBefore_cons | exact I3].
Qed.

Lemma words_occurrence (t w : jsstring) :
  In w (words t) ->
  exists A B, t = A ++ w ++ B /\ spaceBefore A /\ spaceAfter B.
Proof.
  unfold words. intros H. apply filter_In in H as [H _].
  destruct (fields_occurrence t) as [f0 [fs [E [[B0 [E0 S0]] Hfs]]]].
  rewrite E in H. destruct H as [<-|H].
  - exists [], B0. split; [exact E0|]. split; [now left | exact S0].
  - destruct (Hfs w H) as [A [B [I1 [I2 I3]]]].
    exists A, B. split; [exact I1|]. split; [now right | exact I3].
Qed.

(** What the restoring pattern matches is a run of word characters. *)
Lemma tokenAt_shape (ph : list jsstring) (bef aft : jsstring) (len : nat)
  (rep : jsstring) :
  tokenAt ph bef aft = Some (len, rep) ->
  exists w rest,
    aft = w ++ rest /\ len = length w /\ w <> []
    /\ forallb isWord w = true.
Proof.
  unfold tokenAt. destruct (prefixb reserved aft) eqn:P; [|discriminate].
  apply prefixb_spec in P. change (length reserved) with 14 in P.
  set (a1 := skipn 14 aft) in *.
  destruct (headIs isDigit a1 && prefixb (str "__") (dropWhile isDigit a1))
    eqn:Q; [|discriminate].
  apply andb_prop in Q as [_ Q]. apply prefixb_spec in Q.
  change (length (str "__")) with 2 in Q.
  set (a2 := dropWhile isDigit a1) in *.
  intros H. injection H as <- _.
  assert (E : aft = (reserved ++ takeWhile isDigit a1 ++ str "__")
                    ++ skipn 2 a2).
  { rewrite P at 1. rewrite <- !app_assoc. f_equal.
    rewrite <- (takeWhile_dropWhile isDigit a1) at 1. f_equal. exact Q. }
  exists (reserved ++ takeWhile isDigit a1 ++ str "__"), (skipn 2 a2).
  split; [exact E|]. split.
  { pose proof (f_equal (@length N) E) as L. rewrite length_app in L.
    rewrite L. apply Nat.add_sub. }
  split; [discriminate|].
  rewrite !forallb_app.
  rewrite (forallb_weaken isDigit isWord (takeWhile isDigit a1) digit_is_word)
    by apply takeWhile_all.
  reflexivity.
Qed.

Lemma word_run_no_space (A : jsstring) :
  forallb isWord A = true -> headIs isSpace (rev A) = true -> False.
Proof.
  intros H1 H2. destruct (rev A) as [|z r] eqn:E; [discriminate|].
  cbn [headIs] in H2. rewrite forallb_forall in H1.
  assert (Hz : In z A) by (apply in_rev; rewrite E; now left).
  apply H1, word_not_space in Hz. congruence.
Qed.

(** Restoring up to a white space character: no token runs over it. *)
Lemma restore_prefix (ph : list jsstring) (n : nat) :
  forall A, length A <= n -> spaceBefore A ->
  forall bef Y,
    exists A',
      rewriteFrom (tokenAt ph) bef (A ++ Y) 0
      = A' ++ rewriteFrom (tokenAt ph) (rev A ++ bef) Y 0.
Proof.
  induction n as [|n IH]; intros A Hn HA bef Y.
  - destruct A; [|simpl in Hn; lia]. now exists [].
  - destruct A as [|c A]; [now exists []|].
    destruct HA as [HA|HA]; [discriminate|].
    destruct (tokenAt ph bef ((c :: A) ++ Y)) as [[len rep]|] eqn:E.
    + destruct (tokenAt_shape _ _ _ E) as [w [rest [E1 [-> [Hw Hww]]]]].
      apply app_eq_app in E1 as [x [[E1 E2]|[E1 E2]]].
      * rewrite E1 in *. subst rest. rewrite <- app_assoc in E |- *.
        rewrite (@rewriteFrom_fire (tokenAt ph) bef w (x ++ Y) rep Hw E).
        assert (Lx : length x <= n).
        { rewrite length_app in Hn. destruct w; [contradiction|].
          simpl in Hn. lia. }
        assert (Sx : spaceBefore x).
        { destruct x as [|x0 x]; [now left|]. right.
          rewrite rev_app_distr in HA.
          destruct (rev (x0 :: x)) eqn:R; [|exact HA].
          apply (f_equal (@length N)) in R. rewrite length_rev in R.
          discriminate. }
        destruct (IH x Lx Sx (rev w ++ bef) Y) as [x' I].
        exists (rep ++ x'). rewrite I, rev_app_distr, <- !app_assoc.
        reflexivity.
      * exfalso. subst w. rewrite forallb_app in Hww.
        apply andb_prop in Hww as [Hww _].
        exact (word_run_no_space _ Hww HA).
    + cbn [app] in E |- *. cbn [rewriteFrom]. rewrite E.
      assert (SA : spaceBefore A).
      { destruct A as [|a A]; [now left|]. right. cbn [rev] in HA |- *.
        destruct (rev A ++ [a]) eqn:R; [|exact HA].
        now apply app_eq_nil in R as [_ R]. }
      destruct (IH A ltac:(simpl in Hn; lia) SA (c :: bef) Y) as [A' I].
      exists (c :: A'). rewrite I. cbn [rev app]. now rewrite <- app_assoc.
Qed.

Lemma spaceAfter_quiet (ph : list jsstring) (B : jsstring) :
  spaceAfter B -> quiet ph B.
Proof.
  intros [->|H]; [apply quiet_nil | now apply quiet_space].
Qed.

(** A well-formed masked word between white space is restored to its
    expansion. *)
Lemma restore_word (ph : list jsstring) (A B : jsstring) (s : structure) :
  spaceBefore A -> spaceAfter B ->
  noReserved (fst s) = true -> goodPieces (length ph) (snd s) ->
  exists A' B', restore ph (A ++ render s ++ B) = A' ++ expand ph s ++ B'.
Proof.
  intros HA HB H1 H2. rewrite restore_rewrite. unfold rewrite.
  destruct (@restore_prefix ph (length A) A (le_n _) HA [] (render s ++ B))
    as [A' E].
  rewrite E. destruct s as [l0 ts]. cbn [fst snd] in *.
  rewrite (@restore_structure ph B (spaceAfter_quiet ph HB) ts l0 _ H1 H2).
  now eexists _, _.
Qed.

Lemma expand_contains (ph : list jsstring) (i : nat)
  (ts : list (nat * jsstring)) :
  In i (map fst ts) ->
  forall l0, exists P Q, expand ph (l0, ts) = P ++ nth i ph [] ++ Q.
Proof.
  unfold expand. cbn [fst snd].
  induction ts as [|[j l] ts IH]; intros Hi l0; [contradiction|].
  cbn [map fst In] in Hi. cbn [renderTail]. destruct Hi as [->|Hi].
  - now exists l0, (l ++ renderTail (fun k => nth k ph []) ts).
  - destruct (IH Hi l) as [P [Q E]]. rewrite E.
    exists (l0 ++ nth j ph [] ++ P), Q. now rewrite <- !app_assoc.
Qed.

Lemma goodPieces_free (n : nat) (ts : list (nat * jsstring)) :
  goodPieces n ts -> piecesFree ts.
Proof. apply Forall_impl. now intros t [_ H]. Qed.

Lemma goodPieces_same_tokens (n : nat) (ts ts' : list (nat * jsstring)) :
  goodPieces n ts -> piecesFree ts' -> map fst ts' = map fst ts ->
  goodPieces n ts'.
Proof.
  intros H1 H2 E. unfold goodPieces, piecesFree in *.
  rewrite Forall_forall in *. intros t Ht. split; [|now apply H2].
  assert (Hin : In (fst t) (map fst ts)) by (rewrite <- E; now apply in_map).
  apply in_map_iff in Hin as [t0 [E0 H0]]. rewrite <- E0. now apply H1.
Qed.

Lemma masked_nonempty (n : nat) (w : jsstring) (ks : list nat) (i : nat) :
  masked n w ks -> In i ks -> w <> [].
Proof.
  intros [[l0 ts] [-> [_ [_ <-]]]] Hi. cbn [snd] in Hi.
  destruct ts as [|[j l] ts]; [contradiction|].
  unfold render. cbn [fst snd renderTail]. intros C.
  apply app_eq_nil in C as [_ C]. apply app_eq_nil in C as [C _].
  exact (token_nonempty C).
Qed.

(** The entries of the first masking pass are the first entries of the
    final table, and each has its token in the masked text. *)
Lemma maskAll_parts (text : jsstring) :
  noReserved text = true ->
  exists s ms1 ms2,
    snd (replaceWith stringCommentPattern mask text []) = ms1
    /\ maskAll text = (render s, ms1 ++ ms2)
    /\ noReserved (fst s) = true
    /\ goodPieces (length (ms1 ++ ms2)) (snd s)
    /\ incl (seq 0 (length ms1)) (map fst (snd s)).
Proof.
  intros H. unfold maskAll, replaceWith.
  destruct (@mask_pass stringCommentPattern (length text) eq_refl text
              (le_n _) [] [] H)
    as [s1 [ms1 [P1 [P2 [P3 [P4 P5]]]]]].
  rewrite P1. cbn [app] in *.
  destruct s1 as [l0 ts].
  assert (G1 : goodPieces (length ms1) ts)
    by exact (@pieces_good 0 (length ms1) ts P4 P5).
  destruct (@number_pass_structure ts l0 [] ms1 P3 G1)
    as [s2 [ms2 [Q1 [_ [Q3 [Q4 Q5]]]]]].
  cbn [fst snd] in *. rewrite Q1.
  exists s2, ms1, ms2. split; [reflexivity|]. split; [reflexivity|].
  split; [exact Q3|]. split; [now rewrite length_app|].
  cbn [length] in P5. rewrite <- P5. exact Q5.
Qed.

(** A string or comment of an input with the reserved text is lost. *)
Lemma string_lost_by_collision :
  In (str "'a'")
     (snd (replaceWith stringCommentPattern mask (str "__PLACEHOLDER_1'a'")
             []))
  /\ formatBuiltin (str "__PLACEHOLDER_1'a'")
     = str "undefinedPLACEHOLDER_0__" ++ [LF]
  /\ includes (str "'a'") (formatBuiltin (str "__PLACEHOLDER_1'a'")) = false.
Proof. split; [left|split]; vm_compute; reflexivity. Qed.

(** C2, as the code has it.  For an input that does not contain the
    reserved text [__PLACEHOLDER_], every span that the first masking pass
    takes for a string or a comment occurs unchanged in the output. *)
Theorem strings_and_comments_preserved (text lit : jsstring) :
  noReserved text = true ->
  In lit (snd (replaceWith stringCommentPattern mask text [])) ->
  includes lit (formatBuiltin text) = true.
Proof.
  intros H Hlit.
  destruct (maskAll_parts text H) as [s [ms1 [ms2 [E1 [E2 [G1 [G2 G3]]]]]]].
  rewrite E1 in Hlit. unfold formatBuiltin. rewrite E2.
  set (ph := ms1 ++ ms2) in *.
  destruct (In_nth _ _ [] Hlit) as [i [Hi Hnth]].
  assert (Ei : nth i ph [] = lit)
    by (unfold ph; now rewrite app_nth1).
  assert (Ti : In i (map fst (snd s))).
  { apply G3, in_seq. lia. }
  destruct (@spacing_structure s G1 (goodPieces_free G2))
    as [s' [S1 [S2 [S3 S4]]]].
  rewrite S1.
  assert (G' : goodPieces (length ph) (snd s'))
    by exact (goodPieces_same_tokens G2 S3 S4).
  rewrite <- S4 in Ti. destruct s' as [l0 ts]. cbn [fst snd] in *.
  destruct (@fields_masked (length ph) i ts G' l0 [] [] [] (opened_nil _)
              S2 (or_intror Ti))
    as [w [ks [W1 [W2 W3]]]].
  cbn [app] in W1. rewrite addFirst_nil in W1 by apply fields_nonempty.
  assert (Ww : In w (words (render (l0, ts)))).
  { unfold words. apply filter_In. split; [exact W1|].
    pose proof (@masked_nonempty _ w ks i W2 W3). now destruct w. }
  rewrite <- words_lineProcessing in Ww.
  destruct (words_occurrence _ _ Ww) as [A [B [F [HA HB]]]].
  rewrite F. destruct W2 as [sw [-> [K1 [K2 K3]]]].
  destruct (@restore_word ph A B sw HA HB K1 K2) as [A' [B' R]].
  rewrite R. subst ks. destruct sw as [k0 kt]. cbn [snd] in W3.
  destruct (@expand_contains ph i kt W3 k0) as [P [Q X]].
  rewrite X, Ei, <- !app_assoc, (app_assoc A' P).
  apply includes_app.
Qed.

Lemma strings_and_comments_witness :
  noReserved (str "s = 'a=b' #c+d") = true
  /\ In (str "'a=b'")
        (snd (replaceWith stringCommentPattern mask (str "s = 'a=b' #c+d") []))
  /\ includes (str "'a=b'") (formatBuiltin (str "s = 'a=b' #c+d")) = true.
Proof.
  split; [reflexivity|]. split; [left; reflexivity|].
  apply (@strings_and_comments_preserved (str "s = 'a=b' #c+d") (str "'a=b'")).
  - reflexivity.
  - left. reflexivity.
Defined.

(** ** What formatting leaves alone *)

(** The characters of a text that are not white space, in their order. *)
Definition ink (t : jsstring) : jsstring :=
  filter (fun c => negb (isSpace c)) t.

Lemma ink_app (a b : jsstring) : ink (a ++ b) = ink a ++ ink b.
Proof. apply filter_app. Qed.

Lemma ink_blank (q : jsstring) : forallb isSpace q = true -> ink q = [].
Proof.
  induction q as [|c q IH]; intros H; [reflexivity|].
  cbn [forallb] in H. apply andb_prop in H as [Hc Hq].
  unfold ink in *. cbn [filter]. rewrite Hc. cbn [negb]. now apply IH.
Qed.

Lemma ink_word (w : jsstring) : forallb isWord w = true -> ink w = w.
Proof.
  induction w as [|c w IH]; intros H; [reflexivity|].
  cbn [forallb] in H. apply andb_prop in H as [Hc Hw].
  unfold ink in *. cbn [filter]. rewrite (word_not_space _ Hc).
  cbn [negb]. now rewrite IH.
Qed.

Lemma concat_addFirst (p : jsstring) (X : list jsstring) :
  concat (addFirst p X) = p ++ concat X.
Proof.
  destruct X as [|x X]; cbn [addFirst concat].
  - now rewrite !app_nil_r.
  - now rewrite app_assoc.
Qed.

Lemma ink_fields (t : jsstring) : concat (fields t) = ink t.
Proof.
  induction t as [|c t IH]; [reflexivity|].
  unfold ink in *. cbn [fields filter].
  destruct (isSpace c); cbn [negb].
  - exact IH.
  - rewrite concat_addFirst, IH. reflexivity.
Qed.

Lemma concat_nonempty (X : list jsstring) :
  concat (filter (fun w => negb (isEmpty w)) X) = concat X.
Proof.
  induction X as [|x X IH]; [reflexivity|].
  cbn [filter]. destruct x as [|c x]; cbn [isEmpty negb concat app].
  - exact IH.
  - now rewrite IH.
Qed.

(** The ink of a text is the concatenation of its words. *)
Lemma ink_words (t : jsstring) : ink t = concat (words t).
Proof. unfold words. now rewrite concat_nonempty, ink_fields. Qed.

Lemma ink_lineProcessing (t : jsstring) : ink (lineProcessing t) = ink t.
Proof. now rewrite !ink_words, words_lineProcessing. Qed.

Lemma ink_expandTab (t : jsstring) : ink (flat_map expandTab t) = ink t.
Proof.
  induction t as [|c t IH]; [reflexivity|].
  cbn [flat_map]. rewrite ink_app, IH. unfold expandTab.
  destruct (c =? TAB)%N eqn:E.
  - apply N.eqb_eq in E. subst c. reflexivity.
  - change (c :: t) with ([c] ++ t). now rewrite ink_app.
Qed.

(** The earlier formatter changes white space only. *)
Theorem formatWhitespace_keeps_ink (text : jsstring) :
  ink (formatWhitespace text) = ink text.
Proof.
  now rewrite formatWhitespace_lines, ink_lineProcessing,
    normalizeTabs_expand, ink_expandTab.
Qed.

(** *** Restoration works word by word *)

(** What the restoring pattern matches: the reserved text, digits, two
    underscores; the replacement depends on the digits only. *)
Lemma tokenAt_exact (ph : list jsstring) (bef aft : jsstring) (len : nat)
  (rep : jsstring) :
  tokenAt ph bef aft = Some (len, rep) ->
  exists ds rest,
    aft = (reserved ++ ds ++ str "__") ++ rest
    /\ len = length (reserved ++ ds ++ str "__")
    /\ ds <> [] /\ forallb isDigit ds = true
    /\ rep = restoreOne ph [] (Some ds).
Proof.
  unfold tokenAt. destruct (prefixb reserved aft) eqn:P; [|discriminate].
  apply prefixb_spec in P. change (length reserved) with 14 in P.
  set (a1 := skipn 14 aft) in *.
  destruct (headIs isDigit a1 && prefixb (str "__") (dropWhile isDigit a1))
    eqn:Q; [|discriminate].
  apply andb_prop in Q as [Q0 Q]. apply prefixb_spec in Q.
  change (length (str "__")) with 2 in Q.
  set (a2 := dropWhile isDigit a1) in *.
  intros H. injection H as <- <-.
  assert (E : aft = (reserved ++ takeWhile isDigit a1 ++ str "__")
                    ++ skipn 2 a2).
  { rewrite P at 1. rewrite <- !app_assoc. f_equal.
    rewrite <- (takeWhile_dropWhile isDigit a1) at 1. f_equal. exact Q. }
  exists (takeWhile isDigit a1), (skipn 2 a2).
  split; [exact E|]. split.
  { pose proof (f_equal (@length N) E) as L. rewrite length_app in L.
    rewrite L. apply Nat.add_sub. }
  split.
  { destruct a1 as [|d a1']; [discriminate|]. cbn [headIs] in Q0.
    cbn [takeWhile]. rewrite Q0. discriminate. }
  split; [apply takeWhile_all | reflexivity].
Qed.

Lemma tokenAt_digits (ph : list jsstring) (bef ds Y : jsstring) :
  ds <> [] -> forallb isDigit ds = true ->
  tokenAt ph bef ((reserved ++ ds ++ str "__") ++ Y)
  = Some (length (reserved ++ ds ++ str "__"), restoreOne ph [] (Some ds)).
Proof.
  intros Hne Hd. unfold tokenAt. rewrite <- !app_assoc.
  rewrite prefixb_app. change 14 with (length reserved).
  rewrite skipn_app_exact.
  destruct (takeWhile_app_stop isDigit ds (str "__" ++ Y))
    as [E1 E2]; [exact Hd | reflexivity |].
  rewrite E1, E2, prefixb_app.
  assert (Hh : headIs isDigit (ds ++ str "__" ++ Y) = true).
  { destruct ds as [|d ds]; [contradiction|]. cbn [forallb] in Hd.
    now apply andb_prop in Hd as [Hd _]. }
  rewrite Hh. cbn [andb]. change 2 with (length (str "__")).
  rewrite skipn_app_exact. do 2 f_equal. rewrite !length_app. lia.
Qed.

Lemma token_text_word (ds : jsstring) :
  forallb isDigit ds = true ->
  forallb isWord (reserved ++ ds ++ str "__") = true.
Proof.
  intros H. rewrite !forallb_app.
  rewrite (forallb_weaken isDigit isWord ds digit_is_word H). reflexivity.
Qed.

(** A white space character ends the search for a token. *)
Lemma tokenAt_cut (ph : list jsstring) (bef a b : jsstring) (c : char) :
  isSpace c = true -> tokenAt ph bef (a ++ c :: b) = tokenAt ph bef a.
Proof.
  intros Hc. destruct (tokenAt ph bef a) as [[len rep]|] eqn:E.
  - destruct (tokenAt_exact _ _ _ E) as [ds [rest [E1 [-> [H1 [H2 ->]]]]]].
    rewrite E1, <- app_assoc. now apply tokenAt_digits.
  - destruct (tokenAt ph bef (a ++ c :: b)) as [[len rep]|] eqn:F;
      [|reflexivity].
    exfalso.
    destruct (tokenAt_exact _ _ _ F) as [ds [rest [E1 [-> [H1 [H2 ->]]]]]].
    pose proof (token_text_word ds H2) as W.
    apply app_eq_app in E1 as [x [[E1 E2]|[E1 E2]]].
    + rewrite E1, (@tokenAt_digits ph bef ds x H1 H2) in E. discriminate.
    + destruct x as [|x0 x].
      * rewrite app_nil_r in E1. rewrite <- E1, <- (app_nil_r (reserved ++ _))
          in E.
        rewrite (@tokenAt_digits ph bef ds [] H1 H2) in E. discriminate.
      * injection E2 as <- _. rewrite E1, forallb_app in W.
        apply andb_prop in W as [_ W]. cbn [forallb] in W.
        apply andb_prop in W as [W _].
        apply word_not_space in W. congruence.
Qed.

Lemma restore_end (ph : list jsstring) (bef : jsstring) :
  rewriteFrom (tokenAt ph) bef [] 0 = [].
Proof. reflexivity. Qed.

Lemma restore_space_from (ph : list jsstring) (b : jsstring) (c : char)
  (n : nat) :
  isSpace c = true ->
  forall a, length a <= n ->
  forall bef,
    rewriteFrom (tokenAt ph) bef (a ++ c :: b) 0
    = rewriteFrom (tokenAt ph) bef a 0
      ++ c :: rewriteFrom (tokenAt ph) (c :: rev a ++ bef) b 0.
Proof.
  intros Hc. induction n as [|n IH]; intros a Hn bef.
  - destruct a; [|simpl in Hn; lia]. cbn [app rev].
    pose proof (@tokenAt_cut ph bef [] b c Hc) as E. cbn [app] in E.
    cbn [rewriteFrom]. now rewrite E.
  - destruct a as [|x a].
    { pose proof (@tokenAt_cut ph bef [] b c Hc) as E. cbn [app] in E.
      cbn [app rev rewriteFrom]. now rewrite E. }
    pose proof (@tokenAt_cut ph bef (x :: a) b c Hc) as E.
    destruct (tokenAt ph bef (x :: a)) as [[len rep]|] eqn:F.
    + destruct (tokenAt_exact _ _ _ F) as [ds [rest [E1 [-> [H1 [H2 ->]]]]]].
      set (tok := reserved ++ ds ++ str "__") in *.
      assert (Ht : tok <> []) by discriminate.
      rewrite E1 in *. rewrite <- app_assoc in E |- *.
      rewrite (@rewriteFrom_fire _ bef tok (rest ++ c :: b) _ Ht E).
      rewrite (@rewriteFrom_fire _ bef tok rest _ Ht F).
      rewrite IH.
      * rewrite rev_app_distr, <- !app_assoc. reflexivity.
      * rewrite length_app in Hn. unfold tok in Hn.
        rewrite length_app in Hn. simpl in Hn. lia.
    + cbn [app] in E |- *. cbn [rewriteFrom]. rewrite E, F.
      rewrite IH by (simpl in Hn; lia).
      cbn [rev app]. now rewrite <- !app_assoc.
Qed.

Lemma restore_any_before (ph : list jsstring) (x : jsstring) :
  forall bef bef' k,
    rewriteFrom (tokenAt ph) bef x k = rewriteFrom (tokenAt ph) bef' x k.
Proof.
  induction x as [|c x IH]; intros bef bef' k.
  - destruct k; reflexivity.
  - destruct k as [|k]; cbn [rewriteFrom].
    + change (tokenAt ph bef (c :: x)) with (tokenAt ph bef' (c :: x)).
      destruct (tokenAt ph bef' (c :: x)) as [[len rep]|].
      * destruct len; now rewrite (IH (c :: bef) (c :: bef')).
      * now rewrite (IH (c :: bef) (c :: bef')).
    + apply IH.
Qed.

(** Restoring a text restores what is before and what is after a white
    space character. *)
Lemma restore_space (ph : list jsstring) (a b : jsstring) (c : char) :
  isSpace c = true ->
  restore ph (a ++ c :: b) = restore ph a ++ c :: restore ph b.
Proof.
  intros Hc. rewrite !restore_rewrite. unfold rewrite.
  rewrite (@restore_space_from ph b c (length a) Hc a (le_n _) []).
  do 2 f_equal. apply restore_any_before.
Qed.

Lemma fields_split (t : jsstring) :
  fields t = [t]
  \/ exists w c rest,
       t = w ++ c :: rest /\ isSpace c = true
       /\ fields t = w :: fields rest.
Proof.
  induction t as [|x t IH]; [now left|].
  cbn [fields]. destruct (isSpace x) eqn:Ex.
  - right. now exists [], x, t.
  - destruct IH as [IH|[w [c [rest [E1 [E2 E3]]]]]].
    + left. now rewrite IH.
    + right. exists (x :: w), c, rest. rewrite E3, E1. now repeat split.
Qed.

Lemma ink_restore_fields (ph : list jsstring) (n : nat) :
  forall t, length t <= n ->
    ink (restore ph t)
    = concat (map (fun w => ink (restore ph w)) (fields t)).
Proof.
  induction n as [|n IH]; intros t Hn.
  - destruct t; [reflexivity | simpl in Hn; lia].
  - destruct (fields_split t) as [E|[w [c [rest [E1 [E2 E3]]]]]].
    + rewrite E. cbn [map concat]. now rewrite app_nil_r.
    + rewrite E3. cbn [map concat]. rewrite <- IH.
      * rewrite E1, (@restore_space ph w rest c E2), ink_app.
        f_equal. change (c :: restore ph rest) with ([c] ++ restore ph rest).
        rewrite ink_app. unfold ink at 1. cbn [filter]. now rewrite E2.
      * subst t. rewrite length_app in Hn. simpl in Hn. lia.
Qed.

Lemma concat_map_nonempty (g : jsstring -> jsstring) (X : list jsstring) :
  g [] = [] ->
  concat (map g (filter (fun w => negb (isEmpty w)) X)) = concat (map g X).
Proof.
  intros Hg. induction X as [|x X IH]; [reflexivity|].
  cbn [filter map concat]. destruct x as [|c x]; cbn [isEmpty negb].
  - now rewrite Hg.
  - cbn [map concat]. now rewrite IH.
Qed.

(** The ink of a restored text depends on the words of the text only. *)
Lemma ink_restore_words (ph : list jsstring) (t : jsstring) :
  ink (restore ph t) = concat (map (fun w => ink (restore ph w)) (words t)).
Proof.
  unfold words. rewrite concat_map_nonempty by reflexivity.
  apply (@ink_restore_fields ph (length t)). lia.
Qed.

(** *** The spacing rules change white space only *)

(** A rule whose replacement has the ink of what it replaces. *)
Definition inkLocal (d : decision) : Prop :=
  forall bef w rest rep,
    d bef (w ++ rest) = Some (length w, rep) -> ink w = ink rep.

(** Two masked texts with the same tokens and the same ink between them. *)
Definition sameInk (s s' : structure) : Prop :=
  ink (fst s') = ink (fst s)
  /\ map fst (snd s') = map fst (snd s)
  /\ map (fun t => ink (snd t)) (snd s')
     = map (fun t => ink (snd t)) (snd s).

Lemma tabAt_inkLocal : inkLocal tabAt.
Proof.
  intros bef w rest rep. unfold tabAt.
  destruct w as [|c w]; cbn [app length].
  - destruct rest as [|c rest]; [discriminate|].
    destruct (c =? TAB)%N; discriminate.
  - destruct (c =? TAB)%N eqn:E; [|discriminate].
    intros H. injection H as H <-. destruct w; [|discriminate].
    apply N.eqb_eq in E. now subst c.
Qed.

Lemma firstn_length_app (w rest : jsstring) :
  firstn (length w) (w ++ rest) = w.
Proof.
  rewrite firstn_app, Nat.sub_diag, firstn_all. cbn [firstn]. apply app_nil_r.
Qed.

Lemma padOpAt_ink (ops : list string) (w rest rep : jsstring) :
  padOpAt ops (w ++ rest) = Some (length w, rep) -> ink w = ink rep.
Proof.
  intros H. destruct (padOpAt_result _ _ H) as [op [_ [-> [E1 _]]]].
  rewrite firstn_length_app in E1. rewrite E1. unfold padded.
  rewrite !ink_app, !(ink_blank _ (takeWhile_all isSpace _)).
  reflexivity.
Qed.

Lemma safeAt_inkLocal : inkLocal safeAt.
Proof. intros bef w rest rep. apply padOpAt_ink. Qed.

Lemma ambiguousAt_inkLocal : inkLocal ambiguousAt.
Proof.
  intros bef w rest rep. unfold ambiguousAt.
  destruct (headIs isOperandEnd bef); [apply padOpAt_ink | discriminate].
Qed.

Lemma commaAt_inkLocal : inkLocal commaAt.
Proof.
  intros bef w rest rep H.
  destruct (commaAt_shape _ _ H) as [-> [ws1 [ws2 [r [E [L [W1 [W2 _]]]]]]]].
  assert (Ew : w = ws1 ++ 44%N :: ws2).
  { apply (f_equal (firstn (length w))) in E.
    rewrite firstn_length_app, L, firstn_length_app in E. exact E. }
  rewrite Ew, ink_app. change (44%N :: ws2) with ([44%N] ++ ws2).
  rewrite ink_app, (ink_blank _ W2). subst ws1.
  now rewrite (ink_blank _ (takeWhile_all isSpace _)).
Qed.

Section InkStage.

Variable d : decision.
Hypothesis Hd : sepLocal d.
Hypothesis Hi : inkLocal d.

Lemma sep_literal_ink (n : nat) :
  forall l, length l <= n ->
  forall bef R, tokenAhead R ->
    exists l',
      rewriteFrom d bef (l ++ R) 0
      = l' ++ rewriteFrom d (rev l ++ bef) R 0
      /\ ink l' = ink l.
Proof.
  induction n as [|n IH]; intros l Hn bef R HR.
  - destruct l; [|simpl in Hn; lia]. now exists [].
  - destruct l as [|c l]; [now exists []|].
    destruct (d bef ((c :: l) ++ R)) as [[len rep]|] eqn:E.
    + destruct (Hd E) as [w [rest [E1 [-> [Hw [Hs _]]]]]].
      assert (X : exists x, c :: l = w ++ x /\ rest = x ++ R).
      { apply app_eq_app in E1 as [x [[E1 E2]|[E1 E2]]].
        - now exists x.
        - destruct x as [|x0 x].
          + rewrite app_nil_r in E1. cbn [app] in E2. subst.
            exists []. now rewrite app_nil_r.
          + exfalso. destruct HR as [->|[j [Y ->]]]; [discriminate|].
            destruct (token_cells j Y) as [T HT]. rewrite HT in E2.
            injection E2 as <- _. subst w.
            rewrite forallb_app in Hs. apply andb_prop in Hs as [_ Hs].
            cbn [forallb] in Hs. apply andb_prop in Hs as [Hs _].
            discriminate. }
      destruct X as [x [E2 ->]]. rewrite E2 in *. clear E1.
      rewrite <- app_assoc in E |- *.
      rewrite (@rewriteFrom_fire d bef w (x ++ R) rep Hw E).
      assert (Lx : length x <= n).
      { rewrite length_app in Hn. destruct w; [contradiction|].
        simpl in Hn. lia. }
      destruct (IH x Lx (rev w ++ bef) R HR) as [x' [I1 I2]].
      exists (rep ++ x'). split.
      * rewrite I1, rev_app_distr, <- !app_assoc. reflexivity.
      * rewrite !ink_app, I2. f_equal. symmetry. exact (Hi w (x ++ R) E).
    + cbn [app] in E |- *. cbn [rewriteFrom]. rewrite E.
      destruct (IH l ltac:(simpl in Hn; lia) (c :: bef) R HR)
        as [l' [I1 I2]].
      exists (c :: l'). split.
      * rewrite I1. cbn [rev app]. now rewrite <- app_assoc.
      * change (c :: l') with ([c] ++ l'). change (c :: l) with ([c] ++ l).
        now rewrite !ink_app, I2.
Qed.

(** The rule keeps the tokens of a masked text and the ink between them,
    and creates no token. *)
Lemma sep_structure_ink (ts : list (nat * jsstring)) :
  forall l0 bef, noReserved l0 = true -> piecesFree ts ->
    exists s',
      rewriteFrom d bef (render (l0, ts)) 0 = render s'
      /\ noReserved (fst s') = true /\ piecesFree (snd s')
      /\ sameInk (l0, ts) s'.
Proof.
  induction ts as [|[j l] ts IH]; intros l0 bef Hl0 Hts; unfold render;
    cbn [fst snd renderTail].
  - destruct (@sep_literal d Hd (length l0) l0 (le_n _) bef [] []
                (or_introl eq_refl) Hl0) as [l' [I1 I2]].
    destruct (@sep_literal_ink (length l0) l0 (le_n _) bef []
                (or_introl eq_refl)) as [l'' [J1 J2]].
    rewrite I1 in J1. apply app_inv_tail in J1. subst l''.
    exists (l', []). unfold render, sameInk. cbn [fst snd renderTail map].
    rewrite I1, (sep_end Hd).
    repeat split; [exact I2 | constructor | exact J2].
  - inversion Hts as [|? ? Hl Hts']; subst. cbn [snd] in Hl.
    destruct (@sep_literal d Hd (length l0) l0 (le_n _) bef
                (token j ++ l ++ renderTail token ts) []
                (tokenAhead_render _ _) Hl0) as [l' [I1 I2]].
    destruct (@sep_literal_ink (length l0) l0 (le_n _) bef
                (token j ++ l ++ renderTail token ts)
                (tokenAhead_render _ _)) as [l'' [J1 J2]].
    rewrite I1 in J1. apply app_inv_tail in J1. subst l''.
    rewrite I1, (sep_skips_word Hd) by apply token_is_word.
    destruct (IH l (rev (token j) ++ rev l0 ++ bef) Hl Hts')
      as [s' [K1 [K2 [K3 [K4 [K5 K6]]]]]].
    unfold render in K1. cbn [fst snd] in K1, K4, K5, K6. rewrite K1.
    exists (l', (j, fst s') :: snd s'). unfold render, sameInk.
    cbn [fst snd renderTail map].
    repeat split; [exact I2 | | exact J2 | now rewrite K5
                   | now rewrite K4, K6].
    constructor; [exact K2 | exact K3].
Qed.

End InkStage.

Lemma sameInk_trans (a b c : structure) :
  sameInk a b -> sameInk b c -> sameInk a c.
Proof.
  intros [A1 [A2 A3]] [B1 [B2 B3]]. repeat split; congruence.
Qed.

Lemma spacing_structure_ink (s : structure) :
  noReserved (fst s) = true -> piecesFree (snd s) ->
  exists s',
    spacing (render s) = render s'
    /\ noReserved (fst s') = true /\ piecesFree (snd s')
    /\ sameInk s s'.
Proof.
  intros H1 H2. unfold spacing.
  rewrite normalizeTabs_rewrite. unfold rewrite.
  destruct s as [l0 ts]. cbn [fst snd] in *.
  destruct (@sep_structure_ink tabAt tabAt_sepLocal tabAt_inkLocal
              ts l0 [] H1 H2)
    as [[l1 t1] [A1 [A2 [A3 A4]]]].
  rewrite A1, padSafe_rewrite. unfold rewrite. cbn [fst snd] in *.
  destruct (@sep_structure_ink safeAt safeAt_sepLocal safeAt_inkLocal
              t1 l1 [] A2 A3)
    as [[l2 t2] [B1 [B2 [B3 B4]]]].
  rewrite B1, padAmbiguous_rewrite. unfold rewrite. cbn [fst snd] in *.
  destruct (@sep_structure_ink ambiguousAt ambiguousAt_sepLocal
              ambiguousAt_inkLocal t2 l2 [] B2 B3)
    as [[l3 t3] [C1 [C2 [C3 C4]]]].
  rewrite C1, spaceCommas_rewrite. unfold rewrite. cbn [fst snd] in *.
  destruct (@sep_structure_ink commaAt commaAt_sepLocal commaAt_inkLocal
              t3 l3 [] C2 C3)
    as [s4 [D1 [D2 [D3 D4]]]].
  exists s4. rewrite D1. repeat split; [exact D2 | exact D3 | | |];
    apply (sameInk_trans (sameInk_trans (sameInk_trans A4 B4) C4) D4).
Qed.

Lemma ink_expand (ph : list jsstring) (s s' : structure) :
  sameInk s s' -> ink (expand ph s') = ink (expand ph s).
Proof.
  destruct s as [l0 ts], s' as [l0' ts']. unfold sameInk, expand.
  cbn [fst snd]. intros [H1 [H2 H3]]. rewrite !ink_app, H1. f_equal.
  clear H1 l0 l0'. revert ts' H2 H3.
  induction ts as [|[j l] ts IH]; intros [|[j' l'] ts'] H2 H3;
    try discriminate; [reflexivity|].
  cbn [map fst snd] in H2, H3. injection H2 as -> H2. injection H3 as E H3.
  cbn [renderTail]. rewrite !ink_app, E. do 2 f_equal. now apply IH.
Qed.

Lemma words_same_ink_restore (ph : list jsstring) (t t' : jsstring) :
  words t = words t' -> ink (restore ph t) = ink (restore ph t').
Proof. intros H. now rewrite !ink_restore_words, H. Qed.

(** For an input without the reserved text, formatting changes white
    space only: the characters that are not white space are those of the
    input, in the same order. *)
Theorem formatBuiltin_keeps_ink (text : jsstring) :
  noReserved text = true -> ink (formatBuiltin text) = ink text.
Proof.
  intros H. destruct (maskAll_structure text H) as [s [E1 [E2 [E3 E4]]]].
  unfold formatBuiltin. destruct (maskAll text) as [masked ph].
  cbn [fst snd] in *. subst masked.
  rewrite (@words_same_ink_restore ph _ _ (words_lineProcessing _)).
  destruct (@spacing_structure_ink s E3 (goodPieces_free E4))
    as [s' [S1 [S2 [S3 S4]]]].
  rewrite S1, restore_render.
  - now rewrite (@ink_expand ph s s' S4), E2.
  - exact S2.
  - destruct S4 as [_ [S4 _]]. exact (goodPieces_same_tokens E4 S3 S4).
Qed.

Lemma formatBuiltin_keeps_ink_witness :
  noReserved (str "x=  'a b' +1e-5 ,y") = true
  /\ ink (formatBuiltin (str "x=  'a b' +1e-5 ,y"))
     = ink (str "x=  'a b' +1e-5 ,y").
Proof.
  split; [reflexivity|].
  apply formatBuiltin_keeps_ink. reflexivity.
Defined.

(** *** Every table entry is found in the output *)

(** The number pass keeps the tokens of the text and gives every entry it
    adds a token. *)
Lemma number_pass_covers (ts : list (nat * jsstring)) :
  forall l0 bef ph,
    noReserved l0 = true -> goodPieces (length ph) ts ->
    exists s2 ms,
      replaceFrom numberPattern mask bef (render (l0, ts)) 0 ph
      = (render s2, ph ++ ms)
      /\ noReserved (fst s2) = true
      /\ goodPieces (length ph + length ms) (snd s2)
      /\ incl (map fst ts ++ seq (length ph) (length ms))
              (map fst (snd s2)).
Proof.
  induction ts as [|[j l] ts IH]; intros l0 bef ph Hl0 Hts.
  - destruct (@number_pass_literal (length l0) l0 (le_n _) bef [] ph
                (or_introl eq_refl) Hl0)
      as [s [ms [R1 [R2 [R3 [R4 R5]]]]]].
    exists s, ms. unfold render at 1. cbn [fst snd renderTail].
    rewrite R1, replaceFrom_end by reflexivity. rewrite app_nil_r.
    split; [reflexivity|]. split; [exact R3|].
    split; [now apply pieces_good|].
    cbn [map app]. rewrite R5. apply incl_refl.
  - inversion Hts as [|? ? [Hj Hl] Hts']; subst. cbn [fst snd] in Hj, Hl.
    unfold render at 1. cbn [fst snd renderTail].
    change (l ++ renderTail token ts) with (render (l, ts)).
    destruct (@number_pass_literal (length l0) l0 (le_n _) bef
                (token j ++ render (l, ts)) ph
                (tokenAhead_render j _) Hl0)
      as [sa [msa [A1 [A2 [A3 [A4 A5]]]]]].
    rewrite A1, number_skips_token.
    assert (Hts'' : goodPieces (length (ph ++ msa)) ts).
    { apply (@goodPieces_weaken (length ph)); [|exact Hts'].
      rewrite length_app. lia. }
    destruct (IH l (rev (token j) ++ rev l0 ++ bef) (ph ++ msa) Hl Hts'')
      as [sb [msb [B1 [B3 [B4 B5]]]]].
    rewrite B1.
    exists (fst sa, snd sa ++ (j, fst sb) :: snd sb), (msa ++ msb).
    split.
    { unfold render. cbn [fst snd]. rewrite renderTail_app.
      cbn [renderTail]. now rewrite <- !app_assoc. }
    split; [exact A3|]. split.
    { unfold goodPieces. cbn [snd]. apply Forall_app. split.
      { apply (@goodPieces_weaken (length ph + length msa)).
        - rewrite length_app. lia.
        - now apply pieces_good. }
      constructor.
      { cbn [fst snd]. split; [lia | exact B3]. }
      rewrite !length_app in *. now rewrite Nat.add_assoc. }
    cbn [snd map fst]. rewrite map_app. cbn [map fst].
    rewrite length_app in B5. rewrite length_app, seq_app, A5.
    intros x Hx. apply in_or_app.
    destruct Hx as [<-|Hx]; [right; now left|].
    apply in_app_or in Hx as [Hx|Hx].
    + right. right. apply B5, in_or_app. now left.
    + apply in_app_or in Hx as [Hx|Hx]; [now left|].
      right. right. apply B5, in_or_app. now right.
Qed.

Lemma maskAll_covers (text : jsstring) :
  noReserved text = true ->
  exists s,
    fst (maskAll text) = render s
    /\ noReserved (fst s) = true
    /\ goodPieces (length (snd (maskAll text))) (snd s)
    /\ forall i, i < length (snd (maskAll text)) -> In i (map fst (snd s)).
Proof.
  intros H. unfold maskAll, replaceWith.
  destruct (@mask_pass stringCommentPattern (length text) eq_refl text
              (le_n _) [] [] H)
    as [s1 [ms1 [P1 [P2 [P3 [P4 P5]]]]]].
  rewrite P1. cbn [app] in *.
  destruct s1 as [l0 ts].
  assert (G1 : goodPieces (length ms1) ts)
    by exact (@pieces_good 0 (length ms1) ts P4 P5).
  destruct (@number_pass_covers ts l0 [] ms1 P3 G1)
    as [s2 [ms2 [Q1 [Q3 [Q4 Q5]]]]].
  cbn [fst snd] in *. rewrite Q1. cbn [fst snd].
  exists s2. split; [reflexivity|]. split; [exact Q3|].
  split; [now rewrite length_app|].
  intros i Hi. apply Q5. rewrite P5. cbn [length].
  rewrite <- seq_app, in_seq. rewrite length_app in Hi. lia.
Qed.

(** For an input without the reserved text, every entry of the
    placeholder table, string, comment or number, occurs unchanged in the
    output. *)
Theorem table_entries_preserved (text lit : jsstring) :
  noReserved text = true ->
  In lit (snd (maskAll text)) ->
  includes lit (formatBuiltin text) = true.
Proof.
  intros H Hlit.
  destruct (maskAll_covers text H) as [s [E1 [G1 [G2 G3]]]].
  unfold formatBuiltin. destruct (maskAll text) as [masked ph].
  cbn [fst snd] in *. subst masked.
  destruct (In_nth _ _ [] Hlit) as [i [Hi Ei]].
  pose proof (G3 i Hi) as Ti.
  destruct (@spacing_structure s G1 (goodPieces_free G2))
    as [s' [S1 [S2 [S3 S4]]]].
  rewrite S1.
  assert (G' : goodPieces (length ph) (snd s'))
    by exact (goodPieces_same_tokens G2 S3 S4).
  rewrite <- S4 in Ti. destruct s' as [l0 ts]. cbn [fst snd] in *.
  destruct (@fields_masked (length ph) i ts G' l0 [] [] [] (opened_nil _)
              S2 (or_intror Ti))
    as [w [ks [W1 [W2 W3]]]].
  cbn [app] in W1. rewrite addFirst_nil in W1 by apply fields_nonempty.
  assert (Ww : In w (words (render (l0, ts)))).
  { unfold words. apply filter_In. split; [exact W1|].
    pose proof (@masked_nonempty _ w ks i W2 W3). now destruct w. }
  rewrite <- words_lineProcessing in Ww.
  destruct (words_occurrence _ _ Ww) as [A [B [F [HA HB]]]].
  rewrite F. destruct W2 as [sw [-> [K1 [K2 K3]]]].
  destruct (@restore_word ph A B sw HA HB K1 K2) as [A' [B' R]].
  rewrite R. subst ks. destruct sw as [k0 kt]. cbn [snd] in W3.
  destruct (@expand_contains ph i kt W3 k0) as [P [Q X]].
  rewrite X, Ei, <- !app_assoc, (app_assoc A' P).
  apply includes_app.
Qed.

Lemma table_entries_witness :
  noReserved (str "x=1e-10*0xFF") = true
  /\ In (str "1e-10") (snd (maskAll (str "x=1e-10*0xFF")))
  /\ includes (str "1e-10") (formatBuiltin (str "x=1e-10*0xFF")) = true.
Proof.
  split; [reflexivity|]. split; [left; reflexivity|].
  apply table_entries_preserved; [reflexivity | left; reflexivity].
Defined.

(** ** The end of the output *)

(** The characters a non-empty match of [r] can end with. *)
Fixpoint lastOf (r : regex) (c : char) : bool :=
  match r with
  | Eps | LookBehind _ | WordB | Eol => false
  | Cls p => p c
  | Seq r1 r2 => lastOf r2 c || (nullable r2 && lastOf r1 c)
  | Alt r1 r2 => lastOf r1 c || lastOf r2 c
  | Star r1 | LazyStar r1 | Group r1 => lastOf r1 c
  end.

(** The continuation was reached after consuming [w], which is empty or
    ends with a character of [lastOf r]. *)
Definition finishes (r : regex) (k : cont) (s x : mstate) : Prop :=
  exists s' w,
    k s' = Some x
    /\ after s = w ++ after s'
    /\ before s' = rev w ++ before s
    /\ (w = [] \/ headIs (lastOf r) (rev w) = true)
    /\ (nullable r = false -> w <> []).

(** The text is not empty and its last character is not a line feed. *)
Definition endsOk (w : jsstring) : Prop :=
  headIs (fun c => negb (c =? LF)%N) (rev w) = true.

Lemma headIs_weaken (p q : char -> bool) (l : jsstring) :
  (forall c, p c = true -> q c = true) ->
  headIs p l = true -> headIs q l = true.
Proof. intros H. destruct l as [|c l]; [easy | apply H]. Qed.

Lemma headIs_rev_app (p : char -> bool) (a b : jsstring) :
  headIs p (rev b) = true -> headIs p (rev (a ++ b)) = true.
Proof. intros H. rewrite rev_app_distr. now apply headIs_app. Qed.

Lemma star_finishes (body : cont -> cont) (r1 : regex)
  (star : cont -> nat -> mstate -> option mstate) :
  (forall k n s, star k (S n) s
     = orElse (body (fun s' => if progressed s s' then star k n s' else None) s)
              (k s)
     \/ star k (S n) s
     = orElse (k s)
              (body (fun s' => if progressed s s' then star k n s' else None) s)) ->
  (forall k s, star k 0 s = k s) ->
  (forall k' s x, body k' s = Some x -> finishes r1 k' s x) ->
  forall k n s x, star k n s = Some x ->
    exists s' w,
      k s' = Some x /\ after s = w ++ after s'
      /\ before s' = rev w ++ before s
      /\ (w = [] \/ headIs (lastOf r1) (rev w) = true).
Proof.
  intros Hstep H0 Hb k n. induction n as [|n IH]; intros s x H.
  - rewrite H0 in H. exists s, []. repeat split; [exact H | now left].
  - assert (Hcases :
      k s = Some x
      \/ body (fun s' => if progressed s s' then star k n s' else None) s
         = Some x).
    { destruct (Hstep k n s) as [E|E]; rewrite E in H.
      - destruct (body _ s); simpl in H; [now right | now left].
      - destruct (k s); simpl in H; [now left | now right]. }
    destruct Hcases as [Hk|Hbody].
    + exists s, []. repeat split; [exact Hk | now left].
    + apply Hb in Hbody as [s1 [w1 [E1 [E2 [E3 [E4 _]]]]]].
      destruct (progressed s s1) eqn:Pr; [|discriminate].
      assert (Hw1 : headIs (lastOf r1) (rev w1) = true).
      { destruct E4 as [->|E4]; [|exact E4]. cbn [app] in E2.
        unfold progressed in Pr. rewrite E2, Nat.ltb_irrefl in Pr.
        discriminate. }
      apply IH in E1 as [s2 [w2 [F1 [F2 [F3 F4]]]]].
      exists s2, (w1 ++ w2). split; [exact F1|]. split.
      * now rewrite E2, F2, app_assoc.
      * split; [now rewrite F3, E3, rev_app_distr, app_assoc|].
        right. destruct F4 as [->|F4].
        -- now rewrite app_nil_r.
        -- now apply headIs_rev_app.
Qed.

Lemma m_finishes (r : regex) :
  forall k s x, m r k s = Some x -> finishes r k s x.
Proof.
  induction r as [|p|r1 IH1 r2 IH2|r1 IH1 r2 IH2|r1 IH1|r1 IH1|r1 IH1|p| |];
    intros k s x H; cbn [m] in H.
  - exists s, []. repeat split; [exact H | now left | easy].
  - destruct s as [b a c]. cbn [after before cap] in H.
    destruct a as [|c0 rest]; [discriminate|].
    destruct (p c0) eqn:E; [|discriminate].
    exists (MState (c0 :: b) rest c), [c0]. cbn.
    repeat split; [exact H | now right | discriminate].
  - apply IH1 in H as [s1 [w1 [E1 [E2 [E3 [E4 E5]]]]]].
    apply IH2 in E1 as [s2 [w2 [F1 [F2 [F3 [F4 F5]]]]]].
    exists s2, (w1 ++ w2). split; [exact F1|]. split.
    + now rewrite E2, F2, app_assoc.
    + split; [now rewrite F3, E3, rev_app_distr, app_assoc|]. split.
      * cbn [lastOf]. destruct F4 as [->|F4].
        -- rewrite app_nil_r.
           assert (N2 : nullable r2 = true).
           { destruct (nullable r2); [reflexivity|]. now specialize (F5 eq_refl). }
           destruct E4 as [->|E4]; [now left|]. right.
           apply (headIs_weaken (lastOf r1)); [|exact E4].
           intros c Hc. now rewrite N2, Hc, orb_true_r.
        -- right. apply headIs_rev_app.
           apply (headIs_weaken (lastOf r2)); [|exact F4].
           intros c Hc. now rewrite Hc.
      * cbn [nullable]. intros N. apply andb_false_iff in N as [N|N].
        -- specialize (E5 N). now destruct w1.
        -- specialize (F5 N). destruct w1; [exact F5 | discriminate].
  - assert (Hc : m r1 k s = Some x \/ m r2 k s = Some x).
    { destruct (m r1 k s); simpl in H; [now left | now right]. }
    cbn [nullable]. destruct Hc as [Hc|Hc].
    + apply IH1 in Hc as [s1 [w1 [E1 [E2 [E3 [E4 E5]]]]]].
      exists s1, w1. repeat split; try assumption.
      * destruct E4 as [->|E4]; [now left|]. right.
        apply (headIs_weaken (lastOf r1)); [|exact E4].
        intros c Hc. cbn [lastOf]. now rewrite Hc.
      * intros N. apply orb_false_elim in N as [N _]. now apply E5.
    + apply IH2 in Hc as [s1 [w1 [E1 [E2 [E3 [E4 E5]]]]]].
      exists s1, w1. repeat split; try assumption.
      * destruct E4 as [->|E4]; [now left|]. right.
        apply (headIs_weaken (lastOf r2)); [|exact E4].
        intros c Hc. cbn [lastOf]. now rewrite Hc, orb_true_r.
      * intros N. apply orb_false_elim in N as [_ N]. now apply E5.
  - destruct (@star_finishes (m r1) r1 (starG (m r1))) with
      (k := k) (n := length (after s)) (s := s) (x := x)
      as [s' [w [E1 [E2 [E3 E4]]]]]; auto.
    exists s', w. now repeat split.
  - destruct (@star_finishes (m r1) r1 (starL (m r1))) with
      (k := k) (n := length (after s)) (s := s) (x := x)
      as [s' [w [E1 [E2 [E3 E4]]]]]; auto.
    exists s', w. now repeat split.
  - apply IH1 in H as [s1 [w1 [E1 [E2 [E3 [E4 E5]]]]]].
    eexists. exists w1. split; [exact E1|]. now repeat split.
  - destruct (headIs p (before s)); [|discriminate].
    exists s, []. repeat split; [exact H | now left | easy].
  - destruct (xorb _ _); [|discriminate].
    exists s, []. repeat split; [exact H | now left | easy].
  - exists s, []. split.
    + destruct (after s) as [|c a]; [exact H|].
      now destruct (isLineTerminator c).
    + repeat split; [now left | easy].
Qed.

(** What a pattern that cannot match the empty text, and cannot end a
    match with a line feed, takes from the text. *)
Lemma match_endsOk (r : regex) (bef aft : jsstring) (s' : mstate) :
  nullable r = false ->
  (forall c, lastOf r c = true -> (c =? LF)%N = false) ->
  matchAt r bef aft = Some s' ->
  endsOk (firstn (length aft - length (after s')) aft).
Proof.
  intros N HL H. apply m_finishes in H as [s1 [w [E1 [E2 [_ [E4 E5]]]]]].
  injection E1 as ->. cbn [after] in E2. rewrite E2.
  rewrite length_app, Nat.add_sub, firstn_length_app.
  destruct E4 as [->|E4]; [now specialize (E5 N)|].
  apply (headIs_weaken (lastOf r)); [|exact E4].
  intros c Hc. now rewrite (HL c Hc).
Qed.

(** Masking stores what the pattern matched. *)
Lemma mask_entries (r : regex) (P : jsstring -> Prop) :
  (forall bef aft s', matchAt r bef aft = Some s' ->
     P (firstn (length aft - length (after s')) aft)) ->
  forall aft bef skip ph,
    Forall P ph -> Forall P (snd (replaceFrom r mask bef aft skip ph)).
Proof.
  intros HP. induction aft as [|c rest IH]; intros bef skip ph Hph.
  - destruct skip; cbn [replaceFrom]; [|exact Hph].
    destruct (matchAt r bef []) as [s'|] eqn:E; [|exact Hph].
    rewrite mask_token. cbn [snd]. apply Forall_app. split; [exact Hph|].
    constructor; [|constructor]. exact (HP _ _ _ E).
  - destruct skip as [|n]; cbn [replaceFrom]; [|now apply IH].
    destruct (matchAt r bef (c :: rest)) as [s'|] eqn:E.
    + rewrite mask_token.
      assert (Hph' : Forall P (ph ++
                [firstn (length (c :: rest) - length (after s')) (c :: rest)])).
      { apply Forall_app. split; [exact Hph|].
        constructor; [|constructor]. exact (HP _ _ _ E). }
      destruct (length (c :: rest) - length (after s')) as [|n].
      * specialize (IH (c :: bef) 0 _ Hph').
        now destruct (replaceFrom r mask (c :: bef) rest 0 _).
      * specialize (IH (c :: bef) n _ Hph').
        now destruct (replaceFrom r mask (c :: bef) rest n _).
    + specialize (IH (c :: bef) 0 _ Hph).
      now destruct (replaceFrom r mask (c :: bef) rest 0 ph).
Qed.

Lemma lastOf_stringComment (c : char) :
  lastOf stringCommentPattern c = true -> (c =? LF)%N = false.
Proof.
  intros H. destruct (c =? LF)%N eqn:E; [|reflexivity].
  apply N.eqb_eq in E. subst c. vm_compute in H. discriminate.
Qed.

Lemma lastOf_number (c : char) :
  lastOf numberPattern c = true -> (c =? LF)%N = false.
Proof.
  intros H. destruct (c =? LF)%N eqn:E; [|reflexivity].
  apply N.eqb_eq in E. subst c. vm_compute in H. discriminate.
Qed.

(** No table entry is empty or ends with a line feed. *)
Lemma maskAll_entries (text : jsstring) :
  Forall endsOk (snd (maskAll text)).
Proof.
  unfold maskAll, replaceWith.
  pose proof (@mask_entries stringCommentPattern endsOk
                (fun bef aft s' =>
                   @match_endsOk stringCommentPattern bef aft s' eq_refl
                     lastOf_stringComment)
                text [] 0 [] (Forall_nil _)) as H1.
  destruct (replaceFrom stringCommentPattern mask [] text 0 []) as [t1 p1].
  cbn [snd] in H1.
  exact (@mask_entries numberPattern endsOk
           (fun bef aft s' =>
              @match_endsOk numberPattern bef aft s' eq_refl lastOf_number)
           t1 [] 0 p1 H1).
Qed.

Lemma endsOk_app (a b : jsstring) : endsOk b -> endsOk (a ++ b).
Proof. apply headIs_rev_app. Qed.

Lemma restoreOne_endsOk (ph : list jsstring) (ds : jsstring) :
  Forall endsOk ph -> endsOk (restoreOne ph [] (Some ds)).
Proof.
  intros H. unfold restoreOne.
  destruct (digitsValue ds <? N.of_nat (length ph))%N eqn:E; [|reflexivity].
  rewrite Forall_forall in H. apply H, nth_In.
  apply N.ltb_lt in E. lia.
Qed.

(** Restoring a text that ends well gives a text that ends well. *)
Lemma restore_endsOk (ph : list jsstring) (n : nat) :
  Forall endsOk ph ->
  forall X, length X <= n -> endsOk X ->
  forall bef, endsOk (rewriteFrom (tokenAt ph) bef X 0).
Proof.
  intros Hph. induction n as [|n IH]; intros X Hn HX bef.
  - destruct X; [discriminate | simpl in Hn; lia].
  - destruct X as [|c X]; [discriminate|].
    destruct (tokenAt ph bef (c :: X)) as [[len rep]|] eqn:E.
    + destruct (tokenAt_exact _ _ _ E) as [ds [rest [E1 [-> [H1 [H2 ->]]]]]].
      set (tok := reserved ++ ds ++ str "__") in *.
      assert (Ht : tok <> []) by discriminate.
      rewrite E1 in *.
      rewrite (@rewriteFrom_fire _ bef tok rest _ Ht E).
      destruct rest as [|r0 rest].
      * rewrite restore_end, app_nil_r. now apply restoreOne_endsOk.
      * apply endsOk_app, IH.
        -- assert (T : length tok <> 0).
           { intros Z. apply length_zero_iff_nil in Z. contradiction. }
           rewrite length_app in Hn. clearbody tok. clear - Hn T.
           cbn [length] in *. lia.
        -- unfold endsOk in *. rewrite rev_app_distr in HX.
           destruct (rev (r0 :: rest)) eqn:R; [|exact HX].
           apply (f_equal (@length N)) in R. rewrite length_rev in R.
           discriminate.
    + cbn [rewriteFrom]. rewrite E. destruct X as [|x X].
      * exact HX.
      * change (c :: rewriteFrom (tokenAt ph) (c :: bef) (x :: X) 0)
          with ([c] ++ rewriteFrom (tokenAt ph) (c :: bef) (x :: X) 0).
        apply endsOk_app. apply IH.
        -- simpl in Hn. simpl. lia.
        -- unfold endsOk in *. cbn [rev] in HX |- *.
           destruct (rev X ++ [x]) eqn:R; [|exact HX].
           now apply app_eq_nil in R as [_ R].
Qed.

Lemma join_last (sep : jsstring) (ls : list jsstring) (l : jsstring) :
  exists p, join sep (ls ++ [l]) = p ++ l.
Proof.
  induction ls as [|a ls [p IH]]; [now exists []|].
  cbn [app]. destruct (ls ++ [l]) as [|b r] eqn:E.
  - now destruct ls.
  - cbn [join]. cbn [join] in IH. rewrite IH.
    exists (a ++ sep ++ p). now rewrite <- !app_assoc.
Qed.

Lemma formatBuiltin_ends (text : jsstring) :
  exists body,
    formatBuiltin text = body ++ [LF]
    /\ headIs (N.eqb LF) (rev body) = false.
Proof.
  unfold formatBuiltin. pose proof (maskAll_entries text) as Hph.
  destruct (maskAll text) as [masked ph]. cbn [snd] in Hph.
  rewrite lineProcessing_lines.
  set (ls := cleanLines (spacing masked)).
  rewrite (@restore_space ph (join [LF] ls) [] LF eq_refl).
  change (restore ph []) with (@nil N).
  exists (restore ph (join [LF] ls)). split; [reflexivity|].
  destruct (cleanLines_ok (spacing masked)) as [H1 [_ H3]]. fold ls in H1, H3.
  destruct (rev ls) as [|l r] eqn:R.
  - apply (f_equal (@rev jsstring)) in R. rewrite rev_involutive in R.
    rewrite R. reflexivity.
  - assert (E : ls = rev r ++ [l]).
    { apply (f_equal (@rev jsstring)) in R. now rewrite rev_involutive in R. }
    pose proof (H3 _ _ E) as Hl. rewrite E in H1.
    apply Forall_app in H1 as [_ H1].
    inversion H1 as [|? ? [_ Hl2] _]; subst.
    destruct (join_last [LF] (rev r) l) as [p Hp]. rewrite E, Hp.
    assert (HX : endsOk (p ++ l)).
    { apply endsOk_app. unfold endsOk, noTrailingSpace in *.
      apply negb_true_iff in Hl2.
      destruct (rev l) as [|z rl] eqn:Rl.
      - apply (f_equal (@rev N)) in Rl. rewrite rev_involutive in Rl.
        now subst l.
      - cbn [headIs] in *. destruct (z =? LF)%N eqn:Z; [|reflexivity].
        apply N.eqb_eq in Z. subst z. discriminate. }
    rewrite restore_rewrite. unfold rewrite.
    pose proof (@restore_endsOk ph (length (p ++ l)) Hph (p ++ l) (le_n _)
                  HX []) as HR.
    unfold endsOk in HR.
    destruct (rev (rewriteFrom (tokenAt ph) [] (p ++ l) 0)) as [|z rl];
      [reflexivity|].
    cbn [headIs] in *. rewrite N.eqb_sym. now apply negb_true_iff.
Qed.

(** The output of [formatBuiltin], for every input, ends with a line
    feed, and only one: what precedes it is empty or ends with another
    character. *)
Theorem formatBuiltin_one_final_newline (text : jsstring) :
  exists body,
    formatBuiltin text = body ++ [LF]
    /\ headIs (N.eqb LF) (rev body) = false.
Proof. apply formatBuiltin_ends. Qed.

(** ** The formatting providers *)

(** [vscode.TextEdit.replace(range, newText)]; the kind of range is left
    open: offsets for the whole document, the range received for a
    selection. *)
Record textEdit (R : Type) : Type := TextEdit {
  editRange : R;
  newText : jsstring
}.

(** A configuration value that is a string or [undefined] is truthy when
    it is a non-empty string. *)
Definition truthy (v : option jsstring) : bool :=
  match v with
  | Some (_ :: _) => true
  | _ => false
  end.

(** [externalFormatter && externalFormatter.trim() !== ''] *)
Definition externalConfigured (externalFormatter : option jsstring) : bool :=
  match externalFormatter with
  | Some cmd => truthy externalFormatter && negb (isEmpty (trim cmd))
  | None => false
  end.

(** [provideDocumentFormattingEdits] of the earlier formatter: the
    configured command is looked at but the built-in formatter runs in
    both branches.  The range of the edit goes from [positionAt(0)] to
    [positionAt(text.length)]. *)
Definition provideDocumentFormattingEditsWs
  (externalFormatter : option jsstring) (text : jsstring)
  : list (textEdit (nat * nat)) :=
  let formatted :=
    if externalConfigured externalFormatter
    then formatWhitespace text
    else formatWhitespace text in
  if jsstring_eqb formatted text then []
  else [TextEdit (0, length text) formatted].

(** [provideDocumentRangeFormattingEdits]: [getText] is
    [document.getText]. *)
Definition provideDocumentRangeFormattingEdits (R : Type)
  (getText : R -> jsstring) (range : R) : list (textEdit R) :=
  let text := getText range in
  let formatted := formatBuiltin text in
  if jsstring_eqb formatted text then []
  else [TextEdit range formatted].

Lemma space_plain (c : char) : isSpace c = true -> plain c = true.
Proof.
  unfold plain, startsLiteral, isSpace, isOperatorChar, oneOf, isDigit,
    in_range, DQ, SQ, HASH.
  change (str "=/%<>+-*!") with [61; 47; 37; 60; 62; 43; 45; 42; 33]%N.
  cbn [existsb]. intros H. apply negb_true_iff.
  rewrite !orb_true_iff, !andb_true_iff, !N.leb_le, !N.eqb_eq in H.
  rewrite !orb_false_iff, !andb_false_iff, !N.eqb_neq, !N.leb_gt. lia.
Qed.

Lemma lineProcessing_blank (t : jsstring) :
  forallb isSpace t = true -> lineProcessing t = [LF].
Proof.
  intros H. rewrite lineProcessing_lines.
  pose proof (cleanLines_class isSpace t H) as Hc.
  destruct (cleanLines_ok t) as [H1 [_ H3]].
  destruct (rev (cleanLines t)) as [|l r] eqn:R.
  - apply (f_equal (@rev jsstring)) in R. rewrite rev_involutive in R.
    now rewrite R.
  - exfalso.
    assert (E : cleanLines t = rev r ++ [l]).
    { apply (f_equal (@rev jsstring)) in R. now rewrite rev_involutive in R. }
    pose proof (H3 _ _ E) as Hl. rewrite E in H1, Hc.
    apply Forall_app in H1 as [_ H1]. apply Forall_app in Hc as [_ Hc].
    inversion H1 as [|? ? [_ Hl2] _]; subst.
    inversion Hc as [|? ? Hl3 _]; subst.
    pose proof (noTrailing_blank l Hl2) as B. unfold blank in B.
    rewrite Hl3 in B. now destruct l.
Qed.

(** A text of white space only, the empty text included, is formatted to
    a single line feed by both formatters. *)
Theorem blank_input_single_newline (text : jsstring) :
  forallb isSpace text = true ->
  formatBuiltin text = [LF] /\ formatWhitespace text = [LF].
Proof.
  intros H.
  assert (Hp : forallb plain text = true)
    by (apply (forallb_impl isSpace); [exact space_plain | exact H]).
  rewrite formatWhitespace_lines, (formatBuiltin_plain _ Hp).
  assert (Ht : forallb isSpace (normalizeTabs text) = true).
  { rewrite normalizeTabs_expand. now apply expandTab_class. }
  now rewrite (lineProcessing_blank _ Ht).
Qed.

Lemma blank_input_witness :
  forallb isSpace [SP; TAB; LF; CR; LF; SP] = true
  /\ formatBuiltin [SP; TAB; LF; CR; LF; SP] = [LF]
  /\ formatWhitespace [SP; TAB; LF; CR; LF; SP] = [LF].
Proof.
  split; [reflexivity|]. apply blank_input_single_newline. reflexivity.
Defined.

(** The first [k] lines exist and are blank. *)
Fixpoint leadBlank (k : nat) (ls : list jsstring) : bool :=
  match k, ls with
  | O, _ => true
  | S k', l :: rest => blank l && leadBlank k' rest
  | S _, [] => false
  end.

Definition noTriple (ls : list jsstring) : Prop :=
  forall pre a b c post,
    ls = pre ++ a :: b :: c :: post -> blank a && blank b && blank c = false.

Lemma noTriple_tail (l : jsstring) (ls : list jsstring) :
  noTriple (l :: ls) -> noTriple ls.
Proof.
  intros H pre a b c post E. apply (H (l :: pre) a b c post). now rewrite E.
Qed.

Lemma noTriple_lead (ls : list jsstring) :
  noTriple ls -> leadBlank 3 ls = false.
Proof.
  intros H. destruct ls as [|a [|b [|c post]]]; cbn [leadBlank];
    rewrite ?andb_false_r; try reflexivity.
  rewrite andb_true_r, andb_assoc. exact (H [] a b c post eq_refl).
Qed.

Lemma noTriple_runsWithin (ls : list jsstring) :
  forall bc, bc <= 2 -> noTriple ls -> leadBlank (3 - bc) ls = false ->
    runsWithin bc ls = true.
Proof.
  induction ls as [|l rest IH]; intros bc Hbc Hn Hl; [reflexivity|].
  cbn [runsWithin]. pose proof (noTriple_tail Hn) as Hn'.
  destruct (blank l) eqn:B.
  - destruct bc as [|[|[|bc]]]; try lia; cbn [Nat.sub leadBlank] in Hl;
      rewrite B in Hl; cbn [andb] in Hl.
    + apply (IH 1); [lia | exact Hn' | exact Hl].
    + apply (IH 2); [lia | exact Hn' | exact Hl].
    + discriminate.
  - apply (IH 0); [lia | exact Hn' | now apply noTriple_lead].
Qed.

(** The texts the earlier formatter leaves as they are: the clean texts
    without tab characters. *)
Lemma formatWhitespace_fixed (text : jsstring) :
  formatWhitespace text = text
  <-> cleanText text /\ forallb (fun c => negb (c =? TAB)%N) text = true.
Proof.
  rewrite formatWhitespace_lines. split.
  - intros E. split.
    + rewrite <- E. apply lineProcessing_clean.
    + rewrite <- E. apply lineProcessing_class; [reflexivity|].
      rewrite normalizeTabs_expand. apply expandTab_no_tab.
  - intros [[ls [E [H1 [H2 H3]]]] Ht].
    rewrite normalizeTabs_expand, (expandTab_id _ Ht), E.
    apply lineProcessing_fixed.
    + exact H1.
    + apply noTriple_runsWithin; [lia | exact H2 | now apply noTriple_lead].
    + intros ls' l El Hl. specialize (H3 _ _ El). now rewrite Hl in H3.
Qed.

(** The earlier formatting provider returns no edit exactly for a
    document that ends with one line feed and has no tab character, no
    line ending with white space, no three blank lines in a row and no
    blank last line; the configured command makes no difference. *)
Theorem provider_no_edit_iff_clean (externalFormatter : option jsstring)
  (text : jsstring) :
  provideDocumentFormattingEditsWs externalFormatter text = []
  <-> cleanText text /\ forallb (fun c => negb (c =? TAB)%N) text = true.
Proof.
  rewrite <- formatWhitespace_fixed. unfold provideDocumentFormattingEditsWs.
  destruct (externalConfigured externalFormatter);
    destruct (jsstring_eqb (formatWhitespace text) text) eqn:E.
  1,3: apply jsstring_eqb_eq in E; now split.
  all: split; [discriminate|]; intros F; apply jsstring_eqb_eq in F;
    congruence.
Qed.

Lemma provider_no_edit_witness :
  provideDocumentFormattingEditsWs (Some (str "black -")) (str "a" ++ [LF])
  = [].
Proof.
  apply (proj2 (provider_no_edit_iff_clean (Some (str "black -"))
                  (str "a" ++ [LF]))).
  split; [|reflexivity]. exists [str "a"]. split; [reflexivity|].
  split; [repeat constructor|]. split.
  - intros pre a b c post E. apply (f_equal (@length jsstring)) in E.
    rewrite length_app in E. cbn [length] in E. lia.
  - intros ls' l E. destruct ls' as [|x ls'].
    + injection E as <-. reflexivity.
    + injection E as _ E. now destruct ls'.
Defined.

(** The output of the earlier formatter, for every input, is clean: it
    ends with one line feed, no line ends with white space, there are no
    three blank lines in a row and no blank last line; and it has no tab
    character. *)
Theorem formatWhitespace_output_clean (text : jsstring) :
  cleanText (formatWhitespace text)
  /\ forallb (fun c => negb (c =? TAB)%N) (formatWhitespace text) = true.
Proof.
  rewrite formatWhitespace_lines. split; [apply lineProcessing_clean|].
  apply lineProcessing_class; [reflexivity|].
  rewrite normalizeTabs_expand. apply expandTab_no_tab.
Qed.

(** The earlier formatter is idempotent on every text, and its provider
    returns no edit for a document that it has formatted. *)
Theorem formatWhitespace_twice (externalFormatter : option jsstring)
  (text : jsstring) :
  formatWhitespace (formatWhitespace text) = formatWhitespace text
  /\ provideDocumentFormattingEditsWs externalFormatter
       (formatWhitespace text) = [].
Proof.
  pose proof (formatWhitespace_idempotent text) as H.
  split; [exact H|]. unfold provideDocumentFormattingEditsWs.
  rewrite H. destruct (externalConfigured externalFormatter);
    now rewrite (proj2 (jsstring_eqb_eq _ _) eq_refl).
Qed.

(** Formatting a selection returns an edit unless the selected text ends
    with exactly one line feed; the edit replaces the selection by a text
    that does. *)
Theorem range_formatting_edits (R : Type) (getText : R -> jsstring)
  (range : R) :
  (provideDocumentRangeFormattingEdits getText range = [] ->
   exists body,
     getText range = body ++ [LF] /\ headIs (N.eqb LF) (rev body) = false)
  /\ (forall e,
        In e (provideDocumentRangeFormattingEdits getText range) ->
        editRange e = range
        /\ newText e = formatBuiltin (getText range)
        /\ newText e <> getText range).
Proof.
  unfold provideDocumentRangeFormattingEdits.
  destruct (jsstring_eqb _ _) eqn:E; split.
  - intros _. apply jsstring_eqb_eq in E. rewrite <- E.
    apply formatBuiltin_ends.
  - intros e [].
  - discriminate.
  - intros e [<-|[]]. cbn [editRange newText]. repeat split.
    intros F. apply jsstring_eqb_eq in F. congruence.
Qed.

Lemma range_formatting_witness :
  exists body,
    str "x = 1" ++ [LF] = body ++ [LF]
    /\ headIs (N.eqb LF) (rev body) = false.
Proof.
  apply (proj1 (@range_formatting_edits unit
                  (fun _ => str "x = 1" ++ [LF]) tt)).
  reflexivity.
Defined.

(** ** A quote that is not closed *)

(** A pattern that ends with a character of [p] finds nothing in a text
    without such a character. *)
Lemma m_needs_char (r : regex) (p : char -> bool) (k : cont) (s : mstate) :
  forallb (fun c => negb (p c)) (after s) = true ->
  m (Seq r (Cls p)) k s = None.
Proof.
  intros H. rewrite m_Seq.
  destruct (m r (m (Cls p) k) s) as [x|] eqn:E; [|reflexivity].
  exfalso. apply m_reaches in E as [s' [w [E1 [E2 _]]]].
  rewrite E2, forallb_app in H. apply andb_prop in H as [_ H].
  destruct s' as [b a c]. cbn [after] in H. rewrite m_Cls in E1.
  destruct a as [|c0 a]; [discriminate|]. cbn [forallb] in H.
  apply andb_prop in H as [H _]. apply negb_true_iff in H.
  now rewrite H in E1.
Qed.

Lemma replaceFrom_nomatch (A : Type) (r : regex)
  (f : jsstring -> option jsstring -> A -> jsstring * A) :
  forall aft,
    (forall x y bef, aft = x ++ y -> matchAt r bef y = None) ->
    forall bef acc, replaceFrom r f bef aft 0 acc = (aft, acc).
Proof.
  induction aft as [|c rest IH]; intros H bef acc.
  - cbn [replaceFrom]. now rewrite (H [] [] bef eq_refl).
  - cbn [replaceFrom]. rewrite (H [] (c :: rest) bef eq_refl).
    rewrite IH; [reflexivity|].
    intros x y b E. apply (H (c :: x) y b). now rewrite E.
Qed.

Lemma not_literal_head (post : jsstring) :
  forallb (fun c => negb (startsLiteral c)) post = true ->
  headIs startsLiteral post = false.
Proof.
  intros H. apply (headIs_class (fun c => negb (startsLiteral c)));
    [|exact H].
  intros c Hc. now apply negb_true_iff.
Qed.

Lemma triple_needs_quote (x y z q : char) (post : jsstring) :
  startsLiteral y = true -> headIs startsLiteral post = false ->
  prefixb [x; y; z] (q :: post) = false.
Proof.
  intros Hy Hp. cbn [prefixb]. destruct post as [|c post].
  - apply andb_false_r.
  - cbn [headIs] in Hp. destruct (y =? c)%N eqn:E.
    + apply N.eqb_eq in E. subst c. congruence.
    + cbn [andb]. apply andb_false_r.
Qed.

(** At a quote that no later quote closes, the string and comment pattern
    finds nothing. *)
Lemma lone_quote_no_match (q : char) (bef post : jsstring) :
  q = DQ \/ q = SQ ->
  forallb (fun c => negb (startsLiteral c)) post = true ->
  matchAt stringCommentPattern bef (q :: post) = None.
Proof.
  intros Hq Hpost. pose proof (not_literal_head _ Hpost) as Hh.
  assert (Hn : forall x, startsLiteral x = true ->
             forallb (fun c => negb (x =? c)%N) post = true).
  { intros x Hx. apply (forallb_impl (fun c => negb (startsLiteral c)));
      [|exact Hpost].
    intros c Hc. apply negb_true_iff. apply negb_true_iff in Hc.
    destruct (x =? c)%N eqn:E; [|reflexivity].
    apply N.eqb_eq in E. subst c. congruence. }
  unfold matchAt, stringCommentPattern. rewrite m_Group.
  set (k := fun s' : mstate => _). cbn [Alts].
  assert (T : forall t, startsLiteral t = true ->
             m (tripleQuoted t) k (MState bef (q :: post) None) = None).
  { intros t Ht. unfold tripleQuoted. cbn [Seqs].
    rewrite m_Seq, m_Lit.
    now rewrite (@triple_needs_quote t t t q post Ht Hh). }
  assert (Q : forall t, startsLiteral t = true ->
             m (quoted t) k (MState bef (q :: post) None) = None).
  { intros t Ht. unfold quoted. cbn [Seqs]. rewrite m_Seq, m_Cls.
    destruct (t =? q)%N; [|reflexivity].
    apply m_needs_char. cbn [after]. now apply Hn. }
  assert (C : m lineComment k (MState bef (q :: post) None) = None).
  { unfold lineComment. rewrite m_Seq, m_Cls.
    destruct Hq as [->| ->]; reflexivity. }
  cbn [m]. rewrite (T DQ eq_refl), (T SQ eq_refl), (Q DQ eq_refl),
    (Q SQ eq_refl), C. reflexivity.
Qed.

Lemma unmasked_not_literal (l : jsstring) :
  forallb unmasked l = true ->
  forallb (fun c => negb (startsLiteral c)) l = true.
Proof.
  apply forallb_impl. intros c Hc. now apply andb_prop in Hc.
Qed.

Lemma unmasked_not_digit (l : jsstring) :
  forallb unmasked l = true ->
  forallb (fun c => negb (isDigit c)) l = true.
Proof.
  apply forallb_impl. intros c Hc. now apply andb_prop in Hc.
Qed.

(** A quote that is never closed protects nothing: when the text has one
    quote character and otherwise no quote, no [#] and no digit, nothing
    is masked and the spacing rules apply to the whole text. *)
Theorem unterminated_quote_is_code (pre post : jsstring) (q : char) :
  q = DQ \/ q = SQ ->
  forallb unmasked pre = true -> forallb unmasked post = true ->
  maskAll (pre ++ q :: post) = (pre ++ q :: post, [])
  /\ formatBuiltin (pre ++ q :: post)
     = lineProcessing (spacing (pre ++ q :: post)).
Proof.
  intros Hq Hpre Hpost.
  pose proof (unmasked_not_literal _ Hpre) as Lpre.
  pose proof (unmasked_not_literal _ Hpost) as Lpost.
  assert (Hd : forallb (fun c => negb (isDigit c)) (pre ++ q :: post) = true).
  { rewrite forallb_app. cbn [forallb].
    rewrite (unmasked_not_digit _ Hpre), (unmasked_not_digit _ Hpost).
    destruct Hq as [->| ->]; reflexivity. }
  assert (E : maskAll (pre ++ q :: post) = (pre ++ q :: post, [])).
  { unfold maskAll, replaceWith. rewrite replaceFrom_nomatch.
    - now apply mask_numbers_untouched.
    - intros x y bef Exy.
      assert (Hy : y = q :: post
                   \/ headIs (first stringCommentPattern) y = false).
      { apply app_eq_app in Exy as [z [[E1 E2]|[E1 E2]]].
        - destruct z as [|c z]; [now left|]. right. subst y.
          rewrite E1, forallb_app in Lpre. apply andb_prop in Lpre as [_ L].
          cbn [app headIs]. rewrite first_stringComment.
          cbn [forallb] in L. apply andb_prop in L as [L _].
          now apply negb_true_iff.
        - destruct z as [|c z]; [left; symmetry; exact E2|]. right.
          injection E2 as _ E2. rewrite E2, forallb_app in Lpost.
          apply andb_prop in Lpost as [_ L].
          destruct y as [|d y]; [reflexivity|]. cbn [headIs].
          rewrite first_stringComment. cbn [forallb] in L.
          apply andb_prop in L as [L _]. now apply negb_true_iff. }
      destruct Hy as [->|Hy].
      + now apply lone_quote_no_match.
      + now apply matchAt_first. }
  split; [exact E|]. unfold formatBuiltin. rewrite E.
  apply restore_untouched.
  apply lineProcessing_class; [reflexivity|].
  now apply spacing_class.
Qed.

Lemma unterminated_quote_witness :
  forallb unmasked (str "s=") = true
  /\ forallb unmasked (str "a=b") = true
  /\ formatBuiltin (str "s=" ++ SQ :: str "a=b")
     = lineProcessing (spacing (str "s=" ++ SQ :: str "a=b")).
Proof.
  split; [reflexivity|]. split; [reflexivity|].
  apply (proj2 (@unterminated_quote_is_code (str "s=") (str "a=b") SQ
                  (or_intror eq_refl) eq_refl eq_refl)).
Defined.

(** ** Line breaks next to commas and operators *)

(** A character no rule reacts to and that is not white space: a letter,
    a bracket, a dot, a colon, an underscore and the like. *)
Definition wordy (c : char) : bool := plain c && negb (isSpace c).

Lemma wordy_plain (l : jsstring) :
  forallb wordy l = true -> forallb plain l = true.
Proof. apply forallb_impl. intros c H. now apply andb_prop in H. Qed.

Lemma wordy_head (l : jsstring) :
  forallb wordy l = true -> headIs isSpace l = false.
Proof.
  apply headIs_class. intros c H. apply andb_prop in H as [_ H].
  now apply negb_true_iff.
Qed.

Lemma space_not_operator (c : char) :
  isSpace c = true -> isOperatorChar c = false.
Proof. intros H. now apply plain_not_operator, space_plain. Qed.

(** A scan copies a stretch at no position of which the rule fires. *)
Lemma rewriteFrom_copy (d : decision) (Y : jsstring) :
  forall a,
    (forall bef x c y, a = x ++ c :: y -> d bef (c :: y ++ Y) = None) ->
    forall bef,
      rewriteFrom d bef (a ++ Y) 0 = a ++ rewriteFrom d (rev a ++ bef) Y 0.
Proof.
  induction a as [|c a IH]; intros H bef; [reflexivity|].
  cbn [app rewriteFrom]. rewrite (H bef [] c a eq_refl).
  rewrite IH.
  - cbn [rev]. now rewrite <- app_assoc.
  - intros b x c' y E. apply (H b (c :: x) c' y). now rewrite E.
Qed.

(** A text in which the rule fires once. *)
Lemma rewriteFrom_once (d : decision) (a w b rep : jsstring) :
  sepLocal d -> w <> [] ->
  (forall bef x c y, a = x ++ c :: y -> d bef (c :: y ++ w ++ b) = None) ->
  d (rev a) (w ++ b) = Some (length w, rep) ->
  (forall bef x c y, b = x ++ c :: y -> d bef (c :: y) = None) ->
  rewrite d (a ++ w ++ b) = a ++ rep ++ b.
Proof.
  intros Hd Hw Ha Hf Hb. unfold rewrite.
  rewrite rewriteFrom_copy by exact Ha. rewrite app_nil_r.
  rewrite (@rewriteFrom_fire d (rev a) w b rep Hw Hf).
  rewrite <- (app_nil_r b) at 1. rewrite rewriteFrom_copy.
  - now rewrite (sep_end Hd), app_nil_r.
  - intros bef x c y E. rewrite app_nil_r. now apply (Hb bef x c y).
Qed.

Lemma padOpAt_head (ops : list string) (aft : jsstring) :
  forallb (headIs isOperatorChar) (map str ops) = true ->
  headIs isOperatorChar (dropWhile isSpace aft) = false ->
  padOpAt ops aft = None.
Proof.
  intros Hops Ha. unfold padOpAt, paddedOpAt.
  now rewrite (find_prefix_class isOperatorChar).
Qed.

Lemma padOpAt_wordy (ops : list string) (c : char) (y : jsstring) :
  forallb (headIs isOperatorChar) (map str ops) = true ->
  wordy c = true -> padOpAt ops (c :: y) = None.
Proof.
  intros Hops Hc. apply padOpAt_head; [exact Hops|].
  apply andb_prop in Hc as [Hp Hs]. apply negb_true_iff in Hs.
  cbn [dropWhile]. rewrite Hs. cbn [headIs]. now apply plain_not_operator.
Qed.

Lemma in_wordy (a x y : jsstring) (c : char) :
  forallb wordy a = true -> a = x ++ c :: y -> wordy c = true.
Proof.
  intros H E. rewrite E, forallb_app in H. apply andb_prop in H as [_ H].
  cbn [forallb] in H. now apply andb_prop in H.
Qed.

Lemma dropWhile_blank_app (ws Y : jsstring) :
  forallb isSpace ws = true -> headIs isSpace Y = false ->
  dropWhile isSpace (ws ++ Y) = Y.
Proof. intros H1 H2. now apply takeWhile_app_stop. Qed.

(** A prefix of [op ++ rest] made of operator characters is a prefix of
    [op] when [rest] does not start with an operator character. *)
Lemma prefixb_within (w op rest : jsstring) :
  forallb isOperatorChar w = true ->
  headIs isOperatorChar rest = false ->
  prefixb w (op ++ rest) = true -> prefixb w op = true.
Proof.
  revert op. induction w as [|x w IH]; intros op Hw Hr H; [reflexivity|].
  cbn [forallb] in Hw. apply andb_prop in Hw as [Hx Hw].
  destruct op as [|o op].
  - cbn [app] in H. destruct rest as [|r rest]; [discriminate|].
    cbn [prefixb] in H. apply andb_prop in H as [H _].
    apply N.eqb_eq in H. subst r. cbn [headIs] in Hr. congruence.
  - cbn [app prefixb] in *. apply andb_prop in H as [H1 H2].
    now rewrite H1, (IH op Hw Hr H2).
Qed.

(** In a list with longer operators first, the first operator found at
    the start of [op ++ rest] is [op]. *)
Lemma find_longest (ops : list jsstring) (op rest : jsstring) :
  longestFirst ops = true ->
  forallb (forallb isOperatorChar) ops = true ->
  headIs isOperatorChar rest = false ->
  In op ops ->
  find (fun w => prefixb w (op ++ rest)) ops = Some op.
Proof.
  intros HL Hops Hr. induction ops as [|x l IH]; intros Hin; [easy|].
  cbn [longestFirst] in HL. apply andb_prop in HL as [HL1 HL2].
  cbn [forallb] in Hops. apply andb_prop in Hops as [Hx Hl].
  cbn [find]. destruct (prefixb x (op ++ rest)) eqn:P.
  - apply (prefixb_within x op rest Hx Hr) in P.
    destruct Hin as [->|Hin]; [reflexivity|].
    rewrite forallb_forall in HL1. specialize (HL1 op Hin).
    rewrite P in HL1. discriminate.
  - destruct Hin as [->|Hin]; [now rewrite prefixb_app in P|].
    now apply IH.
Qed.

(** The operator rule fires on white space, a listed operator, white
    space and a wordy character. *)
Lemma padOpAt_at (ops : list string) (ws1 ws2 op b : jsstring) :
  longestFirst (map str ops) = true ->
  forallb (forallb isOperatorChar) (map str ops) = true ->
  In op (map str ops) -> op <> [] ->
  forallb isSpace ws1 = true -> forallb isSpace ws2 = true ->
  forallb wordy b = true ->
  padOpAt ops ((ws1 ++ op ++ ws2) ++ b)
  = Some (length (ws1 ++ op ++ ws2), padded op).
Proof.
  intros HL Hops Hin Hne H1 H2 Hb. unfold padOpAt, paddedOpAt.
  pose proof (proj1 (forallb_forall _ _) Hops op Hin) as Hop.
  rewrite <- !app_assoc.
  assert (Hh : headIs isSpace (op ++ ws2 ++ b) = false).
  { destruct op as [|o op]; [contradiction|]. cbn [app headIs].
    cbn [forallb] in Hop. apply andb_prop in Hop as [Ho _].
    destruct (isSpace o) eqn:E; [|reflexivity].
    apply space_not_operator in E. congruence. }
  rewrite (dropWhile_blank_app ws1 _ H1 Hh).
  assert (Hr : headIs isOperatorChar (ws2 ++ b) = false).
  { destruct ws2 as [|s ws2].
    - apply (headIs_class plain); [exact plain_not_operator|].
      now apply wordy_plain.
    - cbn [app headIs]. cbn [forallb] in H2. apply andb_prop in H2 as [H2 _].
      now apply space_not_operator. }
  rewrite (@find_longest (map str ops) op (ws2 ++ b) HL Hops Hr Hin).
  rewrite skipn_app_exact.
  rewrite (dropWhile_blank_app ws2 b H2 (wordy_head _ Hb)).
  do 2 f_equal. rewrite !length_app. lia.
Qed.

Lemma splitLines_one (l : jsstring) : noLF l = true -> splitLines l = [l].
Proof.
  induction l as [|c l IH]; intros H1; [reflexivity|].
  cbn [noLF forallb] in H1. apply andb_prop in H1 as [Hc Hl].
  apply negb_true_iff in Hc. cbn [splitLines]. rewrite Hc.
  assert (G : headIs (N.eqb LF) l = false).
  { destruct l as [|d l]; [reflexivity|]. cbn [headIs].
    cbn [forallb] in Hl. apply andb_prop in Hl as [Hd _].
    apply negb_true_iff in Hd. now rewrite N.eqb_sym. }
  rewrite G, andb_false_r. unfold noLF in IH. now rewrite (IH Hl).
Qed.

(** A single line that needs no cleaning gets its final line feed. *)
Lemma lineProcessing_single (l : jsstring) :
  l <> [] -> noLF l = true -> noTrailingSpace l = true ->
  lineProcessing l = l ++ [LF].
Proof.
  intros Hne H1 H2. rewrite lineProcessing_lines. f_equal.
  unfold cleanLines. rewrite (splitLines_one _ H1).
  cbn [map keepLines]. rewrite (noTrailing_trimEnd l H2), (trim_empty l H2).
  destruct l as [|c l]; [contradiction|]. reflexivity.
Qed.

Lemma plain_unmasked (l : jsstring) :
  forallb plain l = true -> forallb unmasked l = true.
Proof.
  apply forallb_impl. intros c H. unfold unmasked.
  now rewrite (plain_not_literal _ H), (plain_not_digit _ H).
Qed.

Lemma space_unmasked (l : jsstring) :
  forallb isSpace l = true -> forallb unmasked l = true.
Proof.
  intros H. apply plain_unmasked.
  apply (forallb_impl isSpace); [exact space_plain | exact H].
Qed.

Lemma wordy_no_tab (l : jsstring) :
  forallb wordy l = true -> flat_map expandTab l = l.
Proof.
  intros H. apply expandTab_id. apply (forallb_impl wordy); [|exact H].
  intros c Hc. apply andb_prop in Hc as [_ Hc].
  destruct (c =? TAB)%N eqn:E; [|reflexivity].
  apply N.eqb_eq in E. now subst c.
Qed.

Lemma expandTab_blank (ws : jsstring) :
  forallb isSpace ws = true -> forallb isSpace (flat_map expandTab ws) = true.
Proof. now apply expandTab_class. Qed.

Lemma wordy_class (q : char -> bool) (l : jsstring) :
  (forall c, plain c = true -> q c = true) ->
  forallb wordy l = true -> forallb q l = true.
Proof.
  intros H. apply forallb_impl. intros c Hc. apply H.
  now apply andb_prop in Hc.
Qed.

Lemma blank_class (q : char -> bool) (l : jsstring) :
  (forall c, plain c = true -> q c = true) ->
  forallb isSpace l = true -> forallb q l = true.
Proof.
  intros H. apply forallb_impl. intros c Hc. now apply H, space_plain.
Qed.

Lemma padOpAt_none (p : char -> bool) (ops : list string) (aft : jsstring) :
  forallb (headIs p) (map str ops) = true ->
  forallb (fun c => negb (p c)) aft = true ->
  padOpAt ops aft = None.
Proof.
  intros Hops Ha. unfold padOpAt, paddedOpAt.
  rewrite (find_prefix_class p); [reflexivity | exact Hops|].
  apply (headIs_class (fun c => negb (p c))).
  - intros c Hc. now apply negb_true_iff.
  - now apply forallb_dropWhile.
Qed.

Lemma commaAt_none (bef aft : jsstring) :
  forallb (fun c => negb (c =? 44)%N) aft = true -> commaAt bef aft = None.
Proof.
  intros Ha. unfold commaAt.
  pose proof (forallb_dropWhile _ isSpace aft Ha) as H.
  destruct (dropWhile isSpace aft) as [|c rest]; [reflexivity|].
  cbn [forallb] in H. apply andb_prop in H as [H _].
  apply negb_true_iff in H. now rewrite H.
Qed.

Lemma wordy_ends (p b : jsstring) :
  b <> [] -> forallb wordy b = true -> noTrailingSpace (p ++ b) = true.
Proof.
  intros Hb H. unfold noTrailingSpace. rewrite rev_app_distr.
  destruct (rev b) as [|z r] eqn:R.
  - apply (f_equal (@rev N)) in R. rewrite rev_involutive in R. now subst b.
  - cbn [app headIs].
    assert (Hz : In z b) by (apply in_rev; rewrite R; now left).
    rewrite forallb_forall in H. specialize (H z Hz).
    apply andb_prop in H as [_ H]. now rewrite H.
Qed.

Lemma wordy_noLF (l : jsstring) : forallb wordy l = true -> noLF l = true.
Proof.
  apply forallb_impl. intros c Hc. apply andb_prop in Hc as [_ Hc].
  destruct (c =? LF)%N eqn:E; [|reflexivity].
  apply N.eqb_eq in E. now subst c.
Qed.

(** The comma rule takes the white space around a comma, line breaks
    included: what follows a comma on the next line is pulled up behind
    it, and a comma on a line of its own is pulled up too. *)
Theorem comma_joins_lines (a b ws1 ws2 : jsstring) :
  forallb wordy a = true -> forallb wordy b = true -> b <> [] ->
  forallb isSpace ws1 = true -> forallb isSpace ws2 = true ->
  formatBuiltin (a ++ ws1 ++ 44%N :: ws2 ++ b)
  = a ++ str ", " ++ b ++ [LF].
Proof.
  intros Ha Hb Hne H1 H2.
  rewrite formatBuiltin_unmasked.
  2:{ rewrite !forallb_app. cbn [forallb]. rewrite forallb_app.
      rewrite (plain_unmasked _ (wordy_plain _ Ha)),
        (plain_unmasked _ (wordy_plain _ Hb)),
        (space_unmasked _ H1), (space_unmasked _ H2). reflexivity. }
  unfold spacing. rewrite normalizeTabs_expand.
  rewrite !flat_map_app. cbn [flat_map]. rewrite flat_map_app.
  rewrite (wordy_no_tab _ Ha), (wordy_no_tab _ Hb).
  change (expandTab 44) with [44%N]. cbn [app].
  set (u1 := flat_map expandTab ws1). set (u2 := flat_map expandTab ws2).
  assert (U1 : forallb isSpace u1 = true) by now apply expandTab_blank.
  assert (U2 : forallb isSpace u2 = true) by now apply expandTab_blank.
  set (T := a ++ u1 ++ 44%N :: u2 ++ b).
  assert (HT : forallb (fun c => negb (isOperatorChar c)) T = true).
  { assert (P : forall c, plain c = true -> negb (isOperatorChar c) = true)
      by (intros c Hc; now rewrite (plain_not_operator _ Hc)).
    unfold T. rewrite !forallb_app. cbn [forallb]. rewrite forallb_app.
    rewrite (@wordy_class _ a P Ha), (@wordy_class _ b P Hb),
      (@blank_class _ u1 P U1), (@blank_class _ u2 P U2). reflexivity. }
  rewrite padSafe_rewrite. unfold rewrite at 1.
  rewrite (rewriteFrom_untouched safeAt (fun c => negb (isOperatorChar c)));
    [| |exact HT].
  2:{ intros bef aft Haft. now apply (padOpAt_none isOperatorChar). }
  rewrite padAmbiguous_rewrite. unfold rewrite at 1.
  rewrite (rewriteFrom_untouched ambiguousAt
             (fun c => negb (isOperatorChar c))); [| |exact HT].
  2:{ intros bef aft Haft. unfold ambiguousAt.
      destruct (headIs isOperandEnd bef); [|reflexivity].
      now apply (padOpAt_none isOperatorChar). }
  rewrite spaceCommas_rewrite. unfold T.
  change (u1 ++ 44%N :: u2 ++ b) with (u1 ++ [44%N] ++ u2 ++ b).
  replace (a ++ u1 ++ [44%N] ++ u2 ++ b)
    with (a ++ (u1 ++ 44%N :: u2) ++ b)
    by (now rewrite <- !app_assoc).
  rewrite (@rewriteFrom_once commaAt a (u1 ++ 44%N :: u2) b (str ", ")
             commaAt_sepLocal).
  - rewrite (app_assoc (str ", ") b [LF]), (app_assoc a (str ", " ++ b) [LF]).
    apply lineProcessing_single.
    + intros E. apply app_eq_nil in E as [_ E]. discriminate.
    + unfold noLF. rewrite !forallb_app.
      pose proof (wordy_noLF _ Ha) as La. pose proof (wordy_noLF _ Hb) as Lb.
      unfold noLF in La, Lb. now rewrite La, Lb.
    + rewrite app_assoc. now apply wordy_ends.
  - now destruct u1.
  - intros bef x c y E. unfold commaAt.
    pose proof (in_wordy _ _ _ Ha E) as Hc.
    apply andb_prop in Hc as [Hp Hs]. apply negb_true_iff in Hs.
    cbn [app dropWhile]. rewrite Hs.
    unfold plain in Hp. apply negb_true_iff in Hp.
    apply orb_false_elim in Hp as [_ Hp]. now rewrite Hp.
  - unfold commaAt. rewrite <- app_assoc.
    rewrite (dropWhile_blank_app u1 _ U1) by reflexivity.
    cbn [app]. rewrite N.eqb_refl.
    rewrite (dropWhile_blank_app u2 b U2 (wordy_head _ Hb)).
    do 2 f_equal. rewrite !length_app. cbn [length]. rewrite length_app. lia.
  - intros bef x c y E. unfold commaAt.
    pose proof (in_wordy _ _ _ Hb E) as Hc.
    apply andb_prop in Hc as [Hp Hs]. apply negb_true_iff in Hs.
    cbn [dropWhile]. rewrite Hs.
    unfold plain in Hp. apply negb_true_iff in Hp.
    apply orb_false_elim in Hp as [_ Hp]. now rewrite Hp.
Qed.

Lemma comma_joins_lines_witness :
  forallb wordy (str "f(a") = true /\ forallb wordy (str "b)") = true
  /\ forallb isSpace [LF; SP; SP] = true
  /\ formatBuiltin (str "f(a" ++ [] ++ 44%N :: [LF; SP; SP] ++ str "b)")
     = str "f(a" ++ str ", " ++ str "b)" ++ [LF].
Proof.
  split; [reflexivity|]. split; [reflexivity|]. split; [reflexivity|].
  apply (@comma_joins_lines (str "f(a") (str "b)") [] [LF; SP; SP]);
    (reflexivity || discriminate).
Defined.

Lemma operator_unmasked (op : jsstring) :
  forallb isOperatorChar op = true -> forallb unmasked op = true.
Proof.
  apply forallb_impl. intros c H.
  unfold unmasked, startsLiteral, isDigit, in_range, DQ, SQ, HASH.
  unfold isOperatorChar, oneOf in H.
  change (str "=/%<>+-*!") with [61; 47; 37; 60; 62; 43; 45; 42; 33]%N in H.
  cbn [existsb] in H.
  rewrite !orb_true_iff, !N.eqb_eq in H.
  rewrite andb_true_iff, !negb_true_iff, !orb_false_iff, andb_false_iff,
    !N.eqb_neq, !N.leb_gt. lia.
Qed.

Lemma operator_not_space (op : jsstring) :
  forallb isOperatorChar op = true ->
  forallb (fun c => negb (isSpace c)) op = true.
Proof.
  apply forallb_impl. intros c H. destruct (isSpace c) eqn:E; [|reflexivity].
  apply space_not_operator in E. congruence.
Qed.

Lemma no_tab_when (q : char -> bool) (l : jsstring) :
  q TAB = false -> forallb q l = true -> flat_map expandTab l = l.
Proof.
  intros Hq H. apply expandTab_id. apply (forallb_impl q); [|exact H].
  intros c Hc. destruct (c =? TAB)%N eqn:E; [|reflexivity].
  apply N.eqb_eq in E. subst c. congruence.
Qed.

(** A listed operator without [+], [-] and [*], between wordy texts: the
    white space around it, line breaks included, becomes one space on
    each side, so that an operator that ends or starts a line joins the
    two lines. *)
Theorem operator_joins_lines (op a b ws1 ws2 : jsstring) :
  In op (map str alwaysBinaryOps) ->
  forallb (fun c => negb (oneOf "+-*" c)) op = true ->
  forallb wordy a = true -> forallb wordy b = true -> b <> [] ->
  forallb isSpace ws1 = true -> forallb isSpace ws2 = true ->
  formatBuiltin (a ++ ws1 ++ op ++ ws2 ++ b)
  = a ++ [SP] ++ op ++ [SP] ++ b ++ [LF].
Proof.
  intros Hin Hamb Ha Hb Hne H1 H2.
  assert (Hops : forallb (forallb isOperatorChar) (map str alwaysBinaryOps)
                 = true) by reflexivity.
  pose proof (proj1 (forallb_forall _ _) Hops op Hin) as Hop.
  assert (Hop0 : op <> []).
  { assert (N0 : forallb (fun w => negb (isEmpty w)) (map str alwaysBinaryOps)
                 = true) by reflexivity.
    pose proof (proj1 (forallb_forall _ _) N0 op Hin) as N1.
    now destruct op. }
  rewrite formatBuiltin_unmasked.
  2:{ rewrite !forallb_app.
      rewrite (plain_unmasked _ (wordy_plain _ Ha)),
        (plain_unmasked _ (wordy_plain _ Hb)),
        (space_unmasked _ H1), (space_unmasked _ H2),
        (operator_unmasked _ Hop). reflexivity. }
  unfold spacing. rewrite normalizeTabs_expand.
  rewrite !flat_map_app.
  rewrite (wordy_no_tab _ Ha), (wordy_no_tab _ Hb).
  rewrite (@no_tab_when isOperatorChar op eq_refl Hop).
  set (u1 := flat_map expandTab ws1). set (u2 := flat_map expandTab ws2).
  assert (U1 : forallb isSpace u1 = true) by now apply expandTab_blank.
  assert (U2 : forallb isSpace u2 = true) by now apply expandTab_blank.
  rewrite padSafe_rewrite.
  replace (a ++ u1 ++ op ++ u2 ++ b) with (a ++ (u1 ++ op ++ u2) ++ b)
    by (now rewrite <- !app_assoc).
  rewrite (@rewriteFrom_once safeAt a (u1 ++ op ++ u2) b (padded op)
             safeAt_sepLocal).
  - set (T := a ++ padded op ++ b).
    assert (HA : forallb (fun c => negb (oneOf "+-*" c)) T = true).
    { assert (P : forall c, plain c = true -> negb (oneOf "+-*" c) = true).
      { intros c Hc. apply plain_not_operator in Hc.
        unfold isOperatorChar, oneOf in *.
        change (str "=/%<>+-*!") with [61; 47; 37; 60; 62; 43; 45; 42; 33]%N
          in Hc.
        change (str "+-*") with [43; 45; 42]%N.
        cbn [existsb] in *. apply negb_true_iff.
        rewrite !orb_false_iff in *. tauto. }
      unfold T, padded. rewrite !forallb_app.
      rewrite (@wordy_class _ a P Ha), (@wordy_class _ b P Hb), Hamb.
      reflexivity. }
    assert (HC : forallb (fun c => negb (c =? 44)%N) T = true).
    { assert (P : forall c, plain c = true -> negb (c =? 44)%N = true).
      { intros c Hc. unfold plain in Hc. apply negb_true_iff in Hc.
        apply orb_false_elim in Hc as [_ Hc]. now rewrite Hc. }
      assert (Q : forallb (fun c => negb (c =? 44)%N) op = true).
      { apply (forallb_impl isOperatorChar); [|exact Hop].
        intros c Hc. destruct (c =? 44)%N eqn:E; [|reflexivity].
        apply N.eqb_eq in E. subst c. discriminate. }
      unfold T, padded. rewrite !forallb_app.
      rewrite (@wordy_class _ a P Ha), (@wordy_class _ b P Hb), Q.
      reflexivity. }
    rewrite padAmbiguous_rewrite. unfold rewrite at 1.
    rewrite (rewriteFrom_untouched ambiguousAt
               (fun c => negb (oneOf "+-*" c))); [| |exact HA].
    2:{ intros bef aft Haft. unfold ambiguousAt.
        destruct (headIs isOperandEnd bef); [|reflexivity].
        now apply (padOpAt_none (oneOf "+-*")). }
    rewrite spaceCommas_rewrite. unfold rewrite at 1.
    rewrite (rewriteFrom_untouched commaAt (fun c => negb (c =? 44)%N));
      [| |exact HC].
    2:{ intros bef aft Haft. now apply commaAt_none. }
    unfold T, padded.
    replace (a ++ [SP] ++ op ++ [SP] ++ b ++ [LF])
      with ((a ++ ([SP] ++ op ++ [SP])) ++ b ++ [LF])
      by (now rewrite <- !app_assoc).
    rewrite (app_assoc a), (app_assoc _ b [LF]).
    apply lineProcessing_single.
    + intros E. apply app_eq_nil in E as [_ E]. contradiction.
    + unfold noLF. rewrite !forallb_app.
      pose proof (wordy_noLF _ Ha) as La. pose proof (wordy_noLF _ Hb) as Lb.
      unfold noLF in La, Lb. rewrite La, Lb.
      assert (Lo : forallb (fun c => negb (c =? LF)%N) op = true).
      { apply (forallb_impl isOperatorChar); [|exact Hop].
        intros c Hc. destruct (c =? LF)%N eqn:E; [|reflexivity].
        apply N.eqb_eq in E. subst c. discriminate. }
      now rewrite Lo.
    + now apply wordy_ends.
  - intros E. apply app_eq_nil in E as [_ E].
    now apply app_eq_nil in E as [E _].
  - intros bef x c y E. unfold safeAt. apply padOpAt_wordy; [reflexivity|].
    exact (in_wordy _ _ _ Ha E).
  - unfold safeAt. now apply padOpAt_at.
  - intros bef x c y E. unfold safeAt. apply padOpAt_wordy; [reflexivity|].
    exact (in_wordy _ _ _ Hb E).
Qed.

Lemma operator_joins_lines_witness :
  In (str "==") (map str alwaysBinaryOps)
  /\ forallb wordy (str "x") = true /\ forallb wordy (str "y") = true
  /\ formatBuiltin (str "x" ++ [LF] ++ str "==" ++ [SP; LF; TAB] ++ str "y")
     = str "x" ++ [SP] ++ str "==" ++ [SP] ++ str "y" ++ [LF].
Proof.
  split; [cbn; tauto|]. split; [reflexivity|]. split; [reflexivity|].
  apply (@operator_joins_lines (str "==") (str "x") (str "y") [LF]
           [SP; LF; TAB]); try reflexivity; [cbn; tauto | discriminate].
Defined.

(** ** The compiler command *)

(** [/'/g] *)
Definition quotePattern : regex := Cls (N.eqb SQ).

(** [shellEscape]: the text between single quotes, every single quote of
    the text replaced by a quote, a backslash and two quotes. *)
Definition shellEscape (s : jsstring) : jsstring :=
  [SQ] ++ replaceAll quotePattern (fun _ _ => [SQ; BSL; SQ; SQ]) s ++ [SQ].

Definition escapeQuote (c : char) : jsstring :=
  if (c =? SQ)%N then [SQ; BSL; SQ; SQ] else [c].

Definition quoteAt : decision :=
  fun _ aft =>
    match aft with
    | c :: _ => if (c =? SQ)%N then Some (1, [SQ; BSL; SQ; SQ]) else None
    | [] => None
    end.

Lemma quote_decision (bef aft : jsstring) :
  decisionOf quotePattern (fun _ _ => [SQ; BSL; SQ; SQ]) bef aft
  = quoteAt bef aft.
Proof.
  unfold decisionOf, matchAt, quoteAt, quotePattern. cbn [m after].
  destruct aft as [|c rest]; [reflexivity|].
  rewrite N.eqb_sym. destruct (c =? SQ)%N; [|reflexivity].
  cbn [after length].
  now replace (S (length rest) - length rest) with 1 by lia.
Qed.

Lemma rewriteFrom_quotes (aft : jsstring) :
  forall bef, rewriteFrom quoteAt bef aft 0 = flat_map escapeQuote aft.
Proof.
  induction aft as [|c rest IH]; intros bef; [reflexivity|].
  cbn [rewriteFrom quoteAt flat_map]. unfold escapeQuote at 1.
  destruct (c =? SQ)%N; now rewrite IH.
Qed.

Lemma shellEscape_chars (s : jsstring) :
  shellEscape s = [SQ] ++ flat_map escapeQuote s ++ [SQ].
Proof.
  unfold shellEscape.
  rewrite (@replaceAll_rewrite _ _ quoteAt quote_decision). unfold rewrite.
  now rewrite rewriteFrom_quotes.
Qed.

(** [s.split(sep)] for a separator of one character. *)
Fixpoint splitChar (sep : char) (s : jsstring) : list jsstring :=
  match s with
  | [] => [[]]
  | c :: s' =>
      if (c =? sep)%N then [] :: splitChar sep s'
      else addFirst [c] (splitChar sep s')
  end.

Lemma splitChar_nonempty (sep : char) (s : jsstring) : splitChar sep s <> [].
Proof.
  induction s as [|c s IH]; cbn [splitChar]; [discriminate|].
  destruct (c =? sep)%N; [discriminate|]. now destruct (splitChar sep s).
Qed.

Lemma splitChar_join (sep : char) (s : jsstring) :
  join [sep] (splitChar sep s) = s.
Proof.
  induction s as [|c s IH]; [reflexivity|]. cbn [splitChar].
  pose proof (splitChar_nonempty sep s) as Hne.
  destruct (c =? sep)%N eqn:E.
  - apply N.eqb_eq in E. subst c.
    destruct (splitChar sep s) as [|p ps]; [contradiction|].
    change (join [sep] ([] :: p :: ps))
      with ([] ++ [sep] ++ join [sep] (p :: ps)).
    now rewrite IH.
  - destruct (splitChar sep s) as [|p ps]; [contradiction|].
    cbn [addFirst]. rewrite <- IH. now destruct ps.
Qed.

Lemma splitChar_pieces (sep : char) (s : jsstring) :
  Forall (fun p => forallb (fun c => negb (c =? sep)%N) p = true)
         (splitChar sep s).
Proof.
  induction s as [|c s IH]; cbn [splitChar]; [now repeat constructor|].
  destruct (c =? sep)%N eqn:E; [now constructor|].
  destruct (splitChar sep s) as [|p ps]; cbn [addFirst].
  - repeat constructor. cbn. now rewrite E.
  - inversion IH; subst. constructor; [|assumption].
    cbn [app forallb]. now rewrite E.
Qed.

Lemma escape_pieces (s : jsstring) :
  [SQ] ++ flat_map escapeQuote s ++ [SQ]
  = join [BSL; SQ] (map (fun p => [SQ] ++ p ++ [SQ]) (splitChar SQ s)).
Proof.
  induction s as [|c s IH]; [reflexivity|].
  cbn [flat_map splitChar]. pose proof (splitChar_nonempty SQ s) as Hne.
  unfold escapeQuote at 1. destruct (c =? SQ)%N eqn:E.
  - apply N.eqb_eq in E. subst c.
    destruct (splitChar SQ s) as [|p ps]; [contradiction|].
    cbn [map]. cbn [map] in IH.
    change (join [BSL; SQ] (([SQ] ++ [] ++ [SQ]) :: ?x :: ?y))
      with (([SQ] ++ [] ++ [SQ]) ++ [BSL; SQ] ++ join [BSL; SQ] (x :: y)).
    rewrite <- IH. reflexivity.
  - destruct (splitChar SQ s) as [|p ps]; [contradiction|].
    cbn [addFirst map]. cbn [map] in IH.
    destruct ps as [|p' ps].
    + cbn [join] in *. cbn [app] in *. injection IH as IH. now rewrite IH.
    + change (join [BSL; SQ] (?x :: ?y :: ?z))
        with (x ++ [BSL; SQ] ++ join [BSL; SQ] (y :: z)) in *.
      cbn [app] in *. injection IH as IH. now rewrite IH.
Qed.

(** The escaped text is a row of single-quoted pieces without a quote
    inside, with a backslash and a quote between two pieces; the pieces
    are those of the text between its single quotes. *)
Theorem shellEscape_quoted_pieces (s : jsstring) :
  exists ps,
    ps <> []
    /\ join [SQ] ps = s
    /\ Forall (fun p => forallb (fun c => negb (c =? SQ)%N) p = true) ps
    /\ shellEscape s
       = join [BSL; SQ] (map (fun p => [SQ] ++ p ++ [SQ]) ps).
Proof.
  exists (splitChar SQ s). split; [apply splitChar_nonempty|].
  split; [apply splitChar_join|]. split; [apply splitChar_pieces|].
  rewrite shellEscape_chars. apply escape_pieces.
Qed.

Lemma escapeQuote_head (c : char) :
  exists t, escapeQuote c = c :: t.
Proof.
  unfold escapeQuote. destruct (c =? SQ)%N eqn:E.
  - apply N.eqb_eq in E. subst c. now eexists.
  - now eexists.
Qed.

Lemma flat_escape_injective (a : jsstring) :
  forall b, flat_map escapeQuote a = flat_map escapeQuote b -> a = b.
Proof.
  induction a as [|x a IH]; intros [|y b] H; cbn [flat_map] in H.
  - reflexivity.
  - destruct (escapeQuote_head y) as [t E]. rewrite E in H. discriminate.
  - destruct (escapeQuote_head x) as [t E]. rewrite E in H. discriminate.
  - destruct (escapeQuote_head x) as [t E], (escapeQuote_head y) as [u F].
    assert (x = y) by (rewrite E, F in H; now injection H). subst y.
    apply app_inv_head in H. now rewrite (IH b H).
Qed.

(** Two different texts are never escaped to the same text. *)
Theorem shellEscape_injective (a b : jsstring) :
  shellEscape a = shellEscape b -> a = b.
Proof.
  rewrite !shellEscape_chars. intros H. apply app_inv_head in H.
  apply app_inv_tail in H. now apply flat_escape_injective.
Qed.

Lemma shellEscape_injective_witness :
  shellEscape (str "it's") = shellEscape (str "it's")
  /\ str "it's" = str "it's".
Proof.
  split; [reflexivity|].
  apply (@shellEscape_injective (str "it's") (str "it's")). reflexivity.
Defined.

(** ** Which files are compiled *)

(** The result of a function that can throw: the value returned, or the
    message of the [Error] thrown. *)
Inductive outcome (A : Type) : Type :=
| Returned (a : A)
| Thrown (message : jsstring).
Arguments Returned {A} a.
Arguments Thrown {A} message.

(** What the compile functions read of a [TextDocument]. *)
Record textDocument : Type := TextDocument {
  languageId : jsstring;
  fileName : jsstring;
  fsPath : jsstring
}.

(** [Array.prototype.pop]: the last element, [undefined] on an empty
    array. *)
Fixpoint pop (l : list jsstring) : option jsstring :=
  match l with
  | [] => None
  | [x] => Some x
  | _ :: l' => pop l'
  end.

(** [fileName.split('.').pop()] *)
Definition fileExtension (name : jsstring) : option jsstring :=
  pop (splitChar 46 name).

(** [x !== 'vy'] for a value that is a string or [undefined]. *)
Definition isNot (x : option jsstring) (s : jsstring) : bool :=
  match x with
  | Some e => negb (jsstring_eqb e s)
  | None => true
  end.

Section CompileActiveFile.

Variable R : Type.
(** [compileVyper] on the paths of the options; of its result only the
    field [result] is kept. *)
Variable compileVyper : list jsstring -> outcome R.

(** [compileActiveFile]; [VYPER_ID] is [null] until [init] has run. *)
Definition compileActiveFile (VYPER_ID : option jsstring)
  (contractFile : option textDocument) : outcome R :=
  match contractFile with
  | None => Thrown (str "Not a vyper source file")
  | Some doc =>
      if isNot VYPER_ID (languageId doc)
      then Thrown (str "Not a vyper source file")
      else if isNot (fileExtension (fileName doc)) (str "vy")
      then Thrown (str "Skipping compilation for interface file")
      else compileVyper [fsPath doc]
  end.

End CompileActiveFile.

(** [onDidSave] of the extension: the document handed to the compile
    command, if any. *)
Definition onDidSave (onSave : bool) (LANGUAGE_ID : jsstring)
  (document : textDocument) : option textDocument :=
  if negb onSave then None
  else if negb (jsstring_eqb (languageId document) LANGUAGE_ID) then None
  else if isNot (fileExtension (fileName document)) (str "vy") then None
  else Some document.

(** The name is [vy] or ends with [.vy]. *)
Definition vyName (name : jsstring) : Prop :=
  name = str "vy" \/ exists stem, name = stem ++ str ".vy".

Lemma splitChar_app (sep : char) (a b : jsstring) :
  splitChar sep (a ++ sep :: b) = splitChar sep a ++ splitChar sep b.
Proof.
  induction a as [|x a IH]; cbn [app splitChar].
  - now rewrite N.eqb_refl.
  - rewrite IH. destruct (x =? sep)%N; [reflexivity|].
    pose proof (splitChar_nonempty sep a). now destruct (splitChar sep a).
Qed.

Lemma splitChar_none (sep : char) (e : jsstring) :
  forallb (fun c => negb (c =? sep)%N) e = true -> splitChar sep e = [e].
Proof.
  induction e as [|c e IH]; intros H; [reflexivity|].
  cbn [forallb] in H. apply andb_prop in H as [Hc He].
  apply negb_true_iff in Hc. cbn [splitChar]. now rewrite Hc, (IH He).
Qed.

Lemma pop_last (l : list jsstring) (x : jsstring) : pop (l ++ [x]) = Some x.
Proof.
  induction l as [|y l IH]; [reflexivity|].
  cbn [app pop]. rewrite IH. now destruct (l ++ [x]) eqn:E;
    [apply app_eq_nil in E as [_ E]|].
Qed.

(** The last piece of a text cut at [sep]: the text itself, or what
    follows its last [sep]. *)
Lemma pop_splitChar (sep : char) (s : jsstring) :
  exists e,
    pop (splitChar sep s) = Some e
    /\ forallb (fun c => negb (c =? sep)%N) e = true
    /\ (s = e \/ exists stem, s = stem ++ sep :: e).
Proof.
  induction s as [|c s [e [E1 [E2 E3]]]].
  - exists []. repeat split. now left.
  - cbn [splitChar]. pose proof (splitChar_nonempty sep s) as Hne.
    destruct (c =? sep)%N eqn:Ec.
    + apply N.eqb_eq in Ec. subst c. exists e.
      split; [|split; [exact E2|]].
      * cbn [pop]. now destruct (splitChar sep s).
      * right. destruct E3 as [->|[stem ->]].
        -- now exists [].
        -- now exists (sep :: stem).
    + destruct (splitChar sep s) as [|p ps] eqn:S; [contradiction|].
      cbn [addFirst]. destruct ps as [|p' ps].
      * cbn [pop] in *. injection E1 as <-.
        exists (c :: p). split; [reflexivity|]. split.
        -- cbn [forallb]. now rewrite Ec, E2.
        -- left. destruct E3 as [->|[stem E3]]; [reflexivity|].
           exfalso. pose proof (splitChar_app sep stem p) as A.
           rewrite <- E3, S in A.
           pose proof (splitChar_nonempty sep stem).
           pose proof (splitChar_nonempty sep p).
           destruct (splitChar sep stem) as [|? [|? ?]];
             destruct (splitChar sep p); try contradiction; discriminate.
      * exists e. split; [exact E1|]. split; [exact E2|]. right.
        destruct E3 as [->|[stem ->]].
        -- exfalso. rewrite (splitChar_none sep e E2) in S. discriminate.
        -- now exists (c :: stem).
Qed.

(** The extension test passes for the name [vy] and for the names that
    end with [.vy], and for no other name. *)
Lemma fileExtension_vy (name : jsstring) :
  isNot (fileExtension name) (str "vy") = false <-> vyName name.
Proof.
  unfold fileExtension, vyName, isNot. split.
  - destruct (pop_splitChar 46 name) as [e [E1 [E2 E3]]]. rewrite E1.
    intros H. apply negb_false_iff, jsstring_eqb_eq in H. subst e.
    destruct E3 as [->|[stem ->]]; [now left | right; now exists stem].
  - intros [->|[stem ->]]; [reflexivity|].
    change (str ".vy") with (46%N :: str "vy").
    rewrite splitChar_app, (splitChar_none 46 (str "vy") eq_refl).
    now rewrite pop_last.
Qed.

(** [compileActiveFile] reaches the compiler exactly for a document of
    the language the module was initialised with whose file name is [vy]
    or ends with [.vy]; before [init] every document is refused; and a
    document that [onDidSave] hands over passes these tests. *)
Theorem compileActiveFile_guard (R : Type)
  (compileVyper : list jsstring -> outcome R) (doc : textDocument) :
  (forall id,
     id <> Some (languageId doc) ->
     compileActiveFile compileVyper id (Some doc)
     = Thrown (str "Not a vyper source file"))
  /\ (~ vyName (fileName doc) ->
      compileActiveFile compileVyper (Some (languageId doc)) (Some doc)
      = Thrown (str "Skipping compilation for interface file"))
  /\ (vyName (fileName doc) ->
      compileActiveFile compileVyper (Some (languageId doc)) (Some doc)
      = compileVyper [fsPath doc])
  /\ (forall onSave id d,
        onDidSave onSave id doc = Some d ->
        d = doc
        /\ compileActiveFile compileVyper (Some id) (Some d)
           = compileVyper [fsPath doc]).
Proof.
  assert (Same : isNot (Some (languageId doc)) (languageId doc) = false).
  { cbn [isNot]. apply negb_false_iff. now apply jsstring_eqb_eq. }
  split; [|split; [|split]].
  - intros id Hid. unfold compileActiveFile.
    destruct id as [id|]; [|reflexivity]. cbn [isNot].
    destruct (jsstring_eqb id (languageId doc)) eqn:E; [|reflexivity].
    apply jsstring_eqb_eq in E. now subst id.
  - intros H. unfold compileActiveFile. rewrite Same.
    destruct (isNot (fileExtension (fileName doc)) (str "vy")) eqn:E;
      [reflexivity|].
    now apply fileExtension_vy in E.
  - intros H. unfold compileActiveFile. rewrite Same.
    apply fileExtension_vy in H. now rewrite H.
  - intros onSave id d. unfold onDidSave.
    destruct (negb onSave); [discriminate|].
    destruct (jsstring_eqb (languageId doc) id) eqn:E; [|discriminate].
    cbn [negb].
    destruct (isNot (fileExtension (fileName doc)) (str "vy")) eqn:F;
      [discriminate|].
    intros H. injection H as <-. split; [reflexivity|].
    apply jsstring_eqb_eq in E. subst id.
    unfold compileActiveFile. now rewrite Same, F.
Qed.

Lemma compileActiveFile_guard_witness :
  vyName (str "token.vy")
  /\ compileActiveFile (fun paths => Returned paths) (Some (str "vyper"))
       (Some (TextDocument (str "vyper") (str "token.vy") (str "/w/token.vy")))
     = Returned [str "/w/token.vy"].
Proof.
  assert (H : vyName (str "token.vy")) by (right; now exists (str "token")).
  split; [exact H|].
  exact (proj1 (proj2 (proj2 (@compileActiveFile_guard _
           (fun paths => Returned paths)
           (TextDocument (str "vyper") (str "token.vy") (str "/w/token.vy")))))
           H).
Defined.

(** ** Running the compiler *)

(** What [execAsync] rejects with: [error.stderr], a string or
    [undefined], and [error.message]. *)
Record execError : Type := ExecError {
  errStderr : option jsstring;
  errMessage : jsstring
}.

(** An object with string values: its properties in insertion order. *)
Definition object : Type := list (jsstring * jsstring).

(** [o[k] = v] *)
Fixpoint setProp (k v : jsstring) (o : object) : object :=
  match o with
  | [] => [(k, v)]
  | (k', v') :: o' =>
      if jsstring_eqb k k' then (k, v) :: o' else (k', v') :: setProp k v o'
  end.

(** [compiler.version && compiler.version.startsWith('0.4')
     ? ['annotated_ast'] : ['bytecode']] *)
Definition formatsFor (version : option jsstring) : list jsstring :=
  match version with
  | Some v =>
      if truthy version && prefixb (str "0.4") v
      then [str "annotated_ast"] else [str "bytecode"]
  | None => [str "bytecode"]
  end.

(** The [reduce] over the lines of the output: line [index] becomes the
    property named [formats[index]], when there is such a format. *)
Fixpoint collectOutputs (formats outputs : list jsstring) (index : nat)
  (contract : object) : object :=
  match outputs with
  | [] => contract
  | output :: rest =>
      collectOutputs formats rest (S index)
        (match nth_error formats index with
         | Some f => if truthy (Some f) then setProp f output contract
                     else contract
         | None => contract
         end)
  end.

(** [a || b] for strings, [a] possibly [undefined]. *)
Definition orElseString (a : option jsstring) (b : jsstring) : jsstring :=
  match a with
  | Some s => if truthy a then s else b
  | None => b
  end.

Section ExecVyper.

(** [process.platform] and [compiler.version] ([null] or a string). *)
Variable platform : jsstring.
Variable version : option jsstring.
Variable workspaceForFile : jsstring -> jsstring.
Variable getVyperCommand : jsstring -> jsstring.
(** [execAsync(command, { cwd })]: the standard output, or the error of
    the rejection. *)
Variable execAsync : jsstring -> option jsstring -> execError + jsstring.

Definition execVyper (sourcePath : jsstring) : outcome object :=
  let workspacePath := workspaceForFile sourcePath in
  let vyperCommand := getVyperCommand workspacePath in
  let formats := formatsFor version in
  let escaped :=
    if prefixb (str "win") platform
    then if includes [DQ] sourcePath
         then Thrown (str "Compilation of " ++ sourcePath
                      ++ str " failed. Invalid Filename (quotes).")
         else Returned ([DQ] ++ sourcePath ++ [DQ])
    else Returned (shellEscape sourcePath) in
  match escaped with
  | Thrown msg => Thrown msg
  | Returned escapedTarget =>
      let command :=
        vyperCommand ++ str " -f" ++ join (str ",") formats ++ str " "
        ++ escapedTarget in
      match execAsync command
              (if truthy (Some workspacePath) then Some workspacePath
               else None) with
      | inr stdout =>
          Returned (collectOutputs formats (split lineBreak stdout) 0 [])
      | inl error =>
          Thrown (orElseString (errStderr error) (errMessage error)
                  ++ [LF] ++ str "Compilation of " ++ sourcePath
                  ++ str " failed.")
      end
  end.

End ExecVyper.

Lemma collectOutputs_past (formats outputs : list jsstring) :
  forall index contract,
    length formats <= index ->
    collectOutputs formats outputs index contract = contract.
Proof.
  induction outputs as [|o rest IH]; intros index contract H; [reflexivity|].
  cbn [collectOutputs].
  rewrite (proj2 (nth_error_None formats index) H). apply IH. lia.
Qed.

(** When the compiler runs and succeeds, the object returned has one
    property: it is named after the format asked for, [annotated_ast] for
    a version that starts with [0.4] and [bytecode] otherwise, and its
    value is the first line of the standard output; the other lines are
    dropped. *)
Theorem execVyper_result (platform : jsstring) (version : option jsstring)
  (workspaceForFile getVyperCommand : jsstring -> jsstring)
  (execAsync : jsstring -> option jsstring -> execError + jsstring)
  (sourcePath : jsstring) (o : object) :
  execVyper platform version workspaceForFile getVyperCommand execAsync
    sourcePath = Returned o ->
  exists command cwd stdout,
    execAsync command cwd = inr stdout
    /\ o = [(match version with
             | Some v => if prefixb (str "0.4") v then str "annotated_ast"
                         else str "bytecode"
             | None => str "bytecode"
             end, firstLine stdout)].
Proof.
  unfold execVyper.
  destruct (if prefixb (str "win") platform then _ else _)
    as [escapedTarget|msg]; [|discriminate].
  match goal with
  | |- context [execAsync ?c ?w] =>
      destruct (execAsync c w) as [e|stdout] eqn:E; [discriminate|];
      intros H; injection H as <-; exists c, w, stdout
  end.
  split; [exact E|]. rewrite split_lines.
  pose proof (splitLines_first stdout) as F.
  destruct (splitLines stdout) as [|l ls]; [discriminate|].
  cbn [nth_error] in F. injection F as ->.
  assert (G : formatsFor version
              = [match version with
                 | Some v => if prefixb (str "0.4") v then str "annotated_ast"
                             else str "bytecode"
                 | None => str "bytecode"
                 end]).
  { unfold formatsFor. destruct version as [v|]; [|reflexivity].
    destruct v as [|c v]; [reflexivity|]. cbn [truthy andb].
    now destruct (prefixb (str "0.4") (c :: v)). }
  rewrite G. cbn [collectOutputs nth_error].
  rewrite collectOutputs_past by (cbn; lia).
  destruct version as [v|]; [|reflexivity].
  now destruct (prefixb (str "0.4") v).
Qed.

Lemma execVyper_result_witness :
  exists command cwd stdout,
    (fun (_ : jsstring) (_ : option jsstring) =>
       @inr execError jsstring (str "0x60" ++ [CR; LF] ++ str "warning"))
      command cwd = inr stdout
    /\ [(str "bytecode", str "0x60")]
       = [(match Some (str "0.3.10") with
           | Some v => if prefixb (str "0.4") v then str "annotated_ast"
                       else str "bytecode"
           | None => str "bytecode"
           end, firstLine stdout)].
Proof.
  apply (@execVyper_result (str "linux") (Some (str "0.3.10"))
           (fun _ => str "/w") (fun _ => str "vyper")
           (fun _ _ => inr (str "0x60" ++ [CR; LF] ++ str "warning"))
           (str "/w/a.vy")).
  reflexivity.
Defined.

(** ** From a failed compilation to the diagnostic *)

(** [String(e)] for an [Error] with the given message. *)
Definition errorToString (message : jsstring) : jsstring :=
  if isEmpty message then str "Error" else str "Error: " ++ message.

Definition noBreak (c : char) : bool := negb (c =? LF)%N && negb (c =? CR)%N.

Lemma splitLines_prefix (pre X : jsstring) :
  forallb noBreak pre = true ->
  splitLines (pre ++ X) = addFirst pre (splitLines X).
Proof.
  induction pre as [|c pre IH]; intros H.
  - cbn [app]. symmetry. apply addFirst_nil_lines.
  - cbn [forallb] in H. apply andb_prop in H as [Hc Hp].
    apply andb_prop in Hc as [C1 C2].
    apply negb_true_iff in C1. apply negb_true_iff in C2.
    cbn [app]. rewrite (@splitLines_cons_other c _ C1 C2), (IH Hp).
    apply addFirst_app.
Qed.

Lemma firstLine_cut (a b : jsstring) :
  firstLine (a ++ LF :: b) = firstLine (a ++ [LF]).
Proof.
  induction a as [|c a IH]; [reflexivity|].
  cbn [app firstLine]. rewrite IH.
  assert (E : headIs (N.eqb LF) (a ++ LF :: b)
              = headIs (N.eqb LF) (a ++ [LF])) by now destruct a.
  now rewrite E.
Qed.

Lemma firstLine_split (t : jsstring) :
  splitLines t = firstLine t :: tl (splitLines t).
Proof.
  pose proof (splitLines_first t) as F.
  destruct (splitLines t) as [|l ls]; [discriminate|].
  cbn [nth_error] in F. injection F as ->. reflexivity.
Qed.

(** The message of a failed run of the compiler, as the command handler
    parses it.  When the command that [execVyper] builds fails, the
    message thrown is what the compiler wrote on its standard error (the
    message of the error when that is empty or absent), a line feed and
    [Compilation of <path> failed.].  The first line of the text parsed is
    [Error: ] followed by the first line of what the compiler wrote; so a
    syntax-error line is recognised only from the second line on, and the
    message of the fallback case starts with [Error: ]. *)
Theorem compile_failure_diagnostic (platform : jsstring)
  (version : option jsstring)
  (workspaceForFile getVyperCommand : jsstring -> jsstring)
  (execAsync : jsstring -> option jsstring -> execError + jsstring)
  (sourcePath : jsstring) (stderr : option jsstring) (message : jsstring) :
  prefixb (str "win") platform = false ->
  execAsync
    (getVyperCommand (workspaceForFile sourcePath) ++ str " -f"
     ++ match version with
        | Some v => if prefixb (str "0.4") v then str "annotated_ast"
                    else str "bytecode"
        | None => str "bytecode"
        end
     ++ str " " ++ shellEscape sourcePath)
    match workspaceForFile sourcePath with
    | [] => None
    | c :: ws => Some (c :: ws)
    end
  = inl (ExecError stderr message) ->
  let e := match stderr with
           | Some (c :: s) => c :: s
           | _ => message
           end in
  let msg := e ++ [LF] ++ str "Compilation of " ++ sourcePath
             ++ str " failed." in
  execVyper platform version workspaceForFile getVyperCommand execAsync
    sourcePath = Thrown msg
  /\ firstLine (errorToString msg) = str "Error: " ++ firstLine (e ++ [LF])
  /\ (In syntaxErrorLine (splitLines (errorToString msg))
      <-> In syntaxErrorLine (tl (splitLines msg)))
  /\ (~ In syntaxErrorLine (tl (splitLines msg)) ->
      noSignature (errorToString msg) ->
      shortmsg (parseErrorMessage (errorToString msg))
      = Some (str "Error: " ++ firstLine (e ++ [LF]))).
Proof.
  intros Hp Hx e msg.
  set (rest := str "Compilation of " ++ sourcePath ++ str " failed.") in *.
  assert (X : execVyper platform version workspaceForFile getVyperCommand
                execAsync sourcePath = Thrown msg).
  { unfold execVyper. rewrite Hp.
    assert (F : join (str ",") (formatsFor version)
                = match version with
                  | Some v => if prefixb (str "0.4") v
                              then str "annotated_ast" else str "bytecode"
                  | None => str "bytecode"
                  end).
    { unfold formatsFor. destruct version as [v|]; [|reflexivity].
      destruct v as [|c v]; [reflexivity|]. cbn [truthy andb].
      now destruct (prefixb (str "0.4") (c :: v)). }
    rewrite F.
    assert (W : (if truthy (Some (workspaceForFile sourcePath))
                 then Some (workspaceForFile sourcePath) else None)
                = match workspaceForFile sourcePath with
                  | [] => None
                  | c :: ws => Some (c :: ws)
                  end).
    { now destruct (workspaceForFile sourcePath). }
    rewrite W, Hx. cbn [errStderr errMessage]. unfold msg, e, rest.
    do 2 f_equal. unfold orElseString. destruct stderr as [[|c s]|]; reflexivity. }
  split; [exact X|].
  assert (E : errorToString msg = str "Error: " ++ e ++ [LF] ++ rest).
  { unfold errorToString, msg. now destruct e. }
  assert (S : splitLines (errorToString msg)
              = (str "Error: " ++ firstLine (e ++ [LF]))
                :: tl (splitLines msg)).
  { rewrite E, (splitLines_prefix (str "Error: ")) by reflexivity.
    fold msg. rewrite (firstLine_split msg). cbn [addFirst tl].
    unfold msg. cbn [app]. now rewrite firstLine_cut. }
  assert (F : firstLine (errorToString msg)
              = str "Error: " ++ firstLine (e ++ [LF])).
  { pose proof (splitLines_first (errorToString msg)) as F.
    rewrite S in F. cbn [nth_error] in F. injection F as F. now symmetry. }
  assert (I : In syntaxErrorLine (splitLines (errorToString msg))
              <-> In syntaxErrorLine (tl (splitLines msg))).
  { rewrite S. split; [|now right]. intros [H|H]; [|exact H]. discriminate. }
  split; [exact F|]. split; [exact I|].
  intros Hs Hv. rewrite parseErrorMessage_spec. unfold extractSpec.
  destruct (existsb _ _) eqn:B.
  - apply existsb_eqb_In, I in B. contradiction.
  - apply noSignature_none in Hv. rewrite Hv. cbn [shortmsg]. f_equal.
    exact F.
Qed.

Lemma compile_failure_witness :
  execVyper (str "linux") None (fun _ => []) (fun _ => str "vyper")
    (fun _ _ => inl (ExecError (Some (str "SyntaxError: invalid syntax"))
                               (str "Command failed")))
    (str "/w/a.vy")
  = Thrown (str "SyntaxError: invalid syntax" ++ [LF]
            ++ str "Compilation of /w/a.vy failed.")
  /\ firstLine (errorToString
                  (str "SyntaxError: invalid syntax" ++ [LF]
                   ++ str "Compilation of /w/a.vy failed."))
     = str "Error: SyntaxError: invalid syntax".
Proof.
  pose proof (@compile_failure_diagnostic (str "linux") None
                (fun _ => []) (fun _ => str "vyper")
                (fun _ _ => inl (ExecError
                                   (Some (str "SyntaxError: invalid syntax"))
                                   (str "Command failed")))
                (str "/w/a.vy") (Some (str "SyntaxError: invalid syntax"))
                (str "Command failed") eq_refl eq_refl) as H.
  exact (conj (proj1 H) (proj1 (proj2 H))).
Defined.

(** ** The indentation rule of the extension *)

Definition blockKeywords : list string :=
  ["struct"; "enum"; "flag"; "event"; "interface"; "def"; "class"; "for";
   "if"; "elif"; "else"]%string.

(** The [beforeText] pattern of the [onEnterRules] without its anchors:
    white space, one of the keywords, any characters of the line, lazily,
    a colon, white space. *)
Definition onEnterBody : regex :=
  Seqs [Star (Cls isSpace);
        Alts (map (fun w => Lit (str w)) blockKeywords);
        LazyStar (Cls dot); Cls (N.eqb 58); Star (Cls isSpace)].

(** [$] without the [m] flag, where the pattern ends. *)
Definition atEnd : cont :=
  fun s => if isEmpty (after s) then Some s else None.

(** [beforeText.test(text)]: with [^] and no [m] flag only the start of
    the text can start a match. *)
Definition indentsAfter (text : jsstring) : bool :=
  match m onEnterBody atEnd (MState [] text None) with
  | Some _ => true
  | None => false
  end.

Lemma orElse_some (a b : option mstate) :
  orElse a b <> None <-> a <> None \/ b <> None.
Proof.
  destruct a as [x|]; cbn [orElse]; split; intros H.
  - left. discriminate.
  - discriminate.
  - now right.
  - now destruct H.
Qed.

(** Alternatives that are literal texts: one of them is found and the
    rest of the pattern matches behind it. *)
Lemma m_Alts_Lit_some (ws : list jsstring) (k : cont) (bef aft : jsstring)
  (c : option jsstring) :
  m (Alts (map Lit ws)) k (MState bef aft c) <> None
  <-> exists w,
        In w ws /\ prefixb w aft = true
        /\ k (MState (rev w ++ bef) (skipn (length w) aft) c) <> None.
Proof.
  induction ws as [|w ws IH].
  - cbn [map Alts]. rewrite m_Cls. split.
    + intros H. now destruct aft.
    + now intros [w [[] _]].
  - assert (One : m (Lit w) k (MState bef aft c) <> None
                  <-> prefixb w aft = true
                      /\ k (MState (rev w ++ bef) (skipn (length w) aft) c)
                         <> None).
    { rewrite m_Lit. destruct (prefixb w aft); split.
      - now split.
      - now intros [_ H].
      - intros H. now contradiction H.
      - now intros [H _]. }
    destruct ws as [|w' ws].
    + cbn [map Alts]. rewrite One. split.
      * intros [H1 H2]. exists w. now repeat split; [left|..].
      * intros [x [[<-|[]] [H1 H2]]]. now split.
    + change (Alts (map Lit (w :: w' :: ws)))
        with (Alt (Lit w) (Alts (map Lit (w' :: ws)))).
      cbn [m]. rewrite orElse_some, One, IH. split.
      * intros [[H1 H2]|[x [H0 [H1 H2]]]].
        -- exists w. now repeat split; [left|..].
        -- exists x. now repeat split; [right|..].
      * intros [x [[<-|H0] [H1 H2]]]; [left; now split|].
        right. exists x. now repeat split.
Qed.

(** A lazy run of characters of [p]: some stretch of such characters is
    taken and the rest of the pattern matches behind it. *)
Lemma m_lazy_cls_some (p : char -> bool) (k : cont) (aft : jsstring) :
  forall bef c,
    m (LazyStar (Cls p)) k (MState bef aft c) <> None
    <-> exists mid rest,
          aft = mid ++ rest /\ forallb p mid = true
          /\ k (MState (rev mid ++ bef) rest c) <> None.
Proof.
  induction aft as [|x aft IH]; intros bef c.
  - cbn [m after length starL]. split.
    + intros H. exists [], []. now repeat split.
    + intros [mid [rest [E [_ H]]]]. symmetry in E.
      apply app_eq_nil in E as [-> ->]. exact H.
  - cbn [m after length starL]. rewrite orElse_some.
    destruct (p x) eqn:Px.
    + unfold progressed. cbn [after length].
      rewrite (proj2 (Nat.ltb_lt _ _)) by lia.
      specialize (IH (x :: bef) c). cbn [m after] in IH. rewrite IH.
      split.
      * intros [H|[mid [rest [E [H1 H2]]]]].
        -- exists [], (x :: aft). now repeat split.
        -- exists (x :: mid), rest. rewrite E. cbn [forallb rev].
           rewrite Px, H1, <- app_assoc. now repeat split.
      * intros [mid [rest [E [H1 H2]]]]. destruct mid as [|y mid].
        -- left. cbn [app] in E. now rewrite E.
        -- right. cbn [app] in E. injection E as <- E.
           cbn [forallb] in H1. apply andb_prop in H1 as [_ H1].
           exists mid, rest. cbn [rev] in H2. rewrite <- app_assoc in H2.
           now repeat split.
    + split.
      * intros [H|H]; [|now contradiction H].
        exists [], (x :: aft). now repeat split.
      * intros [mid [rest [E [H1 H2]]]]. destruct mid as [|y mid].
        -- left. cbn [app] in E. now rewrite E.
        -- exfalso. cbn [app] in E. injection E as <- E.
           cbn [forallb] in H1. rewrite Px in H1. discriminate.
Qed.

Lemma starCls_end (w rest : jsstring) :
  forall bef c, starCls atEnd bef w rest c <> None <-> rest = [].
Proof.
  induction w as [|x w IH]; intros bef c; cbn [starCls].
  - unfold atEnd. cbn [after]. destruct rest; split; easy.
  - rewrite orElse_some, IH. unfold atEnd. cbn [after isEmpty].
    split; [intros [H|H]; [exact H | now contradiction H] | now left].
Qed.

(** White space up to the end of the text. *)
Lemma m_space_end (bef aft : jsstring) (c : option jsstring) :
  m (Star (Cls isSpace)) atEnd (MState bef aft c) <> None
  <-> forallb isSpace aft = true.
Proof.
  rewrite m_star_cls, starCls_end. rewrite <- dropWhile_nil_blank.
  unfold blank. destruct (dropWhile isSpace aft); split; easy.
Qed.

Definition afterKeyword : regex :=
  Seqs [LazyStar (Cls dot); Cls (N.eqb 58); Star (Cls isSpace)].

Definition fromKeyword : regex :=
  Seq (Alts (map Lit (map str blockKeywords))) afterKeyword.

Lemma onEnterBody_parts :
  onEnterBody = Seq (Star (Cls isSpace)) fromKeyword.
Proof. reflexivity. Qed.

Lemma keyword_after_space (b a : jsstring) (c : option jsstring) :
  headIs isSpace a = true -> m fromKeyword atEnd (MState b a c) = None.
Proof.
  intros H. apply m_first_none; [reflexivity|]. cbn [after].
  destruct a as [|x a]; [reflexivity|]. cbn [headIs] in *.
  cbn -[N.eqb isSpace].
  repeat match goal with
    | |- context [(?n =? x)%N] =>
        let E := fresh "E" in
        destruct (n =? x)%N eqn:E;
        [apply N.eqb_eq in E; subst x; discriminate|]
    end.
  reflexivity.
Qed.

Lemma afterKeyword_some (bef aft : jsstring) (c : option jsstring) :
  m afterKeyword atEnd (MState bef aft c) <> None
  <-> exists mid tail,
        aft = mid ++ 58%N :: tail
        /\ forallb dot mid = true /\ forallb isSpace tail = true.
Proof.
  unfold afterKeyword. cbn [Seqs]. rewrite m_Seq, m_lazy_cls_some. split.
  - intros [mid [rest [E [H1 H2]]]]. rewrite m_Seq, m_Cls in H2.
    destruct rest as [|x tail]; [now contradiction H2|].
    destruct (58 =? x)%N eqn:X; [|now contradiction H2].
    apply N.eqb_eq in X. subst x. apply m_space_end in H2.
    now exists mid, tail.
  - intros [mid [tail [E [H1 H2]]]]. exists mid, (58%N :: tail).
    split; [exact E|]. split; [exact H1|].
    rewrite m_Seq, m_Cls, N.eqb_refl. now apply m_space_end.
Qed.

(** The rule asks for more indentation exactly when the text before the
    cursor is, after its leading white space, one of the keywords, then
    any characters of the line, then a colon followed by white space
    only.  Nothing has to separate the keyword from what follows it. *)
Theorem indentsAfter_iff (text : jsstring) :
  indentsAfter text = true
  <-> exists kw mid tail,
        In kw (map str blockKeywords)
        /\ dropWhile isSpace text = kw ++ mid ++ 58%N :: tail
        /\ forallb dot mid = true /\ forallb isSpace tail = true.
Proof.
  assert (S : indentsAfter text = true
              <-> m onEnterBody atEnd (MState [] text None) <> None).
  { unfold indentsAfter. destruct (m onEnterBody atEnd _); split; easy. }
  rewrite S, onEnterBody_parts, m_Seq.
  rewrite m_star_cls_strict by (intros b a c'; apply keyword_after_space).
  unfold spanEnd, fromKeyword. rewrite m_Seq, m_Alts_Lit_some. split.
  - intros [kw [Hin [Hp H]]]. apply afterKeyword_some in H
      as [mid [tail [E [H1 H2]]]].
    exists kw, mid, tail. split; [exact Hin|]. split; [|now split].
    rewrite (prefixb_spec _ _ Hp) at 1. now rewrite E.
  - intros [kw [mid [tail [Hin [E [H1 H2]]]]]]. exists kw.
    split; [exact Hin|]. rewrite E. split; [apply prefixb_app|].
    rewrite skipn_app_exact. apply afterKeyword_some. now exists mid, tail.
Qed.

Lemma indentsAfter_witness :
  indentsAfter (str "  default: ") = true.
Proof.
  apply (proj2 (indentsAfter_iff (str "  default: "))).
  exists (str "def"), (str "ault"), [SP].
  split; [cbn; tauto|]. now repeat split.
Defined.

(** ** The cleaned text after restoration *)

(** The text is not empty and its last character is not white space. *)
Definition endsInk (w : jsstring) : Prop :=
  headIs (fun c => negb (isSpace c)) (rev w) = true.

(** A table entry that leaves a clean text clean: no line feed inside and
    no white space at the end. *)
Definition tidy (w : jsstring) : Prop := noLF w = true /\ endsInk w.

Lemma endsInk_app (a b : jsstring) : endsInk b -> endsInk (a ++ b).
Proof. apply headIs_rev_app. Qed.

Lemma endsInk_nonblank (w : jsstring) : endsInk w -> blank w = false.
Proof.
  unfold endsInk, blank. intros H.
  destruct (rev w) as [|c r] eqn:R; [discriminate|]. cbn [headIs] in H.
  apply (f_equal (@rev N)) in R. rewrite rev_involutive in R. subst w.
  cbn [rev]. rewrite forallb_app. cbn [forallb].
  apply negb_true_iff in H. rewrite H. apply andb_false_r.
Qed.

Lemma endsInk_noTrailing (w : jsstring) :
  endsInk w -> noTrailingSpace w = true.
Proof.
  unfold endsInk, noTrailingSpace. destruct (rev w) as [|c r]; [easy|].
  cbn [headIs]. now intros ->.
Qed.

Lemma noTrailing_endsInk (w : jsstring) :
  w <> [] -> noTrailingSpace w = true -> endsInk w.
Proof.
  unfold endsInk, noTrailingSpace. intros Hw H.
  destruct (rev w) as [|c r] eqn:R.
  - apply (f_equal (@rev N)) in R. rewrite rev_involutive in R.
    contradiction.
  - exact H.
Qed.

Lemma undefined_tidy : tidy (str "undefined").
Proof. now split. Qed.

Lemma restoreOne_tidy (ph : list jsstring) (ds : jsstring) :
  Forall tidy ph -> tidy (restoreOne ph [] (Some ds)).
Proof.
  intros H. unfold restoreOne.
  destruct (digitsValue ds <? N.of_nat (length ph))%N eqn:E;
    [|exact undefined_tidy].
  rewrite Forall_forall in H. apply H, nth_In.
  apply N.ltb_lt in E. lia.
Qed.

(** Restoring a text that ends with ink gives a text that ends with ink. *)
Lemma restore_endsInk (ph : list jsstring) (n : nat) :
  Forall tidy ph ->
  forall X, length X <= n -> endsInk X ->
  forall bef, endsInk (rewriteFrom (tokenAt ph) bef X 0).
Proof.
  intros Hph. induction n as [|n IH]; intros X Hn HX bef.
  - destruct X; [discriminate | simpl in Hn; lia].
  - destruct X as [|c X]; [discriminate|].
    destruct (tokenAt ph bef (c :: X)) as [[len rep]|] eqn:E.
    + destruct (tokenAt_exact _ _ _ E) as [ds [rest [E1 [-> [H1 [H2 ->]]]]]].
      set (tok := reserved ++ ds ++ str "__") in *.
      assert (Ht : tok <> []) by discriminate.
      rewrite E1 in *.
      rewrite (@rewriteFrom_fire _ bef tok rest _ Ht E).
      destruct rest as [|r0 rest].
      * rewrite restore_end, app_nil_r. now apply restoreOne_tidy.
      * apply endsInk_app. apply IH.
        -- assert (T : length tok <> 0).
           { intros Z. apply length_zero_iff_nil in Z. contradiction. }
           rewrite length_app in Hn. clearbody tok. clear - Hn T.
           cbn [length] in *. lia.
        -- unfold endsInk in *. rewrite rev_app_distr in HX.
           destruct (rev (r0 :: rest)) eqn:R; [|exact HX].
           apply (f_equal (@length N)) in R. rewrite length_rev in R.
           discriminate.
    + cbn [rewriteFrom]. rewrite E. destruct X as [|x X].
      * exact HX.
      * change (c :: rewriteFrom (tokenAt ph) (c :: bef) (x :: X) 0)
          with ([c] ++ rewriteFrom (tokenAt ph) (c :: bef) (x :: X) 0).
        apply endsInk_app. apply IH.
        -- simpl in Hn. simpl. lia.
        -- unfold endsInk in *. cbn [rev] in HX |- *.
           destruct (rev X ++ [x]) eqn:R; [|exact HX].
           now apply app_eq_nil in R as [_ R].
Qed.

Lemma restore_noLF (ph : list jsstring) (X : jsstring) :
  Forall tidy ph -> noLF X = true -> noLF (restore ph X) = true.
Proof.
  intros Hph HX. rewrite restore_rewrite. unfold rewrite, noLF.
  apply rewriteFrom_class; [|exact HX].
  intros bef aft len rep E.
  destruct (tokenAt_exact _ _ _ E) as [ds [rest [_ [_ [_ [_ ->]]]]]].
  apply (restoreOne_tidy ds Hph).
Qed.

Lemma restore_nil (ph : list jsstring) : restore ph [] = [].
Proof. now rewrite restore_rewrite. Qed.

(** Restoration works line by line. *)
Lemma restore_join (ph : list jsstring) (ls : list jsstring) :
  restore ph (join [LF] ls) = join [LF] (map (restore ph) ls).
Proof.
  induction ls as [|l ls IH]; [apply restore_nil|].
  destruct ls as [|l' ls]; [reflexivity|].
  change (join [LF] (l :: l' :: ls)) with (l ++ LF :: join [LF] (l' :: ls)).
  rewrite restore_space by reflexivity. rewrite IH. reflexivity.
Qed.

Lemma restore_line (ph : list jsstring) (l : jsstring) :
  Forall tidy ph ->
  noLF l = true -> noTrailingSpace l = true ->
  noLF (restore ph l) = true
  /\ noTrailingSpace (restore ph l) = true
  /\ blank (restore ph l) = blank l.
Proof.
  intros Hph H1 H2. split; [now apply restore_noLF|].
  destruct l as [|c l]; [rewrite restore_nil; now split|].
  assert (E : endsInk (restore ph (c :: l))).
  { rewrite restore_rewrite. unfold rewrite.
    apply (@restore_endsInk ph (length (c :: l)) Hph); [apply le_n|].
    now apply noTrailing_endsInk. }
  split; [now apply endsInk_noTrailing|].
  rewrite (endsInk_nonblank E). symmetry.
  now rewrite (noTrailing_blank _ H2).
Qed.

(** Restoring tidy entries keeps a clean text clean. *)
Lemma restore_clean (ph : list jsstring) (S : jsstring) :
  Forall tidy ph -> cleanText S -> cleanText (restore ph S).
Proof.
  intros Hph [ls [-> [H1 [H2 H3]]]].
  exists (map (restore ph) ls).
  assert (L : forall l, In l ls ->
                noLF (restore ph l) = true
                /\ noTrailingSpace (restore ph l) = true
                /\ blank (restore ph l) = blank l).
  { intros l Hl. rewrite Forall_forall in H1.
    destruct (H1 l Hl). now apply restore_line. }
  split.
  { rewrite restore_space by reflexivity.
    now rewrite restore_join, restore_nil. }
  split.
  { apply Forall_map, Forall_forall. intros l Hl.
    destruct (L l Hl) as [A [B _]]. now split. }
  split.
  - intros pre a b c post E.
    apply map_eq_app in E as [pre0 [r0 [E0 [_ E]]]].
    apply map_eq_cons in E as [a0 [r1 [E1 [Ea E]]]].
    apply map_eq_cons in E as [b0 [r2 [E2 [Eb E]]]].
    apply map_eq_cons in E as [c0 [post0 [E3 [Ec _]]]].
    subst. rewrite !(fun l Hl => proj2 (proj2 (L l Hl))).
    + now apply (H2 pre0 a0 b0 c0 post0).
    + apply in_or_app. right. right. right. now left.
    + apply in_or_app. right. right. now left.
    + apply in_or_app. right. now left.
  - intros ls' l E.
    apply map_eq_app in E as [ls0 [r0 [E0 [_ E]]]].
    apply map_eq_cons in E as [l0 [r1 [E1 [El E]]]].
    apply map_eq_nil in E. subst.
    assert (I : In l0 (ls0 ++ [l0])) by (apply in_or_app; right; now left).
    rewrite (proj2 (proj2 (L l0 I))).
    now apply (H3 ls0 l0).
Qed.

(** *** Numbers are tidy *)

Lemma numChar_ink (c : char) : numChar c = true -> isSpace c = false.
Proof.
  unfold numChar, numberPattern, isSpace, isHexU, isBinU, isDigitU, isDigit,
    oneOf, in_range.
  cbn -[N.eqb N.leb]. intros H.
  rewrite !orb_true_iff, !andb_true_iff, !N.eqb_eq, !N.leb_le in H.
  rewrite !orb_false_iff, !andb_false_iff, !N.eqb_neq, !N.leb_gt.
  lia.
Qed.

Lemma number_tidy (bef aft : jsstring) (s' : mstate) :
  matchAt numberPattern bef aft = Some s' ->
  tidy (firstn (length aft - length (after s')) aft).
Proof.
  intros H. destruct (number_match _ _ H) as [w [E [Hw [Hc _]]]].
  rewrite E at 1 2. rewrite length_app, Nat.add_sub, firstn_length_app.
  split.
  - apply (forallb_weaken numChar); [|exact Hc].
    intros c Hn. apply numChar_ink in Hn.
    destruct (c =? LF)%N eqn:L; [|reflexivity].
    apply N.eqb_eq in L. now subst c.
  - unfold endsInk. destruct (rev w) as [|c r] eqn:R.
    + apply (f_equal (@rev N)) in R. rewrite rev_involutive in R.
      contradiction.
    + cbn [headIs]. apply negb_true_iff, numChar_ink.
      apply (f_equal (@rev N)) in R. rewrite rev_involutive in R. subst w.
      cbn [rev] in Hc. rewrite forallb_app in Hc.
      apply andb_prop in Hc as [_ Hc]. cbn [forallb] in Hc.
      now apply andb_prop in Hc.
Qed.

(** Without quotes and [#] the table holds numbers only. *)
Lemma numbers_only_tidy (text : jsstring) :
  forallb (fun c => negb (startsLiteral c)) text = true ->
  Forall tidy (snd (maskAll text)).
Proof.
  intros H. unfold maskAll. rewrite (mask_strings_untouched _ [] H).
  unfold replaceWith.
  exact (@mask_entries numberPattern tidy number_tidy text [] 0 []
           (Forall_nil _)).
Qed.

Lemma formatBuiltin_stages (text : jsstring) :
  formatBuiltin text
  = restore (snd (maskAll text))
            (lineProcessing (spacing (fst (maskAll text)))).
Proof. unfold formatBuiltin. now destruct (maskAll text). Qed.

(** A comment keeps the spaces it ends with, and a string that spans
    lines keeps its blank lines. *)
Lemma comment_keeps_trailing_space :
  (exists pre post, formatBuiltin (str "#a ") = pre ++ SP :: LF :: post)
  /\ formatBuiltin ([SQ; SQ; SQ; LF; LF; LF; LF; SQ; SQ; SQ])
     = [SQ; SQ; SQ; LF; LF; LF; LF; SQ; SQ; SQ; LF].
Proof.
  split; [exists (str "#a"), [] |]; vm_compute; reflexivity.
Qed.

(** C5, as the code has it.  The text on which the placeholders are
    restored is clean: it has no more than two blank lines in a row, its
    last line is not blank, it ends with exactly one line feed and none of
    its lines ends with white space.  The output ends with exactly one
    line feed, and not with an empty line, for every input.  The output
    is clean whenever no string, comment or number of the table holds a
    line feed or ends with white space; that is so for every input without
    quotes and [#]. *)
Theorem line_cleanup_before_restoration :
  (forall text, cleanText (lineProcessing text))
  /\ (forall text,
        formatBuiltin text
        = restore (snd (maskAll text))
                  (lineProcessing (spacing (fst (maskAll text)))))
  /\ (forall text, exists body,
        formatBuiltin text = body ++ [LF]
        /\ headIs (N.eqb LF) (rev body) = false)
  /\ (forall text,
        Forall tidy (snd (maskAll text)) -> cleanText (formatBuiltin text))
  /\ (forall text,
        forallb (fun c => negb (startsLiteral c)) text = true ->
        cleanText (formatBuiltin text)).
Proof.
  split; [exact lineProcessing_clean|].
  split; [exact formatBuiltin_stages|].
  split; [exact formatBuiltin_ends|].
  assert (T : forall text, Forall tidy (snd (maskAll text)) ->
                           cleanText (formatBuiltin text)).
  { intros text H. rewrite formatBuiltin_stages.
    apply restore_clean; [exact H | apply lineProcessing_clean]. }
  split; [exact T|].
  intros text H. apply T. now apply numbers_only_tidy.
Qed.

Lemma line_cleanup_witness :
  forallb (fun c => negb (startsLiteral c)) (str "x  =1e-5 ") = true
  /\ cleanText (formatBuiltin (str "x  =1e-5 ")).
Proof.
  split; [reflexivity|].
  apply (proj2 (proj2 (proj2 (proj2 line_cleanup_before_restoration)))).
  reflexivity.
Defined.

(** ** The arithmetic rule in the output *)

(** The characters of which every always-binary operator has one. *)
Definition binaryMark (c : char) : bool := oneOf "=/%<>!" c.

Lemma prefixb_class (q : char -> bool) (w x : jsstring) :
  prefixb w x = true -> forallb q x = true -> forallb q w = true.
Proof.
  revert x. induction w as [|a w IH]; intros x H Hx; [reflexivity|].
  destruct x as [|b x]; [discriminate|]. cbn [prefixb] in H.
  apply andb_prop in H as [E H]. apply N.eqb_eq in E. subst b.
  cbn [forallb] in *. apply andb_prop in Hx as [Ha Hx].
  now rewrite Ha, (IH x H Hx).
Qed.

(** The always-binary rule does nothing where no [=], [/], [%], [<], [>]
    or [!] follows. *)
Lemma safeAt_needs_mark (bef aft : jsstring) :
  forallb (fun c => negb (binaryMark c)) aft = true -> safeAt bef aft = None.
Proof.
  intros H. unfold safeAt.
  destruct (padOpAt alwaysBinaryOps aft) as [p|] eqn:E; [|reflexivity].
  exfalso.
  assert (F : padOpAt alwaysBinaryOps aft <> None) by now rewrite E.
  apply padOpAt_fires in F as [op [Hin P]].
  pose proof (prefixb_class _ _ _ P (forallb_dropWhile _ _ _ H)) as Q.
  assert (A : forallb (fun w => negb (forallb
                         (fun c => negb (binaryMark c)) w))
                      (map str alwaysBinaryOps) = true) by reflexivity.
  rewrite forallb_forall in A. specialize (A op Hin).
  now rewrite Q in A.
Qed.

Lemma plain_no_mark (c : char) :
  plain c = true -> negb (binaryMark c) = true.
Proof.
  intros Hc. apply plain_not_operator in Hc.
  unfold binaryMark, isOperatorChar, oneOf in *.
  change (str "=/%<>+-*!") with [61; 47; 37; 60; 62; 43; 45; 42; 33]%N in Hc.
  change (str "=/%<>!") with [61; 47; 37; 60; 62; 33]%N.
  cbn [existsb] in *. apply negb_true_iff.
  rewrite !orb_false_iff in *. tauto.
Qed.

Lemma plain_no_comma (c : char) : plain c = true -> negb (c =? 44)%N = true.
Proof.
  intros Hc. unfold plain in Hc. apply negb_true_iff in Hc.
  apply orb_false_elim in Hc as [_ Hc]. now rewrite Hc.
Qed.

Lemma ambiguous_ops (op : jsstring) :
  In op (map str ambiguousOps) ->
  op <> []
  /\ forallb isOperatorChar op = true
  /\ forallb (fun c => negb (binaryMark c)) op = true
  /\ forallb (fun c => negb (c =? 44)%N) op = true
  /\ noLF op = true
  /\ forallb (fun c => negb (isSpace c)) op = true
  /\ forallb (fun c => negb (isOperandEnd c)) op = true.
Proof.
  intros [<-|[<-|[<-|[<-|[]]]]]; repeat split; discriminate.
Qed.

(** The scan copies a stretch at each place of which the rule does not
    fire, whatever it has seen before. *)
Lemma rewriteFrom_copy_seen (d : decision) (Y : jsstring) :
  forall a bef,
    (forall x c y, a = x ++ c :: y ->
                   d (rev x ++ bef) (c :: y ++ Y) = None) ->
    rewriteFrom d bef (a ++ Y) 0 = a ++ rewriteFrom d (rev a ++ bef) Y 0.
Proof.
  induction a as [|c a IH]; intros bef H; [reflexivity|].
  cbn [app rewriteFrom]. pose proof (H [] c a eq_refl) as H0.
  cbn [rev app] in H0. rewrite H0.
  rewrite IH.
  - cbn [rev]. now rewrite <- app_assoc.
  - intros x c' y E. specialize (H (c :: x) c' y).
    cbn [rev app] in H. rewrite <- app_assoc in H. apply H. now rewrite E.
Qed.

Lemma ambiguousAt_wordy (bef : jsstring) (c : char) (y : jsstring) :
  wordy c = true -> ambiguousAt bef (c :: y) = None.
Proof.
  intros H. unfold ambiguousAt. destruct (headIs isOperandEnd bef);
    [|reflexivity].
  now apply padOpAt_wordy.
Qed.

Lemma last_ink (p b : jsstring) :
  b <> [] -> forallb (fun c => negb (isSpace c)) b = true ->
  noTrailingSpace (p ++ b) = true.
Proof.
  intros Hb H. unfold noTrailingSpace. rewrite rev_app_distr.
  destruct (rev b) as [|z r] eqn:R.
  - apply (f_equal (@rev N)) in R. rewrite rev_involutive in R. now subst b.
  - cbn [app headIs].
    assert (Hz : In z b) by (apply in_rev; rewrite R; now left).
    rewrite forallb_forall in H. now rewrite (H z Hz).
Qed.

Lemma wordy_ink (l : jsstring) :
  forallb wordy l = true -> forallb (fun c => negb (isSpace c)) l = true.
Proof. apply forallb_impl. intros c H. now apply andb_prop in H. Qed.

(** An arithmetic operator after an operand, with any white space around
    it, comes out between two single spaces. *)
Lemma binary_operator_padded (op a b ws1 ws2 : jsstring) :
  In op (map str ambiguousOps) ->
  forallb wordy a = true -> headIs isOperandEnd (rev a) = true ->
  forallb wordy b = true -> b <> [] ->
  forallb isSpace ws1 = true -> forallb isSpace ws2 = true ->
  formatBuiltin (a ++ ws1 ++ op ++ ws2 ++ b)
  = a ++ [SP] ++ op ++ [SP] ++ b ++ [LF].
Proof.
  intros Hin Ha Hend Hb Hne H1 H2.
  destruct (@ambiguous_ops op Hin) as [Hop0 [Hop [Hm [Hc [Hl [Hi _]]]]]].
  rewrite formatBuiltin_unmasked.
  2:{ rewrite !forallb_app.
      rewrite (plain_unmasked _ (wordy_plain _ Ha)),
        (plain_unmasked _ (wordy_plain _ Hb)),
        (space_unmasked _ H1), (space_unmasked _ H2),
        (operator_unmasked _ Hop). reflexivity. }
  unfold spacing. rewrite normalizeTabs_expand.
  rewrite !flat_map_app.
  rewrite (wordy_no_tab _ Ha), (wordy_no_tab _ Hb).
  rewrite (@no_tab_when isOperatorChar op eq_refl Hop).
  set (u1 := flat_map expandTab ws1). set (u2 := flat_map expandTab ws2).
  assert (U1 : forallb isSpace u1 = true) by now apply expandTab_blank.
  assert (U2 : forallb isSpace u2 = true) by now apply expandTab_blank.
  rewrite padSafe_rewrite. unfold rewrite at 1.
  rewrite (rewriteFrom_untouched safeAt (fun c => negb (binaryMark c))
             safeAt_needs_mark).
  2:{ rewrite !forallb_app.
      rewrite (@wordy_class _ a plain_no_mark Ha),
        (@wordy_class _ b plain_no_mark Hb),
        (@blank_class _ u1 plain_no_mark U1),
        (@blank_class _ u2 plain_no_mark U2), Hm. reflexivity. }
  rewrite padAmbiguous_rewrite.
  replace (a ++ u1 ++ op ++ u2 ++ b) with (a ++ (u1 ++ op ++ u2) ++ b)
    by (now rewrite <- !app_assoc).
  rewrite (@rewriteFrom_once ambiguousAt a (u1 ++ op ++ u2) b (padded op)
             ambiguousAt_sepLocal).
  - rewrite spaceCommas_rewrite. unfold rewrite at 1.
    rewrite (rewriteFrom_untouched commaAt (fun c => negb (c =? 44)%N)).
    2:{ intros bef aft Haft. now apply commaAt_none. }
    2:{ unfold padded. rewrite !forallb_app.
        rewrite (@wordy_class _ a plain_no_comma Ha),
          (@wordy_class _ b plain_no_comma Hb), Hc. reflexivity. }
    unfold padded.
    replace (a ++ [SP] ++ op ++ [SP] ++ b ++ [LF])
      with ((a ++ ([SP] ++ op ++ [SP])) ++ b ++ [LF])
      by (now rewrite <- !app_assoc).
    rewrite (app_assoc a), (app_assoc _ b [LF]).
    apply lineProcessing_single.
    + intros E. apply app_eq_nil in E as [_ E]. contradiction.
    + unfold noLF in *. rewrite !forallb_app.
      pose proof (wordy_noLF _ Ha) as La. pose proof (wordy_noLF _ Hb) as Lb.
      unfold noLF in La, Lb. now rewrite La, Lb, Hl.
    + now apply wordy_ends.
  - intros E. apply app_eq_nil in E as [_ E].
    now apply app_eq_nil in E as [E _].
  - intros bef x c y E. apply ambiguousAt_wordy.
    exact (in_wordy _ _ _ Ha E).
  - unfold ambiguousAt. rewrite Hend. now apply padOpAt_at.
  - intros bef x c y E. apply ambiguousAt_wordy.
    exact (in_wordy _ _ _ Hb E).
Qed.

(** An arithmetic operator that does not follow an operand stays as it
    is. *)
Lemma unary_operator_kept (op a b : jsstring) :
  In op (map str ambiguousOps) ->
  forallb wordy a = true -> headIs isOperandEnd (rev a) = false ->
  forallb wordy b = true ->
  formatBuiltin (a ++ op ++ b) = a ++ op ++ b ++ [LF].
Proof.
  intros Hin Ha Hend Hb.
  destruct (@ambiguous_ops op Hin) as [Hop0 [Hop [Hm [Hc [Hl [Hi Ho]]]]]].
  rewrite formatBuiltin_unmasked.
  2:{ rewrite !forallb_app.
      rewrite (plain_unmasked _ (wordy_plain _ Ha)),
        (plain_unmasked _ (wordy_plain _ Hb)),
        (operator_unmasked _ Hop). reflexivity. }
  unfold spacing. rewrite normalizeTabs_expand.
  rewrite !flat_map_app.
  rewrite (wordy_no_tab _ Ha), (wordy_no_tab _ Hb).
  rewrite (@no_tab_when isOperatorChar op eq_refl Hop).
  rewrite padSafe_rewrite. unfold rewrite at 1.
  rewrite (rewriteFrom_untouched safeAt (fun c => negb (binaryMark c))
             safeAt_needs_mark).
  2:{ rewrite !forallb_app.
      now rewrite (@wordy_class _ a plain_no_mark Ha),
        (@wordy_class _ b plain_no_mark Hb), Hm. }
  rewrite padAmbiguous_rewrite. unfold rewrite at 1.
  assert (A : rewriteFrom ambiguousAt [] (a ++ op ++ b) 0 = a ++ op ++ b).
  { rewrite (@rewriteFrom_copy_seen ambiguousAt (op ++ b) a []).
    2:{ intros x c y E. apply ambiguousAt_wordy.
        exact (in_wordy _ _ _ Ha E). }
    f_equal. rewrite app_nil_r.
    assert (B : forall bef, rewriteFrom ambiguousAt bef b 0 = b).
    { intros bef. rewrite <- (app_nil_r b) at 1.
      rewrite (@rewriteFrom_copy_seen ambiguousAt [] b bef).
      - now rewrite (sep_end ambiguousAt_sepLocal), app_nil_r.
      - intros x c y E. apply ambiguousAt_wordy.
        exact (in_wordy _ _ _ Hb E). }
    rewrite (@rewriteFrom_copy_seen ambiguousAt b op (rev a)).
    - now rewrite B.
    - intros x c y E. unfold ambiguousAt.
      assert (N : headIs isOperandEnd (rev x ++ rev a) = false).
      { destruct (rev x) as [|z r] eqn:R; [exact Hend|]. cbn [app headIs].
        assert (Hz : In z op).
        { rewrite E. apply in_or_app. left. apply in_rev. rewrite R.
          now left. }
        rewrite forallb_forall in Ho. specialize (Ho z Hz).
        now apply negb_true_iff in Ho. }
      now rewrite N. }
  rewrite A.
  rewrite spaceCommas_rewrite. unfold rewrite at 1.
  rewrite (rewriteFrom_untouched commaAt (fun c => negb (c =? 44)%N)).
  2:{ intros bef aft Haft. now apply commaAt_none. }
  2:{ rewrite !forallb_app.
      now rewrite (@wordy_class _ a plain_no_comma Ha),
        (@wordy_class _ b plain_no_comma Hb), Hc. }
  rewrite !app_assoc. apply lineProcessing_single.
  - intros E. apply app_eq_nil in E as [E _].
    now apply app_eq_nil in E as [_ E].
  - unfold noLF in *. rewrite !forallb_app.
    pose proof (wordy_noLF _ Ha) as La. pose proof (wordy_noLF _ Hb) as Lb.
    unfold noLF in La, Lb. now rewrite La, Lb, Hl.
  - rewrite <- app_assoc. apply last_ink.
    + intros E. now apply app_eq_nil in E as [E _].
    + now rewrite forallb_app, Hi, (wordy_ink _ Hb).
Qed.

(** At the end of a line, and before a comma, the space after the operator
    is taken away again. *)
Lemma arithmetic_operator_at_line_end :
  formatBuiltin (str "a-") = str "a -" ++ [LF]
  /\ formatBuiltin (str "f(a-,b)") = str "f(a -, b)" ++ [LF].
Proof. split; vm_compute; reflexivity. Qed.

(** C4, as the code has it.  The rule for [+], [-], [*] and [**] is
    exactly the scan that, at each position, pads the operator found after
    optional spaces with one space on each side when and only when the
    character before those spaces is a word character, [)] or []] ([**] is
    tried before [*]).  In the output an operator between an operand and a
    text that follows comes out between two single spaces, whatever white
    space was around it, and an operator that follows no operand stays as
    it is; [-1] is left as it is and [a-1] becomes [a - 1]. *)
Theorem ambiguous_operator_padding :
  (forall text, padAmbiguous text = rewrite ambiguousAt text)
  /\ (forall bef aft,
        ambiguousAt bef aft <> None <->
        headIs isOperandEnd bef = true
        /\ exists op, In op (map str ambiguousOps)
                      /\ prefixb op (dropWhile isSpace aft) = true)
  /\ (forall bef aft len rep,
        ambiguousAt bef aft = Some (len, rep) ->
        exists op,
          find (fun w => prefixb w (dropWhile isSpace aft))
               (map str ambiguousOps) = Some op
          /\ rep = [SP] ++ op ++ [SP]
          /\ firstn len aft =
             takeWhile isSpace aft ++ op
             ++ takeWhile isSpace (skipn (length op) (dropWhile isSpace aft)))
  /\ longestFirst (map str ambiguousOps) = true
  /\ (forall op a b ws1 ws2,
        In op (map str ambiguousOps) ->
        forallb wordy a = true -> headIs isOperandEnd (rev a) = true ->
        forallb wordy b = true -> b <> [] ->
        forallb isSpace ws1 = true -> forallb isSpace ws2 = true ->
        formatBuiltin (a ++ ws1 ++ op ++ ws2 ++ b)
        = a ++ [SP] ++ op ++ [SP] ++ b ++ [LF])
  /\ (forall op a b,
        In op (map str ambiguousOps) ->
        forallb wordy a = true -> headIs isOperandEnd (rev a) = false ->
        forallb wordy b = true ->
        formatBuiltin (a ++ op ++ b) = a ++ op ++ b ++ [LF])
  /\ formatBuiltin (str "-1") = str "-1" ++ [LF]
  /\ formatBuiltin (str "a-1") = str "a - 1" ++ [LF]
  /\ formatBuiltin (str "2**-1") = str "2 ** -1" ++ [LF]
  /\ formatBuiltin (str "'a'*2") = str "'a' * 2" ++ [LF].
Proof.
  split; [exact padAmbiguous_rewrite|].
  split.
  { intros bef aft. unfold ambiguousAt.
    destruct (headIs isOperandEnd bef).
    - rewrite padOpAt_fires. tauto.
    - split; [congruence | intros [H _]; discriminate]. }
  split.
  { intros bef aft len rep. unfold ambiguousAt.
    destruct (headIs isOperandEnd bef); [|discriminate].
    intros H. apply padOpAt_result in H as [op [H1 [H2 [H3 _]]]].
    now exists op. }
  split; [reflexivity|].
  split; [exact binary_operator_padded|].
  split; [exact unary_operator_kept|].
  repeat split; vm_compute; reflexivity.
Qed.

Lemma ambiguous_operator_witness :
  formatBuiltin (str "(n)" ++ [LF; SP; SP] ++ str "**" ++ [TAB] ++ str "k")
  = str "(n) ** k" ++ [LF].
Proof.
  apply (proj1 (proj2 (proj2 (proj2 (proj2 ambiguous_operator_padding))))
           (str "**") (str "(n)") (str "k") [LF; SP; SP] [TAB]);
    try reflexivity; [|discriminate].
  now left.
Defined.
